(** * regex-compiler: parser, Thompson NFA, subset construction, minimizer

    A shallow embedding of [RegexCompiler.py], [NFA.py] and [DFA.py] and the
    properties of their specification.

    Modelling conventions.
    - A Python [str] is a [string]; a Python character (a [str] of length 1)
      is an [ascii], so the characters of the model are the code points
      0..255.  [ord] is [nat_of_ascii].
    - A Python [dict] is an association list in insertion order (the order
      [dict.items()] iterates in).
    - A Python [set] is a duplicate-free list in insertion order: [add]
      appends an element that is not yet present, [|=] appends the new
      elements of its right operand in that operand's order, and iteration
      follows the list.  The language leaves the iteration order of a set
      unspecified; insertion order is the order PyPy implements, and the order
      CPython falls back to whenever the hashes of the members collide.  Every
      statement below that depends on this order says so.
    - Objects that the code mutates and shares (the [State] objects of an
      automaton) live in a list, the store, and are referred to by position.
    - [raise] and the run-time errors of Python ([KeyError], [IndexError],
      ...) are the [Raise] results of an error monad; [while] loops take
      fuel, and [OutOfFuel] is a result of its own, never an answer. *)

From Stdlib Require Import String Ascii List Arith Lia Bool DecimalString DecimalNat.
Import ListNotations.
Open Scope string_scope.
Open Scope list_scope.
Set Warnings "-register-all".

(** ** Exceptions and results *)

Inductive Exception : Type :=
| Expected (what : ascii) (position : nat)
| Unexpected (what : option ascii) (position : nat)
| UnexpectedEnd (position : nat)
| ExpectedStartEnd (position : nat)
| KeyError
| IndexError
| ValueError
| TypeError
| AttributeError.

Inductive result (A : Type) : Type :=
| Ok (a : A)
| Raise (e : Exception)
| OutOfFuel.

Arguments Ok {A} a.
Arguments Raise {A} e.
Arguments OutOfFuel {A}.

Definition bind {A B : Type} (r : result A) (k : A -> result B) : result B :=
  match r with
  | Ok a => k a
  | Raise e => Raise e
  | OutOfFuel => OutOfFuel
  end.

Notation "x <- r ;; k" := (bind r (fun x => k))
  (at level 61, r at next level, right associativity).
Notation "' p <- r ;; k" := (bind r (fun p => k))
  (at level 61, p pattern, r at next level, right associativity).

Definition is_ok {A : Type} (r : result A) : bool :=
  match r with Ok _ => true | _ => false end.

(** ** Python containers *)

Section Containers.
Context {K V : Type} (eqk : K -> K -> bool).

(** [d.get(k)] *)
Fixpoint dict_get (k : K) (d : list (K * V)) : option V :=
  match d with
  | [] => None
  | (k', v) :: d' => if eqk k k' then Some v else dict_get k d'
  end.

(** [d[k] = v] *)
Fixpoint dict_set (k : K) (v : V) (d : list (K * V)) : list (K * V) :=
  match d with
  | [] => [(k, v)]
  | (k', v') :: d' => if eqk k k' then (k', v) :: d' else (k', v') :: dict_set k v d'
  end.

(** [x in s] *)
Definition mem (x : K) (s : list K) : bool := existsb (eqk x) s.

(** [s.add(x)] *)
Definition set_add (x : K) (s : list K) : list K :=
  if mem x s then s else s ++ [x].

(** [s |= t] *)
Definition set_union (s t : list K) : list K :=
  fold_left (fun acc x => set_add x acc) t s.

(** [s.remove(x)] on a set known to hold [x] at most once *)
Definition set_remove (x : K) (s : list K) : list K :=
  filter (fun y => negb (eqk x y)) s.

End Containers.

Definition option_eqb {A : Type} (eqa : A -> A -> bool) (x y : option A) : bool :=
  match x, y with
  | Some a, Some b => eqa a b
  | None, None => true
  | _, _ => false
  end.

(** [l[i].append(x)] *)
Fixpoint append_at {A : Type} (i : nat) (x : A) (l : list (list A)) : list (list A) :=
  match l, i with
  | [], _ => []
  | a :: l', O => (a ++ [x]) :: l'
  | a :: l', S i' => a :: append_at i' x l'
  end.

(** [l[i] = x] for [i] in range *)
Fixpoint list_set {A : Type} (i : nat) (x : A) (l : list A) : list A :=
  match l, i with
  | [], _ => []
  | _ :: l', O => x :: l'
  | a :: l', S i' => a :: list_set i' x l'
  end.

(** The one-character [str] holding [c]. *)
Definition str1 (c : ascii) : string := String c EmptyString.

(** ** RegexCompiler.py *)

Module RegexCompiler_py.

Inductive NodeType : Type :=
| Root | Char | Group | CharacterSet | Range | Any | UNKNOWN.

(** Values held by [ExprNode.params]: the quantifier character, or a range
    bound (an [ord]). *)
Inductive ParamValue : Type :=
| PStr (s : string)
| PInt (n : nat).

Inductive ExprNode : Type :=
| mkExprNode (type : NodeType) (value : option string)
             (params : list (string * ParamValue))
             (children : list (list ExprNode)).

Definition type (n : ExprNode) : NodeType :=
  match n with mkExprNode t _ _ _ => t end.
Definition value (n : ExprNode) : option string :=
  match n with mkExprNode _ v _ _ => v end.
Definition params (n : ExprNode) : list (string * ParamValue) :=
  match n with mkExprNode _ _ p _ => p end.
Definition children (n : ExprNode) : list (list ExprNode) :=
  match n with mkExprNode _ _ _ c => c end.

Definition set_type (t : NodeType) (n : ExprNode) : ExprNode :=
  match n with mkExprNode _ v p c => mkExprNode t v p c end.
Definition set_param (k : string) (x : ParamValue) (n : ExprNode) : ExprNode :=
  match n with mkExprNode t v p c => mkExprNode t v (dict_set String.eqb k x p) c end.

Definition PARAM_ONE_OR_ZERO : ascii := "?".
Definition PARAM_ONE_OR_MORE : ascii := "+".
Definition PARAM_ANY_OR_MORE : ascii := "*".
Definition PARAM_RANGE_START : string := "start".
Definition PARAM_RANGE_END : string := "end".

Definition QUANTIFIES : list ascii := ["?"; "+"; "*"]%char.
Definition SPECIAL_CHARS : list ascii := ["("; ")"; "["; "|"; "?"; "+"; "*"]%char.

(** Outcome of one iteration of a [while] loop: go round again with a new
    loop state, or [break]. *)
Inductive Step (S : Type) : Type :=
| Continue (s : S)
| Break.

Arguments Continue {S} s.
Arguments Break {S}.

(** The parser state is the cursor [_position]; [expr_str] never changes.
    [_parse(t)] is called with a constant [t] everywhere and only
    dispatches, so each call is modelled by the parser it dispatches to. *)
Section Parser.
Variable expr_str : string.

(** [_eat]: every call site passes [None] or a [str] of length one. *)
Definition _eat (position : nat) (char : option ascii) : bool * nat :=
  if Nat.leb (String.length expr_str) position then (false, position)
  else match char with
       | None => (true, S position)
       | Some c =>
           match String.get position expr_str with
           | Some d => if Ascii.eqb d c then (true, S position) else (false, position)
           | None => (false, position)
           end
       end.

Definition _peak (position offset : nat) : option ascii :=
  if Nat.leb (String.length expr_str) (position + offset) then None
  else String.get (position + offset) expr_str.

Definition _done (position : nat) : bool :=
  Nat.leb (String.length expr_str) position.

Definition peak_is (position : nat) (c : ascii) : bool :=
  option_eqb Ascii.eqb (_peak position 0) (Some c).

(** [_assignQuantifier]: the node was appended to its parent before this
    call; the parent holds the same object, so the quantifier set here is
    the one the tree ends up with. *)
Definition _assignQuantifier (node : ExprNode) (position : nat) : ExprNode * nat :=
  let (q1, p1) := _eat position (Some PARAM_ONE_OR_ZERO) in
  if q1 then (set_param "quantifier" (PStr (str1 PARAM_ONE_OR_ZERO)) node, p1)
  else
    let (q2, p2) := _eat p1 (Some PARAM_ONE_OR_MORE) in
    if q2 then (set_param "quantifier" (PStr (str1 PARAM_ONE_OR_MORE)) node, p2)
    else
      let (q3, p3) := _eat p2 (Some PARAM_ANY_OR_MORE) in
      if q3 then (set_param "quantifier" (PStr (str1 PARAM_ANY_OR_MORE)) node, p3)
      else (node, p3).

Definition _parseChar (position : nat) : ExprNode * nat :=
  let top := _peak position 0 in
  let (_, p1) := _eat position top in
  (mkExprNode Char (option_map str1 top) [] [], p1).

Definition _parseAny (position : nat) : ExprNode * nat :=
  let (_, p1) := _eat position (Some "."%char) in
  (mkExprNode Any None [] [], p1).

(** [_parseRange] returns [None] (no range here), a Range node, or raises. *)
Definition _parseRange (position : nat) : result (option ExprNode * nat) :=
  if option_eqb Ascii.eqb (_peak position 1) (Some "-"%char)
     && negb (option_eqb Ascii.eqb (_peak position 2) None)
  then
    let start := _peak position 0 in
    let end_ := _peak position 2 in
    let (_, p1) := _eat position None in
    let (_, p2) := _eat p1 None in
    let (_, p3) := _eat p2 None in
    match start, end_ with
    | Some s, Some e =>
        if Nat.ltb (nat_of_ascii e) (nat_of_ascii s) then Raise (ExpectedStartEnd p3)
        else Ok (Some (mkExprNode Range None
                         [(PARAM_RANGE_START, PInt (nat_of_ascii s));
                          (PARAM_RANGE_END, PInt (nat_of_ascii e))] []), p3)
    | _, _ => Raise TypeError
    end
  else Ok (None, position).

(** A set item: [_parse(Range)], and [_parse(Char)] when that gave [None].
    [_parseChar] always returns a node, so the [node is None] test after it
    never fires. *)
Definition set_item (children : list (list ExprNode)) (position : nat)
  : result (list (list ExprNode) * nat) :=
  '(r, p1) <- _parseRange position ;;
  match r with
  | Some node => Ok (children ++ [[node]], p1)
  | None => let (node, p2) := _parseChar p1 in Ok (children ++ [[node]], p2)
  end.

(** Body of the [while] loop of [_parseSet]; the loop state is
    [(children, next_escape, position)]. *)
Definition set_body (children : list (list ExprNode)) (next_escape : bool) (position : nat)
  : result (Step (list (list ExprNode) * bool * nat)) :=
  match _peak position 0 with
  | None => Raise (UnexpectedEnd position)
  | Some c =>
      if Ascii.eqb c "\"%char then
        let (_, p1) := _eat position None in
        Ok (Continue (children, true, p1))
      else if next_escape then
        '(ch, p1) <- set_item children position ;;
        Ok (Continue (ch, false, p1))
      else if Ascii.eqb c "]"%char then Ok Break
      else
        '(ch, p1) <- set_item children position ;;
        Ok (Continue (ch, false, p1))
  end.

Fixpoint set_loop (fuel : nat) (children : list (list ExprNode)) (next_escape : bool)
  (position : nat) : result (list (list ExprNode) * nat) :=
  match fuel with
  | O => OutOfFuel
  | S fuel' =>
      if _done position then Ok (children, position)
      else
        st <- set_body children next_escape position ;;
        match st with
        | Continue (ch, esc, p1) => set_loop fuel' ch esc p1
        | Break => Ok (children, position)
        end
  end.

Definition _parseSet (fuel : nat) (position : nat) : result (ExprNode * nat) :=
  '(ch, p1) <- set_loop fuel [] false position ;;
  Ok (mkExprNode CharacterSet None [] ch, p1).

(** Body of the [while] loop of [_parseGroup]; the loop state is
    [(children, curr_or, position)].  [parse_group] and [parse_set] are the
    recursive calls [_parse(Group)] and [_parse(CharacterSet)]. *)
Definition group_body
  (parse_group : nat -> result (ExprNode * nat))
  (parse_set : nat -> result (ExprNode * nat))
  (is_root : bool) (children : list (list ExprNode)) (curr_or : nat) (position : nat)
  : result (Step (list (list ExprNode) * nat * nat)) :=
  let (open_group, p1) := _eat position (Some "("%char) in
  if open_group then
    '(node, p2) <- parse_group p1 ;;
    let (closed, p3) := _eat p2 (Some ")"%char) in
    if negb closed then Raise (Expected ")" p3)
    else
      let (node', p4) := _assignQuantifier node p3 in
      Ok (Continue (append_at curr_or node' children, curr_or, p4))
  else if peak_is p1 ")" then
    if is_root then Raise (Unexpected (_peak p1 0) p1) else Ok Break
  else
    let (open_set, p2) := _eat p1 (Some "["%char) in
    if open_set then
      '(node, p3) <- parse_set p2 ;;
      let (closed, p4) := _eat p3 (Some "]"%char) in
      if negb closed then Raise (Expected "]" p4)
      else
        let (node', p5) := _assignQuantifier node p4 in
        Ok (Continue (append_at curr_or node' children, curr_or, p5))
    else if peak_is p2 "\" then
      let (_, p3) := _eat p2 None in
      let (node, p4) := _parseChar p3 in
      let (node', p5) := _assignQuantifier node p4 in
      Ok (Continue (append_at curr_or node' children, curr_or, p5))
    else if peak_is p2 "." then
      let (node, p3) := _parseAny p2 in
      let (node', p4) := _assignQuantifier node p3 in
      Ok (Continue (append_at curr_or node' children, curr_or, p4))
    else if peak_is p2 "|" then
      let (_, p3) := _eat p2 (Some "|"%char) in
      Ok (Continue (children ++ [[]], curr_or + 1, p3))
    else if negb (existsb (fun c => option_eqb Ascii.eqb (_peak p2 0) (Some c)) SPECIAL_CHARS)
    then
      let (node, p3) := _parseChar p2 in
      let (node', p4) := _assignQuantifier node p3 in
      Ok (Continue (append_at curr_or node' children, curr_or, p4))
    else Raise (Unexpected (_peak p2 0) p2).

Fixpoint group_loop (fuel : nat) (is_root : bool) (children : list (list ExprNode))
  (curr_or : nat) (position : nat) : result (list (list ExprNode) * nat) :=
  match fuel with
  | O => OutOfFuel
  | S fuel' =>
      if _done position then Ok (children, position)
      else
        st <- group_body
                (fun p => '(ch, p') <- group_loop fuel' false [[]] 0 p ;;
                          Ok (mkExprNode Group None [] ch, p'))
                (_parseSet fuel')
                is_root children curr_or position ;;
        match st with
        | Continue (ch, cur, p1) => group_loop fuel' is_root ch cur p1
        | Break => Ok (children, position)
        end
  end.

Definition _parseGroup (fuel : nat) (is_root : bool) (position : nat)
  : result (ExprNode * nat) :=
  '(ch, p1) <- group_loop fuel is_root [[]] 0 position ;;
  Ok (mkExprNode Group None [] ch, p1).

(** What a recursive call of the parser owes its caller, past position [p]:
    an answer, and a cursor that moved neither back nor past the end. *)
Definition well_behaved (parse : nat -> result (ExprNode * nat)) (p : nat) : Prop :=
  forall q, p < q <= String.length expr_str ->
    parse q <> OutOfFuel /\
    forall node q', parse q = Ok (node, q') -> q <= q' <= String.length expr_str.

End Parser.

(** [RegularCompiler(expr_str).ast].  Every loop iteration and every nested
    group consumes a character, so [S (length expr_str)] units of fuel are
    enough ([RegularCompiler_total] below). *)
Definition RegularCompiler (expr_str : string) : result ExprNode :=
  '(ast, _) <- _parseGroup expr_str (S (String.length expr_str)) true 0 ;;
  Ok (set_type Root ast).

End RegexCompiler_py.


(** ** NFA.py

    The builder, the matcher and [to_json]; [to_dot], [render_to_file] and
    the file write of [save_json] have no model. *)

Module NFA_py.
Import RegexCompiler_py.

(** A transition label: a [str], or [None] when the Char node it was built
    from has no value. *)
Definition label : Type := option string.
Definition label_eqb : label -> label -> bool := option_eqb String.eqb.

(** A [State] object.  The targets of its transitions are [State] objects
    of the same automaton, given by their position in [NFA.states]. *)
Record State : Type := mkState {
  id : nat;
  is_final : bool;
  transitions : list (label * list nat);
  epsilon_transitions : list nat
}.

Definition add_transition (char : label) (target : nat) (s : State) : State :=
  let targets := match dict_get label_eqb char (transitions s) with
                 | Some t => t
                 | None => []
                 end in
  mkState (id s) (is_final s)
          (dict_set label_eqb char (set_add Nat.eqb target targets) (transitions s))
          (epsilon_transitions s).

Definition add_epsilon_transition (target : nat) (s : State) : State :=
  mkState (id s) (is_final s) (transitions s)
          (set_add Nat.eqb target (epsilon_transitions s)).

Definition set_is_final (b : bool) (s : State) : State :=
  mkState (id s) b (transitions s) (epsilon_transitions s).

Record NFA : Type := mkNFA {
  states : list State;
  start_state : option nat;
  final_state : option nat;
  next_state_id : nat;
  final_states : list nat
}.

(** [NFA()] *)
Definition empty_NFA : NFA := mkNFA [] None None 0 [].

(** Mutation of the [State] object at position [r]. *)
Definition update_state (r : nat) (f : State -> State) (n : NFA) : NFA :=
  match nth_error (states n) r with
  | Some s => mkNFA (list_set r (f s) (states n)) (start_state n) (final_state n)
                    (next_state_id n) (final_states n)
  | None => n
  end.

Definition set_endpoints (start final : option nat) (n : NFA) : NFA :=
  mkNFA (states n) start final (next_state_id n) (final_states n).

Definition set_final_states (fs : list nat) (n : NFA) : NFA :=
  mkNFA (states n) (start_state n) (final_state n) (next_state_id n) fs.

(** [create_state]: the new object and the automaton that owns it. *)
Definition create_state (is_final : bool) (n : NFA) : nat * NFA :=
  let r := List.length (states n) in
  (r, mkNFA (states n ++ [mkState (next_state_id n) is_final [] []])
            (start_state n)
            (if is_final then Some r else final_state n)
            (S (next_state_id n))
            (if is_final then set_add Nat.eqb r (final_states n) else final_states n)).

(** The fragment [start --char--> end] shared by the three basic builders. *)
Definition basic_fragment (char : label) (n : NFA) : NFA :=
  let (start, n1) := create_state false n in
  let (end_, n2) := create_state true n1 in
  let n3 := update_state start (add_transition char end_) n2 in
  set_endpoints (Some start) (Some end_) n3.

Definition _build_basic_node_char (node : ExprNode) (n : NFA) : NFA :=
  if option_eqb String.eqb (value node) (Some ".")
  then basic_fragment (Some "\\.") n
  else basic_fragment (value node) n.

Definition _build_basic_node_any (node : ExprNode) (n : NFA) : NFA :=
  basic_fragment (Some ".") n.

(** [chr] of a range bound read from [node.params]. *)
Definition chr_param (k : string) (node : ExprNode) : result ascii :=
  match dict_get String.eqb k (params node) with
  | Some (PInt c) => Ok (ascii_of_nat c)
  | Some (PStr _) => Raise TypeError
  | None => Raise KeyError
  end.

Definition _build_basic_node_range (node : ExprNode) (n : NFA) : result NFA :=
  let (start, n1) := create_state false n in
  let (end_, n2) := create_state true n1 in
  range_start <- chr_param "start" node ;;
  range_end <- chr_param "end" node ;;
  let n3 := update_state start
              (add_transition (Some (str1 range_start ++ " - " ++ str1 range_end)%string) end_) n2 in
  Ok (set_endpoints (Some start) (Some end_) n3).

(** The fragment [start --eps--> end] of an empty group or concatenation. *)
Definition empty_fragment (n : NFA) : NFA :=
  let (start, n1) := create_state false n in
  let (end_, n2) := create_state true n1 in
  let n3 := update_state start (add_epsilon_transition end_) n2 in
  set_endpoints (Some start) (Some end_) n3.

Fixpoint sequence {A : Type} (l : list (result A)) : result (list A) :=
  match l with
  | [] => Ok []
  | r :: l' => a <- r ;; rest <- sequence l' ;; Ok (a :: rest)
  end.

(** Copy of [old], a state of a sub-automaton with [size] states, under the
    [state_map] that sends position [i] of the sub-automaton to [off + i]:
    the transitions are re-added one target at a time, a target outside
    [state_map] is skipped. *)
Definition copy_transitions (off size : nat) (old : State) (new : State) : State :=
  let with_chars :=
    fold_left (fun acc (entry : label * list nat) =>
                 fold_left (fun acc' target =>
                              if Nat.ltb target size
                              then add_transition (fst entry) (off + target) acc'
                              else acc')
                           (snd entry) acc)
              (transitions old) new in
  fold_left (fun acc target =>
               if Nat.ltb target size then add_epsilon_transition (off + target) acc else acc)
            (epsilon_transitions old) with_chars.

(** Positions, in [all_states], at which the states of each sub-automaton
    start. *)
Fixpoint offsets (base : nat) (subs : list NFA) : list nat :=
  match subs with
  | [] => []
  | s :: subs' => base :: offsets (base + List.length (states s)) subs'
  end.

(** [state_map[sub.states[r]]] for the sub-automaton whose states start at
    [off]; [KeyError] when [r] is [None]. *)
Definition state_map (off : nat) (r : option nat) : result nat :=
  match r with
  | Some i => Ok (off + i)
  | None => Raise KeyError
  end.

(** The loop [for i in range(len(sub_nfas) - 1)] of [_build_concatenation]. *)
Fixpoint connect (subs : list (nat * NFA)) (n : NFA) : result NFA :=
  match subs with
  | (off, sub) :: (((off', sub') :: _) as rest) =>
      old_final <- state_map off (final_state sub) ;;
      old_next_start <- state_map off' (start_state sub') ;;
      let n1 := update_state old_final (set_is_final false) n in
      let n2 := update_state old_final (add_epsilon_transition old_next_start) n1 in
      connect rest n2
  | _ => Ok n
  end.

(** [_build_concatenation(nodes)]; [nodes] is given by the automata
    [NFA(node)] the method builds from it first. *)
Definition _build_concatenation (nodes : list (result NFA)) (n : NFA) : result NFA :=
  match nodes with
  | [] => Ok (empty_fragment n)
  | _ =>
      sub_nfas <- sequence nodes ;;
      let base := List.length (states n) in
      let offs := offsets base sub_nfas in
      let placed := combine offs sub_nfas in
      let all_states := flat_map states sub_nfas in
      (* fresh states, numbered from next_state_id *)
      let fresh := map (fun (p : nat * State) => mkState (next_state_id n + fst p) (is_final (snd p)) [] [])
                       (combine (seq 0 (List.length all_states)) all_states) in
      let n1 := mkNFA (states n ++ fresh) (start_state n) (final_state n)
                      (next_state_id n + List.length all_states) (final_states n) in
      (* copy transitions *)
      let n2 :=
        fold_left (fun acc (p : nat * NFA) =>
                     let (off, sub) := p in
                     fold_left (fun acc' (q : nat * State) =>
                                  update_state (off + fst q)
                                    (copy_transitions off (List.length (states sub)) (snd q)) acc')
                               (combine (seq 0 (List.length (states sub))) (states sub)) acc)
                  placed n1 in
      (* connect the sub-NFAs *)
      match placed with
      | [] => Ok n2
      | (off0, sub0) :: _ =>
          start <- state_map off0 (start_state sub0) ;;
          let n3 := set_endpoints (Some start) (final_state n2) n2 in
          n4 <- connect placed n3 ;;
          let (offl, subl) := last placed (off0, sub0) in
          final <- state_map offl (final_state subl) ;;
          let n5 := set_endpoints (start_state n4) (Some final) n4 in
          let finals :=
            flat_map (fun (p : nat * NFA) =>
                        let (off, sub) := p in
                        flat_map (fun (q : nat * State) =>
                                    if is_final (snd q) then [off + fst q] else [])
                                 (combine (seq 0 (List.length (states sub))) (states sub)))
                     placed in
          Ok (set_final_states finals n5)
      end
  end.

(** One alternative of [_build_alternation]; [start] and [end_] are the
    endpoints created up front. *)
Definition add_alternative (start end_ : nat) (alternative : list (result NFA)) (n : NFA)
  : result NFA :=
  match alternative with
  | [] => Ok (update_state start (add_epsilon_transition end_) n)
  | _ =>
      sub_nfa <- _build_concatenation alternative empty_NFA ;;
      match start_state sub_nfa with
      | None => Ok n
      | Some sub_start =>
          let off := List.length (states n) in
          let size := List.length (states sub_nfa) in
          (* new_state = self.create_state(state.is_final) for each state *)
          let n1 := fold_left (fun acc (s : State) => snd (create_state (is_final s) acc))
                              (states sub_nfa) n in
          (* copy transitions *)
          let n2 := fold_left (fun acc (q : nat * State) =>
                                 update_state (off + fst q)
                                   (copy_transitions off size (snd q)) acc)
                              (combine (seq 0 size) (states sub_nfa)) n1 in
          let n3 := update_state start (add_epsilon_transition (off + sub_start)) n2 in
          let n4 := fold_left (fun acc (q : nat * State) =>
                                 if is_final (snd q)
                                 then update_state (off + fst q) (add_epsilon_transition end_)
                                        (update_state (off + fst q) (set_is_final false) acc)
                                 else acc)
                              (combine (seq 0 size) (states sub_nfa)) n3 in
          Ok n4
      end
  end.

Definition _build_alternation (alternatives : list (list (result NFA))) (n : NFA)
  : result NFA :=
  let (start, n1) := create_state false n in
  let (end_, n2) := create_state true n1 in
  n3 <- fold_left (fun acc alternative => a <- acc ;; add_alternative start end_ alternative a)
                  alternatives (Ok n2) ;;
  Ok (set_endpoints (Some start) (Some end_) n3).

Definition _build_basic_node_set (children : list (list (result NFA))) (n : NFA)
  : result NFA :=
  _build_alternation children n.

Definition _build_basic_node_group (children : list (list (result NFA))) (n : NFA)
  : result NFA :=
  match children with
  | [] | [] :: _ => Ok (empty_fragment n)
  | [only] => _build_concatenation only n
  | _ => _build_alternation children n
  end.

Definition _apply_quantifier (quantifier : ParamValue) (n : NFA) : NFA :=
  match start_state n, final_state n with
  | Some original_start, Some original_final =>
      let (new_start, n1) := create_state false n in
      let (new_final, n2) := create_state true n1 in
      let n3 := update_state original_final (set_is_final false) n2 in
      let is_q (c : string) :=
        match quantifier with PStr q => String.eqb q c | PInt _ => false end in
      let n4 :=
        if is_q "?" then
          update_state original_final (add_epsilon_transition new_final)
            (update_state new_start (add_epsilon_transition new_final)
               (update_state new_start (add_epsilon_transition original_start) n3))
        else if is_q "*" then
          update_state original_final (add_epsilon_transition new_final)
            (update_state original_final (add_epsilon_transition new_start)
               (update_state new_start (add_epsilon_transition new_final)
                  (update_state new_start (add_epsilon_transition original_start) n3)))
        else if is_q "+" then
          update_state original_final (add_epsilon_transition new_final)
            (update_state original_final (add_epsilon_transition original_start)
               (update_state new_start (add_epsilon_transition original_start) n3))
        else n3 in
      let n5 := set_endpoints (Some new_start) (Some new_final) n4 in
      set_final_states
        (map fst (filter (fun q : nat * State => is_final (snd q))
                         (combine (seq 0 (List.length (states n5))) (states n5))))
        n5
  | _, _ => n
  end.

(** [_build_nfa(node)]; [children] holds [NFA(child)] for every child of
    [node], in the shape of [node.children]. *)
Definition _build_nfa (children : list (list (result NFA))) (node : ExprNode) (n : NFA)
  : result NFA :=
  n1 <- match type node with
        | Char => Ok (_build_basic_node_char node n)
        | Any => Ok (_build_basic_node_any node n)
        | CharacterSet => _build_basic_node_set children n
        | Range => _build_basic_node_range node n
        | Root | Group => _build_basic_node_group children n
        | UNKNOWN => Ok n
        end ;;
  match dict_get String.eqb "quantifier" (params node) with
  | Some q => Ok (_apply_quantifier q n1)
  | None => Ok n1
  end.

(** [NFA(node)] *)
Fixpoint NFA_of (node : ExprNode) : result NFA :=
  match node with
  | mkExprNode _ _ _ ch => _build_nfa (map (map NFA_of) ch) node empty_NFA
  end.

(** [str.split(sep)] for a separator of at least one character: [skip]
    counts the characters of a separator still to be dropped, [cur] is the
    piece being read. *)
Fixpoint split_from (sep : string) (skip : nat) (cur : string) (s : string) : list string :=
  match s with
  | EmptyString => [cur]
  | String c s' =>
      match skip with
      | S k => split_from sep k cur s'
      | O => if String.prefix sep s
             then cur :: split_from sep (String.length sep - 1) EmptyString s'
             else split_from sep O (cur ++ str1 c)%string s'
      end
  end.

Definition split (sep s : string) : list string := split_from sep 0 EmptyString s.

(** [str(x)] for a label. *)
Definition str (l : label) : string :=
  match l with Some s => s | None => "None" end.

(** [ord(s)]: [TypeError] unless [s] has length one. *)
Definition ord (s : string) : result nat :=
  match s with
  | String c EmptyString => Ok (nat_of_ascii c)
  | _ => Raise TypeError
  end.

(** The condition of [match] under which the transition labelled
    [transition_char] is taken on input character [char]. *)
Definition label_matches (transition_char : label) (char : ascii) : result bool :=
  let split_ := split " - " (str transition_char) in
  if label_eqb transition_char (Some ".") then Ok true
  else if label_eqb transition_char (Some (str1 char)) then Ok true
  else if Ascii.eqb char "." && label_eqb transition_char (Some "\\.") then Ok true
  else
    match split_ with
    | [lo; hi] =>
        a <- ord lo ;;
        if Nat.leb a (nat_of_ascii char)
        then b <- ord hi ;; Ok (Nat.leb (nat_of_ascii char) b)
        else Ok false
    | _ => Ok false
    end.

(** The [while stack] loop of [_epsilon_closure]; the top of [stack] is its
    head. *)
Fixpoint closure_loop (fuel : nat) (n : NFA) (all_states stack : list nat)
  : result (list nat) :=
  match fuel with
  | O => OutOfFuel
  | S fuel' =>
      match stack with
      | [] => Ok all_states
      | state :: stack' =>
          match nth_error (states n) state with
          | None => Raise IndexError
          | Some st =>
              let '(all', stack'') :=
                fold_left (fun (acc : list nat * list nat) target =>
                             let (a, k) := acc in
                             if mem Nat.eqb target a then (a, k)
                             else (a ++ [target], target :: k))
                          (epsilon_transitions st) (all_states, stack') in
              closure_loop fuel' n all' stack''
          end
      end
  end.

(** [_epsilon_closure(states)]: every state is pushed at most once. *)
Definition _epsilon_closure (n : NFA) (from : list nat) : result (list nat) :=
  closure_loop (S (List.length (states n)) + List.length from) n from (rev from).

(** One character of [match]: [next_states] from [current_states]. *)
Definition next_states (n : NFA) (current_states : list nat) (char : ascii)
  : result (list nat) :=
  fold_left (fun acc state =>
               next <- acc ;;
               match nth_error (states n) state with
               | None => Raise IndexError
               | Some st =>
                   fold_left (fun acc' (entry : label * list nat) =>
                                next' <- acc' ;;
                                taken <- label_matches (fst entry) char ;;
                                Ok (if taken then set_union Nat.eqb next' (snd entry)
                                    else next'))
                             (transitions st) (Ok next)
               end)
            current_states (Ok []).

Fixpoint match_loop (n : NFA) (current_states : list nat) (input_string : string)
  : result bool :=
  match input_string with
  | EmptyString =>
      Ok (existsb (fun state => match nth_error (states n) state with
                                | Some st => is_final st
                                | None => false
                                end) current_states)
  | String char rest =>
      next <- next_states n current_states char ;;
      current <- _epsilon_closure n next ;;
      match current with
      | [] => Ok false
      | _ => match_loop n current rest
      end
  end.

(** [NFA.match] *)
Definition match_ (n : NFA) (input_string : string) : result bool :=
  match start_state n with
  | None => Ok false
  | Some start =>
      current <- _epsilon_closure n [start] ;;
      match_loop n current input_string
  end.

(** *** JSON export *)

Inductive JValue : Type :=
| JBool (b : bool)
| JStr (s : string)
| JList (l : list string).

(** An entry of the exported object: the name under ["startingState"], or
    the data of a state, keyed by [K]. *)
Inductive JEntry (K : Type) : Type :=
| JName (s : string)
| JObject (data : list (K * JValue)).

Arguments JName {K} s.
Arguments JObject {K} data.

(** The key of epsilon transitions, U+03B5 in UTF-8. *)
Definition EPSILON : string := "ε".

(** [f"S{id}"] *)
Definition state_name (id : nat) : string :=
  ("S" ++ NilEmpty.string_of_uint (Nat.to_uint id))%string.

Definition target_name (n : NFA) (target : nat) : result string :=
  match nth_error (states n) target with
  | Some st => Ok (state_name (id st))
  | None => Raise IndexError
  end.

Definition state_to_json (n : NFA) (st : State) : result (list (label * JValue)) :=
  let state_data := [(Some "isTerminatingState", JBool (is_final st))] in
  with_chars <-
    fold_left (fun acc (entry : label * list nat) =>
                 d <- acc ;;
                 names <- sequence (map (target_name n) (snd entry)) ;;
                 match names with
                 | [name] => Ok (dict_set label_eqb (fst entry) (JStr name) d)
                 | _ => Ok (dict_set label_eqb (fst entry) (JList names) d)
                 end)
              (transitions st) (Ok state_data) ;;
  fold_left (fun acc target =>
               d <- acc ;;
               name <- target_name n target ;;
               let d' := match dict_get label_eqb (Some EPSILON) d with
                         | Some _ => d
                         | None => dict_set label_eqb (Some EPSILON) (JList []) d
                         end in
               match dict_get label_eqb (Some EPSILON) d' with
               | Some (JList l) => Ok (dict_set label_eqb (Some EPSILON) (JList (l ++ [name])) d')
               | _ => Raise AttributeError
               end)
            (epsilon_transitions st) (Ok with_chars).

(** [NFA.to_json] *)
Definition to_json (n : NFA) : result (list (string * JEntry label)) :=
  start <- match start_state n with
           | Some r => name <- target_name n r ;; Ok [("startingState", JName name)]
           | None => Ok []
           end ;;
  fold_left (fun acc st =>
               d <- acc ;;
               state_data <- state_to_json n st ;;
               Ok (dict_set String.eqb (state_name (id st)) (JObject state_data) d))
            (states n) (Ok start).

(** [regex_to_nfa] *)
Definition regex_to_nfa (regex_str : string) : result NFA :=
  ast <- RegularCompiler regex_str ;;
  NFA_of ast.

End NFA_py.

(** ** DFA.py

    The loader, the subset construction and the minimizer, from the parsed
    content of the JSON file on; rendering has no model. *)

Module DFA_py.
Import NFA_py(JValue, JBool, JStr, JList, JEntry, JName, JObject, EPSILON).

(** A reference to a [State] object of the loaded NFA: the object built for
    [nfa.start_state], or the object at a position of [nfa.states].  The
    class has no [__eq__], so two references are equal when they are the
    same object. *)
Inductive ref : Type :=
| start_object
| state_object (i : nat).

Definition ref_eqb (a b : ref) : bool :=
  match a, b with
  | start_object, start_object => true
  | state_object i, state_object j => Nat.eqb i j
  | _, _ => false
  end.

Record State : Type := mkState {
  id : string;
  is_final : bool;
  transitions : list (string * list ref)
}.

Definition add_transition (action : string) (target : ref) (s : State) : State :=
  let targets := match dict_get String.eqb action (transitions s) with
                 | Some t => t
                 | None => []
                 end in
  mkState (id s) (is_final s)
          (dict_set String.eqb action (set_add ref_eqb target targets) (transitions s)).

(** [self.nfa] once [__load_NFA_json] has run. *)
Record NFA : Type := mkNFA {
  states : list State;
  start_state : State;
  final_state : option ref
}.

Definition deref (nfa : NFA) (r : ref) : result State :=
  match r with
  | start_object => Ok (start_state nfa)
  | state_object i =>
      match nth_error (states nfa) i with
      | Some s => Ok s
      | None => Raise IndexError
      end
  end.

(** Assignment to the object behind [r]. *)
Definition assign (nfa : NFA) (r : ref) (s : State) : NFA :=
  match r with
  | start_object => mkNFA (states nfa) s (final_state nfa)
  | state_object i => mkNFA (list_set i s (states nfa)) (start_state nfa) (final_state nfa)
  end.

(** [int(s)] for a run of decimal digits; signs, blanks and underscores,
    which Python also reads, are a [ValueError] here. *)
Definition int (s : string) : result nat :=
  match s with
  | EmptyString => Raise ValueError
  | _ => match NilEmpty.uint_of_string s with
         | Some u => Ok (Nat.of_uint u)
         | None => Raise ValueError
         end
  end.

(** [name[1:]] *)
Definition tail (name : string) : string :=
  match name with
  | EmptyString => EmptyString
  | String _ rest => rest
  end.

(** [self.nfa.states[int(name[1:])]], as a reference. *)
Definition state_named (nfa : NFA) (name : string) : result ref :=
  i <- int (tail name) ;;
  if Nat.ltb i (List.length (states nfa)) then Ok (state_object i) else Raise IndexError.

Definition truthy (v : JValue) : bool :=
  match v with
  | JBool b => b
  | JStr s => negb (String.eqb s EmptyString)
  | JList l => negb (Nat.eqb (List.length l) 0)
  end.

(** What [json.load] returns for the object [json.dump] wrote: a key that
    was [None] comes back as ["null"]. *)
Definition json_key (k : NFA_py.label) : string :=
  match k with Some s => s | None => "null" end.

Definition json_file (d : list (string * JEntry NFA_py.label)) : list (string * JEntry string) :=
  map (fun (e : string * JEntry NFA_py.label) =>
         (fst e,
          match snd e with
          | JName s => JName s
          | JObject data =>
              JObject (fold_left (fun acc (kv : NFA_py.label * JValue) =>
                                    dict_set String.eqb (json_key (fst kv)) (snd kv) acc)
                                 data [])
          end)) d.

(** The body of the first loop of [__load_NFA_json]: one [State] per
    entry. *)
Definition load_state (e : string * JEntry string) (n : NFA) : result NFA :=
  if String.eqb (fst e) "startingState" then Ok n
  else match snd e with
       | JName _ => Raise TypeError
       | JObject state_data =>
           match dict_get String.eqb "isTerminatingState" state_data with
           | None => Raise KeyError
           | Some v =>
               let is_final := truthy v in
               let current_state := state_object (List.length (states n)) in
               Ok (mkNFA (states n ++ [mkState (fst e) is_final []])
                         (start_state n)
                         (if is_final then Some current_state else final_state n))
           end
       end.

Definition load_states (data : list (string * JEntry string)) (nfa : NFA) : result NFA :=
  fold_left (fun acc e => bind acc (load_state e)) data (Ok nfa).

(** [current_state.add_transition(action, self.nfa.states[int(target[1:])])] *)
Definition load_target (current_state : ref) (action target : string) (nfa : NFA)
  : result NFA :=
  t <- state_named nfa target ;;
  s <- deref nfa current_state ;;
  Ok (assign nfa current_state (add_transition action t s)).

(** The targets of one action: a list of names, or a single name. *)
Definition load_targets (current_state : ref) (action : string) (targets : JValue)
  (nfa : NFA) : result NFA :=
  match targets with
  | JList l =>
      fold_left (fun acc target => bind acc (load_target current_state action target))
                l (Ok nfa)
  | JStr target => load_target current_state action target nfa
  | JBool _ => Raise TypeError
  end.

(** The body of [for action, targets in state_data.items()]. *)
Definition load_action (current_state : ref) (kv : string * JValue)
  (acc : NFA * list string) : result (NFA * list string) :=
  if String.eqb (fst kv) "isTerminatingState" then Ok acc
  else
    n <- load_targets current_state (fst kv) (snd kv) (fst acc) ;;
    Ok (n, if String.eqb (fst kv) EPSILON then snd acc else snd acc ++ [fst kv]).

(** The body of the second loop of [__load_NFA_json]: the transitions of
    one entry, and its actions. *)
Definition load_entry (e : string * JEntry string) (acc : NFA * list string)
  : result (NFA * list string) :=
  if String.eqb (fst e) "startingState" then Ok acc
  else
    current_state <- state_named (fst acc) (fst e) ;;
    match snd e with
    | JName _ => Raise AttributeError
    | JObject state_data =>
        fold_left (fun a kv => bind a (load_action current_state kv)) state_data (Ok acc)
    end.

Definition load_transitions (data : list (string * JEntry string))
  (nfa : NFA) (actions : list string) : result (NFA * list string) :=
  fold_left (fun acc e => bind acc (load_entry e)) data (Ok (nfa, actions)).

(** [__load_NFA_json], from the parsed file: the loaded NFA and
    [self.actions]. *)
Definition __load_NFA_json (data : list (string * JEntry string))
  : result (NFA * list string) :=
  match dict_get String.eqb "startingState" data with
  | None => Raise KeyError
  | Some (JObject _) => Raise TypeError
  | Some (JName start) =>
      let nfa0 := mkNFA [] (mkState start false []) None in
      nfa1 <- load_states data nfa0 ;;
      load_transitions data nfa1 []
  end.

(** The [while stack] loop of [__epsilon_closure]; the top of [stack] is its
    head.  The popped object is looked up again by name in [nfa.states]. *)
Fixpoint closure_loop (fuel : nat) (nfa : NFA) (all_states stack : list ref)
  : result (list ref) :=
  match fuel with
  | O => OutOfFuel
  | S fuel' =>
      match stack with
      | [] => Ok all_states
      | state :: stack' =>
          popped <- deref nfa state ;;
          r <- state_named nfa (id popped) ;;
          st <- deref nfa r ;;
          let '(all', stack'') :=
            fold_left (fun acc (entry : string * list ref) =>
                         fold_left (fun (acc' : list ref * list ref) target =>
                                      let (a, k) := acc' in
                                      if negb (mem ref_eqb target a)
                                         && String.eqb (fst entry) EPSILON
                                      then (a ++ [target], target :: k)
                                      else (a, k))
                                   (snd entry) acc)
                      (transitions st) (all_states, stack') in
          closure_loop fuel' nfa all' stack''
      end
  end.

(** [__epsilon_closure(state)]: at most one push per object. *)
Definition __epsilon_closure (nfa : NFA) (state : ref) : result (list ref) :=
  closure_loop (S (S (List.length (states nfa)))) nfa [state] [state].

Record DFA_State : Type := mkDFA_State {
  dfa_states : list ref;
  dfa_id : string;
  dfa_is_final : bool
}.

(** [set_to_string]: the ids, as a set, joined in the order the set
    iterates in. *)
Definition set_to_string (nfa : NFA) (nfa_states : list ref) : result string :=
  ids <- fold_left (fun acc r =>
                      l <- acc ;;
                      s <- deref nfa r ;;
                      Ok (set_add String.eqb (id s) l))
                   nfa_states (Ok []) ;;
  Ok (String.concat " " ids).

(** [DFA_State(nfa_states, is_final)] *)
Definition new_DFA_State (nfa : NFA) (nfa_states : list ref) (is_final : bool)
  : result DFA_State :=
  name <- set_to_string nfa nfa_states ;;
  Ok (mkDFA_State nfa_states name is_final).

(** [DFA_State.__eq__] *)
Definition dfa_eqb (a b : DFA_State) : bool := String.eqb (dfa_id a) (dfa_id b).

(** The loop over [curr_reachable_states] inside [__get_reachable_states]:
    the closures of its members, united in [next_reachable_states]. *)
Definition closures (n : NFA) (curr_reachable_states : list ref) : result (list ref) :=
  fold_left (fun acc next_state =>
               bind acc (fun next =>
                 c <- __epsilon_closure n next_state ;;
                 Ok (set_union ref_eqb next c)))
            curr_reachable_states (Ok []).

(** The body of [for nfa_state in dfa_state.states]:
    [curr_reachable_states] is the very set stored in
    [nfa_state.transitions[action]], and [|=] updates it in place, so the
    NFA changes with the states reached. *)
Definition reach_state (action : string) (nfa_state : ref) (acc : list ref * NFA)
  : result (list ref * NFA) :=
  let (reachable_states, n) := acc in
  st <- deref n nfa_state ;;
  match dict_get String.eqb action (transitions st) with
  | None => Ok (reachable_states, n)
  | Some curr_reachable_states =>
      next_reachable_states <- closures n curr_reachable_states ;;
      let curr' := set_union ref_eqb curr_reachable_states next_reachable_states in
      let n' := assign n nfa_state
                  (mkState (id st) (is_final st)
                           (dict_set String.eqb action curr' (transitions st))) in
      Ok (set_union ref_eqb reachable_states curr', n')
  end.

(** [__get_reachable_states]: the states reached, and the NFA after the
    call. *)
Definition __get_reachable_states (nfa : NFA) (dfa_state : DFA_State) (action : string)
  : result (list ref * NFA) :=
  fold_left (fun acc nfa_state => bind acc (reach_state action nfa_state))
            (dfa_states dfa_state) (Ok ([], nfa)).

Definition transition : Type := DFA_State * DFA_State * string.

Definition transition_eqb (a b : transition) : bool :=
  match a, b with
  | (s1, t1, a1), (s2, t2, a2) => dfa_eqb s1 s2 && dfa_eqb t1 t2 && String.eqb a1 a2
  end.

Record DFA : Type := mkDFA {
  nfa : NFA;
  dfa_all_states : list DFA_State;
  dfa_start_state : DFA_State;
  final_states : list DFA_State;
  actions : list string;
  dfa_transitions : list transition
}.

(** The body of [for action in self.actions] inside [__construct_DFA]. *)
Definition construct_action (curr_dfa_state : DFA_State) (action : string)
  (acc : DFA * list DFA_State) : result (DFA * list DFA_State) :=
  let (d, stack) := acc in
  '(reached, nfa') <- __get_reachable_states (nfa d) curr_dfa_state action ;;
  new_dfa_state <- new_DFA_State nfa' reached false ;;
  let d0 := mkDFA nfa' (dfa_all_states d) (dfa_start_state d) (final_states d)
                  (actions d) (dfa_transitions d) in
  match reached with
  | [] => Ok (d0, stack)
  | _ =>
      let is_new := negb (existsb (fun s => String.eqb (dfa_id new_dfa_state) (dfa_id s))
                                  (dfa_all_states d0)) in
      let states1 := if is_new then set_add dfa_eqb new_dfa_state (dfa_all_states d0)
                     else dfa_all_states d0 in
      let stack1 := if is_new then new_dfa_state :: stack else stack in
      let finals1 :=
        if is_new && match final_state nfa' with
                     | Some f => mem ref_eqb f (dfa_states new_dfa_state)
                     | None => false
                     end
        then set_add dfa_eqb new_dfa_state (final_states d0)
        else final_states d0 in
      let t := (curr_dfa_state, new_dfa_state, action) in
      let transitions1 := if negb (existsb (transition_eqb t) (dfa_transitions d0))
                          then dfa_transitions d0 ++ [t]
                          else dfa_transitions d0 in
      Ok (mkDFA nfa' states1 (dfa_start_state d0) finals1 (actions d0) transitions1, stack1)
  end.

(** The [while stack] loop of [__construct_DFA]. *)
Fixpoint construct_loop (fuel : nat) (d : DFA) (stack : list DFA_State) : result DFA :=
  match fuel with
  | O => OutOfFuel
  | S fuel' =>
      match stack with
      | [] => Ok d
      | curr_dfa_state :: stack' =>
          '(d', stack'') <-
            fold_left (fun acc action => bind acc (construct_action curr_dfa_state action))
                      (actions d) (Ok (d, stack')) ;;
          construct_loop fuel' d' stack''
      end
  end.

(** [__construct_DFA], from the parsed file. *)
Definition __construct_DFA (fuel : nat) (data : list (string * JEntry string)) : result DFA :=
  '(nfa0, acts) <- __load_NFA_json data ;;
  start_set <- __epsilon_closure nfa0 start_object ;;
  start <- new_DFA_State nfa0 start_set false ;;
  construct_loop fuel (mkDFA nfa0 [start] start [] acts []) [start].

(** *** Minimization *)

Definition table : Type := list (DFA_State * list (string * DFA_State)).

(** [__create_transition_table] *)
Definition __create_transition_table (d : DFA) : table :=
  let from_transitions :=
    fold_left (fun (tbl : table) (t : transition) =>
                 match t with
                 | (src_state, target_state, action) =>
                     let tbl1 := match dict_get dfa_eqb src_state tbl with
                                 | Some _ => tbl
                                 | None => dict_set dfa_eqb src_state [] tbl
                                 end in
                     match dict_get dfa_eqb src_state tbl1 with
                     | Some row => dict_set dfa_eqb src_state
                                     (dict_set String.eqb action target_state row) tbl1
                     | None => tbl1
                     end
                 end)
              (dfa_transitions d) [] in
  fold_left (fun (tbl : table) state =>
               match dict_get dfa_eqb state tbl with
               | Some _ => tbl
               | None => dict_set dfa_eqb state [] tbl
               end)
            (dfa_all_states d) from_transitions.

(** [d[k]], a [KeyError] when [k] is missing. *)
Definition lookup {K V : Type} (eqk : K -> K -> bool) (k : K) (d : list (K * V)) : result V :=
  match dict_get eqk k d with
  | Some v => Ok v
  | None => Raise KeyError
  end.

(** The maps and the set that one pass over a group updates. *)
Record partition : Type := mkPartition {
  state_to_group : list (DFA_State * nat);
  group_to_state : list (nat * list DFA_State);
  new_states : list DFA_State
}.

(** The body of [for state in curr_states] inside [__split_states]. *)
Definition split_state (transition_table : table) (num_of_groups : nat)
  (action : string) (curr_target : option DFA_State) (target_group : option nat)
  (p : partition) (state : DFA_State) : result partition :=
  row <- lookup dfa_eqb state transition_table ;;
  let target_state := dict_get String.eqb action row in
  group <- lookup dfa_eqb state (state_to_group p) ;;
  match curr_target, target_state with
  | None, None => Ok p
  | _, _ =>
      differs <- match target_state with
                 | None => Ok true
                 | Some t =>
                     g <- lookup dfa_eqb t (state_to_group p) ;;
                     Ok (negb (option_eqb Nat.eqb (Some g) target_group))
                 end ;;
      if differs then
        old <- lookup Nat.eqb group (group_to_state p) ;;
        if mem dfa_eqb state old then
          let g2s1 := dict_set Nat.eqb group (set_remove dfa_eqb state old) (group_to_state p) in
          let g2s2 := match dict_get Nat.eqb num_of_groups g2s1 with
                      | Some _ => g2s1
                      | None => dict_set Nat.eqb num_of_groups [] g2s1
                      end in
          fresh <- lookup Nat.eqb num_of_groups g2s2 ;;
          Ok (mkPartition (dict_set dfa_eqb state num_of_groups (state_to_group p))
                          (dict_set Nat.eqb num_of_groups (set_add dfa_eqb state fresh) g2s2)
                          (set_add dfa_eqb state (new_states p)))
        else Raise KeyError
      else Ok p
  end.

(** The body of [for action in self.actions] inside [__split_states]. *)
Definition split_action (transition_table : table) (num_of_groups : nat)
  (curr_states : list DFA_State) (curr_representative : DFA_State)
  (p : partition) (action : string) : result partition :=
  row <- lookup dfa_eqb curr_representative transition_table ;;
  let curr_target := dict_get String.eqb action row in
  target_group <- match curr_target with
                  | Some t => g <- lookup dfa_eqb t (state_to_group p) ;; Ok (Some g)
                  | None => Ok None
                  end ;;
  fold_left (fun acc state =>
               q <- acc ;;
               split_state transition_table num_of_groups action curr_target target_group q state)
            curr_states (Ok p).

(** The [while stack] loop of [__split_states]; the top of [stack] is its
    head.  [list(curr_states)[0]] is an [IndexError] on an empty group. *)
Fixpoint split_loop (fuel : nat) (acts : list string) (transition_table : table)
  (s2g : list (DFA_State * nat)) (g2s : list (nat * list DFA_State))
  (num_of_groups : nat) (stack : list (list DFA_State))
  : result (list (DFA_State * nat) * list (nat * list DFA_State)) :=
  match fuel with
  | O => OutOfFuel
  | S fuel' =>
      match stack with
      | [] => Ok (s2g, g2s)
      | curr_states :: stack' =>
          match curr_states with
          | [] => Raise IndexError
          | curr_representative :: _ =>
              p <- fold_left (fun acc action =>
                                q <- acc ;;
                                split_action transition_table num_of_groups curr_states
                                             curr_representative q action)
                             acts (Ok (mkPartition s2g g2s [])) ;;
              let kept := filter (fun s => negb (mem dfa_eqb s (new_states p))) curr_states in
              match new_states p with
              | [] => split_loop fuel' acts transition_table
                        (state_to_group p) (group_to_state p) num_of_groups stack'
              | _ => split_loop fuel' acts transition_table
                       (state_to_group p) (group_to_state p) (S num_of_groups)
                       (new_states p :: kept :: stack')
              end
          end
      end
  end.

(** The first loop of [__split_states]: the accepting states go to group 1,
    the others to group 0. *)
Definition initial_groups (finals : list DFA_State) (all : list DFA_State)
  (start : list (DFA_State * nat) * list (nat * list DFA_State))
  : list (DFA_State * nat) * list (nat * list DFA_State) :=
  fold_left (fun (acc : list (DFA_State * nat) * list (nat * list DFA_State)) state =>
               let k := if mem dfa_eqb state finals then 1 else 0 in
               (dict_set dfa_eqb state k (fst acc),
                dict_set Nat.eqb k
                  (set_add dfa_eqb state
                     (match dict_get Nat.eqb k (snd acc) with Some l => l | None => [] end))
                  (snd acc)))
            all start.

(** [__split_states] *)
Definition __split_states (fuel : nat) (d : DFA) (transition_table : table)
  : result (list (DFA_State * nat) * list (nat * list DFA_State)) :=
  let groups := initial_groups (final_states d) (dfa_all_states d) ([], [(0, []); (1, [])]) in
  non_accepting_group <- lookup Nat.eqb 0 (snd groups) ;;
  accepting_group <- lookup Nat.eqb 1 (snd groups) ;;
  split_loop fuel (actions d) transition_table (fst groups) (snd groups) 2
             [accepting_group; non_accepting_group].

(** [__group_to_state]: the merged state, and the DFA whose start state it
    may have replaced. *)
Definition __group_to_state (d : DFA) (group : list DFA_State) : result (DFA_State * DFA) :=
  let '(all_nfa_states, is_final, is_start) :=
    fold_left (fun (acc : list ref * bool * bool) dfa_state =>
                 let '(all, fin, st) := acc in
                 (set_union ref_eqb all (dfa_states dfa_state),
                  fin || mem dfa_eqb dfa_state (final_states d),
                  st || dfa_eqb dfa_state (dfa_start_state d)))
              group ([], false, false) in
  new_dfa_state <- new_DFA_State (nfa d) all_nfa_states is_final ;;
  Ok (new_dfa_state,
      if is_start
      then mkDFA (nfa d) (dfa_all_states d) new_dfa_state (final_states d)
                 (actions d) (dfa_transitions d)
      else d).

(** [__update_transitions] *)
Definition __update_transitions (d : DFA)
  (s2g : list (DFA_State * nat)) (g2s : list (nat * list DFA_State)) : result DFA :=
  let d0 := mkDFA (nfa d) [] (dfa_start_state d) (final_states d) (actions d)
                  (dfa_transitions d) in
  '(d', new_transitions) <-
    fold_left (fun acc (t : transition) =>
                 '(cur, new_transitions) <- acc ;;
                 match t with
                 | (src_state, target_state, action) =>
                     src_group <- lookup dfa_eqb src_state s2g ;;
                     src_members <- lookup Nat.eqb src_group g2s ;;
                     '(src, cur1) <- __group_to_state cur src_members ;;
                     target_group <- lookup dfa_eqb target_state s2g ;;
                     target_members <- lookup Nat.eqb target_group g2s ;;
                     '(target, cur2) <- __group_to_state cur1 target_members ;;
                     let states1 := set_add dfa_eqb target (set_add dfa_eqb src (dfa_all_states cur2)) in
                     let finals1 := if dfa_is_final src
                                    then set_add dfa_eqb src (final_states cur2)
                                    else final_states cur2 in
                     let finals2 := if dfa_is_final target
                                    then set_add dfa_eqb target finals1
                                    else finals1 in
                     let nt := (src, target, action) in
                     Ok (mkDFA (nfa cur2) states1 (dfa_start_state cur2) finals2
                               (actions cur2) (dfa_transitions cur2),
                         if negb (existsb (transition_eqb nt) new_transitions)
                         then new_transitions ++ [nt]
                         else new_transitions)
                 end)
              (dfa_transitions d) (Ok (d0, [])) ;;
  Ok (mkDFA (nfa d') (dfa_all_states d') (dfa_start_state d') (final_states d')
            (actions d') new_transitions).

(** The object [__min_to_json] writes to its file. *)
Definition __min_to_json (d : DFA) : list (string * JEntry string) :=
  fold_left (fun acc (t : transition) =>
               match t with
               | (src_state, target_state, action) =>
                   let acc1 :=
                     match dict_get String.eqb (dfa_id src_state) acc with
                     | Some _ => acc
                     | None => dict_set String.eqb (dfa_id src_state)
                                 (JObject [("isTerminatingState", JBool (dfa_is_final src_state))])
                                 acc
                     end in
                   match dict_get String.eqb (dfa_id src_state) acc1 with
                   | Some (JObject data) =>
                       dict_set String.eqb (dfa_id src_state)
                         (JObject (dict_set String.eqb action (JStr (dfa_id target_state)) data))
                         acc1
                   | _ => acc1
                   end
               end)
            (dfa_transitions d) [("startingState", JName (dfa_id (dfa_start_state d)))].

(** [__minimize_DFA] *)
Definition __minimize_DFA (fuel : nat) (d : DFA) : result DFA :=
  let transition_table := __create_transition_table d in
  '(s2g, g2s) <- __split_states fuel d transition_table ;;
  __update_transitions d s2g g2s.

(** [DFA(json_file_path, minimized)], from the parsed file. *)
Definition __build (fuel : nat) (data : list (string * JEntry string)) (minimized : bool)
  : result DFA :=
  d <- __construct_DFA fuel data ;;
  if minimized then __minimize_DFA fuel d else Ok d.

(** *** What a call may change in the loaded NFA *)

(** The part of a state that [__epsilon_closure] reads. *)
Definition eps_part (st : State) : list (string * list ref) :=
  filter (fun e => String.eqb (fst e) EPSILON) (transitions st).

Definition eps_view_state (st : State) : string * list (string * list ref) :=
  (id st, eps_part st).

Definition eps_view (n : NFA) :=
  (map eps_view_state (states n), eps_view_state (start_state n)).

(** The objects of the loaded NFA. *)
Definition objects (n : NFA) : list ref :=
  start_object :: map state_object (seq 0 (List.length (states n))).

(** [st'] is [st] with some of its target sets enlarged. *)
Definition state_grows (st st' : State) : Prop :=
  id st' = id st /\ is_final st' = is_final st /\
  forall action targets,
    dict_get String.eqb action (transitions st) = Some targets ->
    exists targets', dict_get String.eqb action (transitions st') = Some targets' /\
                     incl targets targets'.

(** Every object of [n] is still there in [n'], with target sets that
    contain the ones it had. *)
Definition nfa_grows (n n' : NFA) : Prop :=
  forall r st, deref n r = Ok st -> exists st', deref n' r = Ok st' /\ state_grows st st'.

(** The invariant of [__construct_DFA]: the start state is one of the
    states, and no accepting state has its id. *)
Definition start_unmarked (d : DFA) : Prop :=
  (exists s, In s (dfa_all_states d) /\ dfa_id s = dfa_id (dfa_start_state d)) /\
  (forall f, In f (final_states d) -> dfa_id f <> dfa_id (dfa_start_state d)).

End DFA_py.

(** ** The pipeline *)

Module Pipeline.
Import DFA_py.

(** [regex_to_nfa], [save_json], then [DFA("nfa.json", minimized)]. *)
Definition compile (fuel : nat) (regex_str : string) (minimized : bool) : result DFA :=
  n <- NFA_py.regex_to_nfa regex_str ;;
  j <- NFA_py.to_json n ;;
  __build fuel (json_file j) minimized.

(** The NFA that [DFA("nfa.json", ...)] holds right after loading the file
    [save_json] wrote. *)
Definition reload (n : NFA_py.NFA) : result (NFA * list string) :=
  j <- NFA_py.to_json n ;;
  __load_NFA_json (json_file j).

(** The ids of the NFA states a DFA state stands for, as [set_to_string]
    collects them. *)
Definition nfa_ids (d : DFA) (s : DFA_State) : list string :=
  flat_map (fun r => match deref (nfa d) r with
                     | Ok st => [id st]
                     | _ => []
                     end) (dfa_states s).

Definition same_set (a b : list string) : bool :=
  forallb (fun x => mem String.eqb x b) a && forallb (fun x => mem String.eqb x a) b.

(** Modelled from the spec: [DFA.match], which the source does not have.
    Acceptance of the input by the transition relation, from the start
    state: a transition is taken on a character when its label matches the
    character under the rule of [NFA.match], and the input is accepted when
    a state reached at its end is an accepting state. *)
Fixpoint DFA_run (d : DFA) (current : list DFA_State) (input_string : string) : result bool :=
  match input_string with
  | EmptyString => Ok (existsb (fun s => mem dfa_eqb s (final_states d)) current)
  | String char rest =>
      next <- fold_left (fun acc (t : transition) =>
                           n <- acc ;;
                           match t with
                           | (src, dst, action) =>
                               taken <- NFA_py.label_matches (Some action) char ;;
                               Ok (if taken && mem dfa_eqb src current
                                   then set_add dfa_eqb dst n else n)
                           end)
                        (dfa_transitions d) (Ok []) ;;
      DFA_run d next rest
  end.

Definition DFA_match (d : DFA) (input_string : string) : result bool :=
  DFA_run d [dfa_start_state d] input_string.

End Pipeline.

(** ** Vocabulary of the further properties *)

Module Vocabulary.
Import RegexCompiler_py.

(** The bounds of a Range node: both present, code points of characters,
    in order. *)
Definition range_ok (params : list (string * ParamValue)) : bool :=
  match dict_get String.eqb PARAM_RANGE_START params,
        dict_get String.eqb PARAM_RANGE_END params with
  | Some (PInt a), Some (PInt b) => Nat.leb a b && Nat.ltb b 256
  | _, _ => false
  end.

(** The value of a Char node: one character, or [None]. *)
Definition char_ok (value : option string) : bool :=
  match value with
  | Some s => Nat.eqb (String.length s) 1
  | None => true
  end.

(** A tree the parser can have built: no node of unknown type, every Char
    node with at most one character, and every Range node with its
    bounds. *)
Fixpoint well_formed (node : ExprNode) : bool :=
  match node with
  | mkExprNode t v params ch =>
      match t with
      | UNKNOWN => false
      | Char => char_ok v
      | Range => range_ok params
      | _ => true
      end && forallb (forallb well_formed) ch
  end.

(** A character that [_parseGroup] reads as a literal. *)
Definition plain (c : ascii) : bool :=
  negb (existsb (Ascii.eqb c) (SPECIAL_CHARS ++ ["\"; "."]%char)).

(** The Char node of a literal character. *)
Definition literal (c : ascii) : ExprNode := mkExprNode Char (Some (str1 c)) [] [].

(** The position a syntax error of the parser carries. *)
Definition syntax_position (e : Exception) : option nat :=
  match e with
  | Expected _ p | Unexpected _ p | UnexpectedEnd p | ExpectedStartEnd p => Some p
  | _ => None
  end.

(** An exception that carries a position of the input. *)
Definition positioned (expr_str : string) (e : Exception) : Prop :=
  exists q, syntax_position e = Some q /\ q <= String.length expr_str.

(** What the loop of [_parseGroup] needs of a recursive call of the parser,
    past position [p]: a well-formed node, or an exception with a
    position. *)
Definition sound_call (expr_str : string) (parse : nat -> result (ExprNode * nat))
  (p : nat) : Prop :=
  forall q, p < q <= String.length expr_str ->
    match parse q with
    | Ok (node, _) => well_formed node = true
    | Raise e => positioned expr_str e
    | OutOfFuel => True
    end.

(** The ids of the states of an NFA are their positions, and the next id
    is the number of states. *)
Definition dense (n : NFA_py.NFA) : Prop :=
  map NFA_py.id (NFA_py.states n) = seq 0 (List.length (NFA_py.states n)) /\
  NFA_py.next_state_id n = List.length (NFA_py.states n).

(** The label of a Range node. *)
Definition range_label (a b : ascii) : string := (str1 a ++ " - " ++ str1 b)%string.

(** The labels the builder attaches: the value of a Char node ([None], or
    one character), the escaped dot, the bounds of a Range node. *)
Definition builder_label (l : NFA_py.label) : Prop :=
  l = None \/ (exists c, l = Some (str1 c)) \/ l = Some "\\." \/
  exists a b, l = Some (range_label a b).

(** A set of targets: positions below [size], each once, at least one. *)
Definition targets_ok (size : nat) (targets : list nat) : Prop :=
  Forall (fun t => t < size) targets /\ NoDup targets /\ targets <> [].

(** A state whose labels are the builder's, each once, and whose targets are
    positions below [size]. *)
Definition state_ok (size : nat) (s : NFA_py.State) : Prop :=
  Forall (fun e : NFA_py.label * list nat =>
            builder_label (fst e) /\ targets_ok size (snd e))
         (NFA_py.transitions s) /\
  NoDup (map fst (NFA_py.transitions s)) /\
  Forall (fun t => t < size) (NFA_py.epsilon_transitions s) /\
  NoDup (NFA_py.epsilon_transitions s).

(** [flags] is true at position [f] and nowhere else. *)
Definition one_hot (flags : list bool) (f : nat) : Prop :=
  forall i b, nth_error flags i = Some b -> (b = true <-> i = f).

(** What holds of an automaton all along its construction: dense ids, and
    transitions between its own states under the builder's labels. *)
Definition sane (n : NFA_py.NFA) : Prop :=
  dense n /\ Forall (state_ok (List.length (NFA_py.states n))) (NFA_py.states n).

(** An automaton as the builder leaves it: sane, with a start state, and a
    final state that is the one state marked final. *)
Definition built (n : NFA_py.NFA) : Prop :=
  sane n /\
  exists s f,
    NFA_py.start_state n = Some s /\ NFA_py.final_state n = Some f /\
    s < List.length (NFA_py.states n) /\ f < List.length (NFA_py.states n) /\
    one_hot (map NFA_py.is_final (NFA_py.states n)) f.

(** An epsilon transition from the state at position [x] to the state at
    position [y]. *)
Definition eps_step (n : NFA_py.NFA) (x y : nat) : Prop :=
  exists st, nth_error (NFA_py.states n) x = Some st /\
             In y (NFA_py.epsilon_transitions st).

(** A transition from [x] to [y] that [match] takes on the character
    [c]. *)
Definition char_step (n : NFA_py.NFA) (c : ascii) (x y : nat) : Prop :=
  exists st entry,
    nth_error (NFA_py.states n) x = Some st /\
    In entry (NFA_py.transitions st) /\
    NFA_py.label_matches (fst entry) c = Ok true /\ In y (snd entry).

(** [y] is reached from a member of [from] along epsilon transitions. *)
Inductive eps_reach (n : NFA_py.NFA) (from : list nat) : nat -> Prop :=
| eps_here (x : nat) : In x from -> eps_reach n from x
| eps_next (x y : nat) : eps_reach n from x -> eps_step n x y -> eps_reach n from y.

(** A path from [x] to [z] that reads [s]. *)
Inductive reads (n : NFA_py.NFA) : nat -> string -> nat -> Prop :=
| reads_done (x : nat) : reads n x EmptyString x
| reads_eps (x y z : nat) (s : string) :
    eps_step n x y -> reads n y s z -> reads n x s z
| reads_char (x y z : nat) (c : ascii) (s : string) :
    char_step n c x y -> reads n y s z -> reads n x (String c s) z.

(** The automaton has a path from its start state to a state marked final
    that reads [s]. *)
Definition accepts (n : NFA_py.NFA) (s : string) : Prop :=
  exists start z st,
    NFA_py.start_state n = Some start /\ reads n start s z /\
    nth_error (NFA_py.states n) z = Some st /\ NFA_py.is_final st = true.

(** The state [st] has a transition labelled [l] to the state at position
    [t]. *)
Definition edge (st : NFA_py.State) (l : NFA_py.label) (t : nat) : Prop :=
  exists targets, In (l, targets) (NFA_py.transitions st) /\ In t targets.

(** The positions of a list, with its members. *)
Definition indexed {A : Type} (l : list A) : list (nat * A) :=
  combine (seq 0 (List.length l)) l.

(** The copy of the state [st], at position [i] of an automaton of [size]
    states, that [_build_concatenation] and [_build_alternation] make at
    position [off + i]. *)
Definition copied (off size i : nat) (st : NFA_py.State) : NFA_py.State :=
  NFA_py.copy_transitions off size st
    (NFA_py.mkState (off + i) (NFA_py.is_final st) [] []).

(** What the loop that chains the sub-automata does to the copy [st] of the
    state at position [i] of [sub], when [rest] follows [sub]. *)
Definition linked (off : nat) (sub : NFA_py.NFA) (rest : list NFA_py.NFA) (i : nat)
  (st : NFA_py.State) : NFA_py.State :=
  match rest, NFA_py.final_state sub with
  | next :: _, Some f =>
      match NFA_py.start_state next with
      | Some s =>
          if Nat.eqb i f
          then NFA_py.add_epsilon_transition (off + List.length (NFA_py.states sub) + s)
                 (NFA_py.set_is_final false st)
          else st
      | None => st
      end
  | _, _ => st
  end.

(** The states of the concatenation of [subs], from position [base] on. *)
Fixpoint chained (base : nat) (subs : list NFA_py.NFA) : list NFA_py.State :=
  match subs with
  | [] => []
  | sub :: rest =>
      map (fun q : nat * NFA_py.State =>
             linked base sub rest (fst q)
                    (copied base (List.length (NFA_py.states sub)) (fst q) (snd q)))
          (indexed (NFA_py.states sub))
      ++ chained (base + List.length (NFA_py.states sub)) rest
  end.

(** The copy [_build_alternation] makes of the state [st], at position [i]
    of the automaton [sub] of an alternative: a final state loses its mark
    and leads to [end_]. *)
Definition leaving (end_ off : nat) (sub : NFA_py.NFA) (i : nat) (st : NFA_py.State)
  : NFA_py.State :=
  if NFA_py.is_final st
  then NFA_py.add_epsilon_transition end_
         (NFA_py.set_is_final false
            (copied off (List.length (NFA_py.states sub)) i st))
  else copied off (List.length (NFA_py.states sub)) i st.

(** The states of the alternatives [subs], from position [base] on. *)
Fixpoint branches (end_ base : nat) (subs : list NFA_py.NFA) : list NFA_py.State :=
  match subs with
  | [] => []
  | sub :: rest =>
      map (fun q : nat * NFA_py.State => leaving end_ base sub (fst q) (snd q))
          (indexed (NFA_py.states sub))
      ++ branches end_ (base + List.length (NFA_py.states sub)) rest
  end.

(** The states of an alternation of [subs]: the start state, which leads to
    the start state of each alternative, and to the end state when [skip]
    holds; the end state; the states of the alternatives. *)
Definition branched (skip : Prop) (subs : list NFA_py.NFA) (n : NFA_py.NFA) : Prop :=
  exists e,
    NFA_py.states n = e :: NFA_py.mkState 1 true [] [] :: branches 1 2 subs /\
    NFA_py.transitions e = [] /\ NFA_py.is_final e = false /\
    forall t, In t (NFA_py.epsilon_transitions e)
              <-> (t = 1 /\ skip) \/
                  exists pre sub post s,
                    subs = pre ++ sub :: post /\ NFA_py.start_state sub = Some s /\
                    t = 2 + List.length (flat_map NFA_py.states pre) + s.

(** [s] is made of one input accepted by each automaton of [subs], in
    order. *)
Fixpoint splits (subs : list NFA_py.NFA) (s : string) : Prop :=
  match subs with
  | [] => s = EmptyString
  | sub :: rest =>
      exists s1 s2, s = (s1 ++ s2)%string /\ accepts sub s1 /\ splits rest s2
  end.

(** [s] is made of inputs accepted by [n], any number of them. *)
Inductive repeats (n : NFA_py.NFA) : string -> Prop :=
| repeats_none : repeats n EmptyString
| repeats_more (s1 s2 : string) :
    accepts n s1 -> repeats n s2 -> repeats n (s1 ++ s2)%string.

(** What a quantified automaton reads after an input of [n]: more inputs of
    [n] when the quantifier loops, nothing otherwise. *)
Definition continued (loop : bool) (n : NFA_py.NFA) (w : string) : Prop :=
  if loop then repeats n w else w = EmptyString.

(** What a quantified automaton reads: nothing when the quantifier lets it
    [skip], or an input of [n] and what continues it. *)
Definition quantified (skip loop : bool) (n : NFA_py.NFA) (w : string) : Prop :=
  (skip = true /\ w = EmptyString) \/
  exists w1 w2, w = (w1 ++ w2)%string /\ accepts n w1 /\ continued loop n w2.

(** *** The inputs of an expression *)

Section Languages.
Context {A : Type}.
Variable L : A -> string -> Prop.

(** [w] is made of one input of each member of [l], in order. *)
Fixpoint in_sequence (l : list A) (w : string) : Prop :=
  match l with
  | [] => w = EmptyString
  | x :: l' => exists w1 w2, w = (w1 ++ w2)%string /\ L x w1 /\ in_sequence l' w2
  end.

(** [w] is in the sequence of one of the alternatives. *)
Definition in_alternatives (ch : list (list A)) (w : string) : Prop :=
  fold_right (fun alt P => in_sequence alt w \/ P) False ch.

End Languages.

(** [w] is made of inputs in [L], any number of them. *)
Inductive star (L : string -> Prop) : string -> Prop :=
| star_none : star L EmptyString
| star_more (w1 w2 : string) : L w1 -> star L w2 -> star L (w1 ++ w2)%string.

(** The inputs of [L] under the quantifier [q]; a quantifier that is none of
    [?], [*] and [+] leaves nothing. *)
Definition quantify (q : RegexCompiler_py.ParamValue) (L : string -> Prop) (w : string)
  : Prop :=
  match q with
  | RegexCompiler_py.PStr c =>
      if String.eqb c "?" then w = EmptyString \/ L w
      else if String.eqb c "*" then star L w
      else if String.eqb c "+"
           then exists w1 w2, w = (w1 ++ w2)%string /\ L w1 /\ star L w2
           else False
  | RegexCompiler_py.PInt _ => False
  end.

(** The inputs of a node before its quantifier applies, [inputs] giving
    those of its children: a Char node stands for its character, an Any
    node for any one character, a Range node for the characters between its
    bounds, a CharacterSet node for its alternatives, a group (or the root)
    for its alternatives, but for the empty input alone when it has none or
    when its first alternative is empty. *)
Definition base_language (inputs : RegexCompiler_py.ExprNode -> string -> Prop)
  (t : RegexCompiler_py.NodeType) (v : option string)
  (ps : list (string * RegexCompiler_py.ParamValue))
  (ch : list (list RegexCompiler_py.ExprNode)) (w : string) : Prop :=
  match t with
  | RegexCompiler_py.Char => v = Some w
  | RegexCompiler_py.Any => exists c, w = str1 c
  | RegexCompiler_py.Range =>
      exists c lo hi,
        w = str1 c /\
        dict_get String.eqb RegexCompiler_py.PARAM_RANGE_START ps
        = Some (RegexCompiler_py.PInt lo) /\
        dict_get String.eqb RegexCompiler_py.PARAM_RANGE_END ps
        = Some (RegexCompiler_py.PInt hi) /\
        lo <= nat_of_ascii c <= hi
  | RegexCompiler_py.CharacterSet => in_alternatives inputs ch w
  | RegexCompiler_py.Root | RegexCompiler_py.Group =>
      match ch with
      | [] | [] :: _ => w = EmptyString
      | _ => in_alternatives inputs ch w
      end
  | RegexCompiler_py.UNKNOWN => False
  end.

(** The inputs of an expression tree, as the builder reads it: those of
    its node, under the quantifier of the node when it has one. *)
Fixpoint language (node : RegexCompiler_py.ExprNode) (w : string) {struct node} : Prop :=
  match node with
  | RegexCompiler_py.mkExprNode t v ps ch =>
      match dict_get String.eqb "quantifier" ps with
      | Some q => quantify q (base_language language t v ps ch) w
      | None => base_language language t v ps ch w
      end
  end.

(** *** The file of an automaton, and the automaton loaded from it *)

(** What [to_json] writes for a set of targets. *)
Definition exported_targets (targets : list nat) : NFA_py.JValue :=
  match targets with
  | [t] => NFA_py.JStr (NFA_py.state_name t)
  | _ => NFA_py.JList (map NFA_py.state_name targets)
  end.

(** What [to_json] writes for a state. *)
Definition exported_state (st : NFA_py.State) : list (NFA_py.label * NFA_py.JValue) :=
  (Some "isTerminatingState"%string, NFA_py.JBool (NFA_py.is_final st))
    :: map (fun e : NFA_py.label * list nat => (fst e, exported_targets (snd e)))
           (NFA_py.transitions st)
    ++ match NFA_py.epsilon_transitions st with
       | [] => []
       | eps => [(Some NFA_py.EPSILON, NFA_py.JList (map NFA_py.state_name eps))]
       end.

(** What [json.load] reads back for a state. *)
Definition parsed_state (st : NFA_py.State) : list (string * NFA_py.JValue) :=
  map (fun kv : NFA_py.label * NFA_py.JValue => (DFA_py.json_key (fst kv), snd kv))
      (exported_state st).

(** The transitions of the state loaded for [st]: the labelled ones, then
    the epsilon ones under the key of epsilon. *)
Definition reloaded_transitions (st : NFA_py.State) : list (string * list DFA_py.ref) :=
  map (fun e : NFA_py.label * list nat =>
         (DFA_py.json_key (fst e), map DFA_py.state_object (snd e)))
      (NFA_py.transitions st)
  ++ match NFA_py.epsilon_transitions st with
     | [] => []
     | eps => [(NFA_py.EPSILON, map DFA_py.state_object eps)]
     end.

(** The state loaded for the state [st] at position [i]. *)
Definition reloaded_state (p : nat * NFA_py.State) : DFA_py.State :=
  DFA_py.mkState (NFA_py.state_name (fst p)) (NFA_py.is_final (snd p))
                 (reloaded_transitions (snd p)).

(** The loaded state [st'] stands for the state exported from position
    [fst p]: it has its name and its flag, and its transitions under the
    same keys in the same order, each with the same targets, as a set. *)
Definition restored (p : nat * NFA_py.State) (st' : DFA_py.State) : Prop :=
  DFA_py.id st' = NFA_py.state_name (fst p) /\
  DFA_py.is_final st' = NFA_py.is_final (snd p) /\
  Forall2 (fun e e' : string * list DFA_py.ref =>
             fst e = fst e' /\ forall r, In r (snd e) <-> In r (snd e'))
          (DFA_py.transitions st') (reloaded_transitions (snd p)).

(** The state that the first loop of the loader creates for the state
    [st] at position [i]: no transition yet. *)
Definition declared_state (p : nat * NFA_py.State) : DFA_py.State :=
  DFA_py.mkState (NFA_py.state_name (fst p)) (NFA_py.is_final (snd p)) [].

(** What [__construct_DFA] keeps true of the automaton it builds: the ids of
    its states are pairwise distinct; its start state and its accepting
    states are among its states; a transition leaves one of its states,
    under one of the loaded actions, for a state that is not empty and has
    the id of one of its states; and a state other than the start state is
    accepting exactly when it holds the final state of the NFA. *)
Definition constructed (d : DFA_py.DFA) : Prop :=
  NoDup (map DFA_py.dfa_id (DFA_py.dfa_all_states d)) /\
  In (DFA_py.dfa_start_state d) (DFA_py.dfa_all_states d) /\
  incl (DFA_py.final_states d) (DFA_py.dfa_all_states d) /\
  (forall src dst a,
      In (src, dst, a) (DFA_py.dfa_transitions d) ->
      In src (DFA_py.dfa_all_states d) /\
      (exists dst', In dst' (DFA_py.dfa_all_states d) /\
                    DFA_py.dfa_id dst' = DFA_py.dfa_id dst) /\
      In a (DFA_py.actions d) /\ DFA_py.dfa_states dst <> []) /\
  (forall s,
      In s (DFA_py.dfa_all_states d) ->
      DFA_py.dfa_id s <> DFA_py.dfa_id (DFA_py.dfa_start_state d) ->
      (In s (DFA_py.final_states d) <->
       exists f, DFA_py.final_state (DFA_py.nfa d) = Some f /\
                 mem DFA_py.ref_eqb f (DFA_py.dfa_states s) = true)).

(** *** The subset construction on a loaded automaton *)

(** A reference to one of the [size] states of the loaded automaton. *)
Definition state_ref (size : nat) (r : DFA_py.ref) : Prop :=
  exists i, r = DFA_py.state_object i /\ i < size.

(** A reference to an object of the loaded automaton: its start state
    object, or one of its states. *)
Definition object_ref (size : nat) (r : DFA_py.ref) : Prop :=
  r = DFA_py.start_object \/ state_ref size r.

(** The loaded automaton, all along the construction: [size] states, named
    by their positions, with transitions between them; the start state
    object bears the name of one of them and has no transition. *)
Definition loaded (size : nat) (m : DFA_py.NFA) : Prop :=
  List.length (DFA_py.states m) = size /\
  (forall i st, nth_error (DFA_py.states m) i = Some st ->
     DFA_py.id st = NFA_py.state_name i /\
     forall e r, In e (DFA_py.transitions st) -> In r (snd e) -> state_ref size r) /\
  (exists s, s < size /\ DFA_py.id (DFA_py.start_state m) = NFA_py.state_name s) /\
  DFA_py.transitions (DFA_py.start_state m) = [].

(** The lists of at most [k] members of [xs]. *)
Fixpoint lists_upto {A : Type} (k : nat) (xs : list A) : list (list A) :=
  match k with
  | O => [[]]
  | S k' => [] :: flat_map (fun x => map (cons x) (lists_upto k' xs)) xs
  end.

(** The ids a DFA state can have over [size] states. *)
Definition dfa_names (size : nat) : list string :=
  map (String.concat " ") (lists_upto size (map NFA_py.state_name (seq 0 size))).

(** The automaton and the stack of [__construct_DFA] inside its loop. *)
Definition under_construction (size : nat) (d : DFA_py.DFA) (stack : list DFA_py.DFA_State)
  : Prop :=
  constructed d /\ incl stack (DFA_py.dfa_all_states d) /\
  loaded size (DFA_py.nfa d) /\
  forall s, In s (DFA_py.dfa_all_states d) ->
            In (DFA_py.dfa_id s) (dfa_names size) /\
            forall r, In r (DFA_py.dfa_states s) -> object_ref size r.

End Vocabulary.

(** * Properties *)

(** ** Parser *)

Section ParserFacts.
Import RegexCompiler_py.
Variable expr_str : string.

Local Notation "'len'" := (String.length expr_str).

Lemma get_in_range (s : string) (n : nat) :
  n < String.length s -> exists c, String.get n s = Some c.
Proof.
  revert n; induction s as [|a s IH]; simpl; intros n Hn; [lia|].
  destruct n as [|n]; [eauto|]. apply IH; lia.
Qed.

Lemma eat_spec (p : nat) (c : option ascii) (b : bool) (p' : nat) :
  _eat expr_str p c = (b, p') ->
  (b = true /\ p' = S p /\ p < len) \/ (b = false /\ p' = p).
Proof.
  unfold _eat. destruct (Nat.leb_spec (String.length expr_str) p) as [H|H].
  - intros E; inversion E; auto.
  - destruct c as [c|].
    + destruct (String.get p expr_str) as [d|]; [destruct (Ascii.eqb d c)|];
        intros E; inversion E; subst; auto.
    + intros E; inversion E; subst; auto.
Qed.

Lemma eat_None_in_range (p : nat) :
  p < len -> _eat expr_str p None = (true, S p).
Proof.
  unfold _eat; intros H.
  destruct (Nat.leb_spec (String.length expr_str) p); [lia|reflexivity].
Qed.

Lemma peak_in_range (p k : nat) :
  p + k < len -> exists c, _peak expr_str p k = Some c /\ String.get (p + k) expr_str = Some c.
Proof.
  unfold _peak; intros H.
  destruct (Nat.leb_spec (String.length expr_str) (p + k)); [lia|].
  destruct (get_in_range expr_str (p + k) H) as [c Hc]; eauto.
Qed.

Lemma peak_Some_lt (p k : nat) (c : ascii) :
  _peak expr_str p k = Some c -> p + k < len /\ String.get (p + k) expr_str = Some c.
Proof.
  unfold _peak.
  destruct (Nat.leb_spec (String.length expr_str) (p + k)); [discriminate|auto].
Qed.

Lemma eat_peaked (p : nat) (c : ascii) :
  _peak expr_str p 0 = Some c -> _eat expr_str p (Some c) = (true, S p).
Proof.
  intros H; apply peak_Some_lt in H; destruct H as [Hlt Hg].
  rewrite Nat.add_0_r in *. unfold _eat.
  destruct (Nat.leb_spec (String.length expr_str) p); [lia|].
  rewrite Hg, Ascii.eqb_refl; reflexivity.
Qed.

Lemma assignQuantifier_pos (node node' : ExprNode) (p p' : nat) :
  _assignQuantifier expr_str node p = (node', p') ->
  p' = p \/ (p' = S p /\ p < len).
Proof.
  unfold _assignQuantifier.
  destruct (_eat expr_str p (Some PARAM_ONE_OR_ZERO)) as [q1 p1] eqn:E1.
  apply eat_spec in E1.
  destruct q1; [intros E; inversion E; subst; intuition congruence|].
  destruct (_eat expr_str p1 (Some PARAM_ONE_OR_MORE)) as [q2 p2] eqn:E2.
  apply eat_spec in E2.
  destruct q2; [intros E; inversion E; subst; intuition congruence|].
  destruct (_eat expr_str p2 (Some PARAM_ANY_OR_MORE)) as [q3 p3] eqn:E3.
  apply eat_spec in E3.
  destruct q3; intros E; inversion E; subst; intuition congruence.
Qed.

Lemma parseChar_in_range (p : nat) :
  p < len ->
  exists c, _peak expr_str p 0 = Some c /\
            _parseChar expr_str p = (mkExprNode Char (Some (str1 c)) [] [], S p).
Proof.
  intros H. destruct (peak_in_range p 0) as [c [Hc _]]; [lia|].
  exists c; split; [exact Hc|].
  unfold _parseChar. rewrite Hc, (eat_peaked p c Hc). reflexivity.
Qed.

Lemma parseRange_pos (p : nat) (r : option ExprNode) (p' : nat) :
  _parseRange expr_str p = Ok (r, p') ->
  (r = None /\ p' = p) \/ (r <> None /\ p' = p + 3 /\ p + 2 < len).
Proof.
  unfold _parseRange.
  destruct (option_eqb Ascii.eqb (_peak expr_str p 1) (Some "-"%char)); simpl;
    [|intros E; inversion E; auto].
  destruct (_peak expr_str p 2) as [e|] eqn:P2; simpl; [|intros E; inversion E; auto].
  apply peak_Some_lt in P2; destruct P2 as [Hlt _].
  rewrite (eat_None_in_range p), (eat_None_in_range (S p)), (eat_None_in_range (S (S p)))
    by lia.
  destruct (_peak expr_str p 0) as [s|]; [|discriminate].
  destruct (Nat.ltb (nat_of_ascii e) (nat_of_ascii s)); [discriminate|].
  intros E; inversion E; subst. right; repeat split; [discriminate|lia|lia].
Qed.

Lemma parseRange_not_OutOfFuel (p : nat) : _parseRange expr_str p <> OutOfFuel.
Proof.
  unfold _parseRange.
  destruct (_ && _); [|discriminate].
  destruct (_eat expr_str p None) as [? p1].
  destruct (_eat expr_str p1 None) as [? p2].
  destruct (_eat expr_str p2 None) as [? p3].
  destruct (_peak expr_str p 0); [|discriminate].
  destruct (_peak expr_str p 2); [|discriminate].
  destruct (Nat.ltb _ _); discriminate.
Qed.

Lemma set_item_pos (ch ch' : list (list ExprNode)) (p p' : nat) :
  p < len -> set_item expr_str ch p = Ok (ch', p') -> p < p' <= len.
Proof.
  intros Hp. unfold set_item.
  destruct (_parseRange expr_str p) as [[r p1]| |] eqn:E; simpl; try discriminate.
  apply parseRange_pos in E. destruct E as [[-> ->]|[Hr [-> Hlt]]].
  - destruct (parseChar_in_range p Hp) as [c [_ ->]].
    intros E; inversion E; subst; lia.
  - destruct r; [|congruence]. intros E; inversion E; subst; lia.
Qed.

Lemma set_item_not_OutOfFuel (ch : list (list ExprNode)) (p : nat) :
  set_item expr_str ch p <> OutOfFuel.
Proof.
  unfold set_item. pose proof (parseRange_not_OutOfFuel p) as H.
  destruct (_parseRange expr_str p) as [[r p1]| |]; simpl; try congruence.
  destruct r; [discriminate|]. destruct (_parseChar expr_str p1); discriminate.
Qed.

(** One iteration of the loop of [_parseSet] moves the cursor forward. *)
Lemma set_body_advances (ch : list (list ExprNode)) (esc : bool) (p : nat)
  (ch' : list (list ExprNode)) (esc' : bool) (p' : nat) :
  set_body expr_str ch esc p = Ok (Continue (ch', esc', p')) -> p < p' <= len.
Proof.
  unfold set_body. destruct (_peak expr_str p 0) as [c|] eqn:P; [|discriminate].
  apply peak_Some_lt in P; destruct P as [Hlt _]; rewrite Nat.add_0_r in Hlt.
  destruct (Ascii.eqb c "\"%char).
  - rewrite (eat_None_in_range p Hlt). intros E; inversion E; subst; lia.
  - assert (Hitem : forall b, ('(c0, p1) <- set_item expr_str ch p ;;
                               Ok (Continue (c0, b, p1))) = Ok (Continue (ch', esc', p')) ->
                              p < p' <= len).
    { intros b. destruct (set_item expr_str ch p) as [[c0 p1]| |] eqn:E; simpl;
        try discriminate.
      intros E'; inversion E'; subst. eapply set_item_pos; eauto. }
    destruct esc; [apply Hitem|].
    destruct (Ascii.eqb c "]"%char); [discriminate|apply Hitem].
Qed.

Lemma set_body_not_OutOfFuel (ch : list (list ExprNode)) (esc : bool) (p : nat) :
  set_body expr_str ch esc p <> OutOfFuel.
Proof.
  unfold set_body. destruct (_peak expr_str p 0) as [c|]; [|discriminate].
  pose proof (set_item_not_OutOfFuel ch p) as H.
  destruct (Ascii.eqb c "\"%char).
  - destruct (_eat expr_str p None); discriminate.
  - destruct esc; [|destruct (Ascii.eqb c "]"%char); [discriminate|]];
      destruct (set_item expr_str ch p) as [[? ?]| |]; simpl; congruence.
Qed.

Lemma set_loop_total (fuel : nat) :
  forall (ch : list (list ExprNode)) (esc : bool) (p : nat),
    p <= len -> len - p < fuel ->
    set_loop expr_str fuel ch esc p <> OutOfFuel /\
    forall ch' p', set_loop expr_str fuel ch esc p = Ok (ch', p') -> p <= p' <= len.
Proof.
  induction fuel as [|fuel IH]; intros ch esc p Hp Hfuel; [lia|].
  simpl. unfold _done. destruct (Nat.leb_spec (String.length expr_str) p) as [Hd|Hd].
  - split; [discriminate|]. intros ch' p' E; inversion E; subst; lia.
  - pose proof (set_body_not_OutOfFuel ch esc p) as Hnf.
    destruct (set_body expr_str ch esc p) as [[[[c1 e1] p1]|]| |] eqn:E; simpl;
      try congruence.
    + apply set_body_advances in E.
      destruct (IH c1 e1 p1) as [H1 H2]; [lia|lia|].
      split; [exact H1|]. intros ch' p' E'. apply H2 in E'. lia.
    + split; [discriminate|]. intros ch' p' E'; inversion E'; subst. lia.
    + split; discriminate.
Qed.

Lemma parseSet_total (fuel p : nat) :
  p <= len -> len - p < fuel ->
  _parseSet expr_str fuel p <> OutOfFuel /\
  forall node p', _parseSet expr_str fuel p = Ok (node, p') -> p <= p' <= len.
Proof.
  intros Hp Hf. unfold _parseSet.
  destruct (set_loop_total fuel [] false p Hp Hf) as [H1 H2].
  destruct (set_loop expr_str fuel [] false p) as [[ch p1]| |]; simpl; try congruence.
  - split; [discriminate|]. intros node p' E; inversion E; subst. eapply H2; eauto.
  - split; discriminate.
Qed.

Lemma parseChar_pos (p : nat) (node : ExprNode) (p' : nat) :
  _parseChar expr_str p = (node, p') -> p' = p \/ (p' = S p /\ p < len).
Proof.
  unfold _parseChar. destruct (_eat expr_str p (_peak expr_str p 0)) as [b p1] eqn:E.
  apply eat_spec in E. intros E'; inversion E'; subst. intuition.
Qed.

Lemma peak_is_true (p : nat) (c : ascii) :
  peak_is expr_str p c = true -> _peak expr_str p 0 = Some c.
Proof.
  unfold peak_is. destruct (_peak expr_str p 0) as [d|]; simpl; [|discriminate].
  intros H; apply Ascii.eqb_eq in H; congruence.
Qed.

(** One iteration of the loop of [_parseGroup] answers, and moves the
    cursor forward when the loop goes on. *)
Lemma group_body_advances
  (parse_group parse_set : nat -> result (ExprNode * nat))
  (is_root : bool) (ch : list (list ExprNode)) (cur p : nat) :
  well_behaved expr_str parse_group p -> well_behaved expr_str parse_set p -> p < len ->
  group_body expr_str parse_group parse_set is_root ch cur p <> OutOfFuel /\
  forall ch' cur' p',
    group_body expr_str parse_group parse_set is_root ch cur p
      = Ok (Continue (ch', cur', p')) -> p < p' <= len.
Proof.
  intros Hg Hs Hp. unfold group_body.
  assert (Hq : forall node q (k : nat),
             p < q <= len ->
             (let (node', p4) := _assignQuantifier expr_str node q in
              Ok (Continue (append_at cur node' ch, cur, p4))) <> OutOfFuel /\
             forall ch' cur' p',
               (let (node', p4) := _assignQuantifier expr_str node q in
                Ok (Continue (append_at cur node' ch, cur, p4)))
                 = Ok (Continue (ch', cur', p')) -> p < p' <= len).
  { intros node q _ Hq. destruct (_assignQuantifier expr_str node q) as [node' p4] eqn:E.
    apply assignQuantifier_pos in E. split; [discriminate|].
    intros ch' cur' p' E'; inversion E'; subst. lia. }
  destruct (_eat expr_str p (Some "("%char)) as [b1 p1] eqn:E1.
  apply eat_spec in E1. destruct E1 as [(-> & -> & _)|(-> & ->)].
  - destruct (Hg (S p)) as [Hnf Hpos]; [lia|].
    destruct (parse_group (S p)) as [[node p2]| |]; simpl; try congruence;
      [|split; discriminate].
    specialize (Hpos node p2 eq_refl).
    destruct (_eat expr_str p2 (Some ")"%char)) as [b3 p3] eqn:E3.
    apply eat_spec in E3. destruct E3 as [(-> & -> & ?)|(-> & ->)]; simpl.
    + apply (Hq node (S p2) 0); lia.
    + split; discriminate.
  - destruct (peak_is expr_str p ")").
    { destruct is_root; split; discriminate. }
    destruct (_eat expr_str p (Some "["%char)) as [b2 p2] eqn:E2.
    apply eat_spec in E2. destruct E2 as [(-> & -> & _)|(-> & ->)].
    + destruct (Hs (S p)) as [Hnf Hpos]; [lia|].
      destruct (parse_set (S p)) as [[node p3]| |]; simpl; try congruence;
        [|split; discriminate].
      specialize (Hpos node p3 eq_refl).
      destruct (_eat expr_str p3 (Some "]"%char)) as [b4 p4] eqn:E4.
      apply eat_spec in E4. destruct E4 as [(-> & -> & ?)|(-> & ->)]; simpl.
      * apply (Hq node (S p3) 0); lia.
      * split; discriminate.
    + destruct (peak_is expr_str p "\").
      { rewrite (eat_None_in_range p Hp).
        destruct (_parseChar expr_str (S p)) as [node p4] eqn:E4.
        apply parseChar_pos in E4. apply (Hq node p4 0); lia. }
      destruct (peak_is expr_str p ".") eqn:Pd.
      { apply peak_is_true in Pd. unfold _parseAny. rewrite (eat_peaked p _ Pd).
        apply (Hq _ (S p) 0); lia. }
      destruct (peak_is expr_str p "|") eqn:Pb.
      { apply peak_is_true in Pb. rewrite (eat_peaked p _ Pb).
        split; [discriminate|]. intros ch' cur' p' E; inversion E; subst; lia. }
      destruct (negb _).
      * destruct (parseChar_in_range p Hp) as [c [_ ->]]. apply (Hq _ (S p) 0); lia.
      * split; discriminate.
Qed.

Lemma group_loop_total (fuel : nat) :
  forall (is_root : bool) (ch : list (list ExprNode)) (cur p : nat),
    p <= len -> len - p < fuel ->
    group_loop expr_str fuel is_root ch cur p <> OutOfFuel /\
    forall ch' p', group_loop expr_str fuel is_root ch cur p = Ok (ch', p') -> p <= p' <= len.
Proof.
  induction fuel as [|fuel IH]; intros is_root ch cur p Hp Hfuel; [lia|].
  simpl. unfold _done. destruct (Nat.leb_spec (String.length expr_str) p) as [Hd|Hd].
  - split; [discriminate|]. intros ch' p' E; inversion E; subst; lia.
  - set (pg := fun p0 : nat =>
                 '(ch0, p'0) <- group_loop expr_str fuel false [[]] 0 p0 ;;
                 Ok (mkExprNode Group None [] ch0, p'0)).
    assert (Hg : well_behaved expr_str pg p).
    { intros q Hq. unfold pg. destruct (IH false [[]] 0 q) as [H1 H2]; [lia|lia|].
      destruct (group_loop expr_str fuel false [[]] 0 q) as [[c0 q0]| |]; simpl;
        try congruence; [|split; discriminate].
      split; [discriminate|]. intros node q' E; inversion E; subst. eapply H2; eauto. }
    assert (Hs : well_behaved expr_str (_parseSet expr_str fuel) p).
    { intros q Hq. apply parseSet_total; lia. }
    destruct (group_body_advances pg (_parseSet expr_str fuel) is_root ch cur p Hg Hs Hd)
      as [Hnf Hadv].
    destruct (group_body expr_str pg (_parseSet expr_str fuel) is_root ch cur p)
      as [[[[c1 k1] p1]|]| |]; simpl; try congruence.
    + specialize (Hadv c1 k1 p1 eq_refl).
      destruct (IH is_root c1 k1 p1) as [H1 H2]; [lia|lia|].
      split; [exact H1|]. intros ch' p' E'. apply H2 in E'. lia.
    + split; [discriminate|]. intros ch' p' E'; inversion E'; subst. lia.
    + split; discriminate.
Qed.

End ParserFacts.

(** ** Containers *)

Section ContainerFacts.
Context {K : Type} (eqk : K -> K -> bool).
Hypothesis eqk_eq : forall a b, eqk a b = true <-> a = b.

Lemma mem_In (x : K) (s : list K) : mem eqk x s = true <-> In x s.
Proof.
  unfold mem. rewrite existsb_exists. split.
  - intros [y [Hy E]]. apply eqk_eq in E. subst; assumption.
  - intros H. exists x. split; [assumption|]. apply eqk_eq; reflexivity.
Qed.

Lemma set_add_In (x y : K) (s : list K) : In y (set_add eqk x s) <-> In y s \/ y = x.
Proof.
  unfold set_add. destruct (mem eqk x s) eqn:E.
  - apply mem_In in E. split; [auto|]. intros [H| ->]; assumption.
  - rewrite in_app_iff. simpl. intuition.
Qed.

Lemma set_union_In (y : K) (t : list K) :
  forall s, In y (set_union eqk s t) <-> In y s \/ In y t.
Proof.
  unfold set_union. induction t as [|x t IH]; intros s; simpl.
  - intuition.
  - rewrite IH, set_add_In. intuition.
Qed.

End ContainerFacts.

Section DictFacts.
Context {V : Type}.

Lemma dict_get_set_same (k : string) (v : V) (d : list (string * V)) :
  dict_get String.eqb k (dict_set String.eqb k v d) = Some v.
Proof.
  induction d as [|[k' v'] d IH]; simpl.
  - rewrite String.eqb_refl; reflexivity.
  - destruct (String.eqb k k') eqn:E; simpl; rewrite E; [reflexivity|exact IH].
Qed.

Lemma dict_get_set_other (k k0 : string) (v : V) (d : list (string * V)) :
  k0 <> k ->
  dict_get String.eqb k0 (dict_set String.eqb k v d) = dict_get String.eqb k0 d.
Proof.
  intros Hne. induction d as [|[k' v'] d IH]; simpl.
  - destruct (String.eqb k0 k) eqn:E; [apply String.eqb_eq in E; congruence|reflexivity].
  - destruct (String.eqb k k') eqn:E; simpl.
    + apply String.eqb_eq in E; subst k'.
      destruct (String.eqb k0 k) eqn:E'; [apply String.eqb_eq in E'; congruence|reflexivity].
    + rewrite IH; reflexivity.
Qed.

End DictFacts.

Section ResultFacts.
Context {A B : Type}.

(** A loop whose body runs in the error monad stops at the first error. *)
Lemma fold_bind_not_ok (g : B -> A -> result A) (l : list B) (r : result A) :
  is_ok r = false -> fold_left (fun acc x => bind acc (g x)) l r = r.
Proof.
  induction l as [|x l IH]; intros H; simpl; [reflexivity|].
  destruct r; simpl in *; try discriminate; apply IH; reflexivity.
Qed.

(** A relation that every iteration of such a loop keeps holds over the
    whole loop. *)
Lemma fold_bind_preserves (P : A -> A -> Prop) (g : B -> A -> result A) :
  (forall a, P a a) ->
  (forall a b c, P a b -> P b c -> P a c) ->
  (forall x a a', g x a = Ok a' -> P a a') ->
  forall l a a', fold_left (fun acc x => bind acc (g x)) l (Ok a) = Ok a' -> P a a'.
Proof.
  intros Hrefl Htrans Hstep. induction l as [|x l IH]; intros a a' H; simpl in H.
  - inversion H; subst; apply Hrefl.
  - destruct (g x a) as [a1| |] eqn:E.
    + apply Htrans with a1; [eapply Hstep; eassumption|apply IH; assumption].
    + rewrite fold_bind_not_ok in H by reflexivity. discriminate.
    + rewrite fold_bind_not_ok in H by reflexivity. discriminate.
Qed.

Lemma fold_bind_answers (g : B -> A -> result A) :
  (forall x a, g x a <> OutOfFuel) ->
  forall l r, r <> OutOfFuel -> fold_left (fun acc x => bind acc (g x)) l r <> OutOfFuel.
Proof.
  intros Hg. induction l as [|x l IH]; intros r Hr; simpl; [assumption|].
  apply IH. destruct r; simpl; [apply Hg|discriminate|congruence].
Qed.

Lemma fold_left_invariant (I : A -> Prop) (f : A -> B -> A) :
  (forall a x, I a -> I (f a x)) -> forall l a, I a -> I (fold_left f l a).
Proof.
  intros Hf. induction l as [|x l IH]; intros a Ha; simpl; [assumption|].
  apply IH, Hf, Ha.
Qed.

End ResultFacts.

(** ** Subset construction and the NFA it reads *)

Section ReachFacts.
Import DFA_py.
Import NFA_py(EPSILON).

Lemma ref_eqb_eq (a b : ref) : ref_eqb a b = true <-> a = b.
Proof.
  destruct a as [|i], b as [|j]; simpl; split; try congruence; try discriminate.
  - intros H; apply Nat.eqb_eq in H; congruence.
  - intros H; inversion H; apply Nat.eqb_refl.
Qed.

Lemma nth_error_list_set_same {A : Type} (l : list A) :
  forall i x y, nth_error l i = Some y -> nth_error (list_set i x l) i = Some x.
Proof.
  induction l as [|a l IH]; intros [|i] x y H; simpl in *; try discriminate; eauto.
Qed.

Lemma nth_error_list_set_other {A : Type} (l : list A) :
  forall i j x, i <> j -> nth_error (list_set i x l) j = nth_error l j.
Proof.
  induction l as [|a l IH]; intros [|i] [|j] x H; simpl; try reflexivity;
    try congruence. apply IH; congruence.
Qed.

Lemma map_list_set {A C : Type} (f : A -> C) (l : list A) :
  forall i x y, nth_error l i = Some y -> f x = f y -> map f (list_set i x l) = map f l.
Proof.
  induction l as [|a l IH]; intros [|i] x y H E; simpl in *; try discriminate.
  - inversion H; subst. rewrite E; reflexivity.
  - f_equal. eapply IH; eassumption.
Qed.

Lemma deref_assign_same (n : NFA) (r : ref) (st st' : State) :
  deref n r = Ok st -> deref (assign n r st') r = Ok st'.
Proof.
  destruct r as [|i]; simpl; [reflexivity|].
  destruct (nth_error (states n) i) eqn:E; [|discriminate]. intros _.
  rewrite (nth_error_list_set_same _ _ _ _ E). reflexivity.
Qed.

Lemma deref_assign_other (n : NFA) (r r' : ref) (st' : State) :
  r' <> r -> deref (assign n r st') r' = deref n r'.
Proof.
  destruct r as [|i], r' as [|j]; simpl; intros H; try reflexivity; try congruence.
  rewrite nth_error_list_set_other by congruence. reflexivity.
Qed.

Lemma eps_part_dict_set (action : string) (v : list ref) (tr : list (string * list ref)) :
  action <> EPSILON ->
  filter (fun e : string * list ref => String.eqb (fst e) EPSILON)
         (dict_set String.eqb action v tr)
  = filter (fun e => String.eqb (fst e) EPSILON) tr.
Proof.
  intros Hne. induction tr as [|[k w] tr IH]; simpl.
  - destruct (String.eqb action EPSILON) eqn:E; [apply String.eqb_eq in E; congruence|].
    reflexivity.
  - destruct (String.eqb action k) eqn:E; simpl.
    + apply String.eqb_eq in E; subst k.
      destruct (String.eqb action EPSILON) eqn:E'; [apply String.eqb_eq in E'; congruence|].
      reflexivity.
    + rewrite IH. reflexivity.
Qed.

Lemma assign_view (n : NFA) (r : ref) (st st' : State) :
  deref n r = Ok st -> eps_view_state st' = eps_view_state st ->
  eps_view (assign n r st') = eps_view n.
Proof.
  unfold eps_view. destruct r as [|i]; simpl.
  - intros H E; inversion H; subst. rewrite E; reflexivity.
  - destruct (nth_error (states n) i) eqn:Hn; [|discriminate].
    intros H E; inversion H; subst.
    rewrite (map_list_set eps_view_state _ _ _ _ Hn E). reflexivity.
Qed.

(** Two NFAs with the same view give [deref] the same answer, up to the
    view. *)
Lemma deref_view (n n' : NFA) (r : ref) :
  eps_view n = eps_view n' ->
  match deref n r, deref n' r with
  | Ok s, Ok s' => eps_view_state s = eps_view_state s'
  | Raise e, Raise e' => e = e'
  | _, _ => False
  end.
Proof.
  unfold eps_view; intros H; apply pair_equal_spec in H; destruct H as [Hs Hst].
  destruct r as [|i]; simpl; [assumption|].
  assert (E : nth_error (map eps_view_state (states n)) i
              = nth_error (map eps_view_state (states n')) i) by (rewrite Hs; reflexivity).
  rewrite !nth_error_map in E.
  destruct (nth_error (states n) i), (nth_error (states n') i); simpl in E;
    try discriminate; [congruence|reflexivity].
Qed.

Lemma view_length (n n' : NFA) :
  eps_view n = eps_view n' -> List.length (states n) = List.length (states n').
Proof.
  unfold eps_view; intros H; apply pair_equal_spec in H; destruct H as [Hs Hst].
  rewrite <- (length_map eps_view_state (states n)), Hs, length_map. reflexivity.
Qed.

Lemma state_named_view (n n' : NFA) (name : string) :
  eps_view n = eps_view n' -> state_named n name = state_named n' name.
Proof.
  intros H. unfold state_named. rewrite (view_length n n' H). reflexivity.
Qed.

(** The loop of [__epsilon_closure] over the transitions of a state only
    acts on the entry of the epsilon key. *)
Lemma closure_fold_eps (tr : list (string * list ref)) :
  forall acc : list ref * list ref,
    fold_left (fun acc (entry : string * list ref) =>
                 fold_left (fun (acc' : list ref * list ref) target =>
                              let (a, k) := acc' in
                              if negb (mem ref_eqb target a) && String.eqb (fst entry) EPSILON
                              then (a ++ [target], target :: k)
                              else (a, k))
                           (snd entry) acc)
              tr acc
    = fold_left (fun acc (entry : string * list ref) =>
                   fold_left (fun (acc' : list ref * list ref) target =>
                                let (a, k) := acc' in
                                if negb (mem ref_eqb target a) && String.eqb (fst entry) EPSILON
                                then (a ++ [target], target :: k)
                                else (a, k))
                             (snd entry) acc)
                (filter (fun e => String.eqb (fst e) EPSILON) tr) acc.
Proof.
  induction tr as [|[k w] tr IH]; intros acc; simpl; [reflexivity|].
  destruct (String.eqb k EPSILON) eqn:E; simpl; rewrite ?E.
  - apply IH.
  - rewrite <- IH. f_equal.
    clear. induction w as [|t w IHw]; simpl; [reflexivity|].
    destruct acc as [a k0]; simpl. rewrite andb_false_r. exact IHw.
Qed.

Lemma closure_loop_view (n n' : NFA) :
  eps_view n = eps_view n' ->
  forall fuel all_states stack,
    closure_loop fuel n all_states stack = closure_loop fuel n' all_states stack.
Proof.
  intros Hv. induction fuel as [|fuel IH]; intros all_states stack; simpl; [reflexivity|].
  destruct stack as [|state stack']; [reflexivity|].
  pose proof (deref_view n n' state Hv) as H1.
  destruct (deref n state) as [popped| |], (deref n' state) as [popped'| |]; simpl;
    try contradiction; try congruence.
  apply pair_equal_spec in H1; destruct H1 as [Hid Heps].
  rewrite Hid, (state_named_view n n' _ Hv).
  destruct (state_named n' (id popped')) as [r| |]; simpl; try reflexivity.
  pose proof (deref_view n n' r Hv) as H2.
  destruct (deref n r) as [st| |], (deref n' r) as [st'| |]; simpl;
    try contradiction; try congruence.
  apply pair_equal_spec in H2; destruct H2 as [Hid2 Heps2].
  rewrite (closure_fold_eps (transitions st)), (closure_fold_eps (transitions st')).
  unfold eps_part in Heps2. rewrite Heps2.
  destruct (fold_left _ _ _) as [all' stack'']. apply IH.
Qed.

Lemma epsilon_closure_view (n n' : NFA) (r : ref) :
  eps_view n = eps_view n' -> __epsilon_closure n r = __epsilon_closure n' r.
Proof.
  intros H. unfold __epsilon_closure. rewrite (view_length n n' H).
  apply closure_loop_view; assumption.
Qed.

Lemma closures_view (n n' : NFA) (l : list ref) :
  eps_view n = eps_view n' -> closures n l = closures n' l.
Proof.
  intros H. unfold closures. generalize (@Ok (list ref) []).
  induction l as [|r l IH]; intros acc; simpl; [reflexivity|].
  rewrite (epsilon_closure_view n n' r H). apply IH.
Qed.

(** *** The closure loop answers *)

Lemma deref_Ok_objects (n : NFA) (r : ref) (st : State) :
  deref n r = Ok st -> In r (objects n).
Proof.
  unfold objects. destruct r as [|i]; simpl; [auto|].
  destruct (nth_error (states n) i) eqn:E; [|discriminate]. intros _. right.
  apply in_map, in_seq. split; [lia|]. simpl.
  apply nth_error_Some. congruence.
Qed.

Lemma deref_answers (n : NFA) (r : ref) : deref n r <> OutOfFuel.
Proof.
  destruct r as [|i]; simpl; [discriminate|].
  destruct (nth_error (states n) i); discriminate.
Qed.

Lemma state_named_answers (n : NFA) (name : string) : state_named n name <> OutOfFuel.
Proof.
  unfold state_named. destruct (int (tail name)) as [i| |] eqn:E; simpl.
  - destruct (Nat.ltb i (List.length (states n))); discriminate.
  - discriminate.
  - unfold int in E. destruct (tail name); [discriminate|].
    destruct (NilEmpty.uint_of_string _); discriminate.
Qed.

(** What the loop over the transitions of a popped state leaves: the stack
    with some new objects on top, none of which was known before, and the
    known objects with these added. *)
Lemma closure_push (tr : list (string * list ref)) (all_states stack : list ref) :
  forall all' stack',
    fold_left (fun acc (entry : string * list ref) =>
                 fold_left (fun (acc' : list ref * list ref) target =>
                              let (a, k) := acc' in
                              if negb (mem ref_eqb target a) && String.eqb (fst entry) EPSILON
                              then (a ++ [target], target :: k)
                              else (a, k))
                           (snd entry) acc)
              tr (all_states, stack) = (all', stack') ->
    exists new,
      stack' = new ++ stack /\ NoDup new /\
      (forall x, In x new -> ~ In x all_states) /\
      (forall x, In x all' <-> In x all_states \/ In x new).
Proof.
  set (I := fun acc : list ref * list ref =>
              exists new,
                snd acc = new ++ stack /\ NoDup new /\
                (forall x, In x new -> ~ In x all_states) /\
                (forall x, In x (fst acc) <-> In x all_states \/ In x new)).
  intros all' stack' H.
  assert (HI : I (all', stack')).
  { rewrite <- H. apply fold_left_invariant.
    - intros acc entry Hacc. apply fold_left_invariant; [|exact Hacc].
      intros [a k] target [new [Hk [Hnd [Hnew Hall]]]]. simpl in Hk, Hall.
      destruct (negb (mem ref_eqb target a) && String.eqb (fst entry) EPSILON) eqn:E.
      + apply andb_true_iff in E. destruct E as [E _]. apply negb_true_iff in E.
        assert (Hta : ~ In target a).
        { intros Hin. apply (mem_In ref_eqb ref_eqb_eq) in Hin. congruence. }
        exists (target :: new). simpl. split; [congruence|]. split.
        * constructor; [|assumption]. intros Hin. apply Hta, Hall. auto.
        * split.
          -- intros x [<-|Hx]; [|auto]. intros Hin. apply Hta, Hall. auto.
          -- intros x. rewrite in_app_iff, Hall. simpl. intuition.
      + exists new. auto.
    - exists []. simpl. split; [reflexivity|]. split; [constructor|].
      split; [intros x []|]. intros x. tauto. }
  exact HI.
Qed.

Lemma closure_loop_answers (n : NFA) :
  forall fuel popped all_states stack,
    NoDup popped -> NoDup stack ->
    (forall x, In x popped -> ~ In x stack) ->
    incl popped all_states -> incl stack all_states ->
    incl popped (objects n) ->
    List.length (objects n) - List.length popped < fuel ->
    closure_loop fuel n all_states stack <> OutOfFuel.
Proof.
  induction fuel as [|fuel IH];
    intros popped all_states stack Hp Hs Hdis Hpa Hsa Hpo Hfuel; [lia|].
  simpl. destruct stack as [|state stack']; [discriminate|].
  pose proof (deref_answers n state) as Hd.
  destruct (deref n state) as [st0| |] eqn:Ed; simpl; try congruence.
  pose proof (state_named_answers n (id st0)) as Hn.
  destruct (state_named n (id st0)) as [r| |]; simpl; try congruence.
  pose proof (deref_answers n r) as Hd2.
  destruct (deref n r) as [st| |]; simpl; try congruence.
  destruct (fold_left _ (transitions st) (all_states, stack')) as [all' stack''] eqn:Ef.
  apply closure_push in Ef. destruct Ef as [new [-> [Hnd [Hnew Hall]]]].
  apply NoDup_cons_iff in Hs. destruct Hs as [Hnotin Hs'].
  assert (Hstate : ~ In state popped) by (intros Hin; apply (Hdis _ Hin); left; reflexivity).
  assert (Hlen : List.length (state :: popped) <= List.length (objects n)).
  { apply NoDup_incl_length; [constructor; assumption|].
    intros x [<-|Hx]; [eapply deref_Ok_objects; eassumption|auto]. }
  change (List.length (state :: popped)) with (S (List.length popped)) in Hlen.
  apply (IH (state :: popped)).
  - constructor; assumption.
  - apply NoDup_app; [assumption|assumption|].
    intros x Hx Hx'. apply (Hnew x Hx). apply Hsa. right; assumption.
  - intros x [<-|Hx] Hin; apply in_app_or in Hin; destruct Hin as [Hin|Hin].
    + apply (Hnew _ Hin). apply Hsa. left; reflexivity.
    + contradiction.
    + apply (Hnew _ Hin). apply Hpa. assumption.
    + apply (Hdis _ Hx). right; assumption.
  - intros x [<-|Hx]; apply Hall; left; [apply Hsa; left; reflexivity|apply Hpa; assumption].
  - intros x Hx. apply Hall. apply in_app_or in Hx. destruct Hx as [Hx|Hx]; [auto|].
    left. apply Hsa. right; assumption.
  - intros x [<-|Hx]; [eapply deref_Ok_objects; eassumption|auto].
  - change (List.length (state :: popped)) with (S (List.length popped)). lia.
Qed.

(** [__epsilon_closure] returns or raises: its loop never needs more
    iterations than the NFA has objects. *)
Lemma epsilon_closure_answers (n : NFA) (r : ref) : __epsilon_closure n r <> OutOfFuel.
Proof.
  unfold __epsilon_closure. apply (closure_loop_answers n _ []).
  - constructor.
  - constructor; [intros []|constructor].
  - intros x [].
  - intros x [].
  - apply incl_refl.
  - intros x [].
  - unfold objects. simpl. rewrite length_map, length_seq. lia.
Qed.

Lemma get_reachable_states_answers (n : NFA) (T : DFA_State) (action : string) :
  __get_reachable_states n T action <> OutOfFuel.
Proof.
  unfold __get_reachable_states. apply fold_bind_answers; [|discriminate].
  intros r [R m]. unfold reach_state.
  pose proof (deref_answers m r) as Hd.
  destruct (deref m r) as [st| |]; simpl; try congruence.
  destruct (dict_get String.eqb action (transitions st)) as [tg|]; [|discriminate].
  assert (Hc : closures m tg <> OutOfFuel).
  { unfold closures. apply fold_bind_answers; [|discriminate].
    intros t acc. pose proof (epsilon_closure_answers m t) as He.
    destruct (__epsilon_closure m t); simpl; congruence. }
  destruct (closures m tg); simpl; congruence.
Qed.

Lemma closures_fold_In (n : NFA) (l : list ref) :
  forall acc cl,
    fold_left (fun acc next_state =>
                 bind acc (fun next =>
                   c <- __epsilon_closure n next_state ;;
                   Ok (set_union ref_eqb next c)))
              l (Ok acc) = Ok cl ->
    forall x, In x cl <->
              In x acc \/ exists t c, In t l /\ __epsilon_closure n t = Ok c /\ In x c.
Proof.
  induction l as [|t l IH]; intros acc cl H x; simpl in H.
  - inversion H; subst. split; [auto|]. intros [Hx|[t [c [[] _]]]]; assumption.
  - destruct (__epsilon_closure n t) as [c| |] eqn:E; simpl in H;
      try (rewrite fold_bind_not_ok in H by reflexivity; discriminate).
    rewrite (IH _ _ H x), (set_union_In ref_eqb ref_eqb_eq). split.
    + intros [[Hx|Hx]|[t' [c' [Ht' Hc']]]]; [auto| |].
      * right; exists t, c; simpl; auto.
      * right; exists t', c'; simpl; tauto.
    + intros [Hx|[t' [c' [[<-|Ht'] [Hc' Hx]]]]]; [auto| |].
      * left; right. congruence.
      * right; exists t', c'; auto.
Qed.

Lemma closures_In (n : NFA) (l cl : list ref) :
  closures n l = Ok cl ->
  forall x, In x cl <-> exists t c, In t l /\ __epsilon_closure n t = Ok c /\ In x c.
Proof.
  intros H x. rewrite (closures_fold_In n l [] cl H x). simpl. tauto.
Qed.

(** What one iteration of [__get_reachable_states] does to the NFA. *)
Lemma reach_state_spec (action : string) (r : ref) (R R' : list ref) (n n' : NFA) :
  reach_state action r (R, n) = Ok (R', n') ->
  exists st, deref n r = Ok st /\
    match dict_get String.eqb action (transitions st) with
    | None => n' = n
    | Some tg =>
        exists cl, closures n tg = Ok cl /\
          n' = assign n r (mkState (id st) (is_final st)
                             (dict_set String.eqb action (set_union ref_eqb tg cl)
                                       (transitions st)))
    end.
Proof.
  unfold reach_state. destruct (deref n r) as [st| |]; simpl; try discriminate.
  intros H. exists st. split; [reflexivity|].
  destruct (dict_get String.eqb action (transitions st)) as [tg|].
  - destruct (closures n tg) as [cl| |]; simpl in H; try discriminate.
    exists cl. split; [reflexivity|]. inversion H; reflexivity.
  - inversion H; reflexivity.
Qed.

Lemma reach_state_view (action : string) (r : ref) (R R' : list ref) (n n' : NFA) :
  action <> EPSILON ->
  reach_state action r (R, n) = Ok (R', n') -> eps_view n' = eps_view n.
Proof.
  intros Hne H. apply reach_state_spec in H. destruct H as [st [Hd H]].
  destruct (dict_get String.eqb action (transitions st)) as [tg|]; [|subst; reflexivity].
  destruct H as [cl [_ ->]]. apply assign_view with st; [assumption|].
  unfold eps_view_state, eps_part; simpl. rewrite eps_part_dict_set by assumption.
  reflexivity.
Qed.

Lemma reach_state_other (action : string) (r r' : ref) (R R' : list ref) (n n' : NFA) :
  reach_state action r (R, n) = Ok (R', n') -> r' <> r -> deref n' r' = deref n r'.
Proof.
  intros H Hne. apply reach_state_spec in H. destruct H as [st [Hd H]].
  destruct (dict_get String.eqb action (transitions st)) as [tg|]; [|subst; reflexivity].
  destruct H as [cl [_ ->]]. apply deref_assign_other; assumption.
Qed.

(** A whole call of [__get_reachable_states] on a set of states: each state
    of the set that has the action ends with its targets united with their
    closures; nothing else changes. *)
Lemma reach_fold_spec (action : string) :
  action <> EPSILON ->
  forall (L : list ref) (R R' : list ref) (n n' : NFA),
    NoDup L ->
    fold_left (fun acc s => bind acc (reach_state action s)) L (Ok (R, n)) = Ok (R', n') ->
    eps_view n' = eps_view n /\
    (forall r, ~ In r L -> deref n' r = deref n r) /\
    (forall s st tg,
        In s L -> deref n s = Ok st ->
        dict_get String.eqb action (transitions st) = Some tg ->
        exists cl, closures n tg = Ok cl /\
          deref n' s = Ok (mkState (id st) (is_final st)
                             (dict_set String.eqb action (set_union ref_eqb tg cl)
                                       (transitions st)))).
Proof.
  intros Hne. induction L as [|r L IH]; intros R R' n n' Hnd H; cbn [fold_left bind] in H.
  - inversion H; subst. split; [reflexivity|]. split; [reflexivity|].
    intros s st tg [].
  - apply NoDup_cons_iff in Hnd. destruct Hnd as [Hnotin Hnd'].
    destruct (reach_state action r (R, n)) as [[R1 n1]| |] eqn:E;
      try (rewrite fold_bind_not_ok in H by reflexivity; discriminate).
    destruct (IH R1 R' n1 n' Hnd' H) as [Hv [Hother Hin]].
    pose proof (reach_state_view _ _ _ _ _ _ Hne E) as Hv1.
    split; [congruence|]. split.
    + intros r0 Hr0. simpl in Hr0.
      rewrite Hother by tauto. eapply reach_state_other; [eassumption|].
      intros ->; tauto.
    + intros s st tg [<-|Hs] Hd Hg.
      * rewrite (Hother r Hnotin).
        apply reach_state_spec in E. destruct E as [st0 [Hd0 E]].
        rewrite Hd in Hd0; inversion Hd0; subst st0. rewrite Hg in E.
        destruct E as [cl [Hcl ->]]. exists cl. split; [assumption|].
        eapply deref_assign_same; eassumption.
      * assert (Hsr : s <> r) by (intros ->; tauto).
        rewrite <- (reach_state_other _ _ _ _ _ _ _ E Hsr) in Hd.
        destruct (Hin s st tg Hs Hd Hg) as [cl [Hcl Hd']].
        exists cl. split; [|assumption].
        rewrite <- Hcl. apply closures_view. congruence.
Qed.

Lemma state_grows_refl (st : State) : state_grows st st.
Proof.
  repeat split. intros a X H. exists X. split; [assumption|apply incl_refl].
Qed.

Lemma state_grows_trans (a b c : State) :
  state_grows a b -> state_grows b c -> state_grows a c.
Proof.
  intros (I1 & F1 & T1) (I2 & F2 & T2). repeat split; try congruence.
  intros l X H. destruct (T1 l X H) as [Y [HY HXY]].
  destruct (T2 l Y HY) as [Z [HZ HYZ]]. exists Z. split; [assumption|].
  eapply incl_tran; eassumption.
Qed.

Lemma nfa_grows_refl (n : NFA) : nfa_grows n n.
Proof. intros r st H. exists st. split; [assumption|apply state_grows_refl]. Qed.

Lemma nfa_grows_trans (a b c : NFA) : nfa_grows a b -> nfa_grows b c -> nfa_grows a c.
Proof.
  intros H1 H2 r st H. destruct (H1 r st H) as [st1 [Hd1 G1]].
  destruct (H2 r st1 Hd1) as [st2 [Hd2 G2]]. exists st2. split; [assumption|].
  eapply state_grows_trans; eassumption.
Qed.

Lemma reach_state_grows (action : string) (r : ref) (R R' : list ref) (n n' : NFA) :
  reach_state action r (R, n) = Ok (R', n') -> nfa_grows n n'.
Proof.
  intros H. apply reach_state_spec in H. destruct H as [st [Hd H]].
  destruct (dict_get String.eqb action (transitions st)) as [tg|] eqn:Hg;
    [|subst; apply nfa_grows_refl].
  destruct H as [cl [_ ->]]. intros r0 st0 H0.
  destruct (ref_eqb r0 r) eqn:Er.
  - apply ref_eqb_eq in Er; subst r0. rewrite Hd in H0; inversion H0; subst st0.
    eexists. split; [eapply deref_assign_same; eassumption|].
    repeat split. simpl. intros a X HX.
    destruct (String.eqb a action) eqn:Ea.
    + apply String.eqb_eq in Ea; subst a. rewrite dict_get_set_same.
      eexists; split; [reflexivity|]. rewrite Hg in HX; inversion HX; subst.
      intros x Hx. apply (set_union_In ref_eqb ref_eqb_eq). auto.
    + apply String.eqb_neq in Ea. rewrite dict_get_set_other by assumption.
      exists X. split; [assumption|apply incl_refl].
  - assert (Hne : r0 <> r) by (intros ->; rewrite (proj2 (ref_eqb_eq r r) eq_refl) in Er;
                               discriminate).
    exists st0. split; [|apply state_grows_refl].
    rewrite deref_assign_other by assumption. assumption.
Qed.

Lemma get_reachable_states_grows (n n' : NFA) (T : DFA_State) (action : string)
  (R : list ref) :
  __get_reachable_states n T action = Ok (R, n') -> nfa_grows n n'.
Proof.
  unfold __get_reachable_states. intros H.
  apply (fold_bind_preserves
           (fun a a' : list ref * NFA => nfa_grows (snd a) (snd a'))
           (reach_state action)) in H; [exact H| | |].
  - intros a; apply nfa_grows_refl.
  - intros a b c; apply nfa_grows_trans.
  - intros x [R0 n0] [R1 n1] E. simpl. eapply reach_state_grows; eassumption.
Qed.

Lemma construct_action_grows (curr : DFA_State) (action : string)
  (d d' : DFA) (stack stack' : list DFA_State) :
  construct_action curr action (d, stack) = Ok (d', stack') -> nfa_grows (nfa d) (nfa d').
Proof.
  unfold construct_action.
  destruct (__get_reachable_states (nfa d) curr action) as [[reached nfa']| |] eqn:E;
    simpl; try discriminate.
  apply get_reachable_states_grows in E.
  destruct (new_DFA_State nfa' reached false) as [new_dfa_state| |]; simpl;
    try discriminate.
  destruct reached; intros H; inversion H; subst; simpl; exact E.
Qed.

Lemma construct_loop_grows (fuel : nat) :
  forall (d d' : DFA) (stack : list DFA_State),
    construct_loop fuel d stack = Ok d' -> nfa_grows (nfa d) (nfa d').
Proof.
  induction fuel as [|fuel IH]; intros d d' stack H; simpl in H; [discriminate|].
  destruct stack as [|curr stack']; [inversion H; subst; apply nfa_grows_refl|].
  destruct (fold_left _ (actions d) (Ok (d, stack'))) as [[d1 stack1]| |] eqn:E;
    simpl in H; try discriminate.
  apply (fold_bind_preserves
           (fun a a' : DFA * list DFA_State => nfa_grows (nfa (fst a)) (nfa (fst a')))
           (construct_action curr)) in E.
  - simpl in E. eapply nfa_grows_trans; [exact E|]. eapply IH; eassumption.
  - intros a; apply nfa_grows_refl.
  - intros a b c; apply nfa_grows_trans.
  - intros x [d0 s0] [d2 s2] E'. simpl. eapply construct_action_grows; eassumption.
Qed.

End ReachFacts.

(** ** The claims *)

Section Claims.
Import RegexCompiler_py DFA_py Pipeline.
Import NFA_py(EPSILON, JValue, JBool, JStr, JList, JEntry, JName, JObject).

Lemma eat_at_peak (expr_str : string) (p : nat) (c d : ascii) :
  _peak expr_str p 0 = Some c ->
  _eat expr_str p (Some d) = if Ascii.eqb c d then (true, S p) else (false, p).
Proof.
  intros H. apply peak_Some_lt in H. destruct H as [Hlt Hg].
  rewrite Nat.add_0_r in *. unfold _eat.
  destruct (Nat.leb_spec (String.length expr_str) p); [lia|].
  rewrite Hg. reflexivity.
Qed.

Lemma peak_is_at_peak (expr_str : string) (p : nat) (c d : ascii) :
  _peak expr_str p 0 = Some c -> peak_is expr_str p d = Ascii.eqb c d.
Proof. intros H. unfold peak_is. rewrite H. reflexivity. Qed.


(** Decide a test of the character under the cursor, known from [H]. *)
Ltac at_peak H :=
  first [rewrite (eat_at_peak _ _ _ _ H) | rewrite (peak_is_at_peak _ _ _ _ H)];
  match goal with
  | |- context [Ascii.eqb ?a ?b] =>
      let v := eval vm_compute in (Ascii.eqb a b) in
      change (Ascii.eqb a b) with v
  end;
  cbv iota.


(** The loop of [_parseGroup], one iteration at a time. *)
Lemma group_loop_step (expr_str : string) (fuel : nat) (is_root : bool)
  (ch : list (list ExprNode)) (cur p : nat) :
  group_loop expr_str (S fuel) is_root ch cur p
  = if _done expr_str p then Ok (ch, p)
    else
      st <- group_body expr_str (_parseGroup expr_str fuel false) (_parseSet expr_str fuel)
                       is_root ch cur p ;;
      match st with
      | Continue (ch', cur', p') => group_loop expr_str fuel is_root ch' cur' p'
      | Break => Ok (ch, p)
      end.
Proof. reflexivity. Qed.

(** C10.  The parser terminates on every input: an iteration of the loop of
    [_parseSet] that goes on has moved the cursor forward, and so has an
    iteration of the loop of [_parseGroup], nested groups and sets included;
    the cursor never passes the end of the input; and
    [RegularCompiler(expr_str)] returns an AST or raises. *)
Theorem parser_terminates (expr_str : string) :
  (forall ch esc p ch' esc' p',
      set_body expr_str ch esc p = Ok (Continue (ch', esc', p')) ->
      p < p' <= String.length expr_str) /\
  (forall fuel is_root ch cur p ch' cur' p',
      p < String.length expr_str -> String.length expr_str - p <= fuel ->
      group_body expr_str (_parseGroup expr_str fuel false) (_parseSet expr_str fuel)
                 is_root ch cur p = Ok (Continue (ch', cur', p')) ->
      p < p' <= String.length expr_str) /\
  ((exists ast, RegularCompiler expr_str = Ok ast) \/
   (exists e, RegularCompiler expr_str = Raise e)).
Proof.
  split; [|split].
  - intros ch esc p ch' esc' p'. apply set_body_advances.
  - intros fuel is_root ch cur p ch' cur' p' Hp Hfuel.
    apply group_body_advances; [| |assumption].
    + intros q Hq. unfold _parseGroup.
      destruct (group_loop_total expr_str fuel false [[]] 0 q) as [H1 H2]; [lia|lia|].
      destruct (group_loop expr_str fuel false [[]] 0 q) as [[c0 q0]| |]; simpl;
        try congruence; [|split; discriminate].
      split; [discriminate|]. intros node q' E; inversion E; subst. eapply H2; eauto.
    + intros q Hq. apply parseSet_total; lia.
  - unfold RegularCompiler, _parseGroup.
    destruct (group_loop_total expr_str (S (String.length expr_str)) true [[]] 0 0)
      as [H _]; [lia|lia|].
    destruct (group_loop expr_str (S (String.length expr_str)) true [[]] 0 0)
      as [[ch p]|e|]; simpl; [left|right|congruence]; eexists; reflexivity.
Qed.

(** The parser on a regex with nested groups, a set, an escape and
    quantifiers. *)
Lemma parser_terminates_witness :
  (exists ast, RegularCompiler "((a|[b-d\]])*e\+)?|f" = Ok ast) \/
  (exists e, RegularCompiler "((a|[b-d\]])*e\+)?|f" = Raise e).
Proof. exact (proj2 (proj2 (parser_terminates "((a|[b-d\]])*e\+)?|f"))). Defined.



Lemma eat_done (expr_str : string) (p : nat) (c : option ascii) :
  String.length expr_str <= p -> _eat expr_str p c = (false, p).
Proof.
  intros H. unfold _eat.
  destruct (Nat.leb_spec (String.length expr_str) p); [reflexivity|lia].
Qed.

Lemma peak_done (expr_str : string) (p k : nat) :
  String.length expr_str <= p + k -> _peak expr_str p k = None.
Proof.
  intros H. unfold _peak.
  destruct (Nat.leb_spec (String.length expr_str) (p + k)); [reflexivity|lia].
Qed.

(** An item of a set read while the flag of the escape is up: it is never
    the end of the set. *)
Lemma escaped_item (expr_str : string) (ch : list (list ExprNode)) (p : nat)
  (c : ascii) :
  _peak expr_str p 0 = Some c -> c <> "\"%char ->
  (~ (_peak expr_str p 1 = Some "-"%char /\ _peak expr_str p 2 <> None) ->
   set_body expr_str ch true p
   = Ok (Continue (ch ++ [[mkExprNode Char (Some (str1 c)) [] []]], false, S p))) /\
  (forall e,
      _peak expr_str p 1 = Some "-"%char -> _peak expr_str p 2 = Some e ->
      nat_of_ascii c <= nat_of_ascii e ->
      set_body expr_str ch true p
      = Ok (Continue (ch ++ [[mkExprNode Range None
                                [(PARAM_RANGE_START, PInt (nat_of_ascii c));
                                 (PARAM_RANGE_END, PInt (nat_of_ascii e))] []]],
                      false, p + 3))).
Proof.
  intros H Hc.
  assert (Hesc : Ascii.eqb c "\" = false) by (apply Ascii.eqb_neq; assumption).
  pose proof (peak_Some_lt _ _ _ _ H) as [Hlt _]. rewrite Nat.add_0_r in Hlt.
  split.
  - intros Hno. unfold set_body. rewrite H, Hesc. unfold set_item, _parseRange.
    assert (E : option_eqb Ascii.eqb (_peak expr_str p 1) (Some "-"%char)
                && negb (option_eqb Ascii.eqb (_peak expr_str p 2) None) = false).
    { destruct (_peak expr_str p 1) as [d|] eqn:P1; simpl; [|reflexivity].
      destruct (Ascii.eqb d "-") eqn:Ed; [|reflexivity].
      apply Ascii.eqb_eq in Ed; subst d.
      destruct (_peak expr_str p 2); simpl; [|reflexivity].
      exfalso; apply Hno; split; [reflexivity|discriminate]. }
    rewrite E. cbn [bind].
    destruct (parseChar_in_range expr_str p Hlt) as [c' [Hc' ->]].
    rewrite H in Hc'; inversion Hc'; subst c'. reflexivity.
  - intros e H1 H2 Hle. unfold set_body. rewrite H, Hesc. unfold set_item, _parseRange.
    rewrite H1, H2, H. cbn [option_eqb negb andb].
    rewrite Ascii.eqb_refl. cbv iota.
    pose proof (peak_Some_lt _ _ _ _ H2) as [Hlt2 _].
    rewrite (eat_None_in_range _ p), (eat_None_in_range _ (S p)),
      (eat_None_in_range _ (S (S p))) by lia.
    cbv iota.
    destruct (Nat.ltb_spec (nat_of_ascii e) (nat_of_ascii c)); [lia|].
    replace (p + 3) with (S (S (S p))) by lia. reflexivity.
Qed.

Lemma peak_next (expr_str : string) (p k : nat) :
  _peak expr_str (S p) k = _peak expr_str p (S k).
Proof. unfold _peak. rewrite Nat.add_succ_r. reflexivity. Qed.

(** A backslash in a set, whatever the flag of the escape: the iteration
    eats it and raises the flag. *)
Lemma set_body_backslash (expr_str : string) (ch : list (list ExprNode)) (esc : bool)
  (p : nat) :
  _peak expr_str p 0 = Some "\"%char ->
  set_body expr_str ch esc p = Ok (Continue (ch, true, S p)).
Proof.
  intros H. unfold set_body. rewrite H, Ascii.eqb_refl.
  pose proof (peak_Some_lt _ _ _ _ H) as [Hlt _]. rewrite Nat.add_0_r in Hlt.
  rewrite (eat_None_in_range _ p Hlt). reflexivity.
Qed.

(** C7, as the code has it.  A backslash inside a set makes the loop of
    [_parseSet] read the character after it, when that is not a backslash,
    like any other item of the set, except that it cannot close the set:
    the two iterations, on the backslash and on the character, append one
    node and the loop goes on after it.  Followed by [-] and one more
    character not below it, the escaped character starts a Range node;
    not followed by [-] and one more character, it is a literal Char node,
    also when it is []]. *)
Theorem escaped_set_item (expr_str : string) (fuel : nat) (ch : list (list ExprNode))
  (esc : bool) (p : nat) (c : ascii) :
  _peak expr_str p 0 = Some "\"%char -> _peak expr_str p 1 = Some c -> c <> "\"%char ->
  (~ (_peak expr_str p 2 = Some "-"%char /\ _peak expr_str p 3 <> None) ->
   set_loop expr_str (S (S fuel)) ch esc p
   = set_loop expr_str fuel (ch ++ [[mkExprNode Char (Some (str1 c)) [] []]]) false (p + 2)) /\
  (forall e,
      _peak expr_str p 2 = Some "-"%char -> _peak expr_str p 3 = Some e ->
      nat_of_ascii c <= nat_of_ascii e ->
      set_loop expr_str (S (S fuel)) ch esc p
      = set_loop expr_str fuel
          (ch ++ [[mkExprNode Range None
                     [(PARAM_RANGE_START, PInt (nat_of_ascii c));
                      (PARAM_RANGE_END, PInt (nat_of_ascii e))] []]])
          false (p + 4)).
Proof.
  intros Hb Hc Hne.
  pose proof (peak_Some_lt _ _ _ _ Hc) as [Hlt _].
  assert (Hstep : forall k, set_loop expr_str (S k) ch esc p = set_loop expr_str k ch true (S p)).
  { intros k. cbn [set_loop]. unfold _done.
    destruct (Nat.leb_spec (String.length expr_str) p); [lia|].
    rewrite (set_body_backslash expr_str ch esc p Hb). reflexivity. }
  assert (Hdone : _done expr_str (S p) = false).
  { unfold _done. destruct (Nat.leb_spec (String.length expr_str) (S p)); [lia|reflexivity]. }
  rewrite <- peak_next in Hc.
  destruct (escaped_item expr_str ch (S p) c Hc Hne) as [Hchar Hrange].
  rewrite !peak_next in Hchar, Hrange.
  split.
  - intros Hno. rewrite Hstep. cbn [set_loop]. rewrite Hdone, (Hchar Hno). cbn [bind].
    replace (p + 2) with (S (S p)) by lia. reflexivity.
  - intros e H1 H2 Hle. rewrite Hstep. cbn [set_loop].
    rewrite Hdone, (Hrange e H1 H2 Hle). cbn [bind].
    replace (p + 4) with (S p + 3) by lia. reflexivity.
Qed.

(** In [[\]x]] the loop goes on after the escaped []], a literal member of
    the set; in [[\a-z]] the escaped [a] starts the range. *)
Lemma escaped_set_item_witness :
  set_loop "[\]x]" 5 [] false 1
  = set_loop "[\]x]" 3 [[mkExprNode Char (Some "]") [] []]] false 3 /\
  set_loop "[\a-z]" 5 [] false 1
  = set_loop "[\a-z]" 3
      [[mkExprNode Range None [("start", PInt 97); ("end", PInt 122)] []]] false 5.
Proof.
  split.
  - apply (proj1 (escaped_set_item "[\]x]" 3 [] false 1 "]"%char eq_refl eq_refl
                    ltac:(discriminate))).
    vm_compute. intros [H _]. discriminate H.
  - apply (proj2 (escaped_set_item "[\a-z]" 3 [] false 1 "a"%char eq_refl eq_refl
                    ltac:(discriminate)) "z"%char);
      [reflexivity|reflexivity|vm_compute; lia].
Defined.

(** C7, as the claim states it, fails on [[\a-z]]: the escaped [a] is
    consumed as the start of the range a-z, and the set holds no Char
    node. *)
Lemma escaped_char_starts_range :
  RegularCompiler "[\a-z]"
  = Ok (mkExprNode Root None []
          [[mkExprNode CharacterSet None []
              [[mkExprNode Range None [("start", PInt 97); ("end", PInt 122)] []]]]]) /\
  set_body "[\a-z]" [] true 2
  <> Ok (Continue ([[mkExprNode Char (Some "a") [] []]], false, 3)).
Proof. split; [reflexivity|discriminate]. Qed.

(** C6, on the code.  A backslash that ends the input raises nothing where
    [_parseGroup] meets it: the iteration appends a Char node without a
    value and the loop ends.  At the root the regex is accepted, the tree
    holds that node, and the NFA built from it has a transition labelled
    [None].  Inside a group that is still open the input is refused, for the
    missing [)]. *)
Theorem trailing_backslash_is_accepted :
  (forall expr_str parse_group parse_set is_root ch cur p,
      String.length expr_str = S p -> _peak expr_str p 0 = Some "\"%char ->
      group_body expr_str parse_group parse_set is_root ch cur p
      = Ok (Continue (append_at cur (mkExprNode Char None [] []) ch, cur, S p))) /\
  RegularCompiler "\" = Ok (mkExprNode Root None [] [[mkExprNode Char None [] []]]) /\
  RegularCompiler "ab\"
  = Ok (mkExprNode Root None []
          [[mkExprNode Char (Some "a") [] []; mkExprNode Char (Some "b") [] [];
            mkExprNode Char None [] []]]) /\
  (n <- NFA_py.regex_to_nfa "\" ;; Ok (map NFA_py.transitions (NFA_py.states n)))
  = Ok [[(None, [1])]; []] /\
  RegularCompiler "(a\" = Raise (Expected ")" 3).
Proof.
  repeat apply conj; [|reflexivity|reflexivity|reflexivity|reflexivity].
  intros expr_str pg ps is_root ch cur p Hlen H. unfold group_body.
  repeat at_peak H.
  rewrite (eat_None_in_range expr_str p) by lia. cbv iota.
  unfold _parseChar, _assignQuantifier.
  rewrite (peak_done expr_str (S p) 0) by lia.
  rewrite !(eat_done expr_str (S p)) by lia. reflexivity.
Qed.

(** The groups [__split_states] starts from, when no state is accepting:
    group 1 is empty. *)
Lemma initial_groups_no_accepting (finals : list DFA_State) (l : list DFA_State) :
  (forall s, In s l -> mem dfa_eqb s finals = false) ->
  forall m l0,
    exists m' l0', initial_groups finals l (m, [(0, l0); (1, [])]) = (m', [(0, l0'); (1, [])]).
Proof.
  unfold initial_groups.
  induction l as [|s l IH]; intros Hall m l0; simpl.
  - eauto.
  - rewrite (Hall s) by (left; reflexivity). simpl. apply IH.
    intros s' Hs'. apply Hall. right; assumption.
Qed.

(** C5, on the code.  When no state of the DFA is accepting, the first
    group [__split_states] pops is the empty accepting group, and taking its
    representative is an [IndexError]. *)
Theorem split_states_empty_accepting (fuel : nat) (d : DFA) (transition_table : table) :
  (forall s, In s (dfa_all_states d) -> mem dfa_eqb s (final_states d) = false) ->
  __split_states (S fuel) d transition_table = Raise IndexError.
Proof.
  intros H. unfold __split_states.
  destruct (initial_groups_no_accepting (final_states d) (dfa_all_states d) H [] [])
    as [m' [l0' E]].
  rewrite E. reflexivity.
Qed.

(** The DFA of [a] has no accepting state: splitting it, and so building
    the minimized DFA, raises. *)
Lemma split_states_empty_accepting_witness :
  exists d,
    compile 20 "a" false = Ok d /\
    final_states d = [] /\
    __split_states 20 d (__create_transition_table d) = Raise IndexError /\
    compile 20 "a" true = Raise IndexError.
Proof.
  eexists. split; [vm_compute; reflexivity|]. split; [reflexivity|].
  split; [|vm_compute; reflexivity].
  apply (split_states_empty_accepting 19). intros s _. reflexivity.
Defined.

(** *** The start state of the DFA *)

Lemma set_add_keeps {K : Type} (eqk : K -> K -> bool) (x y : K) (s : list K) :
  In y s -> In y (set_add eqk x s).
Proof.
  unfold set_add. destruct (mem eqk x s); [auto|]. intros H. apply in_or_app; auto.
Qed.

Lemma set_add_inv {K : Type} (eqk : K -> K -> bool) (x y : K) (s : list K) :
  In y (set_add eqk x s) -> In y s \/ y = x.
Proof.
  unfold set_add. destruct (mem eqk x s); [auto|]. intros H.
  apply in_app_or in H. destruct H as [H|[H|[]]]; auto.
Qed.

Lemma construct_action_start (curr : DFA_State) (action : string)
  (d d' : DFA) (stack stack' : list DFA_State) :
  construct_action curr action (d, stack) = Ok (d', stack') ->
  dfa_start_state d' = dfa_start_state d /\ (start_unmarked d -> start_unmarked d').
Proof.
  unfold construct_action.
  destruct (__get_reachable_states (nfa d) curr action) as [[reached nfa']| |];
    simpl; try discriminate.
  destruct (new_DFA_State nfa' reached false) as [new_dfa_state| |]; simpl;
    try discriminate.
  destruct reached as [|r0 reached].
  { intros H; inversion H; subst; simpl. split; [reflexivity|]. intros I; exact I. }
  intros H; inversion H; subst; clear H. simpl. split; [reflexivity|].
  intros [[s [Hs Hid]] Hfin]. unfold start_unmarked; simpl. split.
  - exists s. split; [|assumption].
    destruct (negb _); [apply set_add_keeps|]; assumption.
  - intros f Hf.
    destruct (negb (existsb (fun s0 => String.eqb (dfa_id new_dfa_state) (dfa_id s0))
                            (dfa_all_states d))) eqn:Enew; simpl in Hf;
      [|apply Hfin; assumption].
    destruct (match final_state nfa' with
              | Some f0 => mem ref_eqb f0 (dfa_states new_dfa_state)
              | None => false
              end); [|apply Hfin; assumption].
    apply set_add_inv in Hf. destruct Hf as [Hf| ->]; [apply Hfin; assumption|].
    intros Heq. apply negb_true_iff in Enew.
    assert (Hex : existsb (fun s0 => String.eqb (dfa_id new_dfa_state) (dfa_id s0))
                          (dfa_all_states d) = true).
    { apply existsb_exists. exists s. split; [assumption|].
      apply String.eqb_eq. congruence. }
    congruence.
Qed.

Lemma construct_loop_start (fuel : nat) :
  forall (d d' : DFA) (stack : list DFA_State),
    construct_loop fuel d stack = Ok d' ->
    dfa_start_state d' = dfa_start_state d /\ (start_unmarked d -> start_unmarked d').
Proof.
  induction fuel as [|fuel IH]; intros d d' stack H; simpl in H; [discriminate|].
  destruct stack as [|curr stack']; [inversion H; subst; auto|].
  destruct (fold_left _ (actions d) (Ok (d, stack'))) as [[d1 stack1]| |] eqn:E;
    simpl in H; try discriminate.
  apply (fold_bind_preserves
           (fun a a' : DFA * list DFA_State =>
              dfa_start_state (fst a') = dfa_start_state (fst a) /\
              (start_unmarked (fst a) -> start_unmarked (fst a')))
           (construct_action curr)) in E.
  - simpl in E. destruct E as [E1 E2]. destruct (IH _ _ _ H) as [H1 H2].
    split; [congruence|auto].
  - intros a; auto.
  - intros a b c [H1 H2] [H3 H4]. split; [congruence|auto].
  - intros x [d0 s0] [d2 s2] E'. simpl. eapply construct_action_start; eassumption.
Qed.

(** C2, on the code.  [__construct_DFA] never marks the start state of the
    DFA as accepting, whatever NFA states it stands for; the DFA of [a*] is
    one whose start state holds the accept state of the NFA and is not
    accepting. *)
Theorem start_state_never_accepting :
  (forall fuel data d,
      __construct_DFA fuel data = Ok d ->
      mem dfa_eqb (dfa_start_state d) (final_states d) = false) /\
  (exists d f,
      compile 20 "a*" false = Ok d /\
      final_state (nfa d) = Some f /\
      mem ref_eqb f (dfa_states (dfa_start_state d)) = true /\
      mem dfa_eqb (dfa_start_state d) (dfa_all_states d) = true /\
      mem dfa_eqb (dfa_start_state d) (final_states d) = false).
Proof.
  split.
  - intros fuel data d. unfold __construct_DFA.
    destruct (__load_NFA_json data) as [[nfa0 acts]| |]; simpl; try discriminate.
    destruct (__epsilon_closure nfa0 start_object) as [start_set| |]; simpl;
      try discriminate.
    destruct (new_DFA_State nfa0 start_set false) as [start| |]; simpl; try discriminate.
    intros H. apply construct_loop_start in H. destruct H as [Hs Hinv].
    destruct Hinv as [_ Hfin].
    { split; simpl; [exists start; auto|intros f []]. }
    destruct (mem dfa_eqb (dfa_start_state d) (final_states d)) eqn:E; [|reflexivity].
    unfold mem in E. apply existsb_exists in E. destruct E as [f [Hf Heq]].
    apply String.eqb_eq in Heq. exfalso. apply (Hfin f Hf). congruence.
  - do 2 eexists. split; [vm_compute; reflexivity|]. repeat apply conj; reflexivity.
Qed.

(** *** The NFA after loading *)

Lemma load_target_start (current : ref) (action target : string) (n n' : NFA) (i : nat) :
  current = state_object i ->
  load_target current action target n = Ok n' -> start_state n' = start_state n.
Proof.
  intros ->. unfold load_target.
  destruct (state_named n target) as [t| |]; simpl; try discriminate.
  destruct (nth_error (states n) i); simpl; try discriminate.
  intros H; inversion H; reflexivity.
Qed.

Lemma state_named_object (n : NFA) (name : string) (r : ref) :
  state_named n name = Ok r -> exists i, r = state_object i.
Proof.
  unfold state_named. destruct (int (tail name)) as [i| |]; simpl; try discriminate.
  destruct (Nat.ltb i (List.length (states n))); [|discriminate].
  intros H; inversion H; eauto.
Qed.

Lemma load_states_start (data : list (string * JEntry string)) :
  forall n n', load_states data n = Ok n' -> start_state n' = start_state n.
Proof.
  unfold load_states. intros n n' H.
  apply (fold_bind_preserves (fun a a' : NFA => start_state a' = start_state a) load_state)
    in H; [exact H|auto|congruence|].
  intros e a a'. unfold load_state. destruct (String.eqb (fst e) "startingState");
    [intros E; inversion E; reflexivity|].
  destruct (snd e) as [|state_data]; [discriminate|].
  destruct (dict_get String.eqb "isTerminatingState" state_data); [|discriminate].
  intros E; inversion E; reflexivity.
Qed.

Lemma load_transitions_start (data : list (string * JEntry string)) :
  forall n acts n' acts',
    load_transitions data n acts = Ok (n', acts') -> start_state n' = start_state n.
Proof.
  unfold load_transitions. intros n acts n' acts' H.
  apply (fold_bind_preserves
           (fun a a' : NFA * list string => start_state (fst a') = start_state (fst a))
           load_entry) in H; [exact H|auto|congruence|].
  intros e a a'. unfold load_entry.
  destruct (String.eqb (fst e) "startingState"); [intros E; inversion E; reflexivity|].
  destruct (state_named (fst a) (fst e)) as [current| |] eqn:Ec; simpl; try discriminate.
  apply state_named_object in Ec. destruct Ec as [i ->].
  destruct (snd e) as [|state_data]; [discriminate|].
  intros E.
  apply (fold_bind_preserves
           (fun b b' : NFA * list string => start_state (fst b') = start_state (fst b))
           (load_action (state_object i))) in E; [exact E|auto|congruence|].
  intros kv b b'. unfold load_action.
  destruct (String.eqb (fst kv) "isTerminatingState");
    [intros E'; inversion E'; reflexivity|].
  destruct (load_targets (state_object i) (fst kv) (snd kv) (fst b)) as [m| |] eqn:Et;
    simpl; try discriminate.
  intros E'; inversion E'; subst; simpl.
  unfold load_targets in Et. destruct (snd kv) as [|target|l]; [discriminate| |].
  - eapply load_target_start; [reflexivity|eassumption].
  - apply (fold_bind_preserves (fun c c' : NFA => start_state c' = start_state c)
             (load_target (state_object i) (fst kv))) in Et; [exact Et|auto|congruence|].
    intros t c c' Hc. eapply load_target_start; [reflexivity|eassumption].
Qed.

(** C4, on the code.  The start state of every NFA the loader returns is an
    object of its own, with the name of the start state and no transition at
    all; the transitions of the state of that name are in [nfa.states], where
    [__get_reachable_states] does not look for them.  For the NFA of [a]:
    the exported start state has the edge [a] to S1, the reloaded start
    state has none, and nothing is reachable from the start of the DFA. *)
Theorem reload_drops_start_transitions :
  (forall data loaded acts,
      __load_NFA_json data = Ok (loaded, acts) -> transitions (start_state loaded) = []) /\
  (exists n loaded acts start_set,
      NFA_py.regex_to_nfa "a" = Ok n /\
      NFA_py.start_state n = Some 0 /\
      option_map NFA_py.transitions (nth_error (NFA_py.states n) 0)
      = Some [(Some "a", [1])] /\
      reload n = Ok (loaded, acts) /\
      id (start_state loaded) = "S0" /\
      transitions (start_state loaded) = [] /\
      option_map transitions (nth_error (states loaded) 0)
      = Some [("a", [state_object 1])] /\
      __epsilon_closure loaded start_object = Ok start_set /\
      __get_reachable_states loaded (mkDFA_State start_set "S0" false) "a"
      = Ok ([], loaded)).
Proof.
  split.
  - intros data loaded acts. unfold __load_NFA_json.
    destruct (dict_get String.eqb "startingState" data) as [[start|]|]; try discriminate.
    destruct (load_states data (mkNFA [] (mkState start false []) None)) as [nfa1| |] eqn:E1;
      simpl; try discriminate.
    intros E2. apply load_states_start in E1. apply load_transitions_start in E2.
    rewrite E2, E1. reflexivity.
  - do 4 eexists. split; [vm_compute; reflexivity|].
    split; [reflexivity|]. split; [reflexivity|].
    split; [vm_compute; reflexivity|].
    split; [reflexivity|]. split; [reflexivity|]. split; [reflexivity|].
    split; [vm_compute; reflexivity|]. vm_compute. reflexivity.
Qed.

(** C3, on the code, with sets that iterate in insertion order.  The DFA of
    [a*a] holds two states that stand for the same six NFA states, reached
    in two orders: their ids differ, so [__construct_DFA] took the second
    for a new state. *)
Theorem equal_sets_two_states :
  exists d s1 s2,
    compile 20 "a*a" false = Ok d /\
    nth_error (dfa_all_states d) 1 = Some s1 /\
    nth_error (dfa_all_states d) 2 = Some s2 /\
    dfa_id s1 = "S1 S2 S3 S4 S0 S5" /\
    dfa_id s2 = "S5 S1 S2 S3 S4 S0" /\
    dfa_eqb s1 s2 = false /\
    same_set (nfa_ids d s1) (nfa_ids d s2) = true.
Proof.
  do 3 eexists. split; [vm_compute; reflexivity|].
  split; [reflexivity|]. split; [reflexivity|].
  repeat apply conj; vm_compute; reflexivity.
Qed.

(** A DFA without transitions and without accepting states accepts
    nothing. *)
Lemma DFA_run_nothing (d : DFA) :
  dfa_transitions d = [] -> final_states d = [] ->
  forall s current, DFA_run d current s = Ok false.
Proof.
  intros Ht Hf. induction s as [|c s IH]; intros current; simpl.
  - rewrite Hf. f_equal. induction current as [|x l IHl]; simpl; auto.
  - rewrite Ht. simpl. apply IH.
Qed.

(** C1, on the code.  The NFA of [a] matches ["a"]; the DFA built from its
    JSON has one state, no transition and no accepting state, so it accepts
    no input at all, and minimizing it raises.  The NFA of [a*] matches the
    empty input; its DFA and its minimized DFA do not. *)
Theorem dfa_differs_from_nfa :
  (exists n d,
      NFA_py.regex_to_nfa "a" = Ok n /\
      NFA_py.match_ n "a" = Ok true /\
      compile 20 "a" false = Ok d /\
      map dfa_id (dfa_all_states d) = ["S0"] /\
      (forall s, DFA_match d s = Ok false) /\
      compile 20 "a" true = Raise IndexError) /\
  (exists n d m,
      NFA_py.regex_to_nfa "a*" = Ok n /\
      NFA_py.match_ n "" = Ok true /\
      compile 20 "a*" false = Ok d /\
      DFA_match d "" = Ok false /\
      compile 20 "a*" true = Ok m /\
      DFA_match m "" = Ok false).
Proof.
  split.
  - do 2 eexists. split; [vm_compute; reflexivity|].
    split; [vm_compute; reflexivity|]. split; [vm_compute; reflexivity|].
    split; [reflexivity|]. split; [|vm_compute; reflexivity].
    intros s. apply DFA_run_nothing; reflexivity.
  - do 3 eexists. split; [vm_compute; reflexivity|].
    split; [vm_compute; reflexivity|]. split; [vm_compute; reflexivity|].
    split; [vm_compute; reflexivity|]. split; vm_compute; reflexivity.
Qed.

(** C9.  [__get_reachable_states] updates the NFA it reads: after a call on
    a DFA state and an action other than epsilon, every state [s] of the DFA
    state that has the action holds, in place of its targets, the targets
    together with the members of their epsilon closures.  Nothing is ever
    removed: when [__construct_DFA] returns, every object of the loaded NFA
    is still there and each of its target sets contains the set that was
    loaded.  A call of [__get_reachable_states] always returns or raises:
    the fuel of the closure loop is never what ends it. *)
Theorem subset_construction_mutates_nfa :
  (forall nfa T action s st targets reached nfa',
      NoDup (dfa_states T) -> In s (dfa_states T) -> action <> EPSILON ->
      deref nfa s = Ok st ->
      dict_get String.eqb action (transitions st) = Some targets ->
      __get_reachable_states nfa T action = Ok (reached, nfa') ->
      exists st' targets',
        deref nfa' s = Ok st' /\
        dict_get String.eqb action (transitions st') = Some targets' /\
        forall x, In x targets' <->
                  In x targets \/
                  exists t c, In t targets /\ __epsilon_closure nfa t = Ok c /\ In x c) /\
  (forall fuel data d,
      __construct_DFA fuel data = Ok d ->
      exists loaded acts,
        __load_NFA_json data = Ok (loaded, acts) /\ nfa_grows loaded (nfa d)) /\
  (forall nfa T action, __get_reachable_states nfa T action <> OutOfFuel).
Proof.
  split; [|split; [|exact get_reachable_states_answers]].
  - intros nfa T action s st targets reached nfa' Hnd Hin Hne Hd Hg H.
    unfold __get_reachable_states in H.
    destruct (reach_fold_spec action Hne _ _ _ _ _ Hnd H) as [_ [_ Hspec]].
    destruct (Hspec s st targets Hin Hd Hg) as [cl [Hcl Hd']].
    eexists. exists (set_union ref_eqb targets cl).
    split; [exact Hd'|]. split; [apply dict_get_set_same|].
    intros x. rewrite (set_union_In ref_eqb ref_eqb_eq), (closures_In _ _ _ Hcl).
    reflexivity.
  - intros fuel data d. unfold __construct_DFA.
    destruct (__load_NFA_json data) as [[nfa0 acts]| |]; simpl; try discriminate.
    destruct (__epsilon_closure nfa0 start_object) as [start_set| |]; simpl;
      try discriminate.
    destruct (new_DFA_State nfa0 start_set false) as [start| |]; simpl; try discriminate.
    intros H. apply construct_loop_grows in H. simpl in H. eauto.
Qed.

(** On the NFA of [a*], the first call on the start state of the DFA and
    the action [a] turns the targets of S0 from S1 alone into S1 and the
    members of its closure (listed here in insertion order). *)
Lemma subset_construction_mutates_nfa_witness :
  exists loaded acts reached nfa',
    (n <- NFA_py.regex_to_nfa "a*" ;; reload n) = Ok (loaded, acts) /\
    option_map transitions (nth_error (states loaded) 0) = Some [("a", [state_object 1])] /\
    __get_reachable_states
      loaded (mkDFA_State [start_object; state_object 0; state_object 3] "S2 S0 S3" false) "a"
    = Ok (reached, nfa') /\
    option_map transitions (nth_error (states nfa') 0)
    = Some [("a", [state_object 1; state_object 2; state_object 3; state_object 0])] /\
    exists st' targets',
      deref nfa' (state_object 0) = Ok st' /\
      dict_get String.eqb "a" (transitions st') = Some targets' /\
      forall x, In x targets' <->
                In x [state_object 1] \/
                exists t c, In t [state_object 1] /\
                            __epsilon_closure loaded t = Ok c /\ In x c.
Proof.
  do 4 eexists. split; [vm_compute; reflexivity|]. split; [reflexivity|].
  split; [vm_compute; reflexivity|]. split; [reflexivity|].
  eapply (proj1 subset_construction_mutates_nfa _
            (mkDFA_State [start_object; state_object 0; state_object 3] "S2 S0 S3" false)
            "a" (state_object 0)).
  - simpl. repeat constructor; simpl; intuition discriminate.
  - simpl. right; left; reflexivity.
  - discriminate.
  - reflexivity.
  - reflexivity.
  - vm_compute. reflexivity.
Defined.

End Claims.

(** * Further properties *)

(** ** Parser *)

Section ParserMore.
Import RegexCompiler_py Vocabulary.
Variable expr_str : string.

(** An iteration of the loop of [_parseGroup] breaks only inside a group,
    and only on a closing parenthesis, which it leaves unread. *)
Lemma group_body_break
  (parse_group parse_set : nat -> result (ExprNode * nat))
  (is_root : bool) (ch : list (list ExprNode)) (cur p : nat) :
  group_body expr_str parse_group parse_set is_root ch cur p = Ok Break ->
  is_root = false /\ _peak expr_str p 0 = Some ")"%char.
Proof.
  unfold group_body.
  destruct (_eat expr_str p (Some "("%char)) as [b1 p1] eqn:E1.
  apply eat_spec in E1. destruct E1 as [(-> & -> & _)|(-> & ->)].
  - destruct (parse_group (S p)) as [[node p2]| |]; simpl; try discriminate.
    destruct (_eat expr_str p2 (Some ")"%char)) as [[] p3]; simpl; [|discriminate].
    destruct (_assignQuantifier expr_str node p3); discriminate.
  - destruct (peak_is expr_str p ")") eqn:P.
    { destruct is_root; [discriminate|]. intros _. split; [reflexivity|].
      apply peak_is_true; assumption. }
    destruct (_eat expr_str p (Some "["%char)) as [b2 p2] eqn:E2.
    apply eat_spec in E2. destruct E2 as [(-> & -> & _)|(-> & ->)].
    + destruct (parse_set (S p)) as [[node p3]| |]; simpl; try discriminate.
      destruct (_eat expr_str p3 (Some "]"%char)) as [[] p4]; simpl; [|discriminate].
      destruct (_assignQuantifier expr_str node p4); discriminate.
    + destruct (peak_is expr_str p "\").
      { destruct (_eat expr_str p None) as [? p3].
        destruct (_parseChar expr_str p3) as [node p4].
        destruct (_assignQuantifier expr_str node p4); discriminate. }
      destruct (peak_is expr_str p ".").
      { destruct (_parseAny expr_str p) as [node p3].
        destruct (_assignQuantifier expr_str node p3); discriminate. }
      destruct (peak_is expr_str p "|").
      { destruct (_eat expr_str p (Some "|"%char)); discriminate. }
      destruct (negb _); [|discriminate].
      destruct (_parseChar expr_str p) as [node p3].
      destruct (_assignQuantifier expr_str node p3); discriminate.
Qed.

Lemma group_loop_stops (fuel : nat) :
  forall (is_root : bool) (ch : list (list ExprNode)) (cur p : nat)
         (ch' : list (list ExprNode)) (p' : nat),
    p <= String.length expr_str -> String.length expr_str - p < fuel ->
    group_loop expr_str fuel is_root ch cur p = Ok (ch', p') ->
    p' = String.length expr_str \/
    (is_root = false /\ _peak expr_str p' 0 = Some ")"%char).
Proof.
  induction fuel as [|fuel IH]; intros is_root ch cur p ch' p' Hp Hf H; [discriminate|].
  simpl in H. unfold _done in H.
  destruct (Nat.leb_spec (String.length expr_str) p) as [Hd|Hd].
  - inversion H; subst. left. lia.
  - destruct (group_body expr_str _ _ is_root ch cur p) as [[[[c1 k1] p1]|]| |] eqn:E;
      simpl in H; try discriminate.
    + assert (Hadv : p < p1 <= String.length expr_str).
      { revert E. apply group_body_advances; [| |assumption].
        - intros q Hq.
          destruct (group_loop_total expr_str fuel false [[]] 0 q) as [H1 H2]; [lia|lia|].
          destruct (group_loop expr_str fuel false [[]] 0 q) as [[c0 q0]| |]; simpl;
            try congruence; [|split; discriminate].
          split; [discriminate|]. intros node q' E'; inversion E'; subst. eapply H2; eauto.
        - intros q Hq. apply parseSet_total; lia. }
      apply IH with (p := p1) in H; [assumption|lia|lia].
    + inversion H; subst. right. eapply group_body_break; eassumption.
Qed.

(** X1.  [_parseGroup] stops at the end of the input or, inside a group,
    in front of a closing parenthesis; at the root it stops nowhere but at
    the end of the input. *)
Theorem parse_group_stops (fuel : nat) (is_root : bool) (p : nat)
  (node : ExprNode) (p' : nat) :
  p <= String.length expr_str -> String.length expr_str - p < fuel ->
  _parseGroup expr_str fuel is_root p = Ok (node, p') ->
  p' = String.length expr_str \/
  (is_root = false /\ _peak expr_str p' 0 = Some ")"%char).
Proof.
  intros Hp Hf. unfold _parseGroup.
  destruct (group_loop expr_str fuel is_root [[]] 0 p) as [[ch p1]| |] eqn:E; simpl;
    try discriminate.
  intros H; inversion H; subst. eapply group_loop_stops; eassumption.
Qed.

End ParserMore.

(** The group of [(ab)c] stops in front of its parenthesis. *)
Lemma parse_group_stops_witness :
  3 = String.length "(ab)c" \/
  (false = false /\ RegexCompiler_py._peak "(ab)c" 3 0 = Some ")"%char).
Proof.
  apply (parse_group_stops "(ab)c" 5 false 1
           (RegexCompiler_py.mkExprNode RegexCompiler_py.Group None []
              [[Vocabulary.literal "a"; Vocabulary.literal "b"]]) 3);
    [simpl; lia|simpl; lia|reflexivity].
Defined.

Section ParserCharacters.
Import RegexCompiler_py Vocabulary.

(** Rewrite the tests of the character under the cursor, which [H] gives. *)
Ltac under_cursor H :=
  repeat first [rewrite (eat_at_peak _ _ _ _ H) | rewrite (peak_is_at_peak _ _ _ _ H)].

(** The same for a known character, deciding each test too. *)
Ltac cursor_step H :=
  first [rewrite (eat_at_peak _ _ _ _ H) | rewrite (peak_is_at_peak _ _ _ _ H)];
  match goal with
  | |- context [Ascii.eqb ?a ?b] =>
      let v := eval vm_compute in (Ascii.eqb a b) in
      change (Ascii.eqb a b) with v
  end;
  cbv iota.

(** X2.  A quantifier with no atom in front of it is refused where it
    stands: an iteration of the loop of [_parseGroup] that finds [?], [+] or
    [*] under the cursor raises, and so does the parser on a regex that
    starts with one. *)
Theorem quantifier_without_atom :
  (forall expr_str parse_group parse_set is_root ch cur p c,
      _peak expr_str p 0 = Some c -> In c QUANTIFIES ->
      group_body expr_str parse_group parse_set is_root ch cur p
      = Raise (Unexpected (Some c) p)) /\
  (forall c rest, In c QUANTIFIES ->
                  RegularCompiler (String c rest) = Raise (Unexpected (Some c) 0)).
Proof.
  assert (Hbody : forall expr_str parse_group parse_set is_root ch cur p c,
             _peak expr_str p 0 = Some c -> In c QUANTIFIES ->
             group_body expr_str parse_group parse_set is_root ch cur p
             = Raise (Unexpected (Some c) p)).
  { intros expr_str pg ps is_root ch cur p c H Hc. unfold group_body.
    destruct Hc as [<-|[<-|[<-|[]]]]; repeat cursor_step H; rewrite H; reflexivity. }
  split; [exact Hbody|].
  intros c rest Hc. unfold RegularCompiler, _parseGroup.
  cbn [String.length]. rewrite group_loop_step.
  change (_done (String c rest) 0) with false. cbv iota.
  rewrite (Hbody (String c rest) _ _ true [[]] 0 0 c eq_refl Hc). reflexivity.
Qed.

(** In [a**] the second star has no atom. *)
Lemma quantifier_without_atom_witness :
  RegularCompiler "?a" = Raise (Unexpected (Some "?"%char) 0) /\
  group_body "a**" (_parseGroup "a**" 3 false) (_parseSet "a**" 3) true
             [[mkExprNode Char (Some "a") [("quantifier", PStr "*")] []]] 0 2
  = Raise (Unexpected (Some "*"%char) 2).
Proof.
  split.
  - apply (proj2 quantifier_without_atom "?"%char "a"). left; reflexivity.
  - apply (proj1 quantifier_without_atom "a**" _ _ true _ 0 2 "*"%char eq_refl).
    right; right; left; reflexivity.
Defined.

Lemma plain_spec (c : ascii) :
  plain c = true ->
  Ascii.eqb c "(" = false /\ Ascii.eqb c ")" = false /\ Ascii.eqb c "[" = false /\
  Ascii.eqb c "|" = false /\ Ascii.eqb c "?" = false /\ Ascii.eqb c "+" = false /\
  Ascii.eqb c "*" = false /\ Ascii.eqb c "\" = false /\ Ascii.eqb c "." = false.
Proof.
  unfold plain. cbn [SPECIAL_CHARS app existsb]. intros H. apply negb_true_iff in H.
  repeat (apply orb_false_iff in H; destruct H as [? H]). repeat split; assumption.
Qed.

Lemma assignQuantifier_nothing (expr_str : string) (node : ExprNode) (p : nat) :
  (forall c, _peak expr_str p 0 = Some c -> plain c = true) ->
  _assignQuantifier expr_str node p = (node, p).
Proof.
  intros H. unfold _assignQuantifier, PARAM_ONE_OR_ZERO, PARAM_ONE_OR_MORE, PARAM_ANY_OR_MORE.
  destruct (_peak expr_str p 0) as [c|] eqn:P.
  - destruct (plain_spec c (H c eq_refl)) as (_ & _ & _ & _ & Hq & Hp & Hs & _).
    under_cursor P. rewrite Hq. cbv iota. under_cursor P. rewrite Hp. cbv iota.
    under_cursor P. rewrite Hs. reflexivity.
  - assert (Hd : String.length expr_str <= p).
    { unfold _peak in P. rewrite Nat.add_0_r in P.
      destruct (Nat.leb_spec (String.length expr_str) p) as [Hl|Hl]; [assumption|].
      destruct (get_in_range expr_str p Hl) as [c Hc]. congruence. }
    rewrite !(eat_done expr_str p) by assumption. reflexivity.
Qed.

(** A literal character under the cursor, followed by no quantifier, adds
    its Char node to the current alternative. *)
Lemma group_body_literal (expr_str : string)
  (parse_group parse_set : nat -> result (ExprNode * nat))
  (is_root : bool) (ch : list (list ExprNode)) (cur p : nat) (c : ascii) :
  _peak expr_str p 0 = Some c -> plain c = true ->
  (forall d, _peak expr_str (S p) 0 = Some d -> plain d = true) ->
  group_body expr_str parse_group parse_set is_root ch cur p
  = Ok (Continue (append_at cur (literal c) ch, cur, S p)).
Proof.
  intros H Hc Hnext. unfold group_body.
  destruct (plain_spec c Hc) as (H1 & H2 & H3 & H4 & H5 & H6 & H7 & H8 & H9).
  under_cursor H. rewrite H1. cbv iota. under_cursor H. rewrite H2. cbv iota.
  under_cursor H. rewrite H3. cbv iota. under_cursor H. rewrite H8. cbv iota.
  under_cursor H. rewrite H9. cbv iota. under_cursor H. rewrite H4. cbv iota.
  rewrite H. cbn [SPECIAL_CHARS existsb option_eqb].
  rewrite H1, H2, H3, H4, H5, H6, H7. cbn [orb negb].
  unfold _parseChar. rewrite H. under_cursor H. rewrite Ascii.eqb_refl.
  cbn [option_map]. rewrite assignQuantifier_nothing by assumption. reflexivity.
Qed.

Lemma length_string_of_list (l : list ascii) :
  String.length (string_of_list_ascii l) = List.length l.
Proof. induction l as [|a l IH]; simpl; congruence. Qed.

Lemma peak_string_of_list (l : list ascii) (p : nat) :
  _peak (string_of_list_ascii l) p 0 = nth_error l p.
Proof.
  unfold _peak. rewrite Nat.add_0_r, length_string_of_list.
  revert p. induction l as [|a l IH]; intros [|p]; simpl; try reflexivity.
  rewrite <- IH.
  destruct (Nat.leb_spec (List.length l) p) as [H|H];
    destruct (Nat.leb_spec (S (List.length l)) (S p)); try lia; reflexivity.
Qed.

Lemma group_loop_literals (suffix : list ascii) :
  forall (prefix : list ascii) (fuel : nat) (is_root : bool) (acc : list ExprNode),
    forallb plain suffix = true -> List.length suffix < fuel ->
    group_loop (string_of_list_ascii (prefix ++ suffix)) fuel is_root [acc] 0
               (List.length prefix)
    = Ok ([acc ++ map literal suffix], List.length (prefix ++ suffix)).
Proof.
  induction suffix as [|c suffix IH]; intros prefix fuel is_root acc Hplain Hfuel;
    (destruct fuel as [|fuel]; [simpl in Hfuel; lia|]).
  - simpl. unfold _done. rewrite length_string_of_list, !app_nil_r, Nat.leb_refl.
    reflexivity.
  - simpl in Hplain. apply andb_true_iff in Hplain. destruct Hplain as [Hc Hs].
    rewrite group_loop_step. unfold _done.
    rewrite length_string_of_list, length_app. simpl List.length.
    destruct (Nat.leb_spec (List.length prefix + S (List.length suffix)) (List.length prefix));
      [lia|].
    rewrite (group_body_literal _ _ _ is_root [acc] 0 (List.length prefix) c).
    + cbn [bind append_at].
      replace (prefix ++ c :: suffix) with ((prefix ++ [c]) ++ suffix)
        by (rewrite <- app_assoc; reflexivity).
      replace (S (List.length prefix)) with (List.length (prefix ++ [c]))
        by (rewrite length_app; simpl; lia).
      rewrite IH by (simpl in Hfuel; auto; lia).
      f_equal. f_equal.
      * rewrite <- app_assoc. reflexivity.
      * rewrite !length_app. simpl. lia.
    + rewrite peak_string_of_list, nth_error_app2 by lia.
      rewrite Nat.sub_diag. reflexivity.
    + assumption.
    + intros d. rewrite peak_string_of_list, nth_error_app2 by lia.
      replace (S (List.length prefix) - List.length prefix) with 1 by lia.
      change (nth_error (c :: suffix) 1) with (nth_error suffix 0).
      intros Hd. apply nth_error_In in Hd.
      rewrite forallb_forall in Hs. apply Hs. assumption.
Qed.

(** X4.  A regex made of literal characters only (none of [( ) [ | ? + * \ .])
    parses to one alternative, the Char nodes of its characters in order. *)
Theorem literals_parse_to_chars (l : list ascii) :
  forallb plain l = true ->
  RegularCompiler (string_of_list_ascii l)
  = Ok (mkExprNode Root None [] [map literal l]).
Proof.
  intros H. unfold RegularCompiler, _parseGroup.
  rewrite length_string_of_list.
  pose proof (group_loop_literals l [] (S (List.length l)) true [] H
                (Nat.lt_succ_diag_r _)) as E.
  cbn [app List.length] in E. rewrite E. reflexivity.
Qed.

Lemma literals_parse_to_chars_witness :
  RegularCompiler "ab]-z"
  = Ok (mkExprNode Root None []
          [[literal "a"; literal "b"; literal "]"; literal "-"; literal "z"]]).
Proof.
  apply (literals_parse_to_chars ["a"; "b"; "]"; "-"; "z"]%char). reflexivity.
Defined.

End ParserCharacters.

Section ParserOutput.
Import RegexCompiler_py Vocabulary.
Variable expr_str : string.

Local Notation "'len'" := (String.length expr_str).

Local Notation "'positioned'" := (Vocabulary.positioned expr_str).

Lemma well_formed_node (t : NodeType) (v : option string)
  (params : list (string * ParamValue)) (ch : list (list ExprNode)) :
  well_formed (mkExprNode t v params ch)
  = match t with
    | UNKNOWN => false
    | Char => char_ok v
    | Range => range_ok params
    | _ => true
    end && forallb (forallb well_formed) ch.
Proof. reflexivity. Qed.

Lemma well_formed_quantifier (q : ParamValue) (node : ExprNode) :
  well_formed (set_param "quantifier" q node) = well_formed node.
Proof.
  destruct node as [t v params ch]. unfold set_param. rewrite !well_formed_node.
  f_equal. destruct t; try reflexivity. unfold range_ok.
  rewrite !dict_get_set_other by discriminate. reflexivity.
Qed.

Lemma well_formed_assignQuantifier (node node' : ExprNode) (p p' : nat) :
  _assignQuantifier expr_str node p = (node', p') -> well_formed node' = well_formed node.
Proof.
  unfold _assignQuantifier.
  destruct (_eat expr_str p _) as [[] p1];
    [intros E; inversion E; apply well_formed_quantifier|].
  destruct (_eat expr_str p1 _) as [[] p2];
    [intros E; inversion E; apply well_formed_quantifier|].
  destruct (_eat expr_str p2 _) as [[] p3]; intros E; inversion E;
    [apply well_formed_quantifier|reflexivity].
Qed.

Lemma well_formed_parseChar (p : nat) : well_formed (fst (_parseChar expr_str p)) = true.
Proof.
  unfold _parseChar. destruct (_eat expr_str p _).
  destruct (_peak expr_str p 0); reflexivity.
Qed.

Lemma parseRange_sound (p : nat) :
  match _parseRange expr_str p with
  | Ok (Some node, _) => well_formed node = true
  | Ok (None, _) => True
  | Raise e => positioned e
  | OutOfFuel => False
  end.
Proof.
  unfold _parseRange.
  destruct (option_eqb Ascii.eqb (_peak expr_str p 1) (Some "-"%char)); simpl; [|exact I].
  destruct (_peak expr_str p 2) as [e|] eqn:P2; simpl; [|exact I].
  apply peak_Some_lt in P2. destruct P2 as [Hlt _].
  destruct (peak_in_range expr_str p 0) as [s [Hs _]]; [lia|]. rewrite Hs.
  rewrite (eat_None_in_range _ p), (eat_None_in_range _ (S p)),
    (eat_None_in_range _ (S (S p))) by lia.
  destruct (Nat.ltb_spec (nat_of_ascii e) (nat_of_ascii s)) as [H|H].
  - exists (S (S (S p))). split; [reflexivity|lia].
  - rewrite well_formed_node. unfold range_ok. simpl.
    rewrite !andb_true_iff. repeat apply conj;
      [apply Nat.leb_le; assumption|apply Nat.ltb_lt, nat_ascii_bounded|reflexivity].
Qed.

Lemma forallb_snoc {A : Type} (f : A -> bool) (l : list A) (x : A) :
  forallb f (l ++ [x]) = forallb f l && f x.
Proof. rewrite forallb_app. simpl. rewrite andb_true_r. reflexivity. Qed.

Lemma set_item_sound (ch : list (list ExprNode)) (p : nat) :
  forallb (forallb well_formed) ch = true ->
  match set_item expr_str ch p with
  | Ok (ch', _) => forallb (forallb well_formed) ch' = true
  | Raise e => positioned e
  | OutOfFuel => False
  end.
Proof.
  intros H. unfold set_item. pose proof (parseRange_sound p) as Hr.
  destruct (_parseRange expr_str p) as [[[node|] p1]| |]; simpl; try assumption.
  - rewrite forallb_snoc, H. simpl. rewrite Hr. reflexivity.
  - pose proof (well_formed_parseChar p1) as Hc.
    destruct (_parseChar expr_str p1) as [node p2]. simpl in Hc.
    rewrite forallb_snoc, H. simpl. rewrite Hc. reflexivity.
Qed.

Lemma set_body_sound (ch : list (list ExprNode)) (esc : bool) (p : nat) :
  forallb (forallb well_formed) ch = true -> p <= len ->
  match set_body expr_str ch esc p with
  | Ok (Continue (ch', _, _)) => forallb (forallb well_formed) ch' = true
  | Ok Break => True
  | Raise e => positioned e
  | OutOfFuel => False
  end.
Proof.
  intros H Hp. unfold set_body.
  destruct (_peak expr_str p 0) as [c|]; [|exists p; split; [reflexivity|assumption]].
  pose proof (set_item_sound ch p H) as Hi.
  destruct (Ascii.eqb c "\"%char).
  { destruct (_eat expr_str p None). assumption. }
  destruct esc; [|destruct (Ascii.eqb c "]"%char); [exact I|]];
    destruct (set_item expr_str ch p) as [[ch' p1]| |]; simpl; assumption.
Qed.

Lemma set_loop_sound (fuel : nat) :
  forall (ch : list (list ExprNode)) (esc : bool) (p : nat),
    forallb (forallb well_formed) ch = true -> p <= len ->
    match set_loop expr_str fuel ch esc p with
    | Ok (ch', _) => forallb (forallb well_formed) ch' = true
    | Raise e => positioned e
    | OutOfFuel => True
    end.
Proof.
  induction fuel as [|fuel IH]; intros ch esc p H Hp; simpl; [exact I|].
  destruct (_done expr_str p); [assumption|].
  pose proof (set_body_sound ch esc p H Hp) as Hb.
  destruct (set_body expr_str ch esc p) as [[[[ch1 e1] p1]|]| |] eqn:E; simpl;
    try assumption; [|contradiction].
  apply set_body_advances in E. apply IH; [assumption|lia].
Qed.

(** One iteration of the loop of [_parseGroup] keeps the alternatives
    well-formed, and raises nothing but positioned exceptions. *)
Lemma group_body_sound
  (parse_group parse_set : nat -> result (ExprNode * nat))
  (is_root : bool) (ch : list (list ExprNode)) (cur p : nat) :
  sound_call expr_str parse_group p -> sound_call expr_str parse_set p ->
  well_behaved expr_str parse_group p -> well_behaved expr_str parse_set p ->
  forallb (forallb well_formed) ch = true -> p < len ->
  match group_body expr_str parse_group parse_set is_root ch cur p with
  | Ok (Continue (ch', _, _)) => forallb (forallb well_formed) ch' = true
  | Ok Break => True
  | Raise e => positioned e
  | OutOfFuel => True
  end.
Proof.
  intros Sg Ss Bg Bs H Hp. unfold group_body.
  assert (Happ : forall node q,
             well_formed node = true ->
             match (let (node', p4) := _assignQuantifier expr_str node q in
                    Ok (Continue (append_at cur node' ch, cur, p4)))
             with
             | Ok (Continue (ch', _, _)) => forallb (forallb well_formed) ch' = true
             | Ok Break => True
             | Raise e => positioned e
             | OutOfFuel => True
             end).
  { intros node q Hn. destruct (_assignQuantifier expr_str node q) as [node' p4] eqn:E.
    apply well_formed_assignQuantifier in E. rewrite <- E in Hn.
    clear - H Hn. revert cur. induction ch as [|a l IH]; intros [|cur]; simpl in *;
      try reflexivity; apply andb_true_iff in H; destruct H as [Ha Hl].
    - rewrite forallb_snoc, Ha, Hn, Hl. reflexivity.
    - rewrite Ha. simpl. apply IH. assumption. }
  destruct (_eat expr_str p (Some "("%char)) as [b1 p1] eqn:E1.
  apply eat_spec in E1. destruct E1 as [(-> & -> & _)|(-> & ->)].
  - pose proof (Sg (S p) ltac:(lia)) as Hs. destruct (Bg (S p)) as [_ Hpos]; [lia|].
    destruct (parse_group (S p)) as [[node p2]| |]; simpl; try assumption.
    specialize (Hpos node p2 eq_refl).
    destruct (_eat expr_str p2 (Some ")"%char)) as [b3 p3] eqn:E3.
    apply eat_spec in E3. destruct E3 as [(-> & -> & ?)|(-> & ->)]; simpl.
    + apply Happ; assumption.
    + exists p2. split; [reflexivity|lia].
  - destruct (peak_is expr_str p ")").
    { destruct is_root; [|exact I]. exists p. split; [reflexivity|lia]. }
    destruct (_eat expr_str p (Some "["%char)) as [b2 p2] eqn:E2.
    apply eat_spec in E2. destruct E2 as [(-> & -> & _)|(-> & ->)].
    + pose proof (Ss (S p) ltac:(lia)) as Hs. destruct (Bs (S p)) as [_ Hpos]; [lia|].
      destruct (parse_set (S p)) as [[node p3]| |]; simpl; try assumption.
      specialize (Hpos node p3 eq_refl).
      destruct (_eat expr_str p3 (Some "]"%char)) as [b4 p4] eqn:E4.
      apply eat_spec in E4. destruct E4 as [(-> & -> & ?)|(-> & ->)]; simpl.
      * apply Happ; assumption.
      * exists p3. split; [reflexivity|lia].
    + destruct (peak_is expr_str p "\").
      { destruct (_eat expr_str p None) as [? p3].
        pose proof (well_formed_parseChar p3) as Hc.
        destruct (_parseChar expr_str p3) as [node p4]. apply Happ; assumption. }
      destruct (peak_is expr_str p ".").
      { unfold _parseAny. destruct (_eat expr_str p (Some "."%char)) as [? p3].
        apply Happ; reflexivity. }
      destruct (peak_is expr_str p "|").
      { destruct (_eat expr_str p (Some "|"%char)) as [? p3].
        rewrite forallb_snoc, H. reflexivity. }
      destruct (negb _).
      * pose proof (well_formed_parseChar p) as Hc.
        destruct (_parseChar expr_str p) as [node p3]. apply Happ; assumption.
      * exists p. split; [reflexivity|lia].
Qed.

Lemma parseSet_sound (fuel p : nat) : sound_call expr_str (_parseSet expr_str fuel) p.
Proof.
  intros q Hq. unfold _parseSet.
  pose proof (set_loop_sound fuel [] false q eq_refl (proj2 Hq)) as H.
  destruct (set_loop expr_str fuel [] false q) as [[ch p1]| |]; simpl; try assumption;
    rewrite well_formed_node; assumption.
Qed.

Lemma parseGroup_behaved (fuel p : nat) :
  len - p <= fuel -> well_behaved expr_str (_parseGroup expr_str fuel false) p.
Proof.
  intros Hf q Hq. unfold _parseGroup.
  destruct (group_loop_total expr_str fuel false [[]] 0 q) as [H1 H2]; [lia|lia|].
  destruct (group_loop expr_str fuel false [[]] 0 q) as [[c0 q0]| |]; simpl.
  - split; [discriminate|]. intros node q' E'; inversion E'; subst. eapply H2; eauto.
  - split; discriminate.
  - congruence.
Qed.

Lemma group_loop_sound (fuel : nat) :
  forall (is_root : bool) (ch : list (list ExprNode)) (cur p : nat),
    forallb (forallb well_formed) ch = true ->
    p <= len -> len - p < fuel ->
    match group_loop expr_str fuel is_root ch cur p with
    | Ok (ch', _) => forallb (forallb well_formed) ch' = true
    | Raise e => positioned e
    | OutOfFuel => True
    end.
Proof.
  induction fuel as [|fuel IH]; intros is_root ch cur p H Hp Hf; [lia|].
  rewrite group_loop_step. unfold _done.
  destruct (Nat.leb_spec len p) as [Hd|Hd]; [assumption|].
  assert (Bg : well_behaved expr_str (_parseGroup expr_str fuel false) p)
    by (apply parseGroup_behaved; lia).
  assert (Bs : well_behaved expr_str (_parseSet expr_str fuel) p)
    by (intros q Hq; apply parseSet_total; lia).
  assert (Sg : sound_call expr_str (_parseGroup expr_str fuel false) p).
  { intros q Hq. unfold _parseGroup.
    pose proof (IH false [[]] 0 q eq_refl ltac:(lia) ltac:(lia)) as Hg.
    destruct (group_loop expr_str fuel false [[]] 0 q) as [[c0 q0]| |]; simpl;
      try assumption; rewrite well_formed_node; assumption. }
  pose proof (group_body_advances expr_str _ _ is_root ch cur p Bg Bs Hd) as [_ Hadv].
  pose proof (group_body_sound _ _ is_root ch cur p Sg (parseSet_sound fuel p)
                Bg Bs H Hd) as Hb.
  destruct (group_body expr_str _ _ is_root ch cur p) as [[[[c1 k1] p1]|]| |]; simpl;
    try assumption.
  specialize (Hadv c1 k1 p1 eq_refl). apply IH; [assumption|lia|lia].
Qed.

(** X3.  The tree the parser returns is well-formed: its root is a Root
    node, it has no node of unknown type, the value of every Char node in
    it is one character or [None], and every Range node in it has both
    bounds, code points of characters, the start not above the end. *)
Theorem parser_output_well_formed (ast : ExprNode) :
  RegularCompiler expr_str = Ok ast -> type ast = Root /\ well_formed ast = true.
Proof.
  unfold RegularCompiler, _parseGroup.
  pose proof (group_loop_sound (S len) true [[]] 0 0 eq_refl
                (Nat.le_0_l _) ltac:(lia)) as H.
  destruct (group_loop expr_str (S len) true [[]] 0 0) as [[ch p]| |]; simpl;
    try discriminate.
  intros E; inversion E; subst. split; [reflexivity|].
  unfold set_type. rewrite well_formed_node. assumption.
Qed.


End ParserOutput.

(** The tree of [[z-a]] would have a Range out of order: the parser refuses
    it; the tree of [x[a-z]+] is well-formed. *)
Lemma parser_output_well_formed_witness :
  RegexCompiler_py.type
    (RegexCompiler_py.mkExprNode RegexCompiler_py.Root None []
       [[Vocabulary.literal "x";
         RegexCompiler_py.mkExprNode RegexCompiler_py.CharacterSet None
           [("quantifier", RegexCompiler_py.PStr "+")]
           [[RegexCompiler_py.mkExprNode RegexCompiler_py.Range None
               [("start", RegexCompiler_py.PInt 97); ("end", RegexCompiler_py.PInt 122)]
               []]]]]) = RegexCompiler_py.Root /\
  Vocabulary.well_formed
    (RegexCompiler_py.mkExprNode RegexCompiler_py.Root None []
       [[Vocabulary.literal "x";
         RegexCompiler_py.mkExprNode RegexCompiler_py.CharacterSet None
           [("quantifier", RegexCompiler_py.PStr "+")]
           [[RegexCompiler_py.mkExprNode RegexCompiler_py.Range None
               [("start", RegexCompiler_py.PInt 97); ("end", RegexCompiler_py.PInt 122)]
               []]]]]) = true.
Proof. apply (parser_output_well_formed "x[a-z]+"). reflexivity. Defined.




(** ** NFA *)

Section Labels.
Import Vocabulary.

Lemma split_single (a : ascii) : NFA_py.split " - " (str1 a) = [str1 a].
Proof.
  unfold NFA_py.split, str1. cbn [NFA_py.split_from String.prefix].
  destruct (ascii_dec " " a); reflexivity.
Qed.

Lemma split_range (a b : ascii) :
  NFA_py.split " - " (str1 a ++ " - " ++ str1 b)%string = [str1 a; str1 b].
Proof.
  unfold NFA_py.split, str1. cbn [String.append NFA_py.split_from String.prefix].
  destruct (ascii_dec " " a) as [<-|Ha].
  - vm_compute (ascii_dec "-" " "). cbv iota.
    cbn [String.append NFA_py.split_from String.prefix String.length Nat.sub].
    vm_compute (ascii_dec " " " "). vm_compute (ascii_dec "-" "-"). cbv iota.
    destruct (ascii_dec " " b); reflexivity.
  - cbn [String.append NFA_py.split_from String.prefix String.length Nat.sub].
    vm_compute (ascii_dec " " " "). vm_compute (ascii_dec "-" "-"). cbv iota.
    destruct (ascii_dec " " b); reflexivity.
Qed.

Lemma str1_eqb (a c : ascii) : String.eqb (str1 a) (str1 c) = Ascii.eqb a c.
Proof. unfold str1. cbn [String.eqb]. apply andb_true_r. Qed.

Lemma label_matches_None (c : ascii) : NFA_py.label_matches None c = Ok false.
Proof.
  unfold NFA_py.label_matches, NFA_py.label_eqb. cbn [option_eqb NFA_py.str].
  rewrite andb_false_r. reflexivity.
Qed.

Lemma label_matches_char (a c : ascii) :
  NFA_py.label_matches (Some (str1 a)) c = Ok (Ascii.eqb a "." || Ascii.eqb a c).
Proof.
  unfold NFA_py.label_matches, NFA_py.label_eqb. cbn [option_eqb NFA_py.str].
  change "."%string with (str1 "."). rewrite !str1_eqb, split_single.
  destruct (Ascii.eqb a "."); [reflexivity|].
  destruct (Ascii.eqb a c); [reflexivity|].
  unfold str1. cbn [String.eqb orb].
  destruct (Ascii.eqb a "\"); rewrite andb_false_r; reflexivity.
Qed.

Lemma label_matches_range (a b c : ascii) :
  NFA_py.label_matches (Some (range_label a b)) c
  = Ok (Nat.leb (nat_of_ascii a) (nat_of_ascii c)
        && Nat.leb (nat_of_ascii c) (nat_of_ascii b)).
Proof.
  unfold NFA_py.label_matches, NFA_py.label_eqb, range_label.
  cbn [option_eqb NFA_py.str]. rewrite split_range.
  unfold str1. cbn [String.append String.eqb NFA_py.ord bind].
  destruct (Ascii.eqb a "."); cbn [andb]; cbv iota.
  all: destruct (Ascii.eqb a c); cbn [andb]; cbv iota.
  all: destruct (Ascii.eqb a "\"); cbn [andb]; rewrite ?andb_false_r; cbv iota.
  all: destruct (Nat.leb (nat_of_ascii a) (nat_of_ascii c)); reflexivity.
Qed.

Lemma label_matches_escaped_dot (c : ascii) :
  NFA_py.label_matches (Some "\\.") c = Ok (Ascii.eqb c ".").
Proof.
  unfold NFA_py.label_matches, NFA_py.label_eqb. cbn [option_eqb NFA_py.str].
  change (String.eqb "\\." ".") with false. cbv iota.
  destruct (String.eqb "\\." (str1 c)) eqn:E; [apply String.eqb_eq in E; discriminate|].
  change (String.eqb "\\." "\\.") with true. rewrite andb_true_r.
  change (NFA_py.split " - " "\\.") with ["\\."%string].
  destruct (Ascii.eqb c "."); reflexivity.
Qed.

Lemma builder_label_matches (l : NFA_py.label) (c : ascii) :
  builder_label l -> exists b, NFA_py.label_matches l c = Ok b.
Proof.
  intros [->|[[a ->]|[->|[a [b ->]]]]]; eexists.
  - apply label_matches_None.
  - apply label_matches_char.
  - apply label_matches_escaped_dot.
  - apply label_matches_range.
Qed.

(** X6.  The condition under which [match] takes a transition, for the
    labels the builder attaches: a label [None] is never taken; a
    one-character label is taken on that character, the label [.] on every
    character; the label of a range is taken on the characters whose code
    point lies between its bounds, whatever the bounds are (a space or a
    dash included). *)
Theorem label_semantics (c : ascii) :
  NFA_py.label_matches None c = Ok false /\
  (forall a, NFA_py.label_matches (Some (str1 a)) c
             = Ok (Ascii.eqb a "." || Ascii.eqb a c)) /\
  (forall a b, NFA_py.label_matches (Some (range_label a b)) c
               = Ok (Nat.leb (nat_of_ascii a) (nat_of_ascii c)
                     && Nat.leb (nat_of_ascii c) (nat_of_ascii b))).
Proof.
  split; [apply label_matches_None|].
  split; [intros a; apply label_matches_char|intros a b; apply label_matches_range].
Qed.

End Labels.

(** ** Builder of the NFA *)

Section ListFacts.
Context {A : Type}.

Lemma length_list_set (l : list A) :
  forall i x, List.length (list_set i x l) = List.length l.
Proof. induction l as [|a l IH]; intros [|i] x; simpl; auto. Qed.

Lemma Forall_list_set (P : A -> Prop) (l : list A) :
  forall i x, Forall P l -> P x -> Forall P (list_set i x l).
Proof.
  induction l as [|a l IH]; intros [|i] x Hl Hx; simpl; auto;
    inversion Hl; subst; constructor; auto.
Qed.

Lemma map_list_set_at {C : Type} (g : A -> C) (l : list A) :
  forall i x, map g (list_set i x l) = list_set i (g x) (map g l).
Proof. induction l as [|a l IH]; intros [|i] x; simpl; f_equal; auto. Qed.

Lemma list_set_app_r (pre l : list A) (f : nat) (x : A) :
  list_set (List.length pre + f) x (pre ++ l) = pre ++ list_set f x l.
Proof. induction pre as [|a pre IH]; simpl; [reflexivity|]. f_equal. exact IH. Qed.

Lemma list_set_app_l (l post : list A) :
  forall f x, f < List.length l -> list_set f x (l ++ post) = list_set f x l ++ post.
Proof.
  induction l as [|a l IH]; intros [|f] x H; simpl in *; try lia; [reflexivity|].
  f_equal. apply IH. lia.
Qed.

Lemma list_set_beyond (l : list A) :
  forall f x, List.length l <= f -> list_set f x l = l.
Proof.
  induction l as [|a l IH]; intros [|f] x H; simpl in *; try lia; try reflexivity.
  f_equal. apply IH. lia.
Qed.

Lemma fold_left_invariant_In {B : Type} (I : A -> Prop) (f : A -> B -> A) (l : list B) :
  (forall a x, In x l -> I a -> I (f a x)) -> forall a, I a -> I (fold_left f l a).
Proof.
  induction l as [|x l IH]; intros Hf a Ha; simpl; [assumption|].
  apply IH; [intros; apply Hf; simpl; auto|apply Hf; simpl; auto].
Qed.

Lemma nth_error_In_combine (l : list A) :
  forall base i x, nth_error l i = Some x ->
    In (base + i, x) (combine (seq base (List.length l)) l).
Proof.
  induction l as [|a l IH]; intros base [|i] x H; simpl in *; try discriminate.
  - inversion H; subst. left. f_equal. lia.
  - right. replace (base + S i) with (S base + i) by lia. apply IH. assumption.
Qed.

Lemma In_combine_nth_error (l : list A) :
  forall base i x, In (i, x) (combine (seq base (List.length l)) l) ->
    base <= i /\ nth_error l (i - base) = Some x.
Proof.
  induction l as [|a l IH]; intros base i x H; simpl in *; [contradiction|].
  destruct H as [H|H].
  - inversion H; subst. rewrite Nat.sub_diag. split; [lia|reflexivity].
  - apply IH in H. destruct H as [Hle Hn]. split; [lia|].
    replace (i - base) with (S (i - S base)) by lia. exact Hn.
Qed.

End ListFacts.

Section OneHot.
Import Vocabulary.

Lemma one_hot_cleared (flags : list bool) (f : nat) :
  one_hot flags f -> Forall (fun b => b = false) (list_set f false flags).
Proof.
  intros H. apply Forall_forall. intros b Hb.
  apply In_nth_error in Hb. destruct Hb as [i Hi].
  destruct (Nat.eq_dec f i) as [->|Hne].
  - assert (Hlt : i < List.length flags).
    { rewrite <- (length_list_set flags i false). apply nth_error_Some. congruence. }
    apply nth_error_Some in Hlt.
    destruct (nth_error flags i) as [y|] eqn:E; [|congruence].
    rewrite (nth_error_list_set_same _ _ _ _ E) in Hi. congruence.
  - rewrite nth_error_list_set_other in Hi by assumption.
    destruct b; [|reflexivity]. apply H in Hi. destruct Hi as [Hi _].
    specialize (Hi eq_refl). congruence.
Qed.

Lemma one_hot_after (zeros flags : list bool) (f : nat) :
  Forall (fun b => b = false) zeros -> one_hot flags f ->
  one_hot (zeros ++ flags) (List.length zeros + f).
Proof.
  intros Hz H i b Hi. destruct (Nat.lt_ge_cases i (List.length zeros)) as [Hlt|Hge].
  - rewrite nth_error_app1 in Hi by assumption. apply nth_error_In in Hi.
    rewrite Forall_forall in Hz. apply Hz in Hi. subst b. split; [discriminate|lia].
  - rewrite nth_error_app2 in Hi by assumption. apply H in Hi. rewrite Hi. lia.
Qed.

Lemma one_hot_before (flags zeros : list bool) (f : nat) :
  Forall (fun b => b = false) zeros -> one_hot flags f -> f < List.length flags ->
  one_hot (flags ++ zeros) f.
Proof.
  intros Hz H Hf i b Hi. destruct (Nat.lt_ge_cases i (List.length flags)) as [Hlt|Hge].
  - rewrite nth_error_app1 in Hi by assumption. apply H in Hi. exact Hi.
  - rewrite nth_error_app2 in Hi by assumption. apply nth_error_In in Hi.
    rewrite Forall_forall in Hz. apply Hz in Hi. subst b. split; [discriminate|lia].
Qed.

End OneHot.

Section StateFacts.
Import RegexCompiler_py NFA_py Vocabulary.

Lemma state_ok_mono (size size' : nat) (s : State) :
  size <= size' -> state_ok size s -> state_ok size' s.
Proof.
  intros Hle [Ht [Hk [He Hd]]]. repeat apply conj; try assumption.
  - eapply Forall_impl; [|exact Ht]. intros e [Hl [Hts Hnd]]. split; [assumption|].
    split; [|assumption]. eapply Forall_impl; [|exact Hts]. simpl. intros; lia.
  - eapply Forall_impl; [|exact He]. simpl. intros; lia.
Qed.

Lemma Forall_set_add (P : nat -> Prop) (x : nat) (s : list nat) :
  Forall P s -> P x -> Forall P (set_add Nat.eqb x s).
Proof.
  intros Hs Hx. unfold set_add. destruct (mem Nat.eqb x s); [assumption|].
  apply Forall_app. split; [assumption|]. constructor; [assumption|constructor].
Qed.

Lemma NoDup_set_add (x : nat) (s : list nat) : NoDup s -> NoDup (set_add Nat.eqb x s).
Proof.
  intros H. unfold set_add. destruct (mem Nat.eqb x s) eqn:E; [assumption|].
  apply NoDup_app; [assumption|constructor; [intros []|constructor]|].
  intros y Hy [<-|[]]. apply (mem_In Nat.eqb Nat.eqb_eq) in Hy. congruence.
Qed.

Lemma set_add_not_nil (x : nat) (s : list nat) : set_add Nat.eqb x s <> [].
Proof.
  unfold set_add. destruct (mem Nat.eqb x s) eqn:E.
  - destruct s; [discriminate|discriminate].
  - destruct s; discriminate.
Qed.

Lemma targets_ok_add (size x : nat) (s : list nat) :
  x < size -> Forall (fun t => t < size) s /\ NoDup s ->
  targets_ok size (set_add Nat.eqb x s).
Proof.
  intros Hx [Hs Hn]. repeat apply conj.
  - apply Forall_set_add; assumption.
  - apply NoDup_set_add; assumption.
  - apply set_add_not_nil.
Qed.

Lemma label_eqb_eq (a b : label) : label_eqb a b = true <-> a = b.
Proof.
  destruct a as [a|], b as [b|]; simpl; split; try congruence; try discriminate.
  - intros H. apply String.eqb_eq in H. congruence.
  - intros H. inversion H. apply String.eqb_refl.
Qed.

Lemma dict_set_keys {V : Type} (k : label) (v : V) (d : list (label * V)) :
  map fst (dict_set label_eqb k v d)
  = if mem label_eqb k (map fst d) then map fst d else map fst d ++ [k].
Proof.
  induction d as [|[k' v'] d IH]; simpl; [reflexivity|].
  destruct (label_eqb k k') eqn:E; simpl; [reflexivity|].
  rewrite IH. fold (mem label_eqb k (map fst d)).
  destruct (mem label_eqb k (map fst d)); reflexivity.
Qed.

Lemma NoDup_dict_set {V : Type} (k : label) (v : V) (d : list (label * V)) :
  NoDup (map fst d) -> NoDup (map fst (dict_set label_eqb k v d)).
Proof.
  intros H. rewrite dict_set_keys. destruct (mem label_eqb k (map fst d)) eqn:E;
    [assumption|].
  apply NoDup_app; [assumption|constructor; [intros []|constructor]|].
  intros y Hy [<-|[]]. apply (mem_In label_eqb label_eqb_eq) in Hy. congruence.
Qed.

Lemma Forall_dict_get {V : Type} (Q : label -> Prop) (R : V -> Prop) (k : label) (v : V)
  (d : list (label * V)) :
  Forall (fun e => Q (fst e) /\ R (snd e)) d -> dict_get label_eqb k d = Some v -> R v.
Proof.
  induction d as [|[k' v'] d IH]; simpl; intros H E; [discriminate|].
  inversion H as [|? ? [_ Hv] Hd]; subst. simpl in Hv.
  destruct (label_eqb k k'); [inversion E; subst; assumption|auto].
Qed.

Lemma Forall_dict_set {V : Type} (Q : label -> Prop) (R : V -> Prop) (k : label) (v : V)
  (d : list (label * V)) :
  Forall (fun e => Q (fst e) /\ R (snd e)) d -> Q k -> R v ->
  Forall (fun e => Q (fst e) /\ R (snd e)) (dict_set label_eqb k v d).
Proof.
  intros H Hk Hv. induction d as [|[k' v'] d IH]; simpl.
  - constructor; [split; assumption|constructor].
  - inversion H as [|? ? [Hk' Hv'] Hd]; subst. simpl in Hk', Hv'.
    destruct (label_eqb k k'); constructor; simpl; auto.
Qed.

Lemma state_ok_add_transition (size : nat) (l : label) (t : nat) (s : State) :
  builder_label l -> t < size -> state_ok size s -> state_ok size (add_transition l t s).
Proof.
  intros Hl Ht [Htr [Hk He]]. unfold add_transition. repeat apply conj; try apply He.
  - simpl. apply (Forall_dict_set builder_label (targets_ok size)); try assumption.
    apply targets_ok_add; [assumption|].
    destruct (dict_get label_eqb l (transitions s)) as [ts|] eqn:E;
      [|split; constructor].
    destruct (Forall_dict_get builder_label (targets_ok size) _ _ _ Htr E) as [H1 [H2 _]].
    auto.
  - simpl. apply NoDup_dict_set. assumption.
Qed.

Lemma state_ok_add_epsilon (size t : nat) (s : State) :
  t < size -> state_ok size s -> state_ok size (add_epsilon_transition t s).
Proof.
  intros Ht [Htr [Hk [He Hd]]]. repeat apply conj; try assumption; simpl.
  - apply Forall_set_add; assumption.
  - apply NoDup_set_add; assumption.
Qed.

Lemma state_ok_set_is_final (size : nat) (b : bool) (s : State) :
  state_ok size s -> state_ok size (set_is_final b s).
Proof. intros H; exact H. Qed.

Lemma state_ok_copy (off size total bound : nat) (old new : State) :
  off + size <= total -> state_ok bound old -> state_ok total new ->
  state_ok total (copy_transitions off size old new).
Proof.
  intros Hle [Hold _] Hnew. unfold copy_transitions.
  apply fold_left_invariant.
  - intros acc target Hacc. destruct (Nat.ltb_spec target size); [|assumption].
    apply state_ok_add_epsilon; [lia|assumption].
  - apply fold_left_invariant_In; [|assumption].
    intros acc entry Hin Hacc. rewrite Forall_forall in Hold.
    destruct (Hold entry Hin) as [Hl _].
    apply fold_left_invariant; [|assumption].
    intros acc' target Hacc'. destruct (Nat.ltb_spec target size); [|assumption].
    apply state_ok_add_transition; [assumption|lia|assumption].
Qed.

Lemma copy_transitions_frame (off size : nat) (old new : State) :
  id (copy_transitions off size old new) = id new /\
  is_final (copy_transitions off size old new) = is_final new.
Proof.
  unfold copy_transitions.
  apply (fold_left_invariant (fun s => id s = id new /\ is_final s = is_final new)).
  - intros acc target Hacc. destruct (Nat.ltb target size); assumption.
  - apply (fold_left_invariant (fun s => id s = id new /\ is_final s = is_final new));
      [|split; reflexivity].
    intros acc entry Hacc.
    apply (fold_left_invariant (fun s => id s = id new /\ is_final s = is_final new));
      [|assumption].
    intros acc' target Hacc'. destruct (Nat.ltb target size); assumption.
Qed.

(** *** Mutation of one state *)

Lemma update_state_states (r : nat) (f : State -> State) (n : NFA) :
  states (update_state r f n)
  = match nth_error (states n) r with
    | Some s => list_set r (f s) (states n)
    | None => states n
    end.
Proof. unfold update_state. destruct (nth_error (states n) r); reflexivity. Qed.

Lemma update_state_frame (r : nat) (f : State -> State) (n : NFA) :
  List.length (states (update_state r f n)) = List.length (states n) /\
  start_state (update_state r f n) = start_state n /\
  final_state (update_state r f n) = final_state n /\
  next_state_id (update_state r f n) = next_state_id n.
Proof.
  unfold update_state. destruct (nth_error (states n) r); simpl;
    rewrite ?length_list_set; auto.
Qed.

Lemma update_state_length (r : nat) (f : State -> State) (n : NFA) :
  List.length (states (update_state r f n)) = List.length (states n).
Proof. apply update_state_frame. Qed.

Lemma update_state_start (r : nat) (f : State -> State) (n : NFA) :
  start_state (update_state r f n) = start_state n.
Proof. apply update_state_frame. Qed.

Lemma update_state_sane (r : nat) (f : State -> State) (n : NFA) :
  (forall s, id (f s) = id s) ->
  (forall s, state_ok (List.length (states n)) s -> state_ok (List.length (states n)) (f s)) ->
  sane n -> sane (update_state r f n).
Proof.
  intros Hid Hok [[Hids Hnext] Hall]. unfold sane, dense.
  destruct (update_state_frame r f n) as [Hlen [_ [_ Hn]]]. rewrite Hlen, Hn.
  rewrite update_state_states.
  destruct (nth_error (states n) r) as [s|] eqn:E; [|repeat split; assumption].
  repeat apply conj; [|assumption|].
  - rewrite (map_list_set id _ _ _ _ E) by apply Hid. assumption.
  - apply Forall_list_set; [assumption|]. apply Hok.
    rewrite Forall_forall in Hall. apply Hall. eapply nth_error_In; eassumption.
Qed.

Lemma update_state_flags (r : nat) (f : State -> State) (n : NFA) :
  (forall s, is_final (f s) = is_final s) ->
  map is_final (states (update_state r f n)) = map is_final (states n).
Proof.
  intros H. rewrite update_state_states.
  destruct (nth_error (states n) r) as [s|] eqn:E; [|reflexivity].
  apply (map_list_set is_final _ _ _ _ E). apply H.
Qed.

Lemma update_state_clear (r : nat) (n : NFA) :
  map is_final (states (update_state r (set_is_final false) n))
  = list_set r false (map is_final (states n)).
Proof.
  rewrite update_state_states.
  destruct (nth_error (states n) r) as [s|] eqn:E.
  - rewrite map_list_set_at. reflexivity.
  - apply nth_error_None in E. rewrite list_set_beyond; [reflexivity|].
    rewrite length_map. assumption.
Qed.

Lemma sane_add_epsilon (r t : nat) (n : NFA) :
  t < List.length (states n) -> sane n ->
  sane (update_state r (add_epsilon_transition t) n).
Proof.
  intros Ht. apply update_state_sane; [reflexivity|].
  intros s. apply state_ok_add_epsilon. assumption.
Qed.

Lemma sane_set_is_final (r : nat) (b : bool) (n : NFA) :
  sane n -> sane (update_state r (set_is_final b) n).
Proof. apply update_state_sane; [reflexivity|]. intros s H; exact H. Qed.

Lemma sane_copy (r off size bound : nat) (old : State) (n : NFA) :
  off + size <= List.length (states n) -> state_ok bound old -> sane n ->
  sane (update_state r (copy_transitions off size old) n).
Proof.
  intros Hle Hold. apply update_state_sane.
  - intros s. apply copy_transitions_frame.
  - intros s. eapply state_ok_copy; eassumption.
Qed.

(** *** A new state *)

Lemma create_state_sane (b : bool) (n : NFA) : sane n -> sane (snd (create_state b n)).
Proof.
  intros [[Hids Hnext] Hall]. unfold sane, dense, create_state. simpl.
  rewrite length_app, map_app, Hids, Hnext. simpl. rewrite Nat.add_1_r.
  repeat apply conj.
  - rewrite seq_S. reflexivity.
  - reflexivity.
  - apply Forall_app. split.
    + eapply Forall_impl; [|exact Hall]. intros s. apply state_ok_mono. lia.
    + constructor; [|constructor]. repeat split; constructor.
Qed.

Lemma create_state_frame (b : bool) (n : NFA) :
  fst (create_state b n) = List.length (states n) /\
  states (snd (create_state b n))
  = states n ++ [mkState (next_state_id n) b [] []] /\
  start_state (snd (create_state b n)) = start_state n.
Proof. repeat split. Qed.

End StateFacts.

Section BuilderFacts.
Import RegexCompiler_py NFA_py Vocabulary.

Ltac conjs := repeat match goal with |- _ /\ _ => split end.

Lemma one_hot_pair : one_hot [false; true] 1.
Proof.
  intros [|[|i]] b H; simpl in H.
  - inversion H; subst. split; [discriminate|lia].
  - inversion H; subst. split; reflexivity.
  - destruct i; discriminate.
Qed.

Lemma basic_fragment_built (l : label) :
  builder_label l -> built (basic_fragment l empty_NFA).
Proof.
  intros Hl. split; [split; [split; reflexivity|]|].
  - constructor; [|constructor; [|constructor]]; repeat split; simpl;
      try (constructor; fail).
    + constructor; [|constructor]. split; [assumption|]. repeat split.
      * constructor; [simpl; lia|constructor].
      * constructor; [intros []|constructor].
      * discriminate.
    + constructor; [intros []|constructor].
  - exists 0, 1. repeat apply conj; try reflexivity; simpl; try lia. exact one_hot_pair.
Qed.

Lemma empty_fragment_built : built (empty_fragment empty_NFA).
Proof.
  split; [split; [split; reflexivity|]|].
  - constructor; [|constructor; [|constructor]]; repeat split; simpl;
      try (constructor; fail).
    + constructor; [simpl; lia|constructor].
    + constructor; [intros []|constructor].
  - exists 0, 1. repeat apply conj; try reflexivity; simpl; try lia. exact one_hot_pair.
Qed.

Lemma char_ok_label (v : option string) :
  char_ok v = true ->
  builder_label (if option_eqb String.eqb v (Some "."%string) then Some "\\."%string else v).
Proof.
  intros H. destruct (option_eqb String.eqb v (Some "."%string)).
  - right; right; left; reflexivity.
  - destruct v as [s|]; [|left; reflexivity]. right; left.
    destruct s as [|c [|d s]]; try discriminate. exists c. reflexivity.
Qed.

Lemma build_char_built (node : ExprNode) :
  char_ok (value node) = true -> built (_build_basic_node_char node empty_NFA).
Proof.
  intros H. apply char_ok_label in H. unfold _build_basic_node_char.
  destruct (option_eqb String.eqb (value node) (Some "."%string));
    apply basic_fragment_built; assumption.
Qed.

Lemma build_range_built (node : ExprNode) :
  range_ok (params node) = true ->
  exists n, _build_basic_node_range node empty_NFA = Ok n /\ built n.
Proof.
  unfold range_ok, _build_basic_node_range, chr_param, PARAM_RANGE_START, PARAM_RANGE_END.
  cbn [create_state empty_NFA states next_state_id].
  destruct (dict_get String.eqb "start" (params node)) as [[|a]|]; try discriminate.
  destruct (dict_get String.eqb "end" (params node)) as [[|b]|]; try discriminate.
  intros _. eexists. split; [reflexivity|].
  apply (basic_fragment_built (Some (range_label (ascii_of_nat a) (ascii_of_nat b)))).
  right; right; right. eauto.
Qed.

Lemma sequence_Ok {A : Type} (P : A -> Prop) (l : list (result A)) :
  Forall (fun r => exists a, r = Ok a /\ P a) l ->
  exists subs, sequence l = Ok subs /\ Forall P subs /\ List.length subs = List.length l.
Proof.
  induction l as [|r l IH]; intros H.
  - exists []. repeat split. constructor.
  - inversion H as [|? ? [a [-> Ha]] Hl]; subst.
    destruct (IH Hl) as [subs [E [Hs Hlen]]]. exists (a :: subs). simpl. rewrite E.
    repeat split; [constructor; assumption|simpl; congruence].
Qed.

(** *** Concatenation *)

Lemma fresh_spec (k : nat) (l : list State) :
  forall base,
    let fresh := map (fun p : nat * State => mkState (k + fst p) (is_final (snd p)) [] [])
                     (combine (seq base (List.length l)) l) in
    List.length fresh = List.length l /\
    map id fresh = seq (k + base) (List.length l) /\
    map is_final fresh = map is_final l /\
    forall size, Forall (state_ok size) fresh.
Proof.
  induction l as [|a l IH]; intros base; simpl.
  - repeat split. constructor.
  - destruct (IH (S base)) as [H1 [H2 [H3 H4]]]. rewrite H1, H2, H3, Nat.add_succ_r.
    repeat split. intros size. constructor; [repeat split; constructor|apply H4].
Qed.

Lemma offsets_bound (subs : list NFA) :
  forall base off sub,
    In (off, sub) (combine (offsets base subs) subs) ->
    In sub subs /\
    off + List.length (states sub) <= base + List.length (flat_map states subs).
Proof.
  induction subs as [|s subs IH]; intros base off sub H; simpl in *; [contradiction|].
  rewrite length_app. destruct H as [H|H].
  - inversion H; subst. split; [auto|lia].
  - apply IH in H. destruct H as [Hin Hle]. split; [auto|lia].
Qed.

Lemma connect_cons (off off' : nat) (sub sub' : NFA) (placed tl : list (nat * NFA))
  (n : NFA) :
  placed = (off', sub') :: tl ->
  connect ((off, sub) :: placed) n
  = (old_final <- state_map off (final_state sub) ;;
     old_next_start <- state_map off' (start_state sub') ;;
     connect placed
       (update_state old_final (add_epsilon_transition old_next_start)
          (update_state old_final (set_is_final false) n))).
Proof. intros ->. reflexivity. Qed.

(** The loop that chains the sub-automata: it succeeds, leaves the start
    state alone, and clears the final mark of every sub-automaton but the
    last. *)
Lemma connect_spec (total : nat) (d : nat * NFA) (subs : list NFA) :
  forall base pre n,
    Forall built subs -> subs <> [] ->
    sane n -> List.length (states n) = total ->
    base + List.length (flat_map states subs) = total ->
    List.length pre = base -> Forall (fun b => b = false) pre ->
    map is_final (states n) = pre ++ map is_final (flat_map states subs) ->
    exists n' zeros offl subl fl,
      connect (combine (offsets base subs) subs) n = Ok n' /\
      sane n' /\ List.length (states n') = total /\ start_state n' = start_state n /\
      last (combine (offsets base subs) subs) d = (offl, subl) /\
      final_state subl = Some fl /\ fl < List.length (states subl) /\
      one_hot (map is_final (states subl)) fl /\
      map is_final (states n') = zeros ++ map is_final (states subl) /\
      List.length zeros = offl /\ Forall (fun b => b = false) zeros /\
      offl + List.length (states subl) = total.
Proof.
  induction subs as [|sub subs IH]; intros base pre n Hb Hne Hs Hlen Htot Hpre Hz Hfl;
    [congruence|].
  inversion Hb as [|? ? Hsub Hrest]; subst.
  destruct Hsub as [_ [s [f [Es [Ef [Hs_lt [Hf_lt Hone]]]]]]].
  destruct subs as [|sub' rest].
  - simpl in *. rewrite app_nil_r in *.
    exists n, pre, (List.length pre), sub, f. conjs; auto.
  - set (subs' := sub' :: rest) in *.
    change (combine (offsets (List.length pre) (sub :: subs')) (sub :: subs'))
      with ((List.length pre, sub)
              :: combine (offsets (List.length pre + List.length (states sub)) subs') subs').
    set (base' := List.length pre + List.length (states sub)).
    set (placed := combine (offsets base' subs') subs').
    assert (Hpl : placed = (base', sub')
                             :: combine (offsets (base' + List.length (states sub')) rest) rest)
      by reflexivity.
    inversion Hrest as [|? ? Hsub' _]; subst.
    destruct Hsub' as [_ [s' [f' [Es' [_ [Hs'_lt _]]]]]].
    change (flat_map states (sub :: subs')) with (states sub ++ flat_map states subs') in *.
    rewrite length_app in *. rewrite map_app in Hfl.
    assert (Hbound : base' + List.length (states sub')
                     <= List.length pre + (List.length (states sub)
                                           + List.length (flat_map states subs'))).
    { unfold subs'. simpl. rewrite length_app. unfold base'. lia. }
    rewrite (connect_cons _ _ _ _ _ _ _ Hpl). rewrite Ef, Es'. cbn [state_map bind].
    set (n2 := update_state _ (add_epsilon_transition _) _).
    destruct (IH base' (pre ++ list_set f false (map is_final (states sub))) n2)
      as [n' [zeros [offl [subl [fl H]]]]].
    + assumption.
    + discriminate.
    + unfold n2. apply sane_add_epsilon; [|apply sane_set_is_final; assumption].
      rewrite update_state_length. lia.
    + unfold n2. rewrite !update_state_length. reflexivity.
    + unfold base'. lia.
    + rewrite length_app, length_list_set, length_map. reflexivity.
    + apply Forall_app. split; [assumption|]. apply one_hot_cleared. assumption.
    + unfold n2. rewrite update_state_flags by reflexivity.
      rewrite update_state_clear, Hfl, list_set_app_r, list_set_app_l, app_assoc;
        [reflexivity|]. rewrite length_map. assumption.
    + exists n', zeros, offl, subl, fl.
      destruct H as [H1 [H2 [H3 [H4 [H5 H6]]]]].
      conjs; try assumption; try apply H6.
      rewrite H4. unfold n2. rewrite !update_state_start. reflexivity.
Qed.

(** The loop that copies the transitions of a sub-automaton onto the
    states created for it. *)
Lemma copy_fold_spec (off bound : nat) (sub n : NFA) :
  off + List.length (states sub) <= List.length (states n) ->
  Forall (state_ok bound) (states sub) ->
  sane n ->
  let n' := fold_left (fun acc (q : nat * State) =>
                         update_state (off + fst q)
                           (copy_transitions off (List.length (states sub)) (snd q)) acc)
                      (combine (seq 0 (List.length (states sub))) (states sub)) n in
  sane n' /\ List.length (states n') = List.length (states n) /\
  map is_final (states n') = map is_final (states n) /\
  start_state n' = start_state n.
Proof.
  intros Hle Hsub Hn.
  apply (fold_left_invariant_In
           (fun acc => sane acc /\ List.length (states acc) = List.length (states n) /\
                       map is_final (states acc) = map is_final (states n) /\
                       start_state acc = start_state n));
    [|conjs; auto].
  intros acc [i old] Hin [Ha [Hl [Hf Hs]]]. apply in_combine_r in Hin.
  rewrite Forall_forall in Hsub. conjs.
  - eapply sane_copy; [rewrite Hl; exact Hle|apply Hsub; exact Hin|assumption].
  - rewrite update_state_length. assumption.
  - rewrite update_state_flags; [assumption|]. intros s. apply copy_transitions_frame.
  - rewrite update_state_start. assumption.
Qed.

Lemma build_concatenation_built (nodes : list (result NFA)) :
  Forall (fun r => exists n, r = Ok n /\ built n) nodes ->
  exists n, _build_concatenation nodes empty_NFA = Ok n /\ built n.
Proof.
  intros H. destruct nodes as [|r l];
    [eexists; split; [reflexivity|apply empty_fragment_built]|].
  destruct (sequence_Ok built _ H) as [subs [E [Hsubs Hlen]]].
  unfold _build_concatenation. rewrite E. cbn [bind].
  destruct subs as [|sub0 subs']; [discriminate|].
  set (subs := sub0 :: subs') in *.
  cbn [empty_NFA states next_state_id start_state final_state final_states
       List.length app Nat.add].
  set (placed := combine (offsets 0 subs) subs).
  set (all_states := flat_map states subs).
  set (n1 := mkNFA _ None None _ []).
  set (n2 := fold_left _ placed n1).
  destruct (fresh_spec 0 all_states 0) as [F1 [F2 [F3 F4]]].
  cbn [Nat.add] in F1, F2, F3, F4.
  assert (I1 : sane n1 /\ List.length (states n1) = List.length all_states /\
               map is_final (states n1) = map is_final all_states /\
               start_state n1 = None).
  { unfold sane, dense, n1. cbn [states start_state next_state_id].
    rewrite F1, F3. conjs; auto. }
  assert (I2 : sane n2 /\ List.length (states n2) = List.length all_states /\
               map is_final (states n2) = map is_final all_states /\
               start_state n2 = None).
  { apply fold_left_invariant_In; [|exact I1].
    intros acc [off sub] Hin [Ha [Hl [Hf Hs]]].
    apply offsets_bound in Hin. destruct Hin as [Hin Hle].
    rewrite Forall_forall in Hsubs. destruct (Hsubs sub Hin) as [[_ Hok] _].
    destruct (copy_fold_spec off (List.length (states sub)) sub acc) as [G1 [G2 [G3 G4]]];
      [rewrite Hl; exact Hle|assumption|assumption|].
    conjs; [assumption|congruence|congruence|congruence]. }
  unfold placed at 1. unfold subs at 1 2. cbn [offsets combine].
  destruct I2 as [Hsane [Hl2 [Hf2 Hs2]]].
  assert (Hsub0 : built sub0) by (inversion Hsubs; assumption).
  destruct Hsub0 as [_ [s0 [f0 [Es0 [_ [Hs0 _]]]]]].
  rewrite Es0. cbn [state_map bind Nat.add].
  set (n3 := set_endpoints (Some s0) (final_state n2) n2).
  destruct (connect_spec (List.length all_states) (0, sub0) subs 0 [] n3)
    as (n4 & zeros & offl & subl & fl & C1 & C2 & C3 & C4 & C5 & C6 & C7 & C8 & C9 & C10
        & C11 & C12);
    try assumption; try reflexivity; try discriminate; try constructor.
  fold placed in C1, C5. rewrite C1, C5. cbn [bind]. rewrite C6. cbn [state_map bind].
  eexists. split; [reflexivity|]. split; [exact C2|].
  exists s0, (offl + fl).
  cbn [set_final_states set_endpoints states start_state final_state].
  rewrite C3, C9, <- C10. conjs.
  - exact C4.
  - reflexivity.
  - unfold all_states, subs. simpl. rewrite length_app. lia.
  - lia.
  - apply one_hot_after; assumption.
Qed.

(** *** Alternation *)

Lemma create_fold_spec (l : list State) :
  forall n, sane n ->
    let n1 := fold_left (fun acc (s : State) => snd (create_state (is_final s) acc)) l n in
    sane n1 /\ List.length (states n1) = List.length (states n) + List.length l /\
    map is_final (states n1) = map is_final (states n) ++ map is_final l.
Proof.
  induction l as [|a l IH]; intros n Hn; simpl.
  - rewrite Nat.add_0_r, app_nil_r. auto.
  - destruct (IH (snd (create_state (is_final a) n))) as [H1 [H2 H3]];
      [apply create_state_sane; assumption|].
    simpl in H2, H3. rewrite length_app in H2. rewrite map_app, <- app_assoc in H3.
    simpl in H2, H3. conjs; [exact H1|rewrite H2; lia|exact H3].
Qed.

Lemma nth_error_cleared (flags : list bool) (i p : nat) :
  nth_error (list_set i false flags) p = Some true <->
  nth_error flags p = Some true /\ p <> i.
Proof.
  destruct (Nat.eq_dec i p) as [->|Hne].
  - split; [|intros [_ H]; congruence]. intros H.
    destruct (nth_error flags p) as [y|] eqn:E.
    + rewrite (nth_error_list_set_same _ _ _ _ E) in H. discriminate.
    + apply nth_error_None in E.
      rewrite list_set_beyond in H by assumption.
      apply nth_error_None in E. congruence.
  - rewrite nth_error_list_set_other by assumption. split; [auto|tauto].
Qed.

(** The loop that redirects the final states of a copied alternative to
    the end of the alternation. *)
Lemma clear_fold_spec (off end_ : nat) (l : list (nat * State)) :
  forall acc, sane acc -> end_ < List.length (states acc) ->
    let r := fold_left (fun acc (q : nat * State) =>
                          if is_final (snd q)
                          then update_state (off + fst q) (add_epsilon_transition end_)
                                 (update_state (off + fst q) (set_is_final false) acc)
                          else acc) l acc in
    sane r /\ List.length (states r) = List.length (states acc) /\
    forall p,
      nth_error (map is_final (states r)) p = Some true <->
      nth_error (map is_final (states acc)) p = Some true /\
      forall q, In q l -> is_final (snd q) = true -> p <> off + fst q.
Proof.
  induction l as [|q l IH]; intros acc Ha He; simpl.
  - conjs; auto. intros p. split; [intros H; split; [assumption|contradiction]|tauto].
  - destruct (is_final (snd q)) eqn:Eq.
    + set (acc' := update_state _ (add_epsilon_transition end_) _).
      destruct (IH acc') as [H1 [H2 H3]].
      * unfold acc'. apply sane_add_epsilon; [|apply sane_set_is_final; assumption].
        rewrite update_state_length. assumption.
      * unfold acc'. rewrite !update_state_length. assumption.
      * conjs; [exact H1|rewrite H2; unfold acc'; rewrite !update_state_length; reflexivity|].
        intros p. rewrite H3. unfold acc'.
        rewrite update_state_flags by reflexivity.
        rewrite update_state_clear, nth_error_cleared. split.
        -- intros [[Hp Hne] Hl]. split; [assumption|].
           intros q' [<-|Hin] Hq'; [assumption|auto].
        -- intros [Hp Hl]. split; [split; [assumption|]|]; auto.
    + destruct (IH acc Ha He) as [H1 [H2 H3]]. conjs; [exact H1|exact H2|].
      intros p. rewrite H3. split.
      * intros [Hp Hl]. split; [assumption|].
        intros q' [<-|Hin] Hq'; [congruence|auto].
      * intros [Hp Hl]. split; [assumption|]. auto.
Qed.

Lemma add_alternative_spec (start end_ : nat) (alternative : list (result NFA)) (n : NFA) :
  Forall (fun r => exists a, r = Ok a /\ built a) alternative ->
  sane n -> start < List.length (states n) -> end_ < List.length (states n) ->
  one_hot (map is_final (states n)) end_ ->
  exists n',
    add_alternative start end_ alternative n = Ok n' /\
    sane n' /\ start < List.length (states n') /\ end_ < List.length (states n') /\
    one_hot (map is_final (states n')) end_.
Proof.
  intros Halt Hn Hs He Hone.
  destruct alternative as [|r l].
  { eexists. split; [reflexivity|]. rewrite update_state_length.
    rewrite update_state_flags by reflexivity. conjs; try assumption.
    apply sane_add_epsilon; assumption. }
  destruct (build_concatenation_built _ Halt) as [sub [E Hsub]].
  unfold add_alternative. rewrite E. cbn [bind].
  destruct Hsub as [[_ Hok] [s [f [Es [_ [Hs_lt [Hf_lt Hone_sub]]]]]]].
  rewrite Es.
  set (off := List.length (states n)).
  set (size := List.length (states sub)).
  set (n1 := fold_left _ (states sub) n).
  destruct (create_fold_spec (states sub) n Hn) as [A1 [A2 A3]]. fold n1 in A1, A2, A3.
  set (n2 := fold_left _ (combine (seq 0 size) (states sub)) n1).
  destruct (copy_fold_spec off size sub n1) as [B1 [B2 [B3 _]]];
    [rewrite A2; unfold off, size; lia|exact Hok|exact A1|].
  fold size in B1, B2, B3. fold n2 in B1, B2, B3.
  set (n3 := update_state start (add_epsilon_transition (off + s)) n2).
  assert (D1 : sane n3).
  { apply sane_add_epsilon; [|assumption]. rewrite B2, A2. unfold off. lia. }
  assert (D2 : List.length (states n3) = off + size).
  { unfold n3. rewrite update_state_length, B2, A2. reflexivity. }
  assert (D3 : map is_final (states n3)
               = map is_final (states n) ++ map is_final (states sub)).
  { unfold n3. rewrite update_state_flags by reflexivity. congruence. }
  destruct (clear_fold_spec off end_ (combine (seq 0 size) (states sub)) n3 D1)
    as [F1 [F2 F3]]; [rewrite D2; unfold off; lia|].
  eexists. split; [reflexivity|]. rewrite F2, D2. conjs; try assumption;
    try (unfold off; lia).
  assert (Hend : nth_error (map is_final (states n)) end_ = Some true).
  { destruct (nth_error (map is_final (states n)) end_) as [b|] eqn:Eb.
    - apply Hone in Eb. destruct Eb as [_ Eb]. rewrite Eb; reflexivity.
    - apply nth_error_None in Eb. rewrite length_map in Eb. lia. }
  intros p b Hp. split.
  - intros ->. apply F3 in Hp. destruct Hp as [Hp Hl]. rewrite D3 in Hp.
    destruct (Nat.lt_ge_cases p off) as [Hlt|Hge].
    + rewrite nth_error_app1 in Hp by (rewrite length_map; exact Hlt).
      apply Hone in Hp. apply Hp. reflexivity.
    + rewrite nth_error_app2 in Hp by (rewrite length_map; exact Hge).
      rewrite length_map in Hp. fold off in Hp.
      rewrite nth_error_map in Hp.
      destruct (nth_error (states sub) (p - off)) as [st|] eqn:Est; [|discriminate].
      simpl in Hp. inversion Hp as [Hfin].
      exfalso. apply (Hl (p - off, st)); [|exact Hfin|simpl; lia].
      apply (nth_error_In_combine _ 0) in Est. exact Est.
  - intros ->. destruct b; [reflexivity|].
    assert (Ht : nth_error (map is_final (states
                   (fold_left (fun acc (q : nat * State) =>
                          if is_final (snd q)
                          then update_state (off + fst q) (add_epsilon_transition end_)
                                 (update_state (off + fst q) (set_is_final false) acc)
                          else acc) (combine (seq 0 size) (states sub)) n3))) end_
                 = Some true).
    { apply F3. split.
      - rewrite D3, nth_error_app1 by (rewrite length_map; exact He). exact Hend.
      - intros q _ _. unfold off. lia. }
    rewrite Ht in Hp. discriminate.
Qed.

Lemma fold_bind_total {A B : Type} (I : A -> Prop) (g : B -> A -> result A) (l : list B) :
  (forall x a, In x l -> I a -> exists a', g x a = Ok a' /\ I a') ->
  forall a, I a -> exists a', fold_left (fun acc x => bind acc (g x)) l (Ok a) = Ok a' /\ I a'.
Proof.
  induction l as [|x l IH]; intros Hg a Ha; simpl.
  - exists a. auto.
  - destruct (Hg x a) as [a1 [E H1]]; [left; reflexivity|assumption|].
    rewrite E. apply IH; [|assumption]. intros y b Hy. apply Hg. right; assumption.
Qed.

Lemma build_alternation_built (alternatives : list (list (result NFA))) :
  Forall (Forall (fun r => exists a, r = Ok a /\ built a)) alternatives ->
  exists n, _build_alternation alternatives empty_NFA = Ok n /\ built n.
Proof.
  intros H. unfold _build_alternation.
  cbn [create_state empty_NFA states next_state_id start_state final_state final_states
       List.length app].
  set (n2 := mkNFA _ _ _ _ _).
  destruct (fold_bind_total
              (fun a => sane a /\ 0 < List.length (states a) /\ 1 < List.length (states a)
                        /\ one_hot (map is_final (states a)) 1)
              (add_alternative 0 1) alternatives) with (a := n2)
    as [n3 [E [I1 [I2 [I3 I4]]]]].
  - intros alt a Hin [J1 [J2 [J3 J4]]]. rewrite Forall_forall in H.
    apply add_alternative_spec; auto.
  - conjs; simpl; try lia; [|exact one_hot_pair].
    split; [split; reflexivity|].
    constructor; [|constructor; [|constructor]]; repeat split; constructor.
  - match goal with
    | |- exists n, bind ?f _ = _ /\ _ => replace f with (Ok n3)
    end.
    cbn [bind]. eexists. split; [reflexivity|]. split; [exact I1|].
    exists 0, 1. conjs; auto.
Qed.

(** *** Groups and quantifiers *)

Lemma build_group_built (children : list (list (result NFA))) :
  Forall (Forall (fun r => exists a, r = Ok a /\ built a)) children ->
  exists n, _build_basic_node_group children empty_NFA = Ok n /\ built n.
Proof.
  intros H. unfold _build_basic_node_group.
  destruct children as [|[|r only] rest];
    try (eexists; split; [reflexivity|apply empty_fragment_built]).
  destruct rest as [|alt rest].
  - apply build_concatenation_built. inversion H; assumption.
  - apply build_alternation_built. assumption.
Qed.

Lemma apply_quantifier_built (quantifier : ParamValue) (n : NFA) :
  built n -> built (_apply_quantifier quantifier n).
Proof.
  intros [Hn [s [f [Es [Ef [Hs [Hf Hone]]]]]]].
  unfold _apply_quantifier. rewrite Es, Ef.
  destruct (create_state false n) as [new_start n1] eqn:E1.
  destruct (create_state true n1) as [new_final n2] eqn:E2.
  set (size := List.length (states n)) in *.
  assert (Hn1 : n1 = snd (create_state false n)) by (rewrite E1; reflexivity).
  assert (Hn2 : n2 = snd (create_state true n1)) by (rewrite E2; reflexivity).
  assert (Hstart : new_start = size) by (apply (f_equal fst) in E1; symmetry; exact E1).
  assert (Hfinal : new_final = S size).
  { apply (f_equal fst) in E2. simpl in E2. rewrite <- E2, Hn1. simpl.
    rewrite length_app. simpl. unfold size. lia. }
  assert (S2 : sane n2) by (rewrite Hn2, Hn1; apply create_state_sane, create_state_sane, Hn).
  assert (L2 : List.length (states n2) = S (S size)).
  { rewrite Hn2, Hn1. simpl. rewrite !length_app. simpl. unfold size. lia. }
  assert (F2 : map is_final (states n2) = map is_final (states n) ++ [false; true]).
  { rewrite Hn2, Hn1. simpl. rewrite !map_app, <- app_assoc. reflexivity. }
  clear E1 E2 Hn1 Hn2. subst new_start new_final.
  set (n3 := update_state f (set_is_final false) n2).
  assert (S3 : sane n3) by (apply sane_set_is_final; assumption).
  assert (L3 : List.length (states n3) = S (S size))
    by (unfold n3; rewrite update_state_length; assumption).
  assert (F3 : map is_final (states n3)
               = (list_set f false (map is_final (states n)) ++ [false]) ++ [true]).
  { unfold n3. rewrite update_state_clear, F2, list_set_app_l, <- app_assoc;
      [reflexivity|]. rewrite length_map. exact Hf. }
  set (is_q := fun c : string =>
                 match quantifier with PStr q => String.eqb q c | PInt _ => false end).
  match goal with
  | |- context [set_endpoints _ _ ?x] => set (n4 := x)
  end.
  assert (H4 : sane n4 /\ List.length (states n4) = S (S size) /\
               map is_final (states n4) = map is_final (states n3)).
  { assert (Hstep : forall r t m,
               t < S (S size) ->
               sane m /\ List.length (states m) = S (S size) /\
               map is_final (states m) = map is_final (states n3) ->
               sane (update_state r (add_epsilon_transition t) m) /\
               List.length (states (update_state r (add_epsilon_transition t) m))
               = S (S size) /\
               map is_final (states (update_state r (add_epsilon_transition t) m))
               = map is_final (states n3)).
    { intros r t m Ht [M1 [M2 M3]].
      rewrite update_state_length, update_state_flags by reflexivity.
      conjs; try assumption. apply sane_add_epsilon; [lia|assumption]. }
    unfold n4.
    destruct quantifier as [q|k];
      [destruct (String.eqb q "?");
       [|destruct (String.eqb q "*"); [|destruct (String.eqb q "+")]]|];
      repeat (apply Hstep; [lia|]); conjs; auto. }
  destruct H4 as [S4 [L4 F4]].
  split; [exact S4|]. exists size, (S size).
  cbn [set_final_states set_endpoints states start_state final_state].
  rewrite L4, F4, F3. conjs; try reflexivity; try lia.
  replace (S size) with (List.length (list_set f false (map is_final (states n)) ++ [false]) + 0).
  - apply one_hot_after.
    + apply Forall_app. split; [apply one_hot_cleared; assumption|repeat constructor].
    + intros [|i] b H; simpl in H; [inversion H; tauto|destruct i; discriminate].
  - rewrite length_app, length_list_set, length_map. simpl. unfold size. lia.
Qed.

(** *** The builder on a tree *)

Lemma ExprNode_nested_ind (P : ExprNode -> Prop) :
  (forall t v ps ch, Forall (Forall P) ch -> P (mkExprNode t v ps ch)) ->
  forall node, P node.
Proof.
  intros H. fix IH 1. intros [t v ps ch]. apply H.
  induction ch as [|alt ch IHch]; constructor; [|assumption].
  induction alt as [|x alt IHalt]; constructor; [apply IH|assumption].
Qed.

(** The builder does not fail on a well-formed tree, and leaves a built
    automaton. *)
Lemma NFA_of_built (node : ExprNode) :
  well_formed node = true -> exists n, NFA_of node = Ok n /\ built n.
Proof.
  induction node as [t v ps ch IH] using ExprNode_nested_ind. intros Hwf.
  change (well_formed (mkExprNode t v ps ch))
    with (match t with
          | UNKNOWN => false
          | Char => char_ok v
          | Range => range_ok ps
          | _ => true
          end && forallb (forallb well_formed) ch) in Hwf.
  apply andb_true_iff in Hwf. destruct Hwf as [Ht Hch].
  assert (Hsubs : Forall (Forall (fun r => exists a, r = Ok a /\ built a))
                         (map (map NFA_of) ch)).
  { clear Ht. induction ch as [|alt ch IHch]; [constructor|].
    simpl in Hch. apply andb_true_iff in Hch. destruct Hch as [Halt Hch].
    inversion IH as [|? ? IHalt IHrest]; subst.
    constructor; [|apply IHch; assumption].
    clear - Halt IHalt. induction alt as [|x alt IHl]; [constructor|].
    simpl in Halt. apply andb_true_iff in Halt. destruct Halt as [Hx Halt].
    inversion IHalt; subst. constructor; auto. }
  change (NFA_of (mkExprNode t v ps ch))
    with (_build_nfa (map (map NFA_of) ch) (mkExprNode t v ps ch) empty_NFA).
  unfold _build_nfa. cbn [type params].
  assert (H1 : exists n1,
             match t with
             | Char => Ok (_build_basic_node_char (mkExprNode t v ps ch) empty_NFA)
             | Any => Ok (_build_basic_node_any (mkExprNode t v ps ch) empty_NFA)
             | CharacterSet => _build_basic_node_set (map (map NFA_of) ch) empty_NFA
             | Range => _build_basic_node_range (mkExprNode t v ps ch) empty_NFA
             | Root | Group => _build_basic_node_group (map (map NFA_of) ch) empty_NFA
             | UNKNOWN => Ok empty_NFA
             end = Ok n1 /\ built n1).
  { destruct t; try discriminate.
    - apply build_group_built. assumption.
    - eexists. split; [reflexivity|]. apply build_char_built. exact Ht.
    - apply build_group_built. assumption.
    - apply build_alternation_built. assumption.
    - apply build_range_built. exact Ht.
    - eexists. split; [reflexivity|]. apply basic_fragment_built.
      right; left. exists "."%char. reflexivity. }
  destruct H1 as [n1 [E1 B1]]. rewrite E1. cbn [bind].
  destruct (dict_get String.eqb "quantifier" ps) as [q|].
  - eexists. split; [reflexivity|]. apply apply_quantifier_built. assumption.
  - eexists. split; [reflexivity|]. assumption.
Qed.

(** X7.  On a well-formed tree (every tree the parser returns is one) the
    builder raises nothing, and the automaton it leaves is built: the ids
    of its states are their positions, every transition leads to a state
    of the automaton under a label of the builder, the start and final
    states are set, and the final state is the one state marked final. *)
Theorem builder_leaves_built (node : ExprNode) :
  well_formed node = true -> exists n, NFA_of node = Ok n /\ built n.
Proof. apply NFA_of_built. Qed.

End BuilderFacts.

Lemma builder_leaves_built_witness :
  exists n,
    NFA_py.NFA_of
      (RegexCompiler_py.mkExprNode RegexCompiler_py.Root None []
         [[Vocabulary.literal "a";
           RegexCompiler_py.mkExprNode RegexCompiler_py.Group None
             [("quantifier", RegexCompiler_py.PStr "*")]
             [[Vocabulary.literal "b"]; [Vocabulary.literal "c"]]]]) = Ok n /\
    Vocabulary.built n.
Proof. apply builder_leaves_built. reflexivity. Defined.

(** ** Matcher of the NFA *)

Section MatcherFacts.
Import RegexCompiler_py NFA_py Vocabulary.

Lemma set_union_keeps (P : nat -> Prop) (t : list nat) :
  forall s, NoDup s /\ Forall P s -> Forall P t ->
            NoDup (set_union Nat.eqb s t) /\ Forall P (set_union Nat.eqb s t).
Proof.
  unfold set_union. induction t as [|x t IH]; intros s [Hn Hs] Ht; simpl; [auto|].
  inversion Ht; subst. apply IH; [|assumption].
  split; [apply NoDup_set_add; assumption|apply Forall_set_add; assumption].
Qed.

(** What the loop over the epsilon transitions of a popped state leaves. *)
Lemma closure_push_new (eps : list nat) (all_states stack : list nat) :
  forall all' stack',
    fold_left (fun (acc : list nat * list nat) target =>
                 let (a, k) := acc in
                 if mem Nat.eqb target a then (a, k)
                 else (a ++ [target], target :: k))
              eps (all_states, stack) = (all', stack') ->
    exists new,
      stack' = new ++ stack /\ NoDup new /\
      (forall x, In x new -> ~ In x all_states /\ In x eps) /\
      (forall x, In x all' <-> In x all_states \/ In x new) /\
      (NoDup all_states -> NoDup all').
Proof.
  intros all' stack' H.
  assert (HI : (fun acc : list nat * list nat =>
                  exists new,
                    snd acc = new ++ stack /\ NoDup new /\
                    (forall x, In x new -> ~ In x all_states /\ In x eps) /\
                    (forall x, In x (fst acc) <-> In x all_states \/ In x new) /\
                    (NoDup all_states -> NoDup (fst acc))) (all', stack')).
  { rewrite <- H. apply fold_left_invariant_In.
    - intros [a k] target Hin [new [Hk [Hnd [Hnew [Hall Hdup]]]]]. simpl in Hk, Hall, Hdup.
      destruct (mem Nat.eqb target a) eqn:E.
      + exists new. simpl. auto.
      + assert (Hta : ~ In target a).
        { intros Hi. apply (mem_In Nat.eqb Nat.eqb_eq) in Hi. congruence. }
        exists (target :: new). simpl. split; [congruence|]. split.
        * constructor; [|assumption]. intros Hi. apply Hta, Hall. auto.
        * split; [|split].
          -- intros x [<-|Hx]; [|auto]. split; [|assumption].
             intros Hi. apply Hta, Hall. auto.
          -- intros x. rewrite in_app_iff, Hall. simpl. intuition.
          -- intros Hd. apply NoDup_app; [auto|constructor; [intros []|constructor]|].
             intros y Hy [<-|[]]. contradiction.
    - exists []. simpl. split; [reflexivity|]. split; [constructor|].
      split; [intros x []|]. split; [intros x; tauto|auto]. }
  exact HI.
Qed.

Lemma closure_loop_total (n : NFA) :
  Forall (state_ok (List.length (states n))) (states n) ->
  forall fuel popped all_states stack,
    NoDup popped -> NoDup stack ->
    (forall x, In x popped -> ~ In x stack) ->
    incl popped all_states -> incl stack all_states ->
    NoDup all_states -> Forall (fun x => x < List.length (states n)) all_states ->
    List.length (states n) - List.length popped < fuel ->
    exists cl, closure_loop fuel n all_states stack = Ok cl /\
               NoDup cl /\ Forall (fun x => x < List.length (states n)) cl.
Proof.
  intros Hok. induction fuel as [|fuel IH];
    intros popped all_states stack Hp Hs Hdis Hpa Hsa Hnd Hlt Hfuel; [lia|].
  simpl. destruct stack as [|state stack']; [eauto|].
  rewrite Forall_forall in Hlt.
  assert (Hstate : state < List.length (states n)) by (apply Hlt, Hsa; left; reflexivity).
  destruct (nth_error (states n) state) as [st|] eqn:Est;
    [|apply nth_error_None in Est; lia].
  destruct (fold_left _ (epsilon_transitions st) (all_states, stack'))
    as [all' stack''] eqn:Ef.
  apply closure_push_new in Ef. destruct Ef as [new [-> [Hnew_nd [Hnew [Hall Hdup]]]]].
  apply NoDup_cons_iff in Hs. destruct Hs as [Hnotin Hs'].
  assert (Hnp : ~ In state popped) by (intros Hi; apply (Hdis _ Hi); left; reflexivity).
  assert (Hst_ok : state_ok (List.length (states n)) st).
  { rewrite Forall_forall in Hok. apply Hok. eapply nth_error_In; eassumption. }
  assert (Hlen : List.length (state :: popped) <= List.length (seq 0 (List.length (states n)))).
  { apply NoDup_incl_length; [constructor; assumption|].
    intros x Hx. apply in_seq. split; [lia|]. simpl. apply Hlt.
    destruct Hx as [<-|Hx]; [apply Hsa; left; reflexivity|apply Hpa; assumption]. }
  rewrite length_seq in Hlen.
  change (List.length (state :: popped)) with (S (List.length popped)) in Hlen.
  apply (IH (state :: popped)).
  - constructor; assumption.
  - apply NoDup_app; [assumption|assumption|].
    intros x Hx Hx'. apply (Hnew x Hx). apply Hsa. right; assumption.
  - intros x [<-|Hx] Hi; apply in_app_or in Hi; destruct Hi as [Hi|Hi].
    + apply (Hnew _ Hi). apply Hsa. left; reflexivity.
    + contradiction.
    + apply (Hnew _ Hi). apply Hpa. assumption.
    + apply (Hdis _ Hx). right; assumption.
  - intros x [<-|Hx]; apply Hall; left; [apply Hsa; left; reflexivity|apply Hpa; assumption].
  - intros x Hx. apply Hall. apply in_app_or in Hx. destruct Hx as [Hx|Hx]; [auto|].
    left. apply Hsa. right; assumption.
  - auto.
  - apply Forall_forall. intros x Hx. apply Hall in Hx. destruct Hx as [Hx|Hx]; [auto|].
    destruct Hst_ok as [_ [_ [He _]]]. rewrite Forall_forall in He.
    apply He, Hnew. assumption.
  - simpl. lia.
Qed.

Lemma epsilon_closure_total (n : NFA) (from : list nat) :
  Forall (state_ok (List.length (states n))) (states n) ->
  NoDup from -> Forall (fun x => x < List.length (states n)) from ->
  exists cl, _epsilon_closure n from = Ok cl /\
             NoDup cl /\ Forall (fun x => x < List.length (states n)) cl.
Proof.
  intros Hok Hnd Hlt. unfold _epsilon_closure.
  apply (closure_loop_total n Hok _ []); try assumption.
  - constructor.
  - apply NoDup_rev. assumption.
  - intros x [].
  - intros x [].
  - intros x Hx. apply in_rev. assumption.
  - simpl. lia.
Qed.

Lemma next_states_total (n : NFA) (current : list nat) (c : ascii) :
  Forall (state_ok (List.length (states n))) (states n) ->
  Forall (fun x => x < List.length (states n)) current ->
  exists next, next_states n current c = Ok next /\
               NoDup next /\ Forall (fun x => x < List.length (states n)) next.
Proof.
  intros Hok Hcur. unfold next_states.
  apply (fold_bind_total (fun next => NoDup next /\
                                      Forall (fun x => x < List.length (states n)) next)
           (fun state next =>
              match nth_error (states n) state with
              | None => Raise IndexError
              | Some st =>
                  fold_left (fun acc' (entry : label * list nat) =>
                               next' <- acc' ;;
                               taken <- label_matches (fst entry) c ;;
                               Ok (if taken then set_union Nat.eqb next' (snd entry)
                                   else next'))
                            (transitions st) (Ok next)
              end));
    [|split; constructor].
  intros state next Hin Hnext. rewrite Forall_forall in Hcur.
  destruct (nth_error (states n) state) as [st|] eqn:Est;
    [|apply nth_error_None in Est; apply Hcur in Hin; lia].
  assert (Hst : state_ok (List.length (states n)) st).
  { rewrite Forall_forall in Hok. apply Hok. eapply nth_error_In; eassumption. }
  destruct Hst as [Htr _].
  apply (fold_bind_total (fun next => NoDup next /\
                                      Forall (fun x => x < List.length (states n)) next)
           (fun (entry : label * list nat) next' =>
              taken <- label_matches (fst entry) c ;;
              Ok (if taken then set_union Nat.eqb next' (snd entry) else next')));
    [|assumption].
  intros entry next' He Hn'. rewrite Forall_forall in Htr.
  destruct (Htr entry He) as [Hl [Hts _]].
  destruct (builder_label_matches (fst entry) c Hl) as [b ->]. cbn [bind].
  eexists. split; [reflexivity|]. destruct b; [|assumption].
  apply set_union_keeps; assumption.
Qed.

Lemma match_loop_total (n : NFA) (input_string : string) :
  Forall (state_ok (List.length (states n))) (states n) ->
  forall current, Forall (fun x => x < List.length (states n)) current ->
    exists b, match_loop n current input_string = Ok b.
Proof.
  intros Hok. induction input_string as [|c rest IH]; intros current Hcur; simpl.
  - eauto.
  - destruct (next_states_total n current c Hok Hcur) as [next [-> [Hnd Hlt]]].
    cbn [bind].
    destruct (epsilon_closure_total n next Hok Hnd Hlt) as [cl [-> [_ Hcl]]].
    cbn [bind]. destruct cl; [eauto|]. apply IH. assumption.
Qed.

Lemma match_total (n : NFA) (input_string : string) :
  built n -> exists b, match_ n input_string = Ok b.
Proof.
  intros [[_ Hok] [s [f [Es [_ [Hs _]]]]]]. unfold match_. rewrite Es.
  destruct (epsilon_closure_total n [s] Hok) as [cl [-> [_ Hcl]]].
  - constructor; [intros []|constructor].
  - constructor; [assumption|constructor].
  - cbn [bind]. apply match_loop_total; assumption.
Qed.

(** X8.  On a built automaton [match] answers: for every input it returns
    a boolean, it raises nothing and its loops end. *)
Theorem match_answers (n : NFA) (input_string : string) :
  built n -> exists b, match_ n input_string = Ok b.
Proof. apply match_total. Qed.

End MatcherFacts.

Lemma match_answers_witness :
  exists b,
    NFA_py.match_ (NFA_py.basic_fragment (Some "a"%string) NFA_py.empty_NFA) "ab" = Ok b.
Proof.
  apply match_answers. apply basic_fragment_built.
  right; left. exists "a"%char. reflexivity.
Defined.


(** ** From the expression to the answer *)

Section Composition.
Import RegexCompiler_py NFA_py Vocabulary.

Lemma RegularCompiler_outcome (expr_str : string) :
  match RegularCompiler expr_str with
  | Ok ast => well_formed ast = true
  | Raise e => positioned expr_str e
  | OutOfFuel => False
  end.
Proof.
  unfold RegularCompiler, _parseGroup.
  pose proof (group_loop_sound expr_str (S (String.length expr_str)) true [[]] 0 0 eq_refl
                (Nat.le_0_l _) ltac:(lia)) as H.
  destruct (group_loop_total expr_str (S (String.length expr_str)) true [[]] 0 0)
    as [H1 _]; [lia|lia|].
  destruct (group_loop expr_str (S (String.length expr_str)) true [[]] 0 0)
    as [[ch p]| |]; simpl; [assumption|assumption|congruence].
Qed.


End Composition.

(** ** Subset construction *)

Section ConstructionFacts.
Import DFA_py Vocabulary.
Import NFA_py(EPSILON, JValue, JBool, JStr, JList, JEntry, JName, JObject).

Lemma fold_bind_invariant_In {A B : Type} (I : A -> Prop) (g : B -> A -> result A)
  (l : list B) :
  (forall x a a', In x l -> I a -> g x a = Ok a' -> I a') ->
  forall a a', I a -> fold_left (fun acc x => bind acc (g x)) l (Ok a) = Ok a' -> I a'.
Proof.
  induction l as [|x l IH]; intros Hg a a' Ha H; simpl in H.
  - inversion H; subst. assumption.
  - destruct (g x a) as [a1| |] eqn:E.
    + apply (IH (fun y b b' Hy => Hg y b b' (or_intror Hy)) a1 a'); [|exact H].
      eapply Hg; [left; reflexivity|exact Ha|exact E].
    + rewrite fold_bind_not_ok in H by reflexivity. discriminate.
    + rewrite fold_bind_not_ok in H by reflexivity. discriminate.
Qed.

Lemma assign_final_state (n : NFA) (r : ref) (st : State) :
  final_state (assign n r st) = final_state n.
Proof. destruct r; reflexivity. Qed.

Lemma get_reachable_states_final (n n' : NFA) (T : DFA_State) (action : string)
  (R : list ref) :
  __get_reachable_states n T action = Ok (R, n') -> final_state n' = final_state n.
Proof.
  unfold __get_reachable_states. intros H.
  apply (fold_bind_preserves
           (fun a a' : list ref * NFA => final_state (snd a') = final_state (snd a))
           (reach_state action)) in H; [exact H| | |].
  - reflexivity.
  - intros a b c H1 H2. congruence.
  - intros x [R0 n0] [R1 n1]. unfold reach_state.
    destruct (deref n0 x) as [st| |]; simpl; try discriminate.
    destruct (dict_get String.eqb action (transitions st)) as [tg|];
      [|intros E; inversion E; reflexivity].
    destruct (closures n0 tg) as [next| |]; simpl; try discriminate.
    intros E; inversion E; subst. apply assign_final_state.
Qed.

Lemma mem_dfa_eqb (x : DFA_State) (l : list DFA_State) :
  mem dfa_eqb x l = existsb (fun s => String.eqb (dfa_id x) (dfa_id s)) l.
Proof. reflexivity. Qed.

Lemma existsb_id_false (x : DFA_State) (l : list DFA_State) :
  existsb (fun s => String.eqb (dfa_id x) (dfa_id s)) l = false <->
  ~ In (dfa_id x) (map dfa_id l).
Proof.
  split.
  - intros H Hin. apply in_map_iff in Hin. destruct Hin as [s [E Hs]].
    assert (Ht : existsb (fun s => String.eqb (dfa_id x) (dfa_id s)) l = true).
    { apply existsb_exists. exists s. split; [assumption|]. apply String.eqb_eq. auto. }
    congruence.
  - intros H. destruct (existsb _ l) eqn:E; [|reflexivity].
    apply existsb_exists in E. destruct E as [s [Hs E]]. apply String.eqb_eq in E.
    exfalso. apply H. rewrite E. apply in_map. assumption.
Qed.

(** One action of one popped state keeps the invariant of the
    construction. *)
Lemma construct_action_constructed (curr : DFA_State) (action : string)
  (d d' : DFA) (stack stack' : list DFA_State) :
  construct_action curr action (d, stack) = Ok (d', stack') ->
  In curr (dfa_all_states d) -> In action (actions d) ->
  constructed d /\ incl stack (dfa_all_states d) ->
  (constructed d' /\ incl stack' (dfa_all_states d')) /\
  incl (dfa_all_states d) (dfa_all_states d') /\ actions d' = actions d.
Proof.
  unfold construct_action.
  destruct (__get_reachable_states (nfa d) curr action) as [[reached nfa']| |] eqn:Er;
    simpl; try discriminate.
  apply get_reachable_states_final in Er.
  destruct (new_DFA_State nfa' reached false) as [new| |] eqn:En; simpl;
    try discriminate.
  assert (Hnew : dfa_states new = reached).
  { unfold new_DFA_State in En. destruct (set_to_string nfa' reached); simpl in En;
      try discriminate. inversion En; reflexivity. }
  intros H Hcurr Hact [[I1 [I2 [I3 [I4 I5]]]] Hstack].
  destruct reached as [|r0 reached].
  { inversion H; subst; clear H. unfold constructed; simpl. rewrite Er.
    repeat apply conj; auto. apply incl_refl. }
  inversion H; subst; clear H. unfold constructed; simpl.
  destruct (existsb (fun s => String.eqb (dfa_id new) (dfa_id s)) (dfa_all_states d))
    eqn:Enew; simpl.
  - (* a state with this id is known *)
    assert (Hknown : exists dst', In dst' (dfa_all_states d) /\ dfa_id dst' = dfa_id new).
    { apply existsb_exists in Enew. destruct Enew as [s [Hs E]].
      apply String.eqb_eq in E. exists s. auto. }
    rewrite Er. repeat apply conj; auto; try apply incl_refl.
    intros src dst a Hin.
    destruct (negb (existsb _ (dfa_transitions d))); [|apply I4; assumption].
    apply in_app_or in Hin. destruct Hin as [Hin|[Hin|[]]]; [apply I4; assumption|].
    inversion Hin; subst. repeat apply conj; auto. rewrite Hnew. discriminate.
  - (* a new state *)
    apply existsb_id_false in Enew.
    assert (Hadd : set_add dfa_eqb new (dfa_all_states d) = dfa_all_states d ++ [new]).
    { unfold set_add. rewrite mem_dfa_eqb.
      destruct (existsb _ (dfa_all_states d)) eqn:E; [|reflexivity].
      apply existsb_exists in E. destruct E as [s [Hs E]]. apply String.eqb_eq in E.
      exfalso. apply Enew. rewrite E. apply in_map. assumption. }
    assert (Hfresh : ~ In new (dfa_all_states d)).
    { intros Hin. apply Enew. apply in_map. assumption. }
    assert (Hfin_add : set_add dfa_eqb new (final_states d) = final_states d ++ [new]).
    { unfold set_add. rewrite mem_dfa_eqb.
      destruct (existsb _ (final_states d)) eqn:E; [|reflexivity].
      apply existsb_exists in E. destruct E as [s [Hs E]]. apply String.eqb_eq in E.
      exfalso. apply Enew. rewrite E. apply in_map. apply I3. assumption. }
    rewrite Hadd, Er.
    set (holds := match final_state (nfa d) with
                  | Some f => mem ref_eqb f (dfa_states new)
                  | None => false
                  end).
    assert (Hholds : holds = true <->
                     exists f, final_state (nfa d) = Some f /\
                               mem ref_eqb f (dfa_states new) = true).
    { unfold holds. destruct (final_state (nfa d)) as [f|].
      - split; [intros E; exists f; auto|intros [f' [E E']]; inversion E; subst; auto].
      - split; [discriminate|intros [f' [E _]]; discriminate]. }
    repeat apply conj.
    + rewrite map_app. simpl. apply NoDup_app; [assumption|constructor; [intros []|constructor]|].
      intros x Hx [<-|[]]. contradiction.
    + apply in_or_app. auto.
    + destruct holds; [rewrite Hfin_add|]; intros x Hx.
      * apply in_app_or in Hx. apply in_or_app. destruct Hx as [Hx|Hx]; auto.
      * apply in_or_app. auto.
    + intros src dst a Hin.
      assert (Hold : In (src, dst, a) (dfa_transitions d) ->
                     In src (dfa_all_states d ++ [new]) /\
                     (exists dst', In dst' (dfa_all_states d ++ [new]) /\
                                   dfa_id dst' = dfa_id dst) /\
                     In a (actions d) /\ dfa_states dst <> []).
      { intros Ho. destruct (I4 _ _ _ Ho) as [H1 [[dst' [H2 H3]] [H4 H5]]].
        repeat apply conj; auto; [apply in_or_app; auto|].
        exists dst'. split; [apply in_or_app; auto|assumption]. }
      destruct (negb (existsb _ (dfa_transitions d))); [|apply Hold; assumption].
      apply in_app_or in Hin. destruct Hin as [Hin|[Hin|[]]]; [apply Hold; assumption|].
      inversion Hin; subst. repeat apply conj; auto.
      * apply in_or_app. auto.
      * exists dst. split; [apply in_or_app; simpl; auto|reflexivity].
      * rewrite Hnew. discriminate.
    + intros s Hs Hne. apply in_app_or in Hs. destruct Hs as [Hs|[<-|[]]].
      * rewrite <- (I5 s Hs Hne). destruct holds; [rewrite Hfin_add|]; [|tauto].
        rewrite in_app_iff. simpl. split; [|auto].
        intros [H|[<-|[]]]; [assumption|contradiction].
      * rewrite <- Hholds. destruct holds; [rewrite Hfin_add|].
        -- rewrite in_app_iff. simpl. tauto.
        -- split; [|discriminate]. intros Hin. exfalso. apply Hfresh, I3. assumption.
    + intros x [<-|Hx]; apply in_or_app; simpl; auto.
    + intros x Hx. apply in_or_app. auto.
    + reflexivity.
Qed.

Lemma construct_loop_constructed (fuel : nat) :
  forall (d d' : DFA) (stack : list DFA_State),
    construct_loop fuel d stack = Ok d' ->
    constructed d /\ incl stack (dfa_all_states d) ->
    constructed d'.
Proof.
  induction fuel as [|fuel IH]; intros d d' stack H [Hd Hstack]; simpl in H;
    [discriminate|].
  destruct stack as [|curr stack']; [inversion H; subst; assumption|].
  destruct (fold_left _ (actions d) (Ok (d, stack'))) as [[d1 stack1]| |] eqn:E;
    simpl in H; try discriminate.
  apply (fold_bind_invariant_In
           (fun a : DFA * list DFA_State =>
              (constructed (fst a) /\ incl (snd a) (dfa_all_states (fst a))) /\
              In curr (dfa_all_states (fst a)) /\ actions (fst a) = actions d)
           (construct_action curr)) in E.
  - simpl in E. destruct E as [E1 _]. eapply IH; eassumption.
  - intros action [d0 s0] [d2 s2] Hin [Hinv [Hcurr Hacts]] Ea. simpl in *.
    destruct (construct_action_constructed _ _ _ _ _ _ Ea Hcurr) as [Hinv' [Hincl Hacts']];
      [rewrite Hacts; assumption|assumption|].
    split; [assumption|]. split; [apply Hincl; assumption|congruence].
  - simpl. split; [split; [exact Hd|]|split; [|reflexivity]].
    + intros x Hx. apply Hstack. right; assumption.
    + apply Hstack. left; reflexivity.
Qed.

(** X10.  The automaton [__construct_DFA] returns: no two of its states
    have the same id; its start state and its accepting states are among
    its states; every transition leaves one of its states, under one of
    the loaded actions, for a state that is not empty and has the id of
    one of its states; and a state other than the start state is accepting
    exactly when it holds the final state of the NFA. *)
Theorem construction_invariant (fuel : nat) (data : list (string * JEntry string))
  (d : DFA) :
  __construct_DFA fuel data = Ok d -> constructed d.
Proof.
  unfold __construct_DFA.
  destruct (__load_NFA_json data) as [[nfa0 acts]| |]; simpl; try discriminate.
  destruct (__epsilon_closure nfa0 start_object) as [start_set| |]; simpl;
    try discriminate.
  destruct (new_DFA_State nfa0 start_set false) as [start| |]; simpl; try discriminate.
  intros H. apply construct_loop_constructed in H; [assumption|].
  split; [|apply incl_refl]. unfold constructed; simpl. repeat apply conj.
  - constructor; [intros []|constructor].
  - auto.
  - intros x [].
  - intros src dst a [].
  - intros s [<-|[]] Hne. congruence.
Qed.

End ConstructionFacts.

(** The file of the NFA of [ab*]: states S0 to S5. *)
Lemma construction_invariant_witness :
  exists d,
    Pipeline.compile 20 "ab*" false = Ok d /\ Vocabulary.constructed d.
Proof.
  eexists. split; [vm_compute; reflexivity|].
  apply (construction_invariant 20
           (DFA_py.json_file
              match (n <- NFA_py.regex_to_nfa "ab*" ;; NFA_py.to_json n) with
              | Ok j => j
              | _ => []
              end)).
  vm_compute. reflexivity.
Defined.


(** ** What the matcher computes *)

Section MatcherCorrect.
Import NFA_py Vocabulary.

Lemma closure_push_covers (eps : list nat) :
  forall (all_states stack all' stack' : list nat),
    fold_left (fun (acc : list nat * list nat) target =>
                 let (a, k) := acc in
                 if mem Nat.eqb target a then (a, k)
                 else (a ++ [target], target :: k))
              eps (all_states, stack) = (all', stack') ->
    incl all_states all' /\ incl eps all'.
Proof.
  induction eps as [|t eps IH]; intros all_states stack all' stack' H; simpl in H.
  - inversion H; subst. split; [apply incl_refl|intros x []].
  - destruct (mem Nat.eqb t all_states) eqn:E.
    + apply IH in H. destruct H as [H1 H2]. split; [assumption|].
      intros x [<-|Hx]; [|auto]. apply H1. apply (mem_In Nat.eqb Nat.eqb_eq). assumption.
    + apply IH in H. destruct H as [H1 H2]. split.
      * intros x Hx. apply H1. apply in_or_app. auto.
      * intros x [<-|Hx]; [|auto]. apply H1. apply in_or_app. simpl. auto.
Qed.

Lemma closure_loop_correct (n : NFA) (from : list nat) :
  forall fuel all_states stack cl,
    closure_loop fuel n all_states stack = Ok cl ->
    incl from all_states -> incl stack all_states ->
    (forall x, In x all_states -> eps_reach n from x) ->
    (forall x, In x all_states ->
               In x stack \/ forall y, eps_step n x y -> In y all_states) ->
    incl from cl /\
    (forall x, In x cl -> eps_reach n from x) /\
    (forall x y, In x cl -> eps_step n x y -> In y cl).
Proof.
  induction fuel as [|fuel IH]; intros all_states stack cl H Hfrom Hstack Hsound Hclosed;
    simpl in H; [discriminate|].
  destruct stack as [|state stack'].
  { inversion H; subst. repeat apply conj; auto.
    intros x y Hx Hs. destruct (Hclosed x Hx) as [[]|Hc]. auto. }
  destruct (nth_error (states n) state) as [st|] eqn:Est; [|discriminate].
  destruct (fold_left _ (epsilon_transitions st) (all_states, stack'))
    as [all' stack''] eqn:Ef.
  pose proof (closure_push_covers _ _ _ _ _ Ef) as [Hincl Heps].
  apply closure_push_new in Ef. destruct Ef as [new [-> [_ [Hnew [Hall _]]]]].
  apply IH in H; [assumption| | | |].
  - intros x Hx. apply Hincl, Hfrom. assumption.
  - intros x Hx. apply Hall. apply in_app_or in Hx. destruct Hx as [Hx|Hx]; [auto|].
    left. apply Hstack. right; assumption.
  - intros x Hx. apply Hall in Hx. destruct Hx as [Hx|Hx]; [auto|].
    apply eps_next with state; [apply Hsound, Hstack; left; reflexivity|].
    exists st. split; [assumption|]. apply Hnew. assumption.
  - intros x Hx. apply Hall in Hx. destruct Hx as [Hx|Hx].
    + destruct (Hclosed x Hx) as [[<-|Hs]|Hc].
      * right. intros y [st' [E Hy]]. rewrite Est in E. inversion E; subst.
        apply Heps. assumption.
      * left. apply in_or_app. auto.
      * right. intros y Hy. apply Hincl. auto.
    + left. apply in_or_app. auto.
Qed.

Lemma epsilon_closure_spec (n : NFA) (from cl : list nat) :
  _epsilon_closure n from = Ok cl ->
  forall x, In x cl <-> eps_reach n from x.
Proof.
  unfold _epsilon_closure. intros H.
  apply (closure_loop_correct n from) in H.
  - destruct H as [H1 [H2 H3]]. intros x. split; [apply H2|].
    intros Hr. induction Hr as [x Hx|x y _ IH Hs]; [apply H1; assumption|].
    apply (H3 x); assumption.
  - apply incl_refl.
  - intros x Hx. apply in_rev. assumption.
  - intros x Hx. apply eps_here. assumption.
  - intros x Hx. left. apply in_rev in Hx. assumption.
Qed.

(** X11.  When [_epsilon_closure] returns, the set it returns holds the
    states it was given, and with them exactly the states reached from
    them along epsilon transitions. *)
Theorem epsilon_closure_correct (n : NFA) (from cl : list nat) :
  _epsilon_closure n from = Ok cl ->
  forall x, In x cl <-> eps_reach n from x.
Proof. apply epsilon_closure_spec. Qed.

Lemma next_inner_spec (c : ascii) (tr : list (label * list nat)) :
  forall acc next',
    fold_left (fun acc' (entry : label * list nat) =>
                 next' <- acc' ;;
                 taken <- label_matches (fst entry) c ;;
                 Ok (if taken then set_union Nat.eqb next' (snd entry) else next'))
              tr (Ok acc) = Ok next' ->
    forall y, In y next' <->
              In y acc \/
              exists entry, In entry tr /\ label_matches (fst entry) c = Ok true /\
                            In y (snd entry).
Proof.
  induction tr as [|e tr IH]; intros acc next' H y; simpl in H.
  - inversion H; subst. split; [auto|]. intros [Hy|[entry [[] _]]]. assumption.
  - destruct (label_matches (fst e) c) as [taken| |] eqn:El; simpl in H;
      try (rewrite fold_bind_not_ok in H by reflexivity; discriminate).
    rewrite (IH _ _ H y). destruct taken.
    + rewrite (set_union_In Nat.eqb Nat.eqb_eq). split.
      * intros [[Hy|Hy]|[entry [Hin Hr]]]; [auto| |].
        -- right. exists e. simpl. auto.
        -- right. exists entry. simpl. tauto.
      * intros [Hy|[entry [[<-|Hin] [Hl Hy]]]]; [auto|auto|].
        right. exists entry. auto.
    + split.
      * intros [Hy|[entry [Hin Hr]]]; [auto|]. right. exists entry. simpl. tauto.
      * intros [Hy|[entry [[<-|Hin] [Hl Hy]]]]; [auto|congruence|].
        right. exists entry. auto.
Qed.

Lemma next_outer_spec (n : NFA) (c : ascii) (cur : list nat) :
  forall acc next,
    fold_left (fun acc state =>
                 next <- acc ;;
                 match nth_error (states n) state with
                 | None => Raise IndexError
                 | Some st =>
                     fold_left (fun acc' (entry : label * list nat) =>
                                  next' <- acc' ;;
                                  taken <- label_matches (fst entry) c ;;
                                  Ok (if taken then set_union Nat.eqb next' (snd entry)
                                      else next'))
                               (transitions st) (Ok next)
                 end)
              cur (Ok acc) = Ok next ->
    forall y, In y next <-> In y acc \/ exists x, In x cur /\ char_step n c x y.
Proof.
  induction cur as [|x cur IH]; intros acc next H y; simpl in H.
  - inversion H; subst. split; [auto|]. intros [Hy|[x [[] _]]]. assumption.
  - destruct (nth_error (states n) x) as [st|] eqn:Est;
      [|rewrite fold_bind_not_ok in H by reflexivity; discriminate].
    destruct (fold_left _ (transitions st) (Ok acc)) as [acc1| |] eqn:Ei;
      try (rewrite fold_bind_not_ok in H by reflexivity; discriminate).
    rewrite (IH _ _ H y), (next_inner_spec c _ _ _ Ei y). split.
    + intros [[Hy|[entry [Hin [Hl Hy]]]]|[x' [Hin Hs]]]; [auto| |].
      * right. exists x. split; [left; reflexivity|]. exists st, entry. auto.
      * right. exists x'. split; [right; assumption|assumption].
    + intros [Hy|[x' [[<-|Hin] Hs]]]; [auto| |].
      * destruct Hs as [st' [entry [E [Hin [Hl Hy]]]]]. rewrite Est in E.
        inversion E; subst. left. right. exists entry. auto.
      * right. exists x'. auto.
Qed.

Lemma next_states_spec (n : NFA) (c : ascii) (cur next : list nat) :
  next_states n cur c = Ok next ->
  forall y, In y next <-> exists x, In x cur /\ char_step n c x y.
Proof.
  unfold next_states. intros H y. rewrite (next_outer_spec n c cur _ _ H y).
  simpl. tauto.
Qed.

Lemma reads_empty_closed (n : NFA) (cur : list nat) (x z : nat) :
  (forall a b, In a cur -> eps_step n a b -> In b cur) ->
  reads n x EmptyString z -> In x cur -> In z cur.
Proof.
  intros Hc Hr. remember EmptyString as s eqn:Es.
  induction Hr as [x|x y z s Hs Hr IH|x y z c s Hs Hr IH]; intros Hx;
    [assumption| |discriminate].
  apply IH; [assumption|]. apply (Hc x); assumption.
Qed.

Lemma eps_reach_reads (n : NFA) (from : list nat) (y : nat) :
  eps_reach n from y ->
  forall s z, reads n y s z -> exists x, In x from /\ reads n x s z.
Proof.
  intros Hr. induction Hr as [x Hx|x y _ IH Hs]; intros s z Hreads.
  - exists x. auto.
  - apply IH. apply reads_eps with y; assumption.
Qed.

Lemma reads_char_first (n : NFA) (cur : list nat) (x z : nat) (c : ascii) (rest : string) :
  (forall a b, In a cur -> eps_step n a b -> In b cur) ->
  reads n x (String c rest) z -> In x cur ->
  exists x' y, In x' cur /\ char_step n c x' y /\ reads n y rest z.
Proof.
  intros Hc Hr. remember (String c rest) as s eqn:Es.
  induction Hr as [x|x y z s Hs Hr IH|x y z c' s Hs Hr IH]; intros Hx; [discriminate| |].
  - apply IH; [assumption|]. apply (Hc x); assumption.
  - inversion Es; subst. exists x, y. auto.
Qed.

Lemma match_loop_correct (n : NFA) (input_string : string) :
  forall current b,
    (forall a b, In a current -> eps_step n a b -> In b current) ->
    match_loop n current input_string = Ok b ->
    (b = true <->
     exists x z st, In x current /\ reads n x input_string z /\
                    nth_error (states n) z = Some st /\ is_final st = true).
Proof.
  induction input_string as [|c rest IH]; intros current b Hc H; simpl in H.
  - inversion H; subst; clear H. rewrite existsb_exists. split.
    + intros [x [Hx Hf]]. destruct (nth_error (states n) x) as [st|] eqn:E;
        [|discriminate]. exists x, x, st. repeat apply conj; auto. constructor.
    + intros [x [z [st [Hx [Hr [E Hf]]]]]]. exists z. split.
      * eapply reads_empty_closed; eassumption.
      * rewrite E. assumption.
  - destruct (next_states n current c) as [next| |] eqn:En; simpl in H; try discriminate.
    destruct (_epsilon_closure n next) as [cl| |] eqn:Ec; simpl in H; try discriminate.
    pose proof (next_states_spec _ _ _ _ En) as Hnext.
    pose proof (epsilon_closure_spec _ _ _ Ec) as Hcl.
    assert (Hclosed : forall a b, In a cl -> eps_step n a b -> In b cl).
    { intros a b0 Ha Hs. apply Hcl. apply eps_next with a; [apply Hcl; assumption|assumption]. }
    assert (Hiff : (exists x z st, In x current /\ reads n x (String c rest) z /\
                                   nth_error (states n) z = Some st /\ is_final st = true)
                   <-> (exists y z st, In y cl /\ reads n y rest z /\
                                       nth_error (states n) z = Some st /\
                                       is_final st = true)).
    { split.
      - intros [x [z [st [Hx [Hr [E Hf]]]]]].
        destruct (reads_char_first n current x z c rest Hc Hr Hx) as [x' [y [Hx' [Hs Hr']]]].
        exists y, z, st. repeat apply conj; auto.
        apply Hcl. apply eps_here. apply Hnext. exists x'. auto.
      - intros [y [z [st [Hy [Hr [E Hf]]]]]].
        apply Hcl in Hy. destruct (eps_reach_reads n next y Hy rest z Hr) as [y0 [Hy0 Hr0]].
        apply Hnext in Hy0. destruct Hy0 as [x [Hx Hs]].
        exists x, z, st. repeat apply conj; auto. apply reads_char with y0; assumption. }
    rewrite Hiff. destruct cl as [|y0 cl'].
    + inversion H; subst. split; [discriminate|]. intros [y [z [st [[] _]]]].
    + apply IH; assumption.
Qed.

Lemma match_correct (n : NFA) (input_string : string) (b : bool) :
  match_ n input_string = Ok b -> (b = true <-> accepts n input_string).
Proof.
  unfold match_, accepts. destruct (start_state n) as [start|].
  - destruct (_epsilon_closure n [start]) as [cl| |] eqn:Ec; simpl; try discriminate.
    pose proof (epsilon_closure_spec _ _ _ Ec) as Hcl.
    intros H. apply match_loop_correct in H.
    + rewrite H. split.
      * intros [x [z [st [Hx [Hr [E Hf]]]]]]. apply Hcl in Hx.
        destruct (eps_reach_reads n [start] x Hx _ _ Hr) as [x0 [[<-|[]] Hr0]].
        exists start, z, st. auto.
      * intros [s0 [z [st [Es [Hr [E Hf]]]]]]. inversion Es; subst.
        exists s0, z, st. repeat apply conj; auto. apply Hcl. apply eps_here. left; reflexivity.
    + intros a b0 Ha Hs. apply Hcl. apply eps_next with a; [apply Hcl; assumption|assumption].
  - intros H; inversion H; subst. split; [discriminate|].
    intros [s0 [z [st [Es _]]]]. discriminate.
Qed.

(** X12.  What [match] computes: when it returns, it returns [True]
    exactly when the automaton has a path from its start state to a state
    marked final that reads the input, taking epsilon transitions freely
    and a labelled transition on each character under the rule of X6. *)
Theorem match_decides_paths (n : NFA) (input_string : string) (b : bool) :
  match_ n input_string = Ok b -> (b = true <-> accepts n input_string).
Proof. apply match_correct. Qed.

End MatcherCorrect.

(** In the automaton of [a*] the closure of the start state S2 is S2, S0
    and S3. *)
Lemma epsilon_closure_correct_witness :
  In 3 [2; 0; 3]
  <-> Vocabulary.eps_reach
        (match NFA_py.regex_to_nfa "a*" with Ok n => n | _ => NFA_py.empty_NFA end) [2] 3.
Proof.
  apply (epsilon_closure_correct
           (match NFA_py.regex_to_nfa "a*" with Ok n => n | _ => NFA_py.empty_NFA end) [2]
           [2; 0; 3]).
  vm_compute. reflexivity.
Defined.

Lemma match_decides_paths_witness :
  true = true
  <-> Vocabulary.accepts
        (match NFA_py.regex_to_nfa "a*" with Ok n => n | _ => NFA_py.empty_NFA end) "aa".
Proof.
  apply (match_decides_paths
           (match NFA_py.regex_to_nfa "a*" with Ok n => n | _ => NFA_py.empty_NFA end) "aa").
  vm_compute. reflexivity.
Defined.


(** ** The file of an automaton and its reloading *)

Section NameFacts.
Import NFA_py DFA_py Vocabulary.

Lemma to_uint_not_Nil (i : nat) : Nat.to_uint i <> Decimal.Nil.
Proof.
  intros E. pose proof (DecimalNat.Unsigned.of_to i) as H. rewrite E in H.
  simpl in H. subst i. discriminate.
Qed.

Lemma state_name_tail (i : nat) :
  tail (state_name i) = NilEmpty.string_of_uint (Nat.to_uint i).
Proof. reflexivity. Qed.

Lemma int_state_name (i : nat) : int (tail (state_name i)) = Ok i.
Proof.
  rewrite state_name_tail. unfold int.
  destruct (NilEmpty.string_of_uint (Nat.to_uint i)) eqn:E.
  - pose proof (to_uint_not_Nil i) as H. destruct (Nat.to_uint i); try congruence;
      discriminate.
  - rewrite <- E, NilEmpty.usu, DecimalNat.Unsigned.of_to. reflexivity.
Qed.

Lemma state_named_state_name (m : DFA_py.NFA) (i : nat) :
  i < List.length (DFA_py.states m) -> state_named m (state_name i) = Ok (state_object i).
Proof.
  intros H. unfold state_named. rewrite int_state_name. cbn [bind].
  destruct (Nat.ltb_spec i (List.length (DFA_py.states m))); [reflexivity|lia].
Qed.

Lemma state_name_inj (i j : nat) : state_name i = state_name j -> i = j.
Proof.
  intros H. apply (f_equal tail) in H. rewrite !state_name_tail in H.
  apply (f_equal NilEmpty.uint_of_string) in H. rewrite !NilEmpty.usu in H.
  inversion H as [E]. apply DecimalNat.Unsigned.to_uint_inj. exact E.
Qed.

Lemma state_name_not_start (i : nat) : String.eqb (state_name i) "startingState" = false.
Proof. reflexivity. Qed.

End NameFacts.

Section DictAppend.
Context {K V : Type} (eqk : K -> K -> bool).
Hypothesis eqk_eq : forall a b, eqk a b = true <-> a = b.

Lemma dict_get_absent (k : K) (d : list (K * V)) :
  ~ In k (map fst d) -> dict_get eqk k d = None.
Proof.
  induction d as [|[k' v'] d IH]; simpl; intros H; [reflexivity|].
  destruct (eqk k k') eqn:E; [apply eqk_eq in E; subst; tauto|]. apply IH. tauto.
Qed.

Lemma dict_set_absent (k : K) (v : V) (d : list (K * V)) :
  ~ In k (map fst d) -> dict_set eqk k v d = d ++ [(k, v)].
Proof.
  induction d as [|[k' v'] d IH]; simpl; intros H; [reflexivity|].
  destruct (eqk k k') eqn:E; [apply eqk_eq in E; subst; tauto|]. rewrite IH; tauto.
Qed.

Lemma dict_get_last (k : K) (v : V) (d : list (K * V)) :
  ~ In k (map fst d) -> dict_get eqk k (d ++ [(k, v)]) = Some v.
Proof.
  induction d as [|[k' v'] d IH]; simpl; intros H.
  - destruct (eqk k k) eqn:E; [reflexivity|].
    assert (eqk k k = true) by (apply eqk_eq; reflexivity). congruence.
  - destruct (eqk k k') eqn:E; [apply eqk_eq in E; subst; tauto|]. apply IH. tauto.
Qed.

Lemma dict_set_last (k : K) (v v' : V) (d : list (K * V)) :
  ~ In k (map fst d) -> dict_set eqk k v' (d ++ [(k, v)]) = d ++ [(k, v')].
Proof.
  induction d as [|[k' v0] d IH]; simpl; intros H.
  - destruct (eqk k k) eqn:E; [reflexivity|].
    assert (eqk k k = true) by (apply eqk_eq; reflexivity). congruence.
  - destruct (eqk k k') eqn:E; [apply eqk_eq in E; subst; tauto|]. rewrite IH; tauto.
Qed.

End DictAppend.

Section ExportFacts.
Import NFA_py Vocabulary.

Lemma dense_id (n : NFA) (i : nat) (st : State) :
  dense n -> nth_error (states n) i = Some st -> id st = i.
Proof.
  intros [Hids _] H. apply (map_nth_error id) in H. rewrite Hids in H.
  assert (Hlt : i < List.length (seq 0 (List.length (states n))))
    by (apply nth_error_Some; congruence).
  rewrite length_seq in Hlt. rewrite nth_error_seq in H.
  destruct (Nat.ltb_spec i (List.length (states n))); [|lia].
  inversion H. reflexivity.
Qed.

Lemma target_name_dense (n : NFA) (t : nat) :
  dense n -> t < List.length (states n) -> target_name n t = Ok (state_name t).
Proof.
  intros Hd Ht. unfold target_name.
  destruct (nth_error (states n) t) as [st|] eqn:E; [|apply nth_error_None in E; lia].
  rewrite (dense_id n t st Hd E). reflexivity.
Qed.

Lemma target_names_dense (n : NFA) (ts : list nat) :
  dense n -> Forall (fun t => t < List.length (states n)) ts ->
  sequence (map (target_name n) ts) = Ok (map state_name ts).
Proof.
  intros Hd H. induction H as [|t ts Ht _ IH]; simpl; [reflexivity|].
  rewrite (target_name_dense n t Hd Ht), IH. reflexivity.
Qed.

Lemma builder_label_not_key (l : label) :
  builder_label l ->
  l <> Some "isTerminatingState"%string /\ l <> Some EPSILON.
Proof.
  unfold EPSILON, range_label, str1.
  intros [->|[[a ->]|[->|[a [b ->]]]]]; split; discriminate.
Qed.

(** The loop of [to_json] over the labelled transitions of a state. *)
Lemma export_chars (n : NFA) (tr : list (label * list nat)) :
  dense n ->
  forall d,
    Forall (fun e => targets_ok (List.length (states n)) (snd e)) tr ->
    NoDup (map fst tr) ->
    (forall k, In k (map fst tr) -> ~ In k (map fst d)) ->
    fold_left (fun acc (entry : label * list nat) =>
                 d <- acc ;;
                 names <- sequence (map (target_name n) (snd entry)) ;;
                 match names with
                 | [name] => Ok (dict_set label_eqb (fst entry) (JStr name) d)
                 | _ => Ok (dict_set label_eqb (fst entry) (JList names) d)
                 end)
              tr (Ok d)
    = Ok (d ++ map (fun e : label * list nat => (fst e, exported_targets (snd e))) tr).
Proof.
  intros Hd. induction tr as [|[l ts] tr IH]; intros d Hok Hnd Hfresh; simpl.
  - rewrite app_nil_r. reflexivity.
  - inversion Hok as [|? ? [Hts _] Hok']; subst. inversion Hnd as [|? ? Hl Hnd']; subst.
    simpl in Hts. rewrite (target_names_dense n ts Hd Hts). cbn [bind].
    assert (Hstep : match map state_name ts with
                    | [name] => Ok (dict_set label_eqb l (JStr name) d)
                    | _ => Ok (dict_set label_eqb l (JList (map state_name ts)) d)
                    end = Ok (d ++ [(l, exported_targets ts)])).
    { destruct ts as [|t [|t' ts']]; cbn [map];
        rewrite (dict_set_absent label_eqb label_eqb_eq) by (apply Hfresh; left; reflexivity);
        reflexivity. }
    rewrite Hstep, IH; [rewrite <- app_assoc; reflexivity|assumption|assumption|].
    intros k Hk Hin. rewrite map_app, in_app_iff in Hin. destruct Hin as [Hin|[<-|[]]].
    + apply (Hfresh k); [right; assumption|assumption].
    + contradiction.
Qed.

(** The loop of [to_json] over the epsilon transitions of a state, from
    the second one on. *)
Lemma export_eps (n : NFA) (eps : list nat) :
  dense n ->
  forall d pre,
    Forall (fun t => t < List.length (states n)) eps ->
    ~ In (Some EPSILON) (map fst d) ->
    fold_left (fun acc target =>
                 d <- acc ;;
                 name <- target_name n target ;;
                 let d' := match dict_get label_eqb (Some EPSILON) d with
                           | Some _ => d
                           | None => dict_set label_eqb (Some EPSILON) (JList []) d
                           end in
                 match dict_get label_eqb (Some EPSILON) d' with
                 | Some (JList l) =>
                     Ok (dict_set label_eqb (Some EPSILON) (JList (l ++ [name])) d')
                 | _ => Raise AttributeError
                 end)
              eps (Ok (d ++ [(Some EPSILON, JList pre)]))
    = Ok (d ++ [(Some EPSILON, JList (pre ++ map state_name eps))]).
Proof.
  intros Hd. induction eps as [|t eps IH]; intros d pre Hok Hfresh; simpl.
  - rewrite app_nil_r. reflexivity.
  - inversion Hok; subst. rewrite (target_name_dense n t Hd) by assumption. cbn [bind].
    cbv zeta. rewrite (dict_get_last label_eqb label_eqb_eq) by assumption. cbv iota.
    rewrite (dict_get_last label_eqb label_eqb_eq) by assumption. cbv iota.
    rewrite (dict_set_last label_eqb label_eqb_eq) by assumption.
    rewrite IH by assumption. rewrite <- app_assoc. reflexivity.
Qed.

Lemma state_to_json_spec (n : NFA) (st : State) :
  dense n -> state_ok (List.length (states n)) st ->
  state_to_json n st = Ok (exported_state st).
Proof.
  intros Hd [Htr [Hk [He _]]]. unfold state_to_json, exported_state.
  assert (Hkeys : forall k, In k (map fst (transitions st)) ->
                            k <> Some "isTerminatingState"%string /\ k <> Some EPSILON).
  { intros k Hin. apply in_map_iff in Hin. destruct Hin as [e [<- Hin]].
    rewrite Forall_forall in Htr. apply builder_label_not_key, Htr. assumption. }
  rewrite export_chars; try assumption.
  - cbn [bind]. destruct (epsilon_transitions st) as [|t eps] eqn:Eeps.
    + simpl. rewrite app_nil_r. reflexivity.
    + inversion He; subst. cbn [fold_left].
      rewrite (target_name_dense n t Hd) by assumption. cbn [bind].
      cbv zeta.
      match goal with
      | |- context [dict_get label_eqb (Some EPSILON) ?D] =>
          match D with
          | _ ++ _ => assert (Hfresh : ~ In (Some EPSILON) (map fst D))
          end
      end.
      { rewrite map_app, map_map. simpl. intros [H|H]; [discriminate|].
        apply Hkeys in H. tauto. }
      rewrite (dict_get_absent label_eqb label_eqb_eq _ _ Hfresh). cbv iota.
      rewrite (dict_set_absent label_eqb label_eqb_eq _ _ _ Hfresh).
      rewrite (dict_get_last label_eqb label_eqb_eq _ _ _ Hfresh). cbv iota.
      rewrite (dict_set_last label_eqb label_eqb_eq _ _ _ _ Hfresh).
      rewrite export_eps by assumption. reflexivity.
  - eapply Forall_impl; [|exact Htr]. intros e [_ H]. exact H.
  - intros k Hin [H|[]]. apply Hkeys in Hin. simpl in H. destruct Hin. congruence.
Qed.

End ExportFacts.

Section CountedLoops.
Context {A S : Type}.

Lemma firstn_snoc (l : list A) :
  forall k x, nth_error l k = Some x -> firstn (Datatypes.S k) l = firstn k l ++ [x].
Proof.
  induction l as [|a l IH]; intros [|k] x H; simpl in *; try discriminate.
  - inversion H; reflexivity.
  - f_equal. apply IH. assumption.
Qed.

(** A loop in the error monad whose state after [k] iterations is known:
    it runs to the end. *)
Lemma fold_counted (f : S -> A -> result S) (l : list A) (I : nat -> S -> Prop) :
  (forall k x s, nth_error l k = Some x -> I k s -> exists s', f s x = Ok s' /\ I (Datatypes.S k) s') ->
  forall s0, I 0 s0 ->
    exists s', fold_left (fun acc x => bind acc (fun s => f s x)) l (Ok s0) = Ok s' /\
               I (List.length l) s'.
Proof.
  intros Hstep.
  assert (Hgen : forall suf pre s,
             l = pre ++ suf -> I (List.length pre) s ->
             exists s', fold_left (fun acc x => bind acc (fun s => f s x)) suf (Ok s) = Ok s' /\
                        I (List.length l) s').
  { induction suf as [|x suf IH]; intros pre s El Hs.
    - rewrite app_nil_r in El. subst. exists s. auto.
    - destruct (Hstep (List.length pre) x s) as [s1 [E1 H1]]; [|assumption|].
      { rewrite El, nth_error_app2, Nat.sub_diag by lia. reflexivity. }
      simpl. rewrite E1. apply (IH (pre ++ [x])).
      + rewrite <- app_assoc. exact El.
      + rewrite length_app. simpl. rewrite Nat.add_1_r. exact H1. }
  intros s0 H0. apply (Hgen l [] s0); [reflexivity|exact H0].
Qed.

End CountedLoops.

Lemma nth_error_combine_seq {A : Type} (l : list A) :
  forall base k,
    nth_error (combine (seq base (List.length l)) l) k
    = match nth_error l k with
      | Some x => Some (base + k, x)
      | None => None
      end.
Proof.
  induction l as [|a l IH]; intros base [|k]; simpl; try reflexivity.
  - rewrite Nat.add_0_r. reflexivity.
  - rewrite IH. destruct (nth_error l k); [|reflexivity]. f_equal. f_equal. lia.
Qed.

Section IndexedFacts.
Import Vocabulary.

Lemma nth_error_indexed {A : Type} (l : list A) (k : nat) (p : nat * A) :
  nth_error (indexed l) k = Some p -> fst p = k /\ nth_error l k = Some (snd p).
Proof.
  unfold indexed. rewrite nth_error_combine_seq.
  destruct (nth_error l k); [|discriminate]. intros H; inversion H; subst. auto.
Qed.

Lemma length_indexed {A : Type} (l : list A) : List.length (indexed l) = List.length l.
Proof. unfold indexed. rewrite length_combine, length_seq. apply Nat.min_id. Qed.

End IndexedFacts.

Section FileFacts.
Import NFA_py Vocabulary.

Lemma In_firstn_indexed {A : Type} (l : list A) (k : nat) (p : nat * A) :
  In p (firstn k (indexed l)) -> fst p < k /\ nth_error l (fst p) = Some (snd p).
Proof.
  intros H. apply In_nth_error in H. destruct H as [j Hj].
  rewrite nth_error_firstn in Hj. destruct (Nat.ltb_spec j k); [|discriminate].
  apply nth_error_indexed in Hj. destruct Hj as [-> Hj]. auto.
Qed.

(** What [to_json] writes in front of the states. *)
Lemma to_json_spec (n : NFA) :
  built n ->
  exists s,
    start_state n = Some s /\
    to_json n
    = Ok (("startingState"%string, JName (state_name s))
            :: map (fun p : nat * State =>
                      (state_name (fst p), JObject (exported_state (snd p))))
                   (indexed (states n))).
Proof.
  intros [[Hd Hok] [s [f [Es [_ [Hs _]]]]]]. exists s. split; [assumption|].
  unfold to_json. rewrite Es. rewrite (target_name_dense n s Hd Hs). cbn [bind].
  destruct (fold_counted
              (fun d st =>
                 state_data <- state_to_json n st ;;
                 Ok (dict_set String.eqb (state_name (id st)) (JObject state_data) d))
              (states n)
              (fun k d =>
                 d = ("startingState"%string, JName (state_name s))
                       :: map (fun p : nat * State =>
                                 (state_name (fst p), JObject (exported_state (snd p))))
                              (firstn k (indexed (states n)))))
    with (s0 := [("startingState"%string, @JName label (state_name s))])
    as [d [E Hfinal]].
  - intros k st d Hk ->. rewrite Forall_forall in Hok.
    rewrite (state_to_json_spec n st Hd) by (apply Hok; eapply nth_error_In; eassumption).
    cbn [bind]. rewrite (dense_id n k st Hd Hk).
    eexists. split; [reflexivity|].
    rewrite (dict_set_absent String.eqb String.eqb_eq).
    + assert (Hidx : nth_error (indexed (states n)) k = Some (k, st)).
      { unfold indexed. rewrite nth_error_combine_seq, Hk. reflexivity. }
      rewrite (firstn_snoc _ _ _ Hidx), map_app. reflexivity.
    + simpl. intros [H|H].
      * pose proof (state_name_not_start k) as Hn. rewrite <- H in Hn.
        rewrite String.eqb_refl in Hn. discriminate.
      * rewrite map_map in H. apply in_map_iff in H. destruct H as [p [Hp Hin]].
        simpl in Hp. apply state_name_inj in Hp. apply In_firstn_indexed in Hin. lia.
  - reflexivity.
  - rewrite E. rewrite Hfinal. rewrite <- length_indexed, firstn_all. reflexivity.
Qed.

End FileFacts.

Section ParsedFacts.
Import NFA_py DFA_py Vocabulary.

Lemma json_key_inj (a b : label) :
  builder_label a -> builder_label b -> json_key a = json_key b -> a = b.
Proof.
  unfold range_label, str1.
  intros [->|[[c ->]|[->|[c [d ->]]]]] [->|[[c' ->]|[->|[c' [d' ->]]]]]; simpl;
    intros H; try discriminate; try reflexivity; inversion H; reflexivity.
Qed.

Lemma json_key_not_special (a : label) :
  builder_label a ->
  json_key a <> "isTerminatingState"%string /\ json_key a <> EPSILON.
Proof.
  unfold EPSILON, range_label, str1.
  intros [->|[[c ->]|[->|[c [d ->]]]]]; split; discriminate.
Qed.

Lemma parsed_keys (st : NFA_py.State) (size : nat) :
  state_ok size st -> NoDup (map fst (parsed_state st)).
Proof.
  intros [Htr [Hk _]]. unfold parsed_state, exported_state.
  rewrite map_map. cbn [map fst]. rewrite map_app, map_map. cbn [fst].
  assert (Hlabels : NoDup (map (fun e : label * list nat => json_key (fst e))
                              (NFA_py.transitions st))).
  { revert Htr Hk. induction (NFA_py.transitions st) as [|e tr IH]; intros Htr Hk;
      [constructor|].
    inversion Htr as [|? ? [He _] Htr']; subst. inversion Hk as [|? ? Hn Hk']; subst.
    simpl. constructor; [|apply IH; assumption].
    intros Hin. apply in_map_iff in Hin. destruct Hin as [e' [Eq Hin]].
    rewrite Forall_forall in Htr'. destruct (Htr' e' Hin) as [He' _].
    apply json_key_inj in Eq; try assumption. apply Hn. rewrite <- Eq.
    apply in_map. assumption. }
  assert (Hspecial : forall k, In k (map (fun e : label * list nat => json_key (fst e))
                                         (NFA_py.transitions st)) ->
                               k <> "isTerminatingState"%string /\ k <> EPSILON).
  { intros k Hin. apply in_map_iff in Hin. destruct Hin as [e [<- Hin]].
    rewrite Forall_forall in Htr. apply json_key_not_special, Htr. assumption. }
  constructor.
  - rewrite in_app_iff. intros [H|H]; [apply Hspecial in H; tauto|].
    destruct (NFA_py.epsilon_transitions st); simpl in H; [contradiction|].
    destruct H as [H|[]]. discriminate.
  - apply NoDup_app; [assumption| |].
    + destruct (NFA_py.epsilon_transitions st); simpl; constructor;
        [intros []|constructor].
    + intros k Hk1 Hk2. apply Hspecial in Hk1.
      destruct (NFA_py.epsilon_transitions st); simpl in Hk2; [contradiction|].
      destruct Hk2 as [<-|[]]. tauto.
Qed.

Lemma json_keys_fold (data : list (label * JValue)) :
  forall acc,
    NoDup (map fst acc ++ map (fun kv : label * JValue => json_key (fst kv)) data) ->
    fold_left (fun acc (kv : label * JValue) =>
                 dict_set String.eqb (json_key (fst kv)) (snd kv) acc) data acc
    = acc ++ map (fun kv : label * JValue => (json_key (fst kv), snd kv)) data.
Proof.
  induction data as [|kv data IH]; intros acc H; simpl.
  - rewrite app_nil_r. reflexivity.
  - rewrite (dict_set_absent String.eqb String.eqb_eq).
    + rewrite IH; [rewrite <- app_assoc; reflexivity|].
      rewrite map_app. simpl. rewrite <- app_assoc. exact H.
    + simpl in H. apply NoDup_remove_2 in H. intros Hin. apply H.
      apply in_or_app. auto.
Qed.

(** The file of a built automaton, as [json.load] reads it back. *)
Lemma json_file_spec (n : NFA_py.NFA) (s : nat) :
  Forall (state_ok (List.length (NFA_py.states n))) (NFA_py.states n) ->
  json_file (("startingState"%string, JName (state_name s))
               :: map (fun p : nat * NFA_py.State =>
                         (state_name (fst p), JObject (exported_state (snd p))))
                      (indexed (NFA_py.states n)))
  = ("startingState"%string, JName (state_name s))
      :: map (fun p : nat * NFA_py.State =>
                (state_name (fst p), JObject (parsed_state (snd p))))
             (indexed (NFA_py.states n)).
Proof.
  intros Hok. unfold json_file. cbn [map fst snd]. f_equal. rewrite map_map.
  apply map_ext_in. intros [i st] Hin. cbn [fst snd]. f_equal. f_equal.
  rewrite json_keys_fold; [reflexivity|]. cbn [map app].
  assert (H : NoDup (map fst (parsed_state st))).
  { apply (parsed_keys st (List.length (NFA_py.states n))).
    rewrite Forall_forall in Hok. apply Hok.
    unfold indexed in Hin. apply in_combine_r in Hin. assumption. }
  unfold parsed_state in H. rewrite map_map in H. exact H.
Qed.

End ParsedFacts.

Section LoaderFacts.
Import DFA_py Vocabulary.
Import NFA_py(EPSILON, JValue, JBool, JStr, JList, JEntry, JName, JObject, state_name).

Lemma parsed_state_final (st : NFA_py.State) :
  dict_get String.eqb "isTerminatingState" (parsed_state st)
  = Some (JBool (NFA_py.is_final st)).
Proof. reflexivity. Qed.

(** The first loop of the loader, on the file of a built automaton. *)
Lemma load_states_spec (n : NFA_py.NFA) (f : nat) (start0 : State) :
  f < List.length (NFA_py.states n) ->
  one_hot (map NFA_py.is_final (NFA_py.states n)) f ->
  fold_left (fun acc e => bind acc (load_state e))
            (map (fun p : nat * NFA_py.State =>
                    (state_name (fst p), JObject (parsed_state (snd p))))
                 (indexed (NFA_py.states n)))
            (Ok (mkNFA [] start0 None))
  = Ok (mkNFA (map declared_state (indexed (NFA_py.states n))) start0
              (Some (state_object f))).
Proof.
  intros Hf Hone.
  set (idx := indexed (NFA_py.states n)).
  destruct (fold_counted
              (fun m e => load_state e m)
              (map (fun p : nat * NFA_py.State =>
                      (state_name (fst p), JObject (parsed_state (snd p)))) idx)
              (fun k m =>
                 states m = map declared_state (firstn k idx) /\
                 start_state m = start0 /\
                 ((final_state m = None /\
                   forall j st, j < k -> nth_error (NFA_py.states n) j = Some st ->
                                NFA_py.is_final st = false) \/
                  (exists j st, j < k /\ nth_error (NFA_py.states n) j = Some st /\
                                NFA_py.is_final st = true /\
                                final_state m = Some (state_object j) /\
                                forall j' st', j < j' < k ->
                                               nth_error (NFA_py.states n) j' = Some st' ->
                                               NFA_py.is_final st' = false))))
    with (s0 := mkNFA [] start0 None) as [m [E [Hst [Hstart Hfin]]]].
  - intros k e m Hk [Hst [Hstart Hfin]].
    rewrite nth_error_map in Hk.
    destruct (nth_error idx k) as [[i st]|] eqn:Eidx; [|discriminate].
    inversion Hk; subst e; clear Hk.
    pose proof (nth_error_indexed _ _ _ Eidx) as [Hi Hnth]. simpl in Hi, Hnth. subst i.
    unfold load_state. cbn [fst snd]. rewrite state_name_not_start, parsed_state_final.
    cbn [truthy]. eexists. split; [reflexivity|]. cbn [states start_state final_state].
    split; [|split; [assumption|]].
    + rewrite (firstn_snoc _ _ _ Eidx), map_app, Hst. reflexivity.
    + assert (Hlen : List.length (states m) = k).
      { rewrite Hst, length_map, length_firstn. apply Nat.min_l.
        apply Nat.lt_le_incl. apply nth_error_Some. congruence. }
      rewrite Hlen. destruct (NFA_py.is_final st) eqn:Efin.
      * right. exists k, st. repeat apply conj; auto. intros j' st' Hj'. lia.
      * destruct Hfin as [[Hnone Hall]|[j [st0 [Hj [Hn0 [Hf0 [Hfs Hall]]]]]]].
        -- left. split; [assumption|]. intros j st' Hj Hn'.
           destruct (Nat.eq_dec j k) as [->|Hne]; [congruence|]. apply (Hall j); [lia|auto].
        -- right. exists j, st0. repeat apply conj; auto.
           intros j' st' Hj' Hn'. destruct (Nat.eq_dec j' k) as [->|Hne]; [congruence|].
           apply (Hall j'); [lia|auto].
  - cbn [states start_state final_state firstn map]. repeat split. left. split; [reflexivity|].
    intros j st Hj. lia.
  - match goal with
    | H : fold_left ?F _ _ = Ok m |- fold_left ?G _ _ = _ => change G with F; rewrite H
    end.
    rewrite length_map in Hst, Hfin. unfold idx in Hst, Hfin.
    rewrite length_indexed in Hst, Hfin. fold idx in Hst.
    rewrite <- (length_indexed (NFA_py.states n)) in Hst. rewrite firstn_all in Hst.
    destruct m as [sts st0 fs]. simpl in *. subst. f_equal.
    assert (Hflag : exists stf, nth_error (NFA_py.states n) f = Some stf /\
                                NFA_py.is_final stf = true).
    { destruct (nth_error (NFA_py.states n) f) as [stf|] eqn:Ef;
        [|apply nth_error_None in Ef; lia].
      exists stf. split; [reflexivity|]. apply (Hone f). 
      - rewrite nth_error_map, Ef. reflexivity.
      - reflexivity. }
    destruct Hflag as [stf [Ef Hff]].
    destruct Hfin as [[_ Hall]|[j [st [Hj [Hn [Hfj [-> _]]]]]]].
    + rewrite (Hall f stf Hf Ef) in Hff. discriminate.
    + assert (Hjf : j = f).
      { apply (Hone j true); [|reflexivity].
        rewrite nth_error_map, Hn. simpl. rewrite Hfj. reflexivity. }
      subst j. reflexivity.
Qed.

Lemma list_set_same {A : Type} (l : list A) :
  forall i x, nth_error l i = Some x -> list_set i x l = l.
Proof.
  induction l as [|a l IH]; intros [|i] x H; simpl in *; try discriminate.
  - inversion H; reflexivity.
  - f_equal. apply IH. assumption.
Qed.

Lemma list_set_twice {A : Type} (l : list A) :
  forall i x y, list_set i y (list_set i x l) = list_set i y l.
Proof. induction l as [|a l IH]; intros [|i] x y; simpl; f_equal; auto. Qed.

Lemma assign_same (m : NFA) (i : nat) (cur : State) :
  nth_error (states m) i = Some cur -> assign m (state_object i) cur = m.
Proof.
  intros H. destruct m as [sts st0 fs]. simpl in *. rewrite (list_set_same _ _ _ H).
  reflexivity.
Qed.

Lemma assign_twice (m : NFA) (i : nat) (x y : State) :
  assign (assign m (state_object i) x) (state_object i) y = assign m (state_object i) y.
Proof. simpl. rewrite list_set_twice. reflexivity. Qed.

Lemma assign_nth (m : NFA) (i : nat) (cur x : State) :
  nth_error (states m) i = Some cur ->
  nth_error (states (assign m (state_object i) x)) i = Some x.
Proof. intros H. simpl. eapply nth_error_list_set_same. eassumption. Qed.

Lemma assign_length (m : NFA) (i : nat) (x : State) :
  List.length (states (assign m (state_object i) x)) = List.length (states m).
Proof. simpl. apply length_list_set. Qed.

(** The targets of one action, added one by one to a state that has no
    transition under this action yet. *)
Lemma add_more_targets (action : string) (ident : string) (fin : bool) (ts : list nat) :
  forall (pre : list nat) (tr : list (string * list ref)),
    ~ In action (map fst tr) -> NoDup (pre ++ ts) ->
    fold_left (fun s t => add_transition action (state_object t) s) ts
              (mkState ident fin (tr ++ [(action, map state_object pre)]))
    = mkState ident fin (tr ++ [(action, map state_object (pre ++ ts))]).
Proof.
  induction ts as [|t ts IH]; intros pre tr Hfresh Hnd; simpl.
  - rewrite app_nil_r. reflexivity.
  - unfold add_transition at 2. cbn [transitions id is_final].
    rewrite (dict_get_last String.eqb String.eqb_eq) by assumption.
    rewrite (dict_set_last String.eqb String.eqb_eq) by assumption.
    assert (Hadd : set_add ref_eqb (state_object t) (map state_object pre)
                   = map state_object (pre ++ [t])).
    { unfold set_add. destruct (mem ref_eqb (state_object t) (map state_object pre)) eqn:E.
      - apply (mem_In ref_eqb ref_eqb_eq) in E. apply in_map_iff in E.
        destruct E as [t' [Et Hin]]. inversion Et; subst.
        apply NoDup_remove_2 in Hnd. exfalso. apply Hnd. apply in_or_app. auto.
      - rewrite map_app. reflexivity. }
    rewrite Hadd, IH; [rewrite <- app_assoc; reflexivity|assumption|].
    rewrite <- app_assoc. exact Hnd.
Qed.

Lemma add_targets_spec (action : string) (cur : State) (ts : list nat) :
  ~ In action (map fst (transitions cur)) -> NoDup ts -> ts <> [] ->
  fold_left (fun s t => add_transition action (state_object t) s) ts cur
  = mkState (id cur) (is_final cur) (transitions cur ++ [(action, map state_object ts)]).
Proof.
  intros Hfresh Hnd Hne. destruct ts as [|t ts]; [congruence|]. cbn [fold_left].
  unfold add_transition at 2.
  rewrite (dict_get_absent String.eqb String.eqb_eq) by assumption.
  rewrite (dict_set_absent String.eqb String.eqb_eq) by assumption.
  change (set_add ref_eqb (state_object t) []) with (map state_object [t]).
  rewrite add_more_targets; [reflexivity|assumption|exact Hnd].
Qed.

Lemma load_target_spec (m : NFA) (i t : nat) (cur : State) (action : string) :
  nth_error (states m) i = Some cur -> t < List.length (states m) ->
  load_target (state_object i) action (state_name t) m
  = Ok (assign m (state_object i) (add_transition action (state_object t) cur)).
Proof.
  intros Hi Ht. unfold load_target. rewrite (state_named_state_name m t Ht).
  cbn [bind deref]. rewrite Hi. reflexivity.
Qed.

Lemma load_list_spec (i : nat) (action : string) (ts : list nat) :
  forall (m : NFA) (cur : State),
    nth_error (states m) i = Some cur ->
    Forall (fun t => t < List.length (states m)) ts ->
    fold_left (fun acc target => bind acc (load_target (state_object i) action target))
              (map state_name ts) (Ok m)
    = Ok (assign m (state_object i)
            (fold_left (fun s t => add_transition action (state_object t) s) ts cur)).
Proof.
  induction ts as [|t ts IH]; intros m cur Hi Hts; cbn [map fold_left bind].
  - rewrite (assign_same m i cur Hi). reflexivity.
  - inversion Hts; subst. rewrite (load_target_spec m i t cur action Hi) by assumption.
    cbn [bind]. rewrite (IH _ (add_transition action (state_object t) cur)).
    + rewrite assign_twice. reflexivity.
    + eapply assign_nth. eassumption.
    + rewrite assign_length. assumption.
Qed.

Lemma load_targets_spec (m : NFA) (i : nat) (cur : State) (action : string)
  (ts : list nat) :
  nth_error (states m) i = Some cur ->
  targets_ok (List.length (states m)) ts ->
  ~ In action (map fst (transitions cur)) ->
  load_targets (state_object i) action (exported_targets ts) m
  = Ok (assign m (state_object i)
          (mkState (id cur) (is_final cur)
                   (transitions cur ++ [(action, map state_object ts)]))).
Proof.
  intros Hi [Hts [Hnd Hne]] Hfresh.
  rewrite <- (add_targets_spec action cur ts Hfresh Hnd Hne).
  destruct ts as [|t [|t' ts']]; [congruence| |].
  - cbn [exported_targets load_targets fold_left]. inversion Hts; subst.
    apply load_target_spec; assumption.
  - cbn [exported_targets load_targets]. apply load_list_spec; assumption.
Qed.

Lemma load_eps_spec (m : NFA) (i : nat) (cur : State) (eps : list nat) :
  nth_error (states m) i = Some cur ->
  Forall (fun t => t < List.length (states m)) eps -> NoDup eps -> eps <> [] ->
  ~ In EPSILON (map fst (transitions cur)) ->
  load_targets (state_object i) EPSILON (JList (map state_name eps)) m
  = Ok (assign m (state_object i)
          (mkState (id cur) (is_final cur)
                   (transitions cur ++ [(EPSILON, map state_object eps)]))).
Proof.
  intros Hi Hts Hnd Hne Hfresh.
  rewrite <- (add_targets_spec EPSILON cur eps Hfresh Hnd Hne).
  cbn [load_targets]. apply load_list_spec; assumption.
Qed.

(** The loop over the labelled transitions of one entry of the file. *)
Lemma load_chars (i : nat) (tr : list (NFA_py.label * list nat)) :
  forall (m : NFA) (cur : State) (acts : list string),
    nth_error (states m) i = Some cur ->
    Forall (fun e => builder_label (fst e) /\ targets_ok (List.length (states m)) (snd e)) tr ->
    NoDup (map (fun e : NFA_py.label * list nat => json_key (fst e)) tr) ->
    (forall e, In e tr -> ~ In (json_key (fst e)) (map fst (transitions cur))) ->
    fold_left (fun a kv => bind a (load_action (state_object i) kv))
              (map (fun e : NFA_py.label * list nat =>
                      (json_key (fst e), exported_targets (snd e))) tr)
              (Ok (m, acts))
    = Ok (assign m (state_object i)
            (mkState (id cur) (is_final cur)
                     (transitions cur
                      ++ map (fun e : NFA_py.label * list nat =>
                                (json_key (fst e), map state_object (snd e))) tr)),
          acts ++ map (fun e : NFA_py.label * list nat => json_key (fst e)) tr).
Proof.
  induction tr as [|e tr IH]; intros m cur acts Hi Hok Hnd Hfresh; cbn [map fold_left bind].
  - rewrite !app_nil_r. destruct cur as [ident fin trs]. cbn [id is_final transitions].
    rewrite (assign_same m i _ Hi). reflexivity.
  - inversion Hok as [|? ? [Hl Hts] Hok']; subst. inversion Hnd as [|? ? Hn Hnd']; subst.
    destruct (json_key_not_special (fst e) Hl) as [Hk1 Hk2].
    apply String.eqb_neq in Hk1. apply String.eqb_neq in Hk2.
    unfold load_action at 2. cbn [fst snd]. rewrite Hk1, Hk2.
    rewrite (load_targets_spec m i cur) by (try assumption; apply Hfresh; left; reflexivity).
    cbn [bind].
    rewrite (IH _ (mkState (id cur) (is_final cur)
                           (transitions cur ++ [(json_key (fst e), map state_object (snd e))]))).
    + rewrite assign_twice. cbn [id is_final transitions].
      rewrite <- !app_assoc. reflexivity.
    + eapply assign_nth. eassumption.
    + rewrite assign_length. assumption.
    + assumption.
    + intros e' He'. cbn [transitions]. rewrite map_app, in_app_iff. simpl.
      intros [H|[H|[]]].
      * apply (Hfresh e'); [right; assumption|assumption].
      * apply Hn. rewrite H. apply (in_map (fun e0 : NFA_py.label * list nat => json_key (fst e0))).
        assumption.
Qed.

Lemma parsed_state_eq (st : NFA_py.State) :
  parsed_state st
  = ("isTerminatingState"%string, JBool (NFA_py.is_final st))
      :: map (fun e : NFA_py.label * list nat => (json_key (fst e), exported_targets (snd e)))
             (NFA_py.transitions st)
      ++ match NFA_py.epsilon_transitions st with
         | [] => []
         | eps => [(EPSILON, JList (map state_name eps))]
         end.
Proof.
  unfold parsed_state, exported_state. cbn [map fst snd json_key].
  rewrite map_app, map_map. cbn [fst snd].
  destruct (NFA_py.epsilon_transitions st); reflexivity.
Qed.

(** The second loop of the loader on one entry of the file of a built
    automaton: the state declared for it gets its transitions. *)
Lemma load_entry_spec (m : NFA) (i : nat) (st : NFA_py.State) (acts : list string) :
  nth_error (states m) i = Some (declared_state (i, st)) ->
  state_ok (List.length (states m)) st ->
  load_entry (state_name i, JObject (parsed_state st)) (m, acts)
  = Ok (assign m (state_object i) (reloaded_state (i, st)),
        acts ++ map (fun e : NFA_py.label * list nat => json_key (fst e))
                    (NFA_py.transitions st)).
Proof.
  intros Hi [Htr [Hk [He Hd]]].
  assert (Hlt : i < List.length (states m)) by (apply nth_error_Some; congruence).
  unfold load_entry. cbn [fst snd]. rewrite state_name_not_start.
  rewrite (state_named_state_name m i Hlt). cbn [bind].
  rewrite parsed_state_eq. cbn [fold_left]. unfold load_action at 2. cbn [fst bind].
  change (String.eqb "isTerminatingState" "isTerminatingState") with true. cbv iota.
  rewrite fold_left_app.
  assert (Hkeys : NoDup (map (fun e : NFA_py.label * list nat => json_key (fst e))
                            (NFA_py.transitions st))).
  { pose proof (parsed_keys st _ (conj Htr (conj Hk (conj He Hd)))) as H.
    rewrite parsed_state_eq in H. cbn [map fst] in H. inversion H as [|? ? _ H']; subst.
    rewrite map_app, map_map in H'. cbn [fst] in H'. apply NoDup_app_remove_r in H'.
    exact H'. }
  rewrite (load_chars i _ m (declared_state (i, st)) acts Hi Htr Hkeys)
    by (intros e _ []).
  cbn [declared_state id is_final transitions app fst snd].
  unfold reloaded_state, reloaded_transitions. cbn [fst snd].
  destruct (NFA_py.epsilon_transitions st) as [|t eps] eqn:Eeps.
  - cbn [fold_left]. rewrite app_nil_r. reflexivity.
  - cbn [fold_left]. unfold load_action. cbn [fst snd bind].
    change (String.eqb EPSILON "isTerminatingState") with false.
    change (String.eqb EPSILON EPSILON) with true. cbv iota.
    match goal with
    | |- context [load_targets _ _ _ (assign m (state_object i) ?c)] =>
        rewrite (load_eps_spec (assign m (state_object i) c) i c (t :: eps))
    end.
    + cbn [bind]. rewrite assign_twice. reflexivity.
    + eapply assign_nth. eassumption.
    + rewrite assign_length. assumption.
    + assumption.
    + discriminate.
    + cbn [transitions]. rewrite map_map. cbn [fst]. intros Hin.
      apply in_map_iff in Hin. destruct Hin as [e [Ee Hin]].
      rewrite Forall_forall in Htr. destruct (Htr e Hin) as [Hl _].
      apply json_key_not_special in Hl. tauto.
Qed.

(** The second loop of the loader, on the file of a built automaton. *)
Lemma load_transitions_spec (n : NFA_py.NFA) (start0 : State) (fin0 : option ref) :
  Forall (state_ok (List.length (NFA_py.states n))) (NFA_py.states n) ->
  fold_left (fun acc e => bind acc (load_entry e))
            (map (fun p : nat * NFA_py.State =>
                    (state_name (fst p), JObject (parsed_state (snd p))))
                 (indexed (NFA_py.states n)))
            (Ok (mkNFA (map declared_state (indexed (NFA_py.states n))) start0 fin0, []))
  = Ok (mkNFA (map reloaded_state (indexed (NFA_py.states n))) start0 fin0,
        flat_map (fun st => map (fun e : NFA_py.label * list nat => json_key (fst e))
                                (NFA_py.transitions st))
                 (NFA_py.states n)).
Proof.
  intros Hok. set (idx := indexed (NFA_py.states n)).
  set (mixed := fun (k : nat) (p : nat * NFA_py.State) =>
                  if Nat.ltb (fst p) k then reloaded_state p else declared_state p).
  destruct (fold_counted
              (fun (a : NFA * list string) e => load_entry e a)
              (map (fun p : nat * NFA_py.State =>
                      (state_name (fst p), JObject (parsed_state (snd p)))) idx)
              (fun k a =>
                 states (fst a) = map (mixed k) idx /\
                 start_state (fst a) = start0 /\ final_state (fst a) = fin0 /\
                 snd a = flat_map (fun st => map (fun e : NFA_py.label * list nat =>
                                                    json_key (fst e))
                                                 (NFA_py.transitions st))
                                  (firstn k (NFA_py.states n))))
    with (s0 := (mkNFA (map declared_state idx) start0 fin0, @nil string))
    as [[m acts] [E [Hst [Hstart [Hfin Hacts]]]]].
  - intros k e [m acts] Hk [Hst [Hstart [Hfin Hacts]]]. cbn [fst snd] in *.
    rewrite nth_error_map in Hk.
    destruct (nth_error idx k) as [[i st]|] eqn:Eidx; [|discriminate].
    inversion Hk; subst e; clear Hk.
    pose proof (nth_error_indexed _ _ _ Eidx) as [Hi Hnth]. simpl in Hi, Hnth. subst i.
    assert (Hlen : List.length (states m) = List.length (NFA_py.states n)).
    { rewrite Hst, length_map. apply length_indexed. }
    assert (Hcur : nth_error (states m) k = Some (declared_state (k, st))).
    { rewrite Hst, nth_error_map, Eidx. cbn [option_map]. unfold mixed. cbn [fst].
      rewrite Nat.ltb_irrefl. reflexivity. }
    cbn [fst snd]. rewrite (load_entry_spec m k st acts Hcur).
    + eexists. split; [reflexivity|]. cbn [fst snd]. repeat apply conj.
      * cbn [assign states]. rewrite Hst. apply nth_error_ext. intros j.
        destruct (Nat.eq_dec k j) as [<-|Hne].
        -- rewrite (nth_error_list_set_same _ _ _ (mixed k (k, st)))
             by (rewrite nth_error_map, Eidx; reflexivity).
           rewrite nth_error_map, Eidx. cbn [option_map]. unfold mixed. cbn [fst].
           destruct (Nat.ltb_spec k (S k)); [reflexivity|lia].
        -- rewrite nth_error_list_set_other by assumption. rewrite !nth_error_map.
           destruct (nth_error idx j) as [[j' x]|] eqn:Ej; [|reflexivity].
           apply nth_error_indexed in Ej. destruct Ej as [Ej _]. simpl in Ej. subst j'.
           cbn [option_map]. unfold mixed. cbn [fst].
           destruct (Nat.ltb_spec j k), (Nat.ltb_spec j (S k)); try reflexivity; lia.
      * destruct m; assumption.
      * destruct m; assumption.
      * rewrite Hacts, (firstn_snoc _ _ _ Hnth), flat_map_app. simpl.
        rewrite app_nil_r. reflexivity.
    + rewrite Hlen. rewrite Forall_forall in Hok. apply Hok.
      eapply nth_error_In; eassumption.
  - cbn [fst snd states start_state final_state firstn flat_map]. repeat apply conj;
      reflexivity.
  - match goal with
    | H : fold_left ?F _ _ = Ok (m, acts) |- fold_left ?G _ _ = _ => change G with F; rewrite H
    end.
    cbn [fst snd] in *. rewrite length_map in Hst, Hacts. unfold idx in Hst, Hacts.
    rewrite length_indexed in Hst, Hacts. rewrite firstn_all in Hacts.
    destruct m as [sts st0 fs]. simpl in *. subst.
    assert (Hmap : map (mixed (List.length (NFA_py.states n))) (indexed (NFA_py.states n))
                   = map reloaded_state (indexed (NFA_py.states n))).
    { apply map_ext_in. intros p Hp. unfold mixed.
      assert (Hlt : fst p < List.length (NFA_py.states n)).
      { rewrite <- (firstn_all (indexed (NFA_py.states n))) in Hp.
        rewrite length_indexed in Hp. apply In_firstn_indexed in Hp. tauto. }
      destruct (Nat.ltb_spec (fst p) (List.length (NFA_py.states n))); [reflexivity|lia]. }
    rewrite Hmap. reflexivity.
Qed.

(** Exporting a built automaton and loading the file. *)
Lemma reload_spec (n : NFA_py.NFA) :
  built n ->
  exists s f,
    NFA_py.start_state n = Some s /\ NFA_py.final_state n = Some f /\
    Pipeline.reload n
    = Ok (mkNFA (map reloaded_state (indexed (NFA_py.states n)))
                (mkState (state_name s) false [])
                (Some (state_object f)),
          flat_map (fun st => map (fun e : NFA_py.label * list nat => json_key (fst e))
                                  (NFA_py.transitions st))
                   (NFA_py.states n)).
Proof.
  intros Hb. destruct (to_json_spec n Hb) as [s [Es Ej]].
  destruct Hb as [[Hd Hok] [s' [f [Es' [Ef [Hs [Hf Hone]]]]]]].
  rewrite Es in Es'. inversion Es'; subst s'. exists s, f.
  split; [assumption|]. split; [assumption|].
  unfold Pipeline.reload. rewrite Ej. cbn [bind]. rewrite (json_file_spec n s Hok).
  unfold __load_NFA_json. cbn [dict_get].
  change (String.eqb "startingState" "startingState") with true. cbv iota.
  unfold load_states, load_transitions. cbn [fold_left].
  unfold load_state at 2. cbn [fst].
  change (String.eqb "startingState" "startingState") with true. cbv iota. cbn [bind].
  rewrite (load_states_spec n f _ Hf Hone). cbn [bind].
  unfold load_entry at 2. cbn [fst].
  change (String.eqb "startingState" "startingState") with true. cbv iota. cbn [bind].
  apply load_transitions_spec. assumption.
Qed.

(** X13.  The file of a built automaton: [to_json] raises nothing, and
    writes the name of the start state under [startingState], then one
    entry per state, in the order of the states and named [S0], [S1], ...:
    the flag [isTerminatingState], the labelled transitions in the order
    of the dictionary (one target as a name, several as a list of names),
    and the targets of the epsilon transitions, if any, as a list under the
    key of epsilon. *)
Theorem to_json_of_built (n : NFA_py.NFA) :
  built n ->
  exists s,
    NFA_py.start_state n = Some s /\
    NFA_py.to_json n
    = Ok (("startingState"%string, JName (state_name s))
            :: map (fun p : nat * NFA_py.State =>
                      (state_name (fst p), JObject (exported_state (snd p))))
                   (indexed (NFA_py.states n))).
Proof. apply to_json_spec. Qed.

Lemma restored_reloaded (l : list (nat * NFA_py.State)) :
  Forall2 restored l (map reloaded_state l).
Proof.
  induction l as [|p l IH]; constructor; [|exact IH].
  split; [reflexivity|]. split; [reflexivity|].
  cbn [reloaded_state transitions].
  induction (reloaded_transitions (snd p)) as [|e t IHt]; constructor; [|exact IHt].
  split; [reflexivity|]. intros r. reflexivity.
Qed.

(** X14.  Exporting a built automaton none of whose labels is the key of
    epsilon, and loading the file, gives back its states:
    [__load_NFA_json] raises nothing; the state loaded at position [i] is
    named [S<i>], has the flag of the state exported from position [i] and
    its transitions, the epsilon ones under the key of epsilon, each with
    the same set of targets; [nfa.final_state] is the state loaded for the
    final state; [nfa.start_state] is a new state that has the name of the
    start state and no transition; and [self.actions] lists the labels of
    the states in order, repetitions included, the key of epsilon not
    among them. *)
Theorem reload_restores (n : NFA_py.NFA) :
  built n ->
  (forall st e, In st (NFA_py.states n) -> In e (NFA_py.transitions st) ->
                fst e <> Some EPSILON) ->
  exists s f m,
    NFA_py.start_state n = Some s /\ NFA_py.final_state n = Some f /\
    Pipeline.reload n
    = Ok (m, flat_map (fun st => map (fun e : NFA_py.label * list nat => json_key (fst e))
                                     (NFA_py.transitions st))
                      (NFA_py.states n)) /\
    Forall2 restored (indexed (NFA_py.states n)) (states m) /\
    start_state m = mkState (state_name s) false [] /\
    final_state m = Some (state_object f) /\
    ~ In EPSILON
         (flat_map (fun st => map (fun e : NFA_py.label * list nat => json_key (fst e))
                                  (NFA_py.transitions st))
                   (NFA_py.states n)).
Proof.
  intros Hb Hlabels. destruct (reload_spec n Hb) as [s [f [Es [Ef E]]]].
  exists s, f. eexists. split; [exact Es|]. split; [exact Ef|]. split; [exact E|].
  split; [apply restored_reloaded|]. split; [reflexivity|]. split; [reflexivity|].
  intros Hin. apply in_flat_map in Hin. destruct Hin as [st [Hst Hin]].
  apply in_map_iff in Hin. destruct Hin as [e [He Hin]].
  destruct (fst e) as [l|] eqn:El.
  - apply (Hlabels st e Hst Hin). rewrite El. cbn [json_key] in He. congruence.
  - cbn [json_key] in He. discriminate He.
Qed.

End LoaderFacts.

(** The automaton of [[a-c]x]: a range, then a character. *)
Lemma to_json_of_built_witness :
  exists s,
    NFA_py.start_state
      (match NFA_py.regex_to_nfa "[a-c]x" with Ok n => n | _ => NFA_py.empty_NFA end)
    = Some s /\
    NFA_py.to_json
      (match NFA_py.regex_to_nfa "[a-c]x" with Ok n => n | _ => NFA_py.empty_NFA end)
    = Ok (("startingState"%string, NFA_py.JName (NFA_py.state_name s))
            :: map (fun p : nat * NFA_py.State =>
                      (NFA_py.state_name (fst p),
                       NFA_py.JObject (Vocabulary.exported_state (snd p))))
                   (Vocabulary.indexed
                      (NFA_py.states
                         (match NFA_py.regex_to_nfa "[a-c]x" with
                          | Ok n => n
                          | _ => NFA_py.empty_NFA
                          end)))).
Proof.
  apply to_json_of_built. unfold NFA_py.regex_to_nfa.
  change (RegexCompiler_py.RegularCompiler "[a-c]x")
    with (Ok (RegexCompiler_py.mkExprNode RegexCompiler_py.Root None []
                [[RegexCompiler_py.mkExprNode RegexCompiler_py.CharacterSet None []
                    [[RegexCompiler_py.mkExprNode RegexCompiler_py.Range None
                        [("start"%string, RegexCompiler_py.PInt 97);
                         ("end"%string, RegexCompiler_py.PInt 99)] []]];
                  Vocabulary.literal "x"]])).
  cbn [bind].
  match goal with
  | |- Vocabulary.built (match NFA_py.NFA_of ?node with _ => _ end) =>
      destruct (NFA_of_built node eq_refl) as [n [E Hb]]; rewrite E; exact Hb
  end.
Defined.

Lemma reload_restores_witness :
  exists s f m,
    NFA_py.start_state (NFA_py.basic_fragment (Some "a"%string) NFA_py.empty_NFA) = Some s /\
    NFA_py.final_state (NFA_py.basic_fragment (Some "a"%string) NFA_py.empty_NFA) = Some f /\
    Pipeline.reload (NFA_py.basic_fragment (Some "a"%string) NFA_py.empty_NFA)
    = Ok (m, flat_map (fun st => map (fun e : NFA_py.label * list nat => DFA_py.json_key (fst e))
                                     (NFA_py.transitions st))
                      (NFA_py.states (NFA_py.basic_fragment (Some "a"%string) NFA_py.empty_NFA))) /\
    Forall2 Vocabulary.restored
      (Vocabulary.indexed
         (NFA_py.states (NFA_py.basic_fragment (Some "a"%string) NFA_py.empty_NFA)))
      (DFA_py.states m) /\
    DFA_py.start_state m = DFA_py.mkState (NFA_py.state_name s) false [] /\
    DFA_py.final_state m = Some (DFA_py.state_object f) /\
    ~ In NFA_py.EPSILON
         (flat_map (fun st => map (fun e : NFA_py.label * list nat => DFA_py.json_key (fst e))
                                  (NFA_py.transitions st))
                   (NFA_py.states (NFA_py.basic_fragment (Some "a"%string) NFA_py.empty_NFA))).
Proof.
  apply reload_restores.
  - apply basic_fragment_built. right; left. exists "a"%char. reflexivity.
  - intros st e [<-|[<-|[]]] He; simpl in He; [|destruct He].
    destruct He as [<-|[]]. discriminate.
Defined.


(** ** The automata of the leaves and of the empty alternative *)

Section LeafFacts.
Import RegexCompiler_py NFA_py Vocabulary.

Lemma match_empty_fragment (input_string : string) :
  match_ (empty_fragment empty_NFA) input_string = Ok (String.eqb input_string "").
Proof. destruct input_string; reflexivity. Qed.

Lemma match_basic_fragment (l : label) (input_string : string) :
  (forall c, exists b, label_matches l c = Ok b) ->
  match_ (basic_fragment l empty_NFA) input_string
  = match input_string with
    | String c EmptyString => label_matches l c
    | _ => Ok false
    end.
Proof.
  intros Hl. destruct input_string as [|c rest]; [reflexivity|].
  destruct (Hl c) as [b Hb].
  assert (Hstep : match_ (basic_fragment l empty_NFA) (String c rest)
                  = (taken <- label_matches l c ;;
                     if taken
                     then match rest with
                          | EmptyString => Ok true
                          | _ => Ok false
                          end
                     else Ok false)).
  { unfold match_. cbn [basic_fragment create_state empty_NFA set_endpoints start_state].
    change (match_loop ?n ?cur (String c rest))
      with (next <- next_states n cur c ;;
            current <- _epsilon_closure n next ;;
            match current with
            | [] => Ok false
            | _ => match_loop n current rest
            end).
    match goal with
    | |- (current <- ?cl ;; _) = _ => change cl with (@Ok (list nat) [0])
    end.
    cbn [bind].
    match goal with
    | |- (next <- ?ns ;; _) = _ =>
        change ns with (taken <- label_matches l c ;; Ok (if taken then [1] else []))
    end.
    rewrite Hb. cbn [bind]. destruct b; [|reflexivity].
    destruct rest; reflexivity. }
  rewrite Hstep, Hb. cbn [bind]. destruct b, rest; reflexivity.
Qed.

Lemma NFA_of_leaf (t : NodeType) (v : option string)
  (ps : list (string * ParamValue)) :
  NFA_of (mkExprNode t v ps []) = _build_nfa [] (mkExprNode t v ps []) empty_NFA.
Proof. reflexivity. Qed.

(** X15.  The automata of the leaves: the automaton of a Char node accepts
    the one-character input made of its character and nothing else (the
    dot included, which the builder escapes); the automaton of an Any node
    accepts the inputs of one character; the automaton of a Range node
    accepts the inputs of one character whose code point lies between its
    bounds. *)
Theorem leaves_match (input_string : string) :
  (forall a, (n <- NFA_of (literal a) ;; match_ n input_string)
             = Ok (String.eqb input_string (str1 a))) /\
  (n <- NFA_of (mkExprNode Any None [] []) ;; match_ n input_string)
  = Ok (Nat.eqb (String.length input_string) 1) /\
  (forall lo hi,
      lo < 256 -> hi < 256 ->
      (n <- NFA_of (mkExprNode Range None
                      [(PARAM_RANGE_START, PInt lo); (PARAM_RANGE_END, PInt hi)] []) ;;
       match_ n input_string)
      = Ok match input_string with
           | String c EmptyString =>
               Nat.leb lo (nat_of_ascii c) && Nat.leb (nat_of_ascii c) hi
           | _ => false
           end).
Proof.
  repeat apply conj.
  - intros a. unfold literal. rewrite NFA_of_leaf. unfold _build_nfa.
    cbn [type params dict_get bind _build_basic_node_char value].
    unfold _build_basic_node_char. cbn [value].
    change (option_eqb String.eqb (Some (str1 a)) (Some "."%string))
      with (String.eqb (str1 a) (str1 ".")).
    rewrite str1_eqb. destruct (Ascii.eqb a ".") eqn:Ea.
    + apply Ascii.eqb_eq in Ea. subst a.
      rewrite match_basic_fragment by (intros c; eexists; apply label_matches_escaped_dot).
      destruct input_string as [|c [|c' rest]]; try reflexivity.
      * rewrite label_matches_escaped_dot.
        change (String c EmptyString) with (str1 c). rewrite str1_eqb. reflexivity.
      * unfold str1. cbn [String.eqb]. destruct (Ascii.eqb c "."); reflexivity.
    + rewrite match_basic_fragment by (intros c; eexists; apply label_matches_char).
      destruct input_string as [|c [|c' rest]]; try reflexivity.
      * rewrite label_matches_char, Ea.
        change (String c EmptyString) with (str1 c).
        rewrite str1_eqb, Ascii.eqb_sym. reflexivity.
      * unfold str1. cbn [String.eqb]. destruct (Ascii.eqb c a); reflexivity.
  - rewrite NFA_of_leaf. unfold _build_nfa.
    cbn [type params dict_get bind]. unfold _build_basic_node_any.
    rewrite match_basic_fragment
      by (intros c; exists true; apply (label_matches_char "." c)).
    destruct input_string as [|c [|c' rest]]; reflexivity.
  - intros lo hi Hlo Hhi. rewrite NFA_of_leaf. unfold _build_nfa.
    cbn [type params bind].
    change (_build_basic_node_range _ empty_NFA)
      with (Ok (basic_fragment (Some (range_label (ascii_of_nat lo) (ascii_of_nat hi)))
                               empty_NFA)).
    cbn [bind dict_get String.eqb Ascii.eqb Bool.eqb PARAM_RANGE_START PARAM_RANGE_END].
    rewrite match_basic_fragment by (intros c; eexists; apply label_matches_range).
    destruct input_string as [|c [|c' rest]]; try reflexivity.
    rewrite label_matches_range, !nat_ascii_embedding by assumption. reflexivity.
Qed.

(** X16.  A group, or the root, whose first alternative is empty is built
    as the empty group, whatever alternatives follow it: its automaton
    accepts the empty input and nothing else. *)
Theorem empty_first_alternative (t : NodeType) (v : option string)
  (rest : list (list ExprNode)) (input_string : string) :
  t = Root \/ t = Group ->
  (n <- NFA_of (mkExprNode t v [] ([] :: rest)) ;; match_ n input_string)
  = Ok (String.eqb input_string "").
Proof.
  intros Ht.
  assert (E : NFA_of (mkExprNode t v [] ([] :: rest)) = Ok (empty_fragment empty_NFA))
    by (destruct Ht as [-> | ->]; reflexivity).
  rewrite E. cbn [bind]. apply match_empty_fragment.
Qed.

End LeafFacts.

Lemma leaves_match_witness :
  (n <- NFA_py.NFA_of (Vocabulary.literal ".") ;; NFA_py.match_ n "x") = Ok false /\
  (n <- NFA_py.NFA_of (RegexCompiler_py.mkExprNode RegexCompiler_py.Any None [] []) ;;
   NFA_py.match_ n "x") = Ok true.
Proof.
  split.
  - apply (proj1 (leaves_match "x") "."%char).
  - apply (proj1 (proj2 (leaves_match "x"))).
Defined.

(** [|a] parses to a root whose first alternative is empty: its automaton
    refuses [a]. *)
Lemma empty_first_alternative_witness :
  RegexCompiler_py.RegularCompiler "|a"
  = Ok (RegexCompiler_py.mkExprNode RegexCompiler_py.Root None []
          [[]; [Vocabulary.literal "a"]]) /\
  (n <- NFA_py.NFA_of (RegexCompiler_py.mkExprNode RegexCompiler_py.Root None []
                         [[]; [Vocabulary.literal "a"]]) ;;
   NFA_py.match_ n "a") = Ok false.
Proof.
  split; [reflexivity|].
  apply (empty_first_alternative RegexCompiler_py.Root None [[Vocabulary.literal "a"]] "a").
  left. reflexivity.
Defined.


(** ** How the automata compose *)

Section EdgeFacts.
Import NFA_py Vocabulary.

Lemma fold_adds {A B X : Type} (f : A -> B -> A) (holds : A -> X -> Prop)
  (item : B -> X -> Prop) :
  (forall a b x, holds (f a b) x <-> holds a x \/ item b x) ->
  forall l a x, holds (fold_left f l a) x <-> holds a x \/ exists b, In b l /\ item b x.
Proof.
  intros Hf. induction l as [|b l IH]; intros a x; simpl.
  - split; [auto|]. intros [H|[b [[] _]]]. assumption.
  - rewrite IH, Hf. split.
    + intros [[H|H]|[b' [Hin H]]]; [auto| |].
      * right. exists b. auto.
      * right. exists b'. auto.
    + intros [H|[b' [[<-|Hin] H]]]; [auto|auto|]. right. exists b'. auto.
Qed.

Lemma edge_dict_set (l0 : label) (t0 : nat) (tr : list (label * list nat)) (l : label)
  (t : nat) :
  (exists ts, In (l, ts)
                 (dict_set label_eqb l0
                    (set_add Nat.eqb t0 match dict_get label_eqb l0 tr with
                                        | Some ts0 => ts0
                                        | None => []
                                        end) tr) /\ In t ts)
  <-> (exists ts, In (l, ts) tr /\ In t ts) \/ (l = l0 /\ t = t0).
Proof.
  induction tr as [|[k v] tr IH]; simpl.
  - split.
    + intros [ts [[E|[]] Ht]]. inversion E; subst. destruct Ht as [<-|[]]. auto.
    + intros [[ts [[] _]]|[-> ->]]. exists [t0]. simpl. auto.
  - destruct (label_eqb l0 k) eqn:E.
    + apply label_eqb_eq in E. subst k. simpl. split.
      * intros [ts [[Eq|Hin] Ht]].
        -- inversion Eq; subst. apply (set_add_In Nat.eqb Nat.eqb_eq) in Ht.
           destruct Ht as [Ht| ->]; [|auto]. left. exists v. auto.
        -- left. exists ts. auto.
      * intros [[ts [[Eq|Hin] Ht]]|[-> ->]].
        -- inversion Eq; subst. exists (set_add Nat.eqb t0 ts). split; [auto|].
           apply (set_add_In Nat.eqb Nat.eqb_eq). auto.
        -- exists ts. auto.
        -- exists (set_add Nat.eqb t0 v). split; [auto|].
           apply (set_add_In Nat.eqb Nat.eqb_eq). auto.
    + simpl. split.
      * intros [ts [[Eq|Hin] Ht]].
        -- left. exists ts. auto.
        -- destruct (proj1 IH (ex_intro _ ts (conj Hin Ht))) as [[ts' [H1 H2]]|H]; [|auto].
           left. exists ts'. auto.
      * intros [[ts [[Eq|Hin] Ht]]|H].
        -- exists ts. auto.
        -- destruct (proj2 IH (or_introl (ex_intro _ ts (conj Hin Ht)))) as [ts' [H1 H2]].
           exists ts'. auto.
        -- destruct (proj2 IH (or_intror H)) as [ts' [H1 H2]]. exists ts'. auto.
Qed.

Lemma edge_add_transition (l0 : label) (t0 : nat) (s : State) (l : label) (t : nat) :
  edge (add_transition l0 t0 s) l t <-> edge s l t \/ (l = l0 /\ t = t0).
Proof. unfold edge, add_transition. simpl. apply edge_dict_set. Qed.

Lemma eps_add_epsilon (t0 : nat) (s : State) (t : nat) :
  In t (epsilon_transitions (add_epsilon_transition t0 s))
  <-> In t (epsilon_transitions s) \/ t = t0.
Proof. simpl. apply (set_add_In Nat.eqb Nat.eqb_eq). Qed.

Lemma copy_entry_edges (off size : nat) (l0 : label) (ts : list nat) (s : State)
  (l : label) (t : nat) :
  edge (fold_left (fun acc' target =>
                     if Nat.ltb target size then add_transition l0 (off + target) acc'
                     else acc')
                  ts s) l t
  <-> edge s l t \/ (l = l0 /\ exists t0, In t0 ts /\ t0 < size /\ t = off + t0).
Proof.
  assert (Hstep : forall (a : State) (t0 : nat) (x : label * nat),
             edge (if Nat.ltb t0 size then add_transition l0 (off + t0) a else a)
                  (fst x) (snd x)
             <-> edge a (fst x) (snd x) \/ (fst x = l0 /\ t0 < size /\ snd x = off + t0)).
  { intros a t0 x. destruct (Nat.ltb_spec t0 size).
    - rewrite edge_add_transition. tauto.
    - intuition lia. }
  rewrite (fold_adds
             (fun acc' target => if Nat.ltb target size
                                 then add_transition l0 (off + target) acc' else acc')
             (fun a (x : label * nat) => edge a (fst x) (snd x))
             (fun t0 (x : label * nat) => fst x = l0 /\ t0 < size /\ snd x = off + t0)
             Hstep ts s (l, t)).
  cbn [fst snd]. split.
  - intros [H|[t0 [Hin [El [Hlt Et]]]]]; [auto|]. right. split; [assumption|]. exists t0. auto.
  - intros [H|[El [t0 [Hin [Hlt Et]]]]]; [auto|]. right. exists t0. auto.
Qed.

(** The transitions of a copied state: those of the state it is copied
    onto, and those of the original, shifted. *)
Lemma copy_edges (off size : nat) (old new : State) :
  state_ok size old ->
  (forall l t, edge (copy_transitions off size old new) l t
               <-> edge new l t \/ exists t0, t = off + t0 /\ edge old l t0) /\
  (forall t, In t (epsilon_transitions (copy_transitions off size old new))
             <-> In t (epsilon_transitions new) \/
                 exists t0, t = off + t0 /\ In t0 (epsilon_transitions old)) /\
  id (copy_transitions off size old new) = id new /\
  is_final (copy_transitions off size old new) = is_final new.
Proof.
  intros [Htr [_ [He _]]]. unfold copy_transitions.
  set (with_chars := fold_left _ (transitions old) new).
  assert (Hedges : forall l t, edge with_chars l t
                               <-> edge new l t \/ exists t0, t = off + t0 /\ edge old l t0).
  { intros l t. unfold with_chars.
    rewrite (fold_adds
               (fun acc (entry : label * list nat) =>
                  fold_left (fun acc' target =>
                               if Nat.ltb target size
                               then add_transition (fst entry) (off + target) acc'
                               else acc')
                            (snd entry) acc)
               (fun a (x : label * nat) => edge a (fst x) (snd x))
               (fun (entry : label * list nat) (x : label * nat) =>
                  fst x = fst entry /\
                  exists t0, In t0 (snd entry) /\ t0 < size /\ snd x = off + t0)
               (fun a entry x => copy_entry_edges off size (fst entry) (snd entry) a
                                   (fst x) (snd x))
               (transitions old) new (l, t)).
    cbn [fst snd]. split.
    - intros [H|[entry [Hin [El [t0 [Ht0 [_ Et]]]]]]]; [auto|].
      right. exists t0. split; [assumption|]. exists (snd entry).
      destruct entry as [l' ts]. simpl in *. subst l'. auto.
    - intros [H|[t0 [Et [ts [Hin Ht0]]]]]; [auto|].
      right. exists (l, ts). split; [assumption|]. split; [reflexivity|].
      exists t0. simpl. repeat split; auto.
      rewrite Forall_forall in Htr. destruct (Htr _ Hin) as [_ [Hts _]].
      rewrite Forall_forall in Hts. apply Hts. assumption. }
  assert (Heps : epsilon_transitions with_chars = epsilon_transitions new).
  { unfold with_chars.
    apply (fold_left_invariant (fun s => epsilon_transitions s = epsilon_transitions new));
      [|reflexivity].
    intros acc entry Hacc.
    apply (fold_left_invariant (fun s => epsilon_transitions s = epsilon_transitions new));
      [|assumption].
    intros acc' target Hacc'. destruct (Nat.ltb target size); assumption. }
  assert (Htrans : transitions (fold_left
                      (fun acc target =>
                         if Nat.ltb target size
                         then add_epsilon_transition (off + target) acc else acc)
                      (epsilon_transitions old) with_chars) = transitions with_chars).
  { apply (fold_left_invariant (fun s => transitions s = transitions with_chars));
      [|reflexivity].
    intros acc target Hacc. destruct (Nat.ltb target size); assumption. }
  repeat apply conj.
  - intros l t. rewrite <- Hedges. unfold edge. rewrite Htrans. reflexivity.
  - intros t.
    assert (Hstep : forall (a : State) (t0 x : nat),
               In x (epsilon_transitions
                       (if Nat.ltb t0 size then add_epsilon_transition (off + t0) a else a))
               <-> In x (epsilon_transitions a) \/ (t0 < size /\ x = off + t0)).
    { intros a t0 x. destruct (Nat.ltb_spec t0 size).
      - rewrite eps_add_epsilon. tauto.
      - intuition lia. }
    rewrite (fold_adds
               (fun acc target => if Nat.ltb target size
                                  then add_epsilon_transition (off + target) acc else acc)
               (fun a x => In x (epsilon_transitions a))
               (fun t0 x => t0 < size /\ x = off + t0)
               Hstep).
    rewrite Heps. split.
    + intros [H|[t0 [Hin [_ Et]]]]; [auto|]. right. exists t0. auto.
    + intros [H|[t0 [Et Hin]]]; [auto|]. right. exists t0. repeat split; auto.
      rewrite Forall_forall in He. apply He. assumption.
  - apply copy_transitions_frame.
  - apply copy_transitions_frame.
Qed.

End EdgeFacts.

(** *** The states of a concatenation *)

Section ChainFacts.
Import NFA_py Vocabulary.

Lemma update_in_segment (pre seg post : list State) (f : nat) (c : State)
  (g : State -> State) (n : NFA) :
  states n = pre ++ seg ++ post -> nth_error seg f = Some c ->
  states (update_state (List.length pre + f) g n) = pre ++ list_set f (g c) seg ++ post.
Proof.
  intros Hn Hc. rewrite update_state_states, Hn.
  assert (Hlt : f < List.length seg) by (apply nth_error_Some; congruence).
  rewrite nth_error_app2 by lia.
  replace (List.length pre + f - List.length pre) with f by lia.
  rewrite nth_error_app1 by assumption. rewrite Hc.
  rewrite list_set_app_r, list_set_app_l by assumption. reflexivity.
Qed.

Lemma combine_seq_shift {B : Type} (h : nat * State -> B) (off : nat) (l : list State) :
  forall base,
    map h (combine (seq (off + base) (List.length l)) l)
    = map (fun q => h (off + fst q, snd q)) (combine (seq base (List.length l)) l).
Proof.
  induction l as [|a l IH]; intros base; [reflexivity|].
  cbn [List.length seq combine map fst snd]. f_equal.
  rewrite <- IH. rewrite Nat.add_succ_r. reflexivity.
Qed.

Lemma combine_append {B C : Type} (a : list B) (c : list C) (b : list B) (d : list C) :
  List.length a = List.length c -> combine (a ++ b) (c ++ d) = combine a c ++ combine b d.
Proof.
  revert c. induction a as [|x a IH]; intros [|y c] H; simpl in *; try discriminate;
    [reflexivity|]. f_equal. apply IH. congruence.
Qed.

(** The loop over the states of one sub-automaton, on the part of the state
    list that holds them. *)
Lemma update_segment (off : nat) (g : nat -> State -> State -> State)
  (h : nat * State -> State) (l : list State) :
  forall base pre post n,
    states n = pre ++ map h (combine (seq base (List.length l)) l) ++ post ->
    List.length pre = off + base ->
    states (fold_left (fun acc (q : nat * State) =>
                         update_state (off + fst q) (g (fst q) (snd q)) acc)
                      (combine (seq base (List.length l)) l) n)
    = pre ++ map (fun q => g (fst q) (snd q) (h q)) (combine (seq base (List.length l)) l)
          ++ post.
Proof.
  induction l as [|a l IH]; intros base pre post n Hn Hpre; [exact Hn|].
  cbn [List.length seq combine map fold_left fst snd] in *.
  rewrite (IH (S base) (pre ++ [g base a (h (base, a))]) post).
  - rewrite <- app_assoc. reflexivity.
  - rewrite <- Hpre.
    replace (List.length pre) with (List.length pre + 0) at 1 by lia.
    rewrite (update_in_segment pre [h (base, a)]
               (map h (combine (seq (S base) (List.length l)) l) ++ post) 0 (h (base, a)));
      [rewrite <- app_assoc; reflexivity|exact Hn|reflexivity].
  - rewrite length_app. simpl. lia.
Qed.

Lemma fresh_flat (F : nat * State -> State) (subs : list NFA) :
  forall base,
    map F (combine (seq base (List.length (flat_map states subs))) (flat_map states subs))
    = flat_map (fun p : nat * NFA =>
                  map (fun q => F (fst p + fst q, snd q)) (indexed (states (snd p))))
               (combine (offsets base subs) subs).
Proof.
  induction subs as [|sub subs IH]; intros base; [reflexivity|].
  cbn [flat_map offsets combine fst snd]. rewrite length_app, seq_app.
  rewrite combine_append by apply length_seq. rewrite map_app. f_equal.
  - unfold indexed. rewrite <- combine_seq_shift. rewrite Nat.add_0_r. reflexivity.
  - apply IH.
Qed.

Lemma copy_all (subs : list NFA) :
  forall base pre n,
    states n
    = pre ++ flat_map (fun p : nat * NFA =>
                         map (fun q : nat * State =>
                                mkState (fst p + fst q) (is_final (snd q)) [] [])
                             (indexed (states (snd p))))
                      (combine (offsets base subs) subs) ->
    List.length pre = base ->
    states (fold_left (fun acc (p : nat * NFA) =>
                         let (off, sub) := p in
                         fold_left (fun acc' (q : nat * State) =>
                                      update_state (off + fst q)
                                        (copy_transitions off (List.length (states sub)) (snd q))
                                        acc')
                                   (combine (seq 0 (List.length (states sub))) (states sub)) acc)
                      (combine (offsets base subs) subs) n)
    = pre ++ flat_map (fun p : nat * NFA =>
                         map (fun q : nat * State =>
                                copied (fst p) (List.length (states (snd p))) (fst q) (snd q))
                             (indexed (states (snd p))))
                      (combine (offsets base subs) subs).
Proof.
  induction subs as [|sub subs IH]; intros base pre n Hn Hpre; [exact Hn|].
  cbn [offsets combine flat_map fold_left fst snd] in *.
  rewrite (IH (base + List.length (states sub))
              (pre ++ map (fun q : nat * State =>
                             copied base (List.length (states sub)) (fst q) (snd q))
                          (indexed (states sub)))).
  - rewrite <- app_assoc. reflexivity.
  - rewrite <- app_assoc.
    apply (update_segment base
             (fun _ old => copy_transitions base (List.length (states sub)) old)
             (fun q => mkState (base + fst q) (is_final (snd q)) [] [])
             (states sub) 0 pre).
    + exact Hn.
    + lia.
  - rewrite length_app, length_map, length_indexed. lia.
Qed.

Lemma list_set_indexed (G : State -> State) (h : nat * State -> State) (l : list State) :
  forall base f a,
    nth_error l f = Some a ->
    list_set f (G (h (base + f, a))) (map h (combine (seq base (List.length l)) l))
    = map (fun q => if Nat.eqb (fst q) (base + f) then G (h q) else h q)
          (combine (seq base (List.length l)) l).
Proof.
  induction l as [|x l IH]; intros base [|f] a H; simpl in H; try discriminate.
  - inversion H; subst. cbn [List.length seq combine map list_set fst].
    rewrite Nat.add_0_r, Nat.eqb_refl. f_equal.
    apply map_ext_in. intros [i y] Hin. apply In_combine_nth_error in Hin.
    cbn [fst]. destruct (Nat.eqb_spec i base); [lia|reflexivity].
  - cbn [List.length seq combine map list_set fst].
    destruct (Nat.eqb_spec base (base + S f)); [lia|]. f_equal.
    replace (base + S f) with (S base + f) by lia. apply IH. assumption.
Qed.

(** The loop that chains the sub-automata, on the copies. *)
Lemma connect_chained (subs : list NFA) :
  forall base pre n,
    Forall built subs ->
    states n
    = pre ++ flat_map (fun p : nat * NFA =>
                         map (fun q : nat * State =>
                                copied (fst p) (List.length (states (snd p))) (fst q) (snd q))
                             (indexed (states (snd p))))
                      (combine (offsets base subs) subs) ->
    List.length pre = base ->
    exists n', connect (combine (offsets base subs) subs) n = Ok n' /\
               states n' = pre ++ chained base subs /\
               start_state n' = start_state n.
Proof.
  induction subs as [|sub subs IH]; intros base pre n Hb Hn Hpre;
    [exists n; auto|].
  inversion Hb as [|? ? Hsub Hrest]; subst.
  destruct Hsub as [_ [s [f [Es [Ef [Hs_lt [Hf_lt Hone]]]]]]].
  destruct subs as [|sub' rest].
  - exists n. split; [reflexivity|]. split; [exact Hn|reflexivity].
  - set (subs' := sub' :: rest) in *.
    change (combine (offsets (List.length pre) (sub :: subs')) (sub :: subs'))
      with ((List.length pre, sub)
              :: combine (offsets (List.length pre + List.length (states sub)) subs') subs')
      in *.
    set (base' := List.length pre + List.length (states sub)) in *.
    set (placed := combine (offsets base' subs') subs') in *.
    assert (Hpl : placed = (base', sub')
                             :: combine (offsets (base' + List.length (states sub')) rest) rest)
      by reflexivity.
    inversion Hrest as [|? ? Hsub' _]; subst.
    destruct Hsub' as [_ [s' [f' [Es' [_ [Hs'_lt _]]]]]].
    rewrite (connect_cons _ _ _ _ _ _ _ Hpl). rewrite Ef, Es'. cbn [state_map bind].
    cbn [flat_map fst snd] in Hn.
    destruct (nth_error (states sub) f) as [a|] eqn:Ea;
      [|apply nth_error_None in Ea; lia].
    set (seg := map (fun q : nat * State =>
                       copied (List.length pre) (List.length (states sub)) (fst q) (snd q))
                    (indexed (states sub))) in *.
    assert (Hc : nth_error seg f
                 = Some (copied (List.length pre) (List.length (states sub)) f a)).
    { unfold seg, indexed. rewrite nth_error_map, nth_error_combine_seq, Ea. reflexivity. }
    set (n1 := update_state (List.length pre + f) (set_is_final false) n).
    assert (H1 : states n1 = pre ++ list_set f (set_is_final false
                   (copied (List.length pre) (List.length (states sub)) f a)) seg
                   ++ flat_map (fun p : nat * NFA =>
                         map (fun q : nat * State =>
                                copied (fst p) (List.length (states (snd p))) (fst q) (snd q))
                             (indexed (states (snd p)))) placed).
    { apply update_in_segment; assumption. }
    set (n2 := update_state (List.length pre + f) (add_epsilon_transition (base' + s')) n1).
    assert (H2 : states n2
                 = pre ++ list_set f (add_epsilon_transition (base' + s')
                            (set_is_final false
                               (copied (List.length pre) (List.length (states sub)) f a))) seg
                   ++ flat_map (fun p : nat * NFA =>
                         map (fun q : nat * State =>
                                copied (fst p) (List.length (states (snd p))) (fst q) (snd q))
                             (indexed (states (snd p)))) placed).
    { unfold n2.
      rewrite (update_in_segment pre _ _ f _ _ n1 H1
                 (nth_error_list_set_same seg f _ _ Hc)).
      rewrite list_set_twice. reflexivity. }
    destruct (IH base' (pre ++ list_set f (add_epsilon_transition (base' + s')
                            (set_is_final false
                               (copied (List.length pre) (List.length (states sub)) f a))) seg)
                 n2 Hrest)
      as [n' [E1 [E2 E3]]].
    + rewrite <- app_assoc. exact H2.
    + rewrite length_app, length_list_set. unfold seg.
      rewrite length_map, length_indexed. reflexivity.
    + exists n'. split; [exact E1|]. split.
      * rewrite E2, <- app_assoc. f_equal. cbn [chained]. fold base'. f_equal.
        unfold seg, indexed.
        pose proof (list_set_indexed
                   (fun st => add_epsilon_transition (base' + s') (set_is_final false st))
                   (fun q => copied (List.length pre) (List.length (states sub)) (fst q) (snd q))
                   (states sub) 0 f a Ea) as HL.
        cbn [fst snd Nat.add] in HL. rewrite HL.
        apply map_ext. intros q. unfold linked, subs'. rewrite Ef, Es'. reflexivity.
      * rewrite E3. unfold n2, n1. rewrite !update_state_start. reflexivity.
Qed.

Lemma sequence_map_Ok {A : Type} (l : list A) : sequence (map Ok l) = Ok l.
Proof. induction l as [|a l IH]; simpl; [reflexivity|]. rewrite IH. reflexivity. Qed.

(** The states of a concatenation, and its start state. *)
Lemma concatenation_shape (sub0 : NFA) (rest : list NFA) :
  Forall built (sub0 :: rest) ->
  exists n s0,
    _build_concatenation (map Ok (sub0 :: rest)) empty_NFA = Ok n /\ built n /\
    states n = chained 0 (sub0 :: rest) /\
    start_state sub0 = Some s0 /\ start_state n = Some s0.
Proof.
  intros Hsubs.
  destruct (build_concatenation_built (map Ok (sub0 :: rest))) as [n [E Hbuilt]].
  { apply Forall_map. eapply Forall_impl; [|exact Hsubs]. intros a Ha. exists a. auto. }
  assert (Hsub0 : built sub0) by (inversion Hsubs; assumption).
  destruct Hsub0 as [_ [s0 [f0 [Es0 _]]]].
  exists n, s0. split; [exact E|]. split; [exact Hbuilt|].
  revert E. unfold _build_concatenation. cbn [map].
  change (sequence (Ok sub0 :: map Ok rest)) with (sequence (map Ok (sub0 :: rest))).
  rewrite sequence_map_Ok. cbn [bind].
  set (subs := sub0 :: rest) in *.
  cbn [empty_NFA states next_state_id start_state final_state final_states
       List.length app Nat.add].
  set (placed := combine (offsets 0 subs) subs).
  set (n1 := mkNFA _ None None _ []).
  set (n2 := fold_left _ placed n1).
  assert (H2 : states n2
               = [] ++ flat_map (fun p : nat * NFA =>
                         map (fun q : nat * State =>
                                copied (fst p) (List.length (states (snd p))) (fst q) (snd q))
                             (indexed (states (snd p)))) placed).
  { apply copy_all; [|reflexivity]. unfold n1. cbn [states app].
    rewrite (fresh_flat (fun p => mkState (fst p) (is_final (snd p)) [] [])).
    reflexivity. }
  unfold placed at 1. unfold subs at 1 2. cbn [offsets combine].
  rewrite Es0. cbn [state_map bind Nat.add].
  set (n3 := set_endpoints (Some s0) (final_state n2) n2).
  destruct (connect_chained subs 0 [] n3 Hsubs H2 eq_refl) as [n4 [C1 [C2 C3]]].
  fold placed in C1. rewrite C1. cbn [bind].
  destruct (last placed (0, sub0)) as [offl subl].
  destruct (final_state subl) as [fl|]; cbn [state_map bind]; [|discriminate].
  intros E. inversion E; subst n.
  cbn [set_final_states set_endpoints states start_state].
  split; [exact C2|]. split; [reflexivity|]. exact C3.
Qed.

End ChainFacts.

(** *** Paths *)

Section PathFacts.
Import NFA_py Vocabulary.

Lemma string_app_nil_r (s : string) : (s ++ "")%string = s.
Proof. induction s as [|c s IH]; simpl; [reflexivity|]. rewrite IH. reflexivity. Qed.

Lemma reads_app (n : NFA) (x y : nat) (s1 : string) :
  reads n x s1 y -> forall s2 z, reads n y s2 z -> reads n x (s1 ++ s2) z.
Proof.
  induction 1 as [x|x y z s He Hr IH|x y z c s Hc Hr IH]; intros s2 z' H2; simpl.
  - assumption.
  - eapply reads_eps; [eassumption|]. apply IH. assumption.
  - eapply reads_char; [eassumption|]. apply IH. assumption.
Qed.

Lemma char_step_edge (n : NFA) (c : ascii) (x y : nat) :
  char_step n c x y
  <-> exists st l, nth_error (states n) x = Some st /\ edge st l y /\
                   label_matches l c = Ok true.
Proof.
  unfold char_step, edge. split.
  - intros [st [[l ts] [E [Hin [Hm Hy]]]]]. exists st, l. simpl in *. eauto.
  - intros [st [l [E [[ts [Hin Hy]] Hm]]]]. exists st, (l, ts). simpl. auto.
Qed.

(** The inputs an automaton with one final state accepts are those read
    from its start state to that state. *)
Lemma accepts_reads (n : NFA) (s f : nat) (w : string) :
  start_state n = Some s -> f < List.length (states n) ->
  one_hot (map is_final (states n)) f ->
  (accepts n w <-> reads n s w f).
Proof.
  intros Es Hf Hone. unfold accepts. split.
  - intros [s' [z [st [E [Hr [Ez Hfin]]]]]]. rewrite Es in E. inversion E; subst s'.
    assert (Hz : nth_error (map is_final (states n)) z = Some true)
      by (rewrite nth_error_map, Ez; simpl; congruence).
    apply Hone in Hz. rewrite <- (proj1 Hz eq_refl). assumption.
  - intros Hr. destruct (nth_error (states n) f) as [st|] eqn:E;
      [|apply nth_error_None in E; lia].
    exists s, f, st. repeat split; try assumption.
    assert (Hz : nth_error (map is_final (states n)) f = Some (is_final st))
      by (rewrite nth_error_map, E; reflexivity).
    apply Hone in Hz. apply Hz. reflexivity.
Qed.

Lemma built_state (n : NFA) (i : nat) (st : State) :
  built n -> nth_error (states n) i = Some st -> state_ok (List.length (states n)) st.
Proof.
  intros [[_ Hall] _] E. rewrite Forall_forall in Hall. apply Hall.
  eapply nth_error_In. eassumption.
Qed.

Lemma state_ok_eps (size : nat) (st : State) (t : nat) :
  state_ok size st -> In t (epsilon_transitions st) -> t < size.
Proof.
  intros [_ [_ [He _]]] H. rewrite Forall_forall in He. apply He. assumption.
Qed.

Lemma state_ok_edge (size : nat) (st : State) (l : label) (t : nat) :
  state_ok size st -> edge st l t -> t < size.
Proof.
  intros [Htr _] [ts [Hin Ht]]. rewrite Forall_forall in Htr.
  destruct (Htr _ Hin) as [_ [Hts _]]. rewrite Forall_forall in Hts. apply Hts. assumption.
Qed.

(** The transitions of a copy are those of the original, shifted. *)
Lemma copied_spec (off size i : nat) (st : State) :
  state_ok size st ->
  (forall l t, edge (copied off size i st) l t <-> exists t0, t = off + t0 /\ edge st l t0) /\
  (forall t, In t (epsilon_transitions (copied off size i st))
             <-> exists t0, t = off + t0 /\ In t0 (epsilon_transitions st)) /\
  is_final (copied off size i st) = is_final st.
Proof.
  intros Hok. unfold copied.
  destruct (copy_edges off size st (mkState (off + i) (is_final st) [] []) Hok)
    as (H1 & H2 & _ & H4).
  split; [|split].
  - intros l t. rewrite H1. split; [|auto].
    intros [[ts [[] _]]|H]. assumption.
  - intros t. rewrite H2. split; [|auto]. intros [[]|H]. assumption.
  - exact H4.
Qed.

Lemma linked_edges (off : nat) (sub : NFA) (rest : list NFA) (i : nat) (st : State)
  (l : label) (t : nat) :
  edge (linked off sub rest i st) l t <-> edge st l t.
Proof.
  unfold linked. destruct rest as [|next rest']; [reflexivity|].
  destruct (final_state sub) as [f|]; [|reflexivity].
  destruct (start_state next) as [s|]; [|reflexivity].
  destruct (Nat.eqb i f); reflexivity.
Qed.

Lemma linked_eps (off : nat) (sub : NFA) (rest : list NFA) (i : nat) (st : State)
  (t : nat) :
  In t (epsilon_transitions (linked off sub rest i st))
  <-> In t (epsilon_transitions st) \/
      exists next rest' s,
        rest = next :: rest' /\ final_state sub = Some i /\ start_state next = Some s /\
        t = off + List.length (states sub) + s.
Proof.
  unfold linked. destruct rest as [|next rest'].
  - split; [auto|]. intros [H|(next & rest' & s & E & _)]; [assumption|discriminate].
  - destruct (final_state sub) as [f|] eqn:Ef.
    + destruct (start_state next) as [s|] eqn:Es0.
      * destruct (Nat.eqb_spec i f) as [->|Hne].
        -- rewrite eps_add_epsilon. cbn [set_is_final epsilon_transitions]. split.
           ++ intros [H| ->]; [auto|]. right. exists next, rest', s.
              repeat split; assumption.
           ++ intros [H|(next' & rest'' & s' & E & _ & Es & ->)]; [auto|].
              inversion E; subst. right. congruence.
        -- split; [auto|]. intros [H|(next' & rest'' & s' & _ & E & _)]; [assumption|].
           congruence.
      * split; [auto|]. intros [H|(next' & rest'' & s' & E & _ & Es & _)]; [assumption|].
        inversion E; subst. congruence.
    + split; [auto|]. intros [H|(next' & rest'' & s' & _ & E & _)]; [assumption|].
      discriminate.
Qed.

Lemma nth_chained (pre : list NFA) :
  forall base sub post i st,
    nth_error (states sub) i = Some st ->
    nth_error (chained base (pre ++ sub :: post)) (List.length (flat_map states pre) + i)
    = Some (linked (base + List.length (flat_map states pre)) sub post i
              (copied (base + List.length (flat_map states pre))
                      (List.length (states sub)) i st)).
Proof.
  induction pre as [|a pre IH]; intros base sub post i st E.
  - cbn [app flat_map List.length Nat.add chained]. rewrite Nat.add_0_r.
    assert (Hlt : i < List.length (states sub)) by (apply nth_error_Some; congruence).
    rewrite nth_error_app1 by (rewrite length_map, length_indexed; assumption).
    unfold indexed. rewrite nth_error_map, nth_error_combine_seq, E. reflexivity.
  - cbn [app flat_map chained]. rewrite length_app.
    rewrite nth_error_app2 by (rewrite length_map, length_indexed; lia).
    rewrite length_map, length_indexed.
    replace (List.length (states a) + List.length (flat_map states pre) + i
             - List.length (states a))
      with (List.length (flat_map states pre) + i) by lia.
    rewrite (IH _ _ _ _ _ E). rewrite Nat.add_assoc. reflexivity.
Qed.

End PathFacts.

(** *** The inputs a concatenation accepts *)

Section ConcatenationPaths.
Import NFA_py Vocabulary.
Variable subs : list NFA.
Variable N : NFA.
Hypothesis Hsubs : Forall built subs.
Hypothesis HN : states N = chained 0 subs.

Lemma located_built (pre post : list NFA) (sub : NFA) :
  subs = pre ++ sub :: post -> built sub.
Proof.
  intros E. rewrite Forall_forall in Hsubs. apply Hsubs. rewrite E.
  apply in_or_app. right. left. reflexivity.
Qed.

Lemma located_state (pre post : list NFA) (sub : NFA) (i : nat) (st : State) :
  subs = pre ++ sub :: post -> nth_error (states sub) i = Some st ->
  nth_error (states N) (List.length (flat_map states pre) + i)
  = Some (linked (List.length (flat_map states pre)) sub post i
            (copied (List.length (flat_map states pre)) (List.length (states sub)) i st)).
Proof. intros E Hi. rewrite HN, E. apply (nth_chained pre 0). assumption. Qed.

(** A path of a sub-automaton is a path of the concatenation. *)
Lemma located_path (pre post : list NFA) (sub : NFA) :
  subs = pre ++ sub :: post ->
  forall i w j, reads sub i w j -> i < List.length (states sub) ->
    reads N (List.length (flat_map states pre) + i) w
          (List.length (flat_map states pre) + j).
Proof.
  intros E. pose proof (located_built _ _ _ E) as Hb.
  induction 1 as [x|x y z s [st [Ex Hy]] Hr IH|x y z c s Hc Hr IH]; intros Hlt.
  - constructor.
  - pose proof (built_state _ _ _ Hb Ex) as Hok.
    apply reads_eps with (List.length (flat_map states pre) + y).
    + eexists. split; [apply (located_state _ _ _ _ _ E Ex)|].
      apply linked_eps. left. apply (copied_spec _ _ _ _ Hok). exists y. auto.
    + apply IH. eapply state_ok_eps; eassumption.
  - apply char_step_edge in Hc. destruct Hc as [st [l [Ex [He Hm]]]].
    pose proof (built_state _ _ _ Hb Ex) as Hok.
    apply reads_char with (List.length (flat_map states pre) + y).
    + apply char_step_edge. eexists. exists l.
      split; [apply (located_state _ _ _ _ _ E Ex)|]. split; [|assumption].
      apply linked_edges. apply (copied_spec _ _ _ _ Hok). exists y. auto.
    + apply IH. eapply state_ok_edge; eassumption.
Qed.

Lemma length_flat_snoc (pre : list NFA) (sub : NFA) :
  List.length (flat_map states (pre ++ [sub]))
  = List.length (flat_map states pre) + List.length (states sub).
Proof. rewrite flat_map_app, length_app. simpl. rewrite app_nil_r. reflexivity. Qed.

Lemma concatenation_complete (post : list NFA) :
  forall pre sub w,
    subs = pre ++ sub :: post -> splits (sub :: post) w ->
    exists s0 z stz,
      start_state sub = Some s0 /\
      reads N (List.length (flat_map states pre) + s0) w z /\
      nth_error (states N) z = Some stz /\ is_final stz = true.
Proof.
  induction post as [|next post IH]; intros pre sub w E (s1 & s2 & -> & Hacc & Hrest).
  - simpl in Hrest. subst s2. rewrite string_app_nil_r.
    pose proof (located_built _ _ _ E) as Hb.
    destruct Hb as [Hsane (s & f & Es & Ef & Hs & Hf & Hone)].
    apply (accepts_reads _ _ _ _ Es Hf Hone) in Hacc.
    destruct (nth_error (states sub) f) as [st|] eqn:Est;
      [|apply nth_error_None in Est; lia].
    exists s, (List.length (flat_map states pre) + f). eexists.
    split; [assumption|]. split; [apply (located_path _ _ _ E); assumption|].
    split; [apply (located_state _ _ _ _ _ E Est)|].
    cbn [linked].
    assert (Hok : state_ok (List.length (states sub)) st).
    { destruct Hsane as [_ Hall]. rewrite Forall_forall in Hall. apply Hall.
      eapply nth_error_In; eassumption. }
    destruct (copied_spec (List.length (flat_map states pre)) (List.length (states sub))
                f st Hok) as (_ & _ & ->).
    assert (Hz : nth_error (map is_final (states sub)) f = Some (is_final st))
      by (rewrite nth_error_map, Est; reflexivity).
    apply Hone in Hz. apply Hz. reflexivity.
  - pose proof (located_built _ _ _ E) as Hb.
    destruct Hb as [Hsane (s & f & Es & Ef & Hs & Hf & Hone)].
    apply (accepts_reads _ _ _ _ Es Hf Hone) in Hacc.
    assert (E' : subs = (pre ++ [sub]) ++ next :: post)
      by (rewrite <- app_assoc; exact E).
    destruct (IH (pre ++ [sub]) next s2 E' Hrest) as (s' & z & stz & Es' & Hr & Ez & Hfin).
    rewrite length_flat_snoc in Hr.
    destruct (nth_error (states sub) f) as [st|] eqn:Est;
      [|apply nth_error_None in Est; lia].
    exists s, z, stz. split; [assumption|]. split; [|auto].
    apply reads_app with (List.length (flat_map states pre) + f).
    + apply (located_path _ _ _ E); assumption.
    + eapply reads_eps; [|exact Hr].
      eexists. split; [apply (located_state _ _ _ _ _ E Est)|].
      apply linked_eps. right. exists next, post, s'. auto.
Qed.

Lemma concatenation_sound (x : nat) (w : string) (z : nat) :
  reads N x w z ->
  forall stz, nth_error (states N) z = Some stz -> is_final stz = true ->
  forall pre sub post i,
    subs = pre ++ sub :: post -> x = List.length (flat_map states pre) + i ->
    i < List.length (states sub) ->
    exists s1 s2 f,
      w = (s1 ++ s2)%string /\ final_state sub = Some f /\ reads sub i s1 f /\
      splits post s2.
Proof.
  induction 1 as [x|x y z s [stx [Ex Hy]] Hr IH|x y z c s Hc Hr IH];
    intros stz Ez Hfin pre sub post i E -> Hlt;
    pose proof (located_built _ _ _ E) as Hb;
    destruct (nth_error (states sub) i) as [st|] eqn:Est;
    try (apply nth_error_None in Est; lia);
    pose proof (built_state _ _ _ Hb Est) as Hok;
    pose proof (located_state _ _ _ _ _ E Est) as Hloc;
    destruct (copied_spec (List.length (flat_map states pre)) (List.length (states sub))
                i st Hok) as (Hedges & Heps & Hflag);
    destruct Hb as [Hsane (s0 & f & Es & Ef & Hs & Hf & Hone)].
  - rewrite Hloc in Ez. inversion Ez; subst stz. clear Ez.
    assert (Hi : is_final st = true -> i = f).
    { intros Ht.
      assert (Hz : nth_error (map is_final (states sub)) i = Some true)
        by (rewrite nth_error_map, Est; simpl; congruence).
      apply Hone in Hz. apply Hz. reflexivity. }
    unfold linked in Hfin. rewrite Ef in Hfin.
    destruct post as [|next post'].
    + rewrite Hflag in Hfin. exists ""%string, ""%string, f.
      pose proof (Hi Hfin). subst i.
      split; [reflexivity|]. split; [assumption|]. split; [constructor|reflexivity].
    + assert (Hnext : built next).
      { rewrite Forall_forall in Hsubs. apply Hsubs. rewrite E.
        apply in_or_app. right. right. left. reflexivity. }
      destruct Hnext as [_ (s' & f' & Es' & _)]. rewrite Es' in Hfin.
      destruct (Nat.eqb_spec i f) as [->|Hne]; [discriminate|].
      rewrite Hflag in Hfin. apply Hi in Hfin. contradiction.
  - rewrite Hloc in Ex. inversion Ex; subst stx. clear Ex.
    apply linked_eps in Hy.
    destruct Hy as [Hy|(next & post' & s' & -> & Efi & Es' & ->)].
    + apply Heps in Hy. destruct Hy as [t [-> Ht]].
      destruct (IH stz Ez Hfin pre sub post t E eq_refl (state_ok_eps _ _ _ Hok Ht))
        as (s1 & s2 & f1 & -> & Ef1 & Hr1 & Hsp).
      exists s1, s2, f1. repeat split; try assumption.
      eapply reads_eps; [|exact Hr1]. exists st. auto.
    + assert (Hnext : built next).
      { rewrite Forall_forall in Hsubs. apply Hsubs. rewrite E.
        apply in_or_app. right. right. left. reflexivity. }
      assert (E' : subs = (pre ++ [sub]) ++ next :: post')
        by (rewrite <- app_assoc; exact E).
      destruct Hnext as [_ (s'' & f' & Es'' & Ef' & Hs' & Hf' & Hone')].
      rewrite Es' in Es''. inversion Es''; subst s''.
      destruct (IH stz Ez Hfin (pre ++ [sub]) next post' s' E') as
        (s1 & s2 & f1 & -> & Ef1 & Hr1 & Hsp).
      * rewrite length_flat_snoc. reflexivity.
      * assumption.
      * exists ""%string, (s1 ++ s2)%string, i. repeat split; try assumption.
        -- constructor.
        -- exists s1, s2. repeat split; [|assumption].
           rewrite Ef' in Ef1. inversion Ef1; subst f1.
           apply (accepts_reads _ _ _ _ Es' Hf' Hone'). assumption.
  - apply char_step_edge in Hc. destruct Hc as (stx & l & Ex & He & Hm).
    rewrite Hloc in Ex. inversion Ex; subst stx. clear Ex.
    apply linked_edges in He. apply Hedges in He. destruct He as [t [-> Ht]].
    destruct (IH stz Ez Hfin pre sub post t E eq_refl (state_ok_edge _ _ _ _ Hok Ht))
      as (s1 & s2 & f1 & -> & Ef1 & Hr1 & Hsp).
    exists (String c s1), s2, f1. repeat split; try assumption.
    eapply reads_char; [|exact Hr1]. apply char_step_edge. exists st, l. auto.
Qed.

End ConcatenationPaths.

Section ConcatenationLanguage.
Import NFA_py Vocabulary.

Lemma accepts_empty_fragment (w : string) :
  accepts (empty_fragment empty_NFA) w <-> w = ""%string.
Proof.
  rewrite <- (match_correct _ _ _ (match_empty_fragment w)). apply String.eqb_eq.
Qed.

Lemma concatenation_spec (subs : list NFA) :
  Forall built subs ->
  exists n, _build_concatenation (map Ok subs) empty_NFA = Ok n /\ built n /\
            forall w, accepts n w <-> splits subs w.
Proof.
  intros Hsubs. destruct subs as [|sub0 rest].
  - exists (empty_fragment empty_NFA). split; [reflexivity|].
    split; [apply empty_fragment_built|]. apply accepts_empty_fragment.
  - destruct (concatenation_shape sub0 rest Hsubs) as (n & s0 & E & Hb & Hst & Es0 & Es).
    exists n. split; [exact E|]. split; [exact Hb|]. intros w. split.
    + intros (s & z & stz & Es' & Hr & Ez & Hfin).
      rewrite Es in Es'. inversion Es'; subst s.
      assert (Hsub0 : built sub0) by (inversion Hsubs; assumption).
      destruct Hsub0 as [_ (s0' & f0 & Es0' & Ef0 & Hs0 & Hf0 & Hone0)].
      rewrite Es0 in Es0'. inversion Es0'; subst s0'.
      destruct (concatenation_sound (sub0 :: rest) n Hsubs Hst s0 w z Hr stz Ez Hfin
                  [] sub0 rest s0 eq_refl eq_refl Hs0)
        as (s1 & s2 & f & -> & Ef & Hr1 & Hsp).
      exists s1, s2. split; [reflexivity|]. split; [|assumption].
      rewrite Ef0 in Ef. inversion Ef; subst f.
      apply (accepts_reads _ _ _ _ Es0 Hf0 Hone0). assumption.
    + intros Hsp.
      destruct (concatenation_complete (sub0 :: rest) n Hsubs Hst rest [] sub0 w eq_refl Hsp)
        as (s0' & z & stz & Es0' & Hr & Ez & Hfin).
      rewrite Es0 in Es0'. inversion Es0'; subst s0'.
      exists s0, z, stz. auto.
Qed.

(** X17.  Concatenation composes the languages: [_build_concatenation] on
    built automata returns a built automaton, and that automaton accepts
    exactly the inputs that split into one input accepted by each of them,
    in order (the empty input alone when there are none). *)
Theorem concatenation_language (subs : list NFA) :
  Forall built subs ->
  exists n, _build_concatenation (map Ok subs) empty_NFA = Ok n /\ built n /\
            forall w, accepts n w <-> splits subs w.
Proof. apply concatenation_spec. Qed.

End ConcatenationLanguage.

(** The concatenation of the automata of [a] and [b] accepts [ab]. *)
Lemma concatenation_language_witness :
  exists n,
    NFA_py._build_concatenation
      (map Ok [NFA_py.basic_fragment (Some "a"%string) NFA_py.empty_NFA;
               NFA_py.basic_fragment (Some "b"%string) NFA_py.empty_NFA])
      NFA_py.empty_NFA = Ok n /\
    (Vocabulary.accepts n "ab"
     <-> Vocabulary.splits [NFA_py.basic_fragment (Some "a"%string) NFA_py.empty_NFA;
                            NFA_py.basic_fragment (Some "b"%string) NFA_py.empty_NFA] "ab").
Proof.
  destruct (concatenation_language
              [NFA_py.basic_fragment (Some "a"%string) NFA_py.empty_NFA;
               NFA_py.basic_fragment (Some "b"%string) NFA_py.empty_NFA])
    as [n [E [_ H]]].
  - constructor; [|constructor; [|constructor]]; apply basic_fragment_built; right; left.
    + exists "a"%char. reflexivity.
    + exists "b"%char. reflexivity.
  - exists n. split; [exact E|apply H].
Defined.

(** *** The inputs a quantified automaton accepts *)

Section UpdateFacts.
Import NFA_py Vocabulary.

Lemma nth_update_state (r : nat) (g : State -> State) (n : NFA) (p : nat) :
  nth_error (states (update_state r g n)) p
  = if Nat.eqb p r then option_map g (nth_error (states n) r) else nth_error (states n) p.
Proof.
  rewrite update_state_states. destruct (Nat.eqb_spec p r) as [->|Hne].
  - destruct (nth_error (states n) r) as [st|] eqn:E; simpl.
    + apply (nth_error_list_set_same _ _ _ _ E).
    + exact E.
  - destruct (nth_error (states n) r) as [st|] eqn:E; [|reflexivity].
    apply nth_error_list_set_other. congruence.
Qed.

(** A run of [add_epsilon_transition] calls, the last one first in [ups]. *)
Lemma eps_updates (ups : list (nat * nat)) (m : NFA) :
  start_state (fold_right (fun u acc =>
                             update_state (fst u) (add_epsilon_transition (snd u)) acc)
                          m ups) = start_state m /\
  forall p st, nth_error (states m) p = Some st ->
    exists st',
      nth_error (states (fold_right (fun u acc =>
                                       update_state (fst u) (add_epsilon_transition (snd u)) acc)
                                    m ups)) p = Some st' /\
      transitions st' = transitions st /\ is_final st' = is_final st /\
      forall t, In t (epsilon_transitions st')
                <-> In t (epsilon_transitions st) \/ In (p, t) ups.
Proof.
  induction ups as [|[r t0] ups [IHs IH]]; cbn [fold_right fst snd].
  - split; [reflexivity|]. intros p st E. exists st. repeat split; auto.
    intros [H|[]]. assumption.
  - split; [rewrite update_state_start; exact IHs|].
    intros p st E. destruct (IH p st E) as (st1 & E1 & T1 & F1 & H1).
    rewrite nth_update_state. destruct (Nat.eqb_spec p r) as [->|Hne].
    + rewrite E1. cbn [option_map]. eexists. split; [reflexivity|].
      split; [exact T1|]. split; [exact F1|].
      intros t. rewrite eps_add_epsilon, H1. split.
      * intros [[H|H]| ->]; [auto|right; right; assumption|right; left; reflexivity].
      * intros [H|[H|H]]; [auto|inversion H; auto|auto].
    + exists st1. split; [assumption|]. split; [assumption|]. split; [assumption|].
      intros t. rewrite H1. split.
      * intros [H|H]; [auto|right; right; assumption].
      * intros [H|[H|H]]; [auto|inversion H; congruence|auto].
Qed.

End UpdateFacts.

Section QuantifierPaths.
Import NFA_py Vocabulary.
Variables (n N : NFA) (s f : nat) (skip loop_entry loop_start : bool).
Hypothesis Hb : built n.
Hypothesis Es : start_state n = Some s.
Hypothesis Ef : final_state n = Some f.
Hypothesis HNs : start_state N = Some (List.length (states n)).
Hypothesis Hold :
  forall p st, nth_error (states n) p = Some st ->
    exists st',
      nth_error (states N) p = Some st' /\
      transitions st' = transitions st /\
      is_final st' = (is_final st && negb (Nat.eqb p f)) /\
      forall t, In t (epsilon_transitions st')
                <-> In t (epsilon_transitions st) \/
                    (p = f /\ (t = S (List.length (states n)) \/
                               (loop_entry = true /\ t = List.length (states n)) \/
                               (loop_start = true /\ t = s))).
Hypothesis Hentry :
  exists e,
    nth_error (states N) (List.length (states n)) = Some e /\
    transitions e = [] /\ is_final e = false /\
    forall t, In t (epsilon_transitions e)
              <-> t = s \/ (skip = true /\ t = S (List.length (states n))).
Hypothesis Hfinal :
  exists z,
    nth_error (states N) (S (List.length (states n))) = Some z /\
    transitions z = [] /\ epsilon_transitions z = [] /\ is_final z = true.

Local Notation "'after'" := (continued (loop_entry || loop_start) n).
Local Notation "'whole'" := (quantified skip (loop_entry || loop_start) n).

Lemma quantifier_ends :
  s < List.length (states n) /\ f < List.length (states n) /\
  one_hot (map is_final (states n)) f.
Proof.
  destruct Hb as [_ (s' & f' & Es' & Ef' & Hs & Hf & Hone)].
  rewrite Es in Es'. rewrite Ef in Ef'. inversion Es'; inversion Ef'; subst. auto.
Qed.

Lemma after_nil : after ""%string.
Proof. unfold continued. destruct (loop_entry || loop_start); constructor. Qed.

Lemma quantifier_lift (x y : nat) (w : string) :
  reads n x w y -> reads N x w y.
Proof.
  induction 1 as [x|x y z w [st [Ex Hy]] Hr IH|x y z c w Hc Hr IH].
  - constructor.
  - apply reads_eps with y; [|assumption].
    destruct (Hold x st Ex) as (st' & E' & _ & _ & He).
    exists st'. split; [assumption|]. apply He. auto.
  - apply reads_char with y; [|assumption].
    destruct Hc as (st & entry & Ex & Hin & Hm & Hy).
    destruct (Hold x st Ex) as (st' & E' & Ht & _ & _).
    exists st', entry. rewrite Ht. auto.
Qed.

Lemma quantifier_exit (t : nat) :
  t = S (List.length (states n)) \/ (loop_entry = true /\ t = List.length (states n)) \/
  (loop_start = true /\ t = s) ->
  eps_step N f t.
Proof.
  intros Ht. destruct quantifier_ends as (_ & Hf & _).
  destruct (nth_error (states n) f) as [st|] eqn:E; [|apply nth_error_None in E; lia].
  destruct (Hold f st E) as (st' & E' & _ & _ & He).
  exists st'. split; [assumption|]. apply He. auto.
Qed.

Lemma quantifier_enter (t : nat) :
  t = s \/ (skip = true /\ t = S (List.length (states n))) ->
  eps_step N (List.length (states n)) t.
Proof.
  intros Ht. destruct Hentry as (e & E & _ & _ & He). exists e. split; [assumption|].
  apply He. assumption.
Qed.

Lemma quantifier_round (w : string) :
  accepts n w -> reads N s w f.
Proof.
  intros H. destruct quantifier_ends as (_ & Hf & Hone).
  apply quantifier_lift. apply (accepts_reads _ _ _ _ Es Hf Hone). assumption.
Qed.

Lemma quantifier_after (w : string) :
  after w -> reads N f w (S (List.length (states n))).
Proof.
  unfold continued. destruct (loop_entry || loop_start) eqn:El.
  - apply orb_prop in El. induction 1 as [|w1 w2 H1 H2 IH].
    + eapply reads_eps; [apply quantifier_exit; auto|constructor].
    + destruct El as [Hl|Hl].
      * eapply reads_eps; [apply quantifier_exit; right; left; auto|].
        eapply reads_eps; [apply quantifier_enter; auto|].
        eapply reads_app; [apply quantifier_round; eassumption|assumption].
      * eapply reads_eps; [apply quantifier_exit; right; right; auto|].
        eapply reads_app; [apply quantifier_round; eassumption|assumption].
  - intros ->. eapply reads_eps; [apply quantifier_exit; auto|constructor].
Qed.

Lemma quantifier_complete (w : string) : whole w -> accepts N w.
Proof.
  intros H. destruct Hfinal as (z & Ez & _ & _ & Hz).
  exists (List.length (states n)), (S (List.length (states n))), z.
  split; [exact HNs|]. split; [|auto].
  destruct H as [[Hskip ->]|(w1 & w2 & -> & H1 & H2)].
  - eapply reads_eps; [apply quantifier_enter; auto|constructor].
  - eapply reads_eps; [apply quantifier_enter; auto|].
    eapply reads_app; [apply quantifier_round; eassumption|].
    apply quantifier_after. assumption.
Qed.

Lemma after_whole (w : string) :
  loop_entry = true -> whole w -> after w.
Proof.
  unfold quantified, continued. intros Hl. rewrite Hl. cbn [orb].
  intros [[_ ->]|(w1 & w2 & -> & H1 & H2)]; [constructor|].
  constructor; assumption.
Qed.

Lemma quantifier_sound (x : nat) (w : string) (z : nat) :
  reads N x w z ->
  forall stz, nth_error (states N) z = Some stz -> is_final stz = true ->
    (x < List.length (states n) ->
     exists w1 w2, w = (w1 ++ w2)%string /\ reads n x w1 f /\ after w2) /\
    (x = List.length (states n) -> whole w) /\
    (x = S (List.length (states n)) -> w = ""%string).
Proof.
  destruct quantifier_ends as (Hs & Hf & Hone).
  destruct Hentry as (e & Ee & Te & Fe & He).
  destruct Hfinal as (zf & Ezf & Tzf & Epzf & Fzf).
  induction 1 as [x|x y z w [stx [Ex Hy]] Hr IH|x y z c w Hc Hr IH];
    intros stz Ez Hfin.
  - split; [|split].
    + intros Hlt. exfalso.
      destruct (nth_error (states n) x) as [st|] eqn:E;
        [|apply nth_error_None in E; lia].
      destruct (Hold x st E) as (st' & E' & _ & Hflag & _).
      rewrite E' in Ez. inversion Ez; subst stz. rewrite Hflag in Hfin.
      apply andb_prop in Hfin. destruct Hfin as [H1 H2].
      assert (Hx : nth_error (map is_final (states n)) x = Some true)
        by (rewrite nth_error_map, E; simpl; congruence).
      apply Hone in Hx. destruct Hx as [Hx _]. specialize (Hx eq_refl). subst x.
      rewrite Nat.eqb_refl in H2. discriminate.
    + intros ->. rewrite Ee in Ez. inversion Ez; subst stz. congruence.
    + reflexivity.
  - destruct (IH stz Ez Hfin) as (IH1 & IH2 & IH3). split; [|split].
    + intros Hlt.
      destruct (nth_error (states n) x) as [st|] eqn:E;
        [|apply nth_error_None in E; lia].
      pose proof (built_state _ _ _ Hb E) as Hok.
      destruct (Hold x st E) as (st' & E' & _ & _ & Heps).
      rewrite E' in Ex. inversion Ex; subst stx. apply Heps in Hy.
      destruct Hy as [Hy|[-> [->|[[Hl ->]|[Hl ->]]]]].
      * destruct (IH1 (state_ok_eps _ _ _ Hok Hy)) as (w1 & w2 & -> & H1 & H2).
        exists w1, w2. repeat split; try assumption.
        eapply reads_eps; [|exact H1]. exists st. auto.
      * rewrite (IH3 eq_refl). exists ""%string, ""%string.
        repeat split; [constructor|apply after_nil].
      * exists ""%string, w. repeat split; [constructor|].
        apply after_whole; [assumption|]. apply IH2. reflexivity.
      * destruct (IH1 Hs) as (w1 & w2 & -> & H1 & H2).
        exists ""%string, (w1 ++ w2)%string. repeat split; [constructor|].
        unfold continued in H2 |- *. rewrite Hl, orb_true_r in H2. rewrite Hl, orb_true_r.
        constructor; [|assumption].
        apply (accepts_reads _ _ _ _ Es Hf Hone). assumption.
    + intros ->. rewrite Ee in Ex. inversion Ex; subst stx. apply He in Hy.
      destruct Hy as [->|[Hskip ->]].
      * destruct (IH1 Hs) as (w1 & w2 & -> & H1 & H2).
        right. exists w1, w2. repeat split; [|assumption].
        apply (accepts_reads _ _ _ _ Es Hf Hone). assumption.
      * left. split; [assumption|]. apply IH3. reflexivity.
    + intros ->. rewrite Ezf in Ex. inversion Ex; subst stx.
      rewrite Epzf in Hy. destruct Hy.
  - destruct (IH stz Ez Hfin) as (IH1 & IH2 & IH3).
    destruct Hc as (stx & entry & Ex & Hin & Hm & Hy).
    split; [|split].
    + intros Hlt.
      destruct (nth_error (states n) x) as [st|] eqn:E;
        [|apply nth_error_None in E; lia].
      pose proof (built_state _ _ _ Hb E) as Hok.
      destruct (Hold x st E) as (st' & E' & Ht & _ & _).
      rewrite E' in Ex. inversion Ex; subst stx. rewrite Ht in Hin.
      assert (Hedge : edge st (fst entry) y).
      { exists (snd entry). destruct entry. auto. }
      destruct (IH1 (state_ok_edge _ _ _ _ Hok Hedge)) as (w1 & w2 & -> & H1 & H2).
      exists (String c w1), w2. repeat split; try assumption.
      eapply reads_char; [|exact H1]. exists st, entry. auto.
    + intros ->. rewrite Ee in Ex. inversion Ex; subst stx.
      rewrite Te in Hin. destruct Hin.
    + intros ->. rewrite Ezf in Ex. inversion Ex; subst stx.
      rewrite Tzf in Hin. destruct Hin.
Qed.

Lemma quantifier_paths (w : string) : accepts N w <-> whole w.
Proof.
  split; [|apply quantifier_complete].
  intros (x & z & stz & Ex & Hr & Ez & Hfin).
  rewrite HNs in Ex. inversion Ex; subst x.
  apply (quantifier_sound _ _ _ Hr stz Ez Hfin). reflexivity.
Qed.

End QuantifierPaths.

Section QuantifierLanguage.
Import RegexCompiler_py NFA_py Vocabulary.

(** The epsilon transitions a quantifier adds, the last one first. *)
Lemma apply_quantifier_shape (q : ParamValue) (n : NFA) (s f : nat) :
  built n -> start_state n = Some s -> final_state n = Some f ->
  exists ups,
    ups = match q with
          | PStr c =>
              if String.eqb c "?"
              then [(f, S (List.length (states n)));
                    (List.length (states n), S (List.length (states n)));
                    (List.length (states n), s)]
              else if String.eqb c "*"
              then [(f, S (List.length (states n))); (f, List.length (states n));
                    (List.length (states n), S (List.length (states n)));
                    (List.length (states n), s)]
              else if String.eqb c "+"
              then [(f, S (List.length (states n))); (f, s); (List.length (states n), s)]
              else []
          | PInt _ => []
          end /\
    start_state (_apply_quantifier q n) = Some (List.length (states n)) /\
    (forall p st, nth_error (states n) p = Some st ->
       exists st',
         nth_error (states (_apply_quantifier q n)) p = Some st' /\
         transitions st' = transitions st /\
         is_final st' = (is_final st && negb (Nat.eqb p f)) /\
         forall t, In t (epsilon_transitions st')
                   <-> In t (epsilon_transitions st) \/ In (p, t) ups) /\
    (exists e,
       nth_error (states (_apply_quantifier q n)) (List.length (states n)) = Some e /\
       transitions e = [] /\ is_final e = false /\
       forall t, In t (epsilon_transitions e) <-> In (List.length (states n), t) ups) /\
    (exists z,
       nth_error (states (_apply_quantifier q n)) (S (List.length (states n))) = Some z /\
       transitions z = [] /\ is_final z = true /\
       forall t, In t (epsilon_transitions z) <-> In (S (List.length (states n)), t) ups).
Proof.
  intros Hb Es Ef.
  destruct Hb as [_ (s' & f' & Es' & Ef' & Hs & Hf & Hone)].
  rewrite Es in Es'. rewrite Ef in Ef'. inversion Es'; inversion Ef'; subst s' f'.
  eexists. split; [reflexivity|].
  set (a := mkState (next_state_id n) false [] []).
  set (b := mkState (S (next_state_id n)) true [] []).
  set (n2 := snd (create_state true (snd (create_state false n)))).
  set (n3 := update_state f (set_is_final false) n2).
  assert (H2 : states n2 = (states n ++ [a]) ++ [b]) by reflexivity.
  assert (Hold3 : forall p st, nth_error (states n) p = Some st ->
            nth_error (states n3) p
            = Some (if Nat.eqb p f then set_is_final false st else st)).
  { intros p st E. unfold n3. rewrite nth_update_state, H2.
    assert (Hp : p < List.length (states n)) by (apply nth_error_Some; congruence).
    destruct (Nat.eqb_spec p f) as [->|Hne].
    - rewrite nth_error_app1 by (rewrite length_app; simpl; lia).
      rewrite nth_error_app1 by assumption. rewrite E. reflexivity.
    - rewrite nth_error_app1 by (rewrite length_app; simpl; lia).
      rewrite nth_error_app1 by assumption. exact E. }
  assert (Ha3 : nth_error (states n3) (List.length (states n)) = Some a).
  { unfold n3. rewrite nth_update_state, H2.
    destruct (Nat.eqb_spec (List.length (states n)) f) as [Heq|_]; [lia|].
    rewrite nth_error_app1 by (rewrite length_app; simpl; lia).
    rewrite nth_error_app2 by lia. rewrite Nat.sub_diag. reflexivity. }
  assert (Hb3 : nth_error (states n3) (S (List.length (states n))) = Some b).
  { unfold n3. rewrite nth_update_state, H2.
    destruct (Nat.eqb_spec (S (List.length (states n))) f) as [Heq|_]; [lia|].
    rewrite nth_error_app2 by (rewrite length_app; simpl; lia).
    rewrite length_app. cbn [List.length].
    replace (S (List.length (states n)) - (List.length (states n) + 1)) with 0 by lia.
    reflexivity. }
  match goal with
  | |- context [In _ ?u] => set (ups := u)
  end.
  assert (HN : start_state (_apply_quantifier q n) = Some (List.length (states n)) /\
               states (_apply_quantifier q n)
               = states (fold_right (fun u acc =>
                                       update_state (fst u) (add_epsilon_transition (snd u)) acc)
                                    n3 ups)).
  { assert (Hk1 : List.length (states n ++ [a]) = S (List.length (states n)))
      by (rewrite length_app; simpl; lia).
    unfold _apply_quantifier. rewrite Es, Ef. unfold create_state. cbv beta iota zeta.
    cbn [states next_state_id start_state final_state final_states fst snd].
    unfold ups. rewrite <- Hk1. destruct q as [c|i];
      [destruct (String.eqb c "?");
       [|destruct (String.eqb c "*"); [|destruct (String.eqb c "+")]]|];
      split; reflexivity. }
  destruct HN as [HNs HNst]. rewrite HNst.
  destruct (eps_updates ups n3) as [_ Hups].
  split; [exact HNs|]. split; [|split].
  - intros p st E. destruct (Hups p _ (Hold3 p st E)) as (st' & E' & T' & F' & H').
    exists st'. split; [exact E'|]. rewrite T', F'.
    destruct (Nat.eqb p f); cbn [negb]; rewrite ?andb_false_r, ?andb_true_r.
    + repeat split; try reflexivity; apply H'.
    + repeat split; try reflexivity; apply H'.
  - destruct (Hups _ _ Ha3) as (st' & E' & T' & F' & H').
    exists st'. split; [exact E'|]. split; [exact T'|]. split; [exact F'|].
    intros t. rewrite H'. cbn [a epsilon_transitions In]. tauto.
  - destruct (Hups _ _ Hb3) as (st' & E' & T' & F' & H').
    exists st'. split; [exact E'|]. split; [exact T'|]. split; [exact F'|].
    intros t. rewrite H'. cbn [b epsilon_transitions In]. tauto.
Qed.

Lemma pair_eq_iff (a b c d : nat) : (a, b) = (c, d) <-> a = c /\ b = d.
Proof. split; [intros H; inversion H; auto|intros [-> ->]; reflexivity]. Qed.

Lemma quantifier_spec (q : string) (skip loop_entry loop_start : bool) (n : NFA) :
  built n ->
  (q = "?"%string /\ skip = true /\ loop_entry = false /\ loop_start = false) \/
  (q = "*"%string /\ skip = true /\ loop_entry = true /\ loop_start = false) \/
  (q = "+"%string /\ skip = false /\ loop_entry = false /\ loop_start = true) ->
  forall w, accepts (_apply_quantifier (PStr q) n) w
            <-> quantified skip (loop_entry || loop_start) n w.
Proof.
  intros Hb Hq.
  pose proof Hb as [_ (s & f & Es & Ef & Hs & Hf & _)].
  destruct (apply_quantifier_shape (PStr q) n s f Hb Es Ef)
    as (ups & Eups & HNs & Hold & Hentry & Hfinal).
  apply (quantifier_paths n _ s f skip loop_entry loop_start Hb Es Ef HNs).
  - intros p st E. destruct (Hold p st E) as (st' & E' & T' & F' & H').
    exists st'. split; [exact E'|]. split; [exact T'|]. split; [exact F'|].
    intros t. rewrite H'.
    assert (Hp : p < List.length (states n)) by (apply nth_error_Some; congruence).
    destruct Hq as [(-> & -> & -> & ->)|[(-> & -> & -> & ->)|(-> & -> & -> & ->)]];
      simpl in Eups; subst ups; simpl; rewrite ?pair_eq_iff;
      intuition (try discriminate; try lia).
  - destruct Hentry as (e & E' & T' & F' & H').
    exists e. split; [exact E'|]. split; [exact T'|]. split; [exact F'|].
    intros t. rewrite H'.
    destruct Hq as [(-> & -> & -> & ->)|[(-> & -> & -> & ->)|(-> & -> & -> & ->)]];
      simpl in Eups; subst ups; simpl; rewrite ?pair_eq_iff;
      intuition (try discriminate; try lia).
  - destruct Hfinal as (z & E' & T' & F' & H').
    exists z. split; [exact E'|]. split; [exact T'|]. split; [|exact F'].
    destruct (epsilon_transitions z) as [|t l]; [reflexivity|]. exfalso.
    assert (Ht : In (S (List.length (states n)), t) ups) by (apply H'; left; reflexivity).
    destruct Hq as [(-> & -> & -> & ->)|[(-> & -> & -> & ->)|(-> & -> & -> & ->)]];
      simpl in Eups; subst ups; simpl in Ht; rewrite ?pair_eq_iff in Ht;
      intuition (try discriminate; try lia).
Qed.

Lemma repeats_cases (n : NFA) (w : string) :
  repeats n w
  <-> w = ""%string \/
      exists w1 w2, w = (w1 ++ w2)%string /\ accepts n w1 /\ repeats n w2.
Proof.
  split.
  - intros H. destruct H as [|w1 w2 H1 H2]; [auto|]. right. exists w1, w2. auto.
  - intros [->|(w1 & w2 & -> & H1 & H2)]; constructor; assumption.
Qed.

Lemma quantifier_cases (n : NFA) :
  built n ->
  (forall w, accepts (_apply_quantifier (PStr "?") n) w
             <-> w = ""%string \/ accepts n w) /\
  (forall w, accepts (_apply_quantifier (PStr "*") n) w <-> repeats n w) /\
  (forall w, accepts (_apply_quantifier (PStr "+") n) w
             <-> exists w1 w2, w = (w1 ++ w2)%string /\ accepts n w1 /\ repeats n w2).
Proof.
  intros Hb. split; [|split]; intros w.
  - rewrite (quantifier_spec "?" true false false n Hb) by auto.
    unfold quantified, continued. cbn [orb]. split.
    + intros [[_ ->]|(w1 & w2 & -> & H1 & ->)]; [auto|]. rewrite string_app_nil_r. auto.
    + intros [->|H]; [auto|]. right. exists w, ""%string.
      rewrite string_app_nil_r. auto.
  - rewrite (quantifier_spec "*" true true false n Hb) by auto 6.
    unfold quantified, continued. cbn [orb]. rewrite repeats_cases. tauto.
  - rewrite (quantifier_spec "+" false false true n Hb) by auto 7.
    unfold quantified, continued. cbn [orb]. split.
    + intros [[Hd _]|H]; [discriminate|assumption].
    + auto.
Qed.

(** A quantifier that is none of [?], [*] and [+]: the new start state
    leads nowhere. *)
Lemma quantifier_other (q : ParamValue) (n : NFA) :
  built n ->
  match q with
  | PStr c => String.eqb c "?" = false /\ String.eqb c "*" = false /\
              String.eqb c "+" = false
  | PInt _ => True
  end ->
  forall w, ~ accepts (_apply_quantifier q n) w.
Proof.
  intros Hb Hq w.
  pose proof Hb as [_ (s & f & Es & Ef & _)].
  destruct (apply_quantifier_shape q n s f Hb Es Ef)
    as (ups & Eups & HNs & _ & (e & Ee & Te & Fe & He) & _).
  assert (Hups : ups = []).
  { rewrite Eups. destruct q as [c|i]; [|reflexivity].
    destruct Hq as (-> & -> & ->). reflexivity. }
  rewrite Hups in He.
  intros (x & z & stz & Ex & Hr & Ez & Hfin).
  rewrite HNs in Ex. inversion Ex; subst x. clear Ex.
  inversion Hr as [x0|x0 y z0 w0 [st [Ex0 Hy]] Hr'|x0 y z0 c w0 Hc Hr']; subst.
  - rewrite Ee in Ez. inversion Ez; subst stz. congruence.
  - rewrite Ee in Ex0. inversion Ex0; subst st. apply He in Hy. destruct Hy.
  - destruct Hc as (st & entry & Ex0 & Hin & _).
    rewrite Ee in Ex0. inversion Ex0; subst st. rewrite Te in Hin. destruct Hin.
Qed.

(** X18.  The quantifiers compose the languages: on a built automaton,
    [_apply_quantifier] with [?] gives an automaton that accepts the empty
    input and the inputs of the automaton; with [*], the inputs made of any
    number of inputs of the automaton; with [+], those made of one input of
    the automaton followed by any number of them; with any other
    quantifier, an automaton that accepts nothing. *)
Theorem quantifier_language (n : NFA) :
  built n ->
  (forall w, accepts (_apply_quantifier (PStr "?") n) w
             <-> w = ""%string \/ accepts n w) /\
  (forall w, accepts (_apply_quantifier (PStr "*") n) w <-> repeats n w) /\
  (forall w, accepts (_apply_quantifier (PStr "+") n) w
             <-> exists w1 w2, w = (w1 ++ w2)%string /\ accepts n w1 /\ repeats n w2) /\
  (forall q w,
     match q with
     | PStr c => String.eqb c "?" = false /\ String.eqb c "*" = false /\
                 String.eqb c "+" = false
     | PInt _ => True
     end ->
     ~ accepts (_apply_quantifier q n) w).
Proof.
  intros Hb. destruct (quantifier_cases n Hb) as (H1 & H2 & H3).
  split; [exact H1|]. split; [exact H2|]. split; [exact H3|].
  intros q w Hq. apply quantifier_other; assumption.
Qed.

End QuantifierLanguage.

(** The automaton of [a], under each quantifier. *)
Lemma quantifier_language_witness :
  (Vocabulary.accepts
     (NFA_py._apply_quantifier (RegexCompiler_py.PStr "?")
        (NFA_py.basic_fragment (Some "a"%string) NFA_py.empty_NFA)) "a"
   <-> "a"%string = ""%string \/
       Vocabulary.accepts (NFA_py.basic_fragment (Some "a"%string) NFA_py.empty_NFA) "a") /\
  (Vocabulary.accepts
     (NFA_py._apply_quantifier (RegexCompiler_py.PStr "*")
        (NFA_py.basic_fragment (Some "a"%string) NFA_py.empty_NFA)) "aa"
   <-> Vocabulary.repeats (NFA_py.basic_fragment (Some "a"%string) NFA_py.empty_NFA) "aa").
Proof.
  assert (Hb : Vocabulary.built (NFA_py.basic_fragment (Some "a"%string) NFA_py.empty_NFA)).
  { apply basic_fragment_built. right; left. exists "a"%char. reflexivity. }
  split.
  - apply (proj1 (quantifier_language _ Hb)).
  - apply (proj1 (proj2 (quantifier_language _ Hb))).
Defined.

(** *** The states of an alternation *)

Section BranchFacts.
Import NFA_py Vocabulary.

Lemma create_fold_exact (k : nat) (l : list State) :
  forall base n,
    next_state_id n = k + base ->
    states (fold_left (fun acc (s : State) => snd (create_state (is_final s) acc)) l n)
    = states n ++ map (fun q : nat * State => mkState (k + fst q) (is_final (snd q)) [] [])
                      (combine (seq base (List.length l)) l) /\
    next_state_id (fold_left (fun acc (s : State) => snd (create_state (is_final s) acc)) l n)
    = k + base + List.length l.
Proof.
  induction l as [|a l IH]; intros base n Hn.
  - cbn [fold_left List.length seq combine map]. rewrite app_nil_r. split; [reflexivity|lia].
  - cbn [fold_left List.length seq combine map fst snd].
    destruct (IH (S base) (snd (create_state (is_final a) n))) as [H1 H2].
    + cbn [create_state snd next_state_id]. lia.
    + rewrite H1, H2. cbn [create_state snd states]. rewrite Hn, <- app_assoc.
      split; [reflexivity|lia].
Qed.

(** The loop that leads the final states of an alternative to the end
    state. *)
Lemma exit_segment (off end_ : nat) (h : nat * State -> State) (l : list State) :
  forall base pre post n,
    states n = pre ++ map h (combine (seq base (List.length l)) l) ++ post ->
    List.length pre = off + base ->
    states (fold_left (fun acc (q : nat * State) =>
                         if is_final (snd q)
                         then update_state (off + fst q) (add_epsilon_transition end_)
                                (update_state (off + fst q) (set_is_final false) acc)
                         else acc)
                      (combine (seq base (List.length l)) l) n)
    = pre ++ map (fun q => if is_final (snd q)
                           then add_epsilon_transition end_ (set_is_final false (h q))
                           else h q)
                 (combine (seq base (List.length l)) l)
          ++ post /\
    next_state_id (fold_left (fun acc (q : nat * State) =>
                         if is_final (snd q)
                         then update_state (off + fst q) (add_epsilon_transition end_)
                                (update_state (off + fst q) (set_is_final false) acc)
                         else acc)
                      (combine (seq base (List.length l)) l) n)
    = next_state_id n.
Proof.
  induction l as [|a l IH]; intros base pre post n Hn Hpre; [split; [exact Hn|reflexivity]|].
  cbn [List.length seq combine map fold_left fst snd] in *.
  set (x := if is_final a then add_epsilon_transition end_ (set_is_final false (h (base, a)))
            else h (base, a)).
  match goal with
  | |- context [fold_left _ _ ?m] => set (n1 := m)
  end.
  assert (H1 : states n1 = (pre ++ [x])
                 ++ map h (combine (seq (S base) (List.length l)) l) ++ post /\
               next_state_id n1 = next_state_id n).
  { unfold n1, x. destruct (is_final a).
    - rewrite <- Hpre. replace (List.length pre) with (List.length pre + 0) by lia.
      split.
      + rewrite (update_in_segment pre [set_is_final false (h (base, a))]
                   (map h (combine (seq (S base) (List.length l)) l) ++ post) 0
                   (set_is_final false (h (base, a)))).
        * rewrite <- app_assoc. reflexivity.
        * rewrite (update_in_segment pre [h (base, a)]
                     (map h (combine (seq (S base) (List.length l)) l) ++ post) 0
                     (h (base, a))); [reflexivity|exact Hn|reflexivity].
        * reflexivity.
      + destruct (update_state_frame (List.length pre + 0) (add_epsilon_transition end_)
                    (update_state (List.length pre + 0) (set_is_final false) n))
          as (_ & _ & _ & ->).
        apply update_state_frame.
    - rewrite <- app_assoc. split; [exact Hn|reflexivity]. }
  destruct H1 as [H1 H1'].
  destruct (IH (S base) (pre ++ [x]) post n1 H1) as [H2 H2'].
  - rewrite length_app. simpl. lia.
  - rewrite H2, H2', <- app_assoc. split; [reflexivity|exact H1'].
Qed.

Lemma branches_snoc (end_ : nat) (subs : list NFA) (sub : NFA) :
  forall base,
    branches end_ base (subs ++ [sub])
    = branches end_ base subs
      ++ map (fun q : nat * State =>
                leaving end_ (base + List.length (flat_map states subs)) sub (fst q) (snd q))
             (indexed (states sub)).
Proof.
  induction subs as [|a subs IH]; intros base.
  - cbn [app branches flat_map List.length]. rewrite Nat.add_0_r, app_nil_r. reflexivity.
  - cbn [app branches flat_map]. rewrite IH, length_app, <- app_assoc, Nat.add_assoc.
    reflexivity.
Qed.

Lemma length_branches (end_ : nat) (subs : list NFA) :
  forall base, List.length (branches end_ base subs) = List.length (flat_map states subs).
Proof.
  induction subs as [|sub subs IH]; intros base; [reflexivity|].
  cbn [branches flat_map]. rewrite !length_app, length_map, length_indexed, IH. reflexivity.
Qed.

Lemma branched_iff (skip skip' : Prop) (subs : list NFA) (n : NFA) :
  (skip <-> skip') -> branched skip subs n -> branched skip' subs n.
Proof.
  intros Hiff (e & E & T & F & H). exists e. repeat split; try assumption.
  - intros Ht. apply H in Ht. tauto.
  - intros Ht. apply H. tauto.
Qed.

(** One alternative more. *)
Lemma add_alternative_branched (skip : Prop) (subs : list NFA) (alt : list NFA) (n : NFA) :
  Forall built alt -> branched skip subs n ->
  next_state_id n = List.length (states n) ->
  exists n' subs',
    add_alternative 0 1 (map Ok alt) n = Ok n' /\
    branched (skip \/ alt = []) subs' n' /\
    next_state_id n' = List.length (states n') /\
    ((alt = [] /\ subs' = subs) \/
     (alt <> [] /\ exists sub, subs' = subs ++ [sub] /\ built sub /\
                               forall w, accepts sub w <-> splits alt w)).
Proof.
  intros Halt (e & E & T & F & H) Hid.
  destruct alt as [|a alt'].
  - exists (update_state 0 (add_epsilon_transition 1) n), subs.
    split; [reflexivity|]. split; [|split].
    + exists (add_epsilon_transition 1 e). split; [|split; [exact T|split; [exact F|]]].
      * apply (update_in_segment [] [e] (mkState 1 true [] [] :: branches 1 2 subs) 0 e);
          [exact E|reflexivity].
      * intros t. rewrite eps_add_epsilon, H. split.
        -- intros [[[-> Hs]|Hx]| ->]; auto.
        -- intros [[-> [Hs|_]]|Hx]; auto.
    + destruct (update_state_frame 0 (add_epsilon_transition 1) n) as (-> & _ & _ & ->).
      exact Hid.
    + left. auto.
  - destruct (concatenation_spec (a :: alt') Halt) as (sub & Esub & Hsub & Hlang).
    pose proof Hsub as [[_ Hok] (s & f & Es & Ef & Hs & Hf & Hone)].
    unfold add_alternative. cbn [map]. cbn [map] in Esub. rewrite Esub. cbn [bind].
    rewrite Es.
    set (off := List.length (states n)).
    set (size := List.length (states sub)).
    set (n1 := fold_left _ (states sub) n).
    destruct (create_fold_exact off (states sub) 0 n) as [A1 A2]; [lia|].
    fold n1 in A1, A2. fold size in A1, A2.
    set (n2 := fold_left _ (combine (seq 0 size) (states sub)) n1).
    assert (B1 : states n2
                 = states n ++ map (fun q : nat * State => copied off size (fst q) (snd q))
                                   (combine (seq 0 size) (states sub)) ++ []).
    { apply (update_segment off (fun _ old => copy_transitions off size old)
               (fun q => mkState (off + fst q) (is_final (snd q)) [] [])
               (states sub) 0 (states n) []).
      - rewrite app_nil_r. exact A1.
      - unfold off. lia. }
    assert (B2 : next_state_id n2 = next_state_id n1).
    { unfold n2. apply (fold_left_invariant (fun m => next_state_id m = next_state_id n1));
        [|reflexivity].
      intros m q Hm. rewrite <- Hm. apply update_state_frame. }
    set (n3 := update_state 0 (add_epsilon_transition (off + s)) n2).
    assert (C1 : states n3
                 = (add_epsilon_transition (off + s) e
                      :: mkState 1 true [] [] :: branches 1 2 subs)
                   ++ map (fun q : nat * State => copied off size (fst q) (snd q))
                          (combine (seq 0 size) (states sub)) ++ []).
    { unfold n3.
      rewrite (update_in_segment [] [e]
                 (mkState 1 true [] [] :: branches 1 2 subs
                    ++ map (fun q : nat * State => copied off size (fst q) (snd q))
                           (combine (seq 0 size) (states sub)) ++ []) 0 e);
        [reflexivity|rewrite B1, E; reflexivity|reflexivity]. }
    assert (C2 : next_state_id n3 = next_state_id n2) by apply update_state_frame.
    destruct (exit_segment off 1 (fun q => copied off size (fst q) (snd q)) (states sub) 0
                (add_epsilon_transition (off + s) e
                   :: mkState 1 true [] [] :: branches 1 2 subs) [] n3 C1)
      as [D1 D2].
    { cbn [List.length]. rewrite length_branches. unfold off. rewrite E.
      cbn [List.length]. rewrite length_branches. lia. }
    fold size in D1, D2.
    eexists. exists (subs ++ [sub]). split; [reflexivity|].
    assert (Hoff : off = 2 + List.length (flat_map states subs)).
    { unfold off. rewrite E. cbn [List.length]. rewrite length_branches. reflexivity. }
    split; [|split].
    + exists (add_epsilon_transition (off + s) e). split; [|split; [exact T|split; [exact F|]]].
      * rewrite D1, app_nil_r, branches_snoc, <- Hoff. reflexivity.
      * intros t. rewrite eps_add_epsilon, H. split.
        -- intros [[[-> Hs']|(pre & sub' & post & s' & Ep & Es' & ->)]| ->].
           ++ auto.
           ++ right. exists pre, sub', (post ++ [sub]), s'.
              rewrite Ep, <- app_assoc. auto.
           ++ right. exists subs, sub, [], s. rewrite Hoff. auto.
        -- intros [[-> [Hs'|Hd]]|(pre & sub' & post & s' & Ep & Es' & ->)];
             [auto|discriminate|].
           destruct post as [|x post] using rev_ind.
           ++ apply app_inj_tail in Ep. destruct Ep as [<- <-].
              rewrite Es in Es'. inversion Es'; subst s'. right. rewrite Hoff. reflexivity.
           ++ rewrite app_comm_cons, app_assoc in Ep. apply app_inj_tail in Ep.
              destruct Ep as [-> <-]. left. right. exists pre, sub', post, s'. auto.
    + rewrite D2, C2, B2, A2, D1, !length_app, length_map, length_combine, length_seq.
      cbn [List.length]. rewrite length_branches, Nat.min_id, Hoff. unfold size. lia.
    + right. split; [discriminate|]. exists sub. auto.
Qed.

End BranchFacts.

(** *** The inputs an alternation accepts *)

Section AlternationPaths.
Import NFA_py Vocabulary.
Variable subs : list NFA.
Variable N : NFA.
Variable skip : Prop.
Hypothesis Hsubs : Forall built subs.
Hypothesis HN : branched skip subs N.
Hypothesis Hstart : start_state N = Some 0.

Lemma leaving_spec (end_ off : nat) (sub : NFA) (i : nat) (st : State) :
  state_ok (List.length (states sub)) st ->
  (forall l t, edge (leaving end_ off sub i st) l t
               <-> exists t0, t = off + t0 /\ edge st l t0) /\
  (forall t, In t (epsilon_transitions (leaving end_ off sub i st))
             <-> (exists t0, t = off + t0 /\ In t0 (epsilon_transitions st)) \/
                 (is_final st = true /\ t = end_)) /\
  is_final (leaving end_ off sub i st) = false.
Proof.
  intros Hok. destruct (copied_spec off (List.length (states sub)) i st Hok) as (H1 & H2 & H3).
  unfold leaving. destruct (is_final st) eqn:Hf.
  - split; [|split; [|reflexivity]].
    + intros l t. rewrite <- H1. reflexivity.
    + intros t. rewrite eps_add_epsilon. cbn [set_is_final epsilon_transitions].
      rewrite H2. split.
      * intros [Hx| ->]; auto.
      * intros [Hx|[_ ->]]; auto.
  - split; [exact H1|]. split; [|congruence].
    intros t. rewrite H2. split; [auto|]. intros [Hx|[Hd _]]; [assumption|discriminate].
Qed.

Lemma nth_branches (end_ : nat) (pre : list NFA) :
  forall base sub post i st,
    nth_error (states sub) i = Some st ->
    nth_error (branches end_ base (pre ++ sub :: post))
              (List.length (flat_map states pre) + i)
    = Some (leaving end_ (base + List.length (flat_map states pre)) sub i st).
Proof.
  induction pre as [|a pre IH]; intros base sub post i st E.
  - cbn [app flat_map List.length Nat.add branches]. rewrite Nat.add_0_r.
    assert (Hlt : i < List.length (states sub)) by (apply nth_error_Some; congruence).
    rewrite nth_error_app1 by (rewrite length_map, length_indexed; assumption).
    unfold indexed. rewrite nth_error_map, nth_error_combine_seq, E. reflexivity.
  - cbn [app flat_map branches]. rewrite length_app.
    rewrite nth_error_app2 by (rewrite length_map, length_indexed; lia).
    rewrite length_map, length_indexed.
    replace (List.length (states a) + List.length (flat_map states pre) + i
             - List.length (states a))
      with (List.length (flat_map states pre) + i) by lia.
    rewrite (IH _ _ _ _ _ E). rewrite Nat.add_assoc. reflexivity.
Qed.

Lemma branch_built (pre post : list NFA) (sub : NFA) :
  subs = pre ++ sub :: post -> built sub.
Proof.
  intros E. rewrite Forall_forall in Hsubs. apply Hsubs. rewrite E.
  apply in_or_app. right. left. reflexivity.
Qed.

Lemma branch_state (pre post : list NFA) (sub : NFA) (i : nat) (st : State) :
  subs = pre ++ sub :: post -> nth_error (states sub) i = Some st ->
  nth_error (states N) (2 + List.length (flat_map states pre) + i)
  = Some (leaving 1 (2 + List.length (flat_map states pre)) sub i st).
Proof.
  intros E Hi. destruct HN as (e & EN & _). rewrite EN, E.
  cbn [Nat.add nth_error]. apply (nth_branches 1 pre 2). assumption.
Qed.

Lemma branch_path (pre post : list NFA) (sub : NFA) :
  subs = pre ++ sub :: post ->
  forall i w j, reads sub i w j -> i < List.length (states sub) ->
    reads N (2 + List.length (flat_map states pre) + i) w
          (2 + List.length (flat_map states pre) + j).
Proof.
  intros E. pose proof (branch_built _ _ _ E) as Hb.
  induction 1 as [x|x y z s [st [Ex Hy]] Hr IH|x y z c s Hc Hr IH]; intros Hlt.
  - constructor.
  - pose proof (built_state _ _ _ Hb Ex) as Hok.
    apply reads_eps with (2 + List.length (flat_map states pre) + y).
    + eexists. split; [apply (branch_state _ _ _ _ _ E Ex)|].
      apply (leaving_spec _ _ _ _ _ Hok). left. exists y. auto.
    + apply IH. eapply state_ok_eps; eassumption.
  - apply char_step_edge in Hc. destruct Hc as [st [l [Ex [He Hm]]]].
    pose proof (built_state _ _ _ Hb Ex) as Hok.
    apply reads_char with (2 + List.length (flat_map states pre) + y).
    + apply char_step_edge. eexists. exists l.
      split; [apply (branch_state _ _ _ _ _ E Ex)|]. split; [|assumption].
      apply (leaving_spec _ _ _ _ _ Hok). exists y. auto.
    + apply IH. eapply state_ok_edge; eassumption.
Qed.

Lemma alternation_complete (w : string) :
  (skip /\ w = ""%string) \/ (exists sub, In sub subs /\ accepts sub w) -> accepts N w.
Proof.
  intros H. pose proof HN as (e & EN & T & F & He).
  exists 0, 1, (mkState 1 true [] []). split; [exact Hstart|]. split;
    [|rewrite EN; auto].
  destruct H as [[Hskip ->]|(sub & Hin & Hacc)].
  - eapply reads_eps; [|constructor]. exists e. rewrite EN. split; [reflexivity|].
    apply He. auto.
  - apply in_split in Hin. destruct Hin as (pre & post & E).
    pose proof (branch_built _ _ _ E) as Hb.
    pose proof Hb as [_ (s & f & Es & Ef & Hs & Hf & Hone)].
    apply (accepts_reads _ _ _ _ Es Hf Hone) in Hacc.
    destruct (nth_error (states sub) f) as [st|] eqn:Est;
      [|apply nth_error_None in Est; lia].
    pose proof (built_state _ _ _ Hb Est) as Hok.
    apply reads_eps with (2 + List.length (flat_map states pre) + s).
    { exists e. rewrite EN. split; [reflexivity|]. apply He. right.
      exists pre, sub, post, s. auto. }
    rewrite <- (string_app_nil_r w).
    apply reads_app with (2 + List.length (flat_map states pre) + f).
    { apply (branch_path _ _ _ E); assumption. }
    eapply reads_eps; [|constructor].
    eexists. split; [apply (branch_state _ _ _ _ _ E Est)|].
    apply (leaving_spec _ _ _ _ _ Hok). right. split; [|reflexivity].
    assert (Hz : nth_error (map is_final (states sub)) f = Some (is_final st))
      by (rewrite nth_error_map, Est; reflexivity).
    apply Hone in Hz. apply Hz. reflexivity.
Qed.

Lemma alternation_sound (x : nat) (w : string) (z : nat) :
  reads N x w z ->
  forall stz, nth_error (states N) z = Some stz -> is_final stz = true ->
    (forall pre sub post i,
       subs = pre ++ sub :: post -> x = 2 + List.length (flat_map states pre) + i ->
       i < List.length (states sub) ->
       exists f, final_state sub = Some f /\ reads sub i w f) /\
    (x = 0 -> (skip /\ w = ""%string) \/ exists sub, In sub subs /\ accepts sub w) /\
    (x = 1 -> w = ""%string).
Proof.
  pose proof HN as (e & EN & Te & Fe & He).
  assert (E0 : nth_error (states N) 0 = Some e) by (rewrite EN; reflexivity).
  assert (E1 : nth_error (states N) 1 = Some (mkState 1 true [] []))
    by (rewrite EN; reflexivity).
  induction 1 as [x|x y z w [stx [Ex Hy]] Hr IH|x y z c w Hc Hr IH];
    intros stz Ez Hfin.
  - split; [|split].
    + intros pre sub post i E -> Hlt. exfalso.
      pose proof (branch_built _ _ _ E) as Hb.
      destruct (nth_error (states sub) i) as [st|] eqn:Est;
        [|apply nth_error_None in Est; lia].
      pose proof (built_state _ _ _ Hb Est) as Hok.
      rewrite (branch_state _ _ _ _ _ E Est) in Ez. inversion Ez; subst stz.
      destruct (leaving_spec 1 (2 + List.length (flat_map states pre)) sub i st Hok)
        as (_ & _ & Hflag).
      congruence.
    + intros ->. rewrite E0 in Ez. inversion Ez; subst stz. congruence.
    + reflexivity.
  - destruct (IH stz Ez Hfin) as (IH1 & IH2 & IH3). split; [|split].
    + intros pre sub post i E -> Hlt.
      pose proof (branch_built _ _ _ E) as Hb.
      destruct (nth_error (states sub) i) as [st|] eqn:Est;
        [|apply nth_error_None in Est; lia].
      pose proof (built_state _ _ _ Hb Est) as Hok.
      rewrite (branch_state _ _ _ _ _ E Est) in Ex. inversion Ex; subst stx.
      apply (leaving_spec _ _ _ _ _ Hok) in Hy.
      destruct Hy as [(t0 & -> & Ht0)|[Hf ->]].
      * destruct (IH1 pre sub post t0 E eq_refl (state_ok_eps _ _ _ Hok Ht0))
          as (f & Ef & Hrf).
        exists f. split; [assumption|]. eapply reads_eps; [|exact Hrf]. exists st. auto.
      * rewrite (IH3 eq_refl).
        destruct Hb as [_ (s & f & Es & Ef & Hs & Hf' & Hone)].
        assert (Hz : nth_error (map is_final (states sub)) i = Some true)
          by (rewrite nth_error_map, Est; simpl; congruence).
        apply Hone in Hz. destruct Hz as [Hz _]. specialize (Hz eq_refl). subst i.
        exists f. split; [assumption|constructor].
    + intros ->. rewrite E0 in Ex. inversion Ex; subst stx. apply He in Hy.
      destruct Hy as [[-> Hskip]|(pre & sub & post & s & E & Es & ->)].
      * left. split; [assumption|]. apply IH3. reflexivity.
      * pose proof (branch_built _ _ _ E) as Hb.
        destruct Hb as [_ (s' & f & Es' & Ef & Hs & Hf & Hone)].
        rewrite Es in Es'. inversion Es'; subst s'.
        destruct (IH1 pre sub post s E eq_refl Hs) as (f' & Ef' & Hrf).
        rewrite Ef in Ef'. inversion Ef'; subst f'.
        right. exists sub. split; [rewrite E; apply in_or_app; right; left; reflexivity|].
        apply (accepts_reads _ _ _ _ Es Hf Hone). assumption.
    + intros ->. rewrite E1 in Ex. inversion Ex; subst stx. destruct Hy.
  - destruct (IH stz Ez Hfin) as (IH1 & IH2 & IH3).
    apply char_step_edge in Hc. destruct Hc as (stx & l & Ex & Hedge & Hm).
    split; [|split].
    + intros pre sub post i E -> Hlt.
      pose proof (branch_built _ _ _ E) as Hb.
      destruct (nth_error (states sub) i) as [st|] eqn:Est;
        [|apply nth_error_None in Est; lia].
      pose proof (built_state _ _ _ Hb Est) as Hok.
      rewrite (branch_state _ _ _ _ _ E Est) in Ex. inversion Ex; subst stx.
      apply (leaving_spec _ _ _ _ _ Hok) in Hedge. destruct Hedge as (t0 & -> & Ht0).
      destruct (IH1 pre sub post t0 E eq_refl (state_ok_edge _ _ _ _ Hok Ht0))
        as (f & Ef & Hrf).
      exists f. split; [assumption|]. eapply reads_char; [|exact Hrf].
      apply char_step_edge. exists st, l. auto.
    + intros ->. rewrite E0 in Ex. inversion Ex; subst stx.
      destruct Hedge as (ts & Hin & _). rewrite Te in Hin. destruct Hin.
    + intros ->. rewrite E1 in Ex. inversion Ex; subst stx.
      destruct Hedge as (ts & Hin & _). destruct Hin.
Qed.

Lemma alternation_paths (w : string) :
  accepts N w <-> (skip /\ w = ""%string) \/ exists sub, In sub subs /\ accepts sub w.
Proof.
  split; [|apply alternation_complete].
  intros (x & z & stz & Ex & Hr & Ez & Hfin).
  rewrite Hstart in Ex. inversion Ex; subst x.
  apply (alternation_sound _ _ _ Hr stz Ez Hfin). reflexivity.
Qed.

End AlternationPaths.

Section AlternationLanguage.
Import NFA_py Vocabulary.

Lemma alternatives_branched (todo : list (list NFA)) :
  forall done n subs,
    Forall (Forall built) todo -> Forall built subs ->
    branched (In [] done) subs n -> next_state_id n = List.length (states n) ->
    (forall w, (exists sub, In sub subs /\ accepts sub w)
               <-> exists alt, In alt done /\ alt <> [] /\ splits alt w) ->
    exists n' subs',
      fold_left (fun acc alternative => a <- acc ;; add_alternative 0 1 alternative a)
                (map (map Ok) todo) (Ok n) = Ok n' /\
      Forall built subs' /\ branched (In [] (done ++ todo)) subs' n' /\
      (forall w, (exists sub, In sub subs' /\ accepts sub w)
                 <-> exists alt, In alt (done ++ todo) /\ alt <> [] /\ splits alt w).
Proof.
  induction todo as [|alt todo IH]; intros done n subs Htodo Hsubs Hbr Hid Hlang.
  - exists n, subs. rewrite app_nil_r. auto.
  - inversion Htodo as [|? ? Halt Hrest]; subst.
    destruct (add_alternative_branched _ subs alt n Halt Hbr Hid)
      as (n1 & subs1 & E1 & Hbr1 & Hid1 & Hcase).
    cbn [map fold_left bind]. rewrite E1.
    destruct (IH (done ++ [alt]) n1 subs1 Hrest) as (n' & subs' & E' & Hs' & Hbr' & Hl').
    + destruct Hcase as [[_ ->]|(_ & sub & -> & Hsub & _)]; [assumption|].
      apply Forall_app. split; [assumption|]. constructor; [assumption|constructor].
    + eapply branched_iff; [|exact Hbr1]. rewrite in_app_iff. simpl.
      split; intros [H|H]; auto; destruct H as [H|[]]; auto.
    + assumption.
    + intros w. destruct Hcase as [[-> ->]|(Hne & sub & -> & Hsub & Hsl)].
      * rewrite Hlang. split.
        -- intros (a & Hin & Ha). exists a. rewrite in_app_iff. tauto.
        -- intros (a & Hin & Hne & Ha). exists a. apply in_app_iff in Hin.
           destruct Hin as [Hin|[<-|[]]]; [auto|contradiction].
      * split.
        -- intros (x & Hin & Hx). apply in_app_iff in Hin. destruct Hin as [Hin|[<-|[]]].
           ++ destruct (proj1 (Hlang w)) as (a & Ha1 & Ha2); [eauto|].
              exists a. rewrite in_app_iff. tauto.
           ++ exists alt. rewrite in_app_iff. simpl. apply Hsl in Hx. tauto.
        -- intros (a & Hin & Hne' & Ha). apply in_app_iff in Hin.
           destruct Hin as [Hin|[<-|[]]].
           ++ destruct (proj2 (Hlang w)) as (x & Hx1 & Hx2); [eauto|].
              exists x. rewrite in_app_iff. tauto.
           ++ exists sub. rewrite in_app_iff. simpl. apply Hsl in Ha. tauto.
    + exists n', subs'. rewrite <- app_assoc in Hbr', Hl'. auto.
Qed.

Lemma alternation_spec (alts : list (list NFA)) :
  Forall (Forall built) alts ->
  exists n, _build_alternation (map (map Ok) alts) empty_NFA = Ok n /\ built n /\
            forall w, accepts n w <-> exists alt, In alt alts /\ splits alt w.
Proof.
  intros Halts.
  destruct (build_alternation_built (map (map Ok) alts)) as [n [E Hb]].
  { apply Forall_map. eapply Forall_impl; [|exact Halts]. intros alt Halt.
    apply Forall_map. eapply Forall_impl; [|exact Halt]. intros a Ha. exists a. auto. }
  exists n. split; [exact E|]. split; [exact Hb|].
  revert E. unfold _build_alternation.
  cbn [create_state empty_NFA states next_state_id start_state final_state final_states
       List.length app].
  set (n2 := mkNFA _ _ _ _ _).
  destruct (alternatives_branched alts [] n2 [] Halts) as (n3 & subs & E3 & Hs & Hbr & Hl).
  - constructor.
  - exists (mkState 0 false [] []). repeat split; try reflexivity.
    + intros [].
    + intros [[_ []]|(pre & sub & post & s & E & _)]. destruct pre; discriminate.
  - reflexivity.
  - intros w. split.
    + intros (sub & [] & _).
    + intros (alt & [] & _).
  - rewrite E3. cbn [bind app]. intros E. inversion E; subst n. clear E.
    cbn [app] in Hbr, Hl. intros w.
    rewrite (alternation_paths subs (set_endpoints (Some 0) (Some 1) n3) (In [] alts)
               Hs Hbr eq_refl w).
    rewrite Hl. split.
    + intros [[Hin ->]|(alt & Hin & _ & Hsp)]; [exists []; split; [assumption|reflexivity]|].
      exists alt. auto.
    + intros (alt & Hin & Hsp). destruct alt as [|a alt].
      * left. auto.
      * right. exists (a :: alt). repeat split; [assumption|discriminate|assumption].
Qed.

(** X19.  Alternation composes the languages: [_build_alternation] on
    alternatives made of built automata returns a built automaton, which
    accepts exactly the inputs that one of the alternatives accepts, an
    alternative accepting the inputs that split into one input of each of
    its automata, in order. *)
Theorem alternation_language (alts : list (list NFA)) :
  Forall (Forall built) alts ->
  exists n, _build_alternation (map (map Ok) alts) empty_NFA = Ok n /\ built n /\
            forall w, accepts n w <-> exists alt, In alt alts /\ splits alt w.
Proof. apply alternation_spec. Qed.

End AlternationLanguage.

(** The alternation of the automata of [a] and of [b] accepts [b]. *)
Lemma alternation_language_witness :
  exists n,
    NFA_py._build_alternation
      (map (map Ok) [[NFA_py.basic_fragment (Some "a"%string) NFA_py.empty_NFA];
                     [NFA_py.basic_fragment (Some "b"%string) NFA_py.empty_NFA]])
      NFA_py.empty_NFA = Ok n /\
    (Vocabulary.accepts n "b"
     <-> exists alt,
           In alt [[NFA_py.basic_fragment (Some "a"%string) NFA_py.empty_NFA];
                   [NFA_py.basic_fragment (Some "b"%string) NFA_py.empty_NFA]] /\
           Vocabulary.splits alt "b").
Proof.
  destruct (alternation_language
              [[NFA_py.basic_fragment (Some "a"%string) NFA_py.empty_NFA];
               [NFA_py.basic_fragment (Some "b"%string) NFA_py.empty_NFA]])
    as [n [E [_ H]]].
  - constructor; [|constructor; [|constructor]]; (constructor; [|constructor]);
      apply basic_fragment_built; right; left.
    + exists "a"%char. reflexivity.
    + exists "b"%char. reflexivity.
  - exists n. split; [exact E|apply H].
Defined.

(** ** The inputs of an expression *)

Section LanguageFacts.
Import RegexCompiler_py NFA_py Vocabulary.

Lemma repeats_star (n : NFA) (L : string -> Prop) :
  (forall w, accepts n w <-> L w) -> forall w, repeats n w <-> star L w.
Proof.
  intros H w. split.
  - induction 1 as [|w1 w2 H1 H2 IH]; constructor; [apply H|]; assumption.
  - induction 1 as [|w1 w2 H1 H2 IH]; constructor; [apply H|]; assumption.
Qed.

Lemma accepts_basic_fragment (l : label) (w : string) :
  builder_label l ->
  (accepts (basic_fragment l empty_NFA) w
   <-> exists c, w = str1 c /\ label_matches l c = Ok true).
Proof.
  intros Hl.
  pose proof (match_basic_fragment l w (fun c => builder_label_matches l c Hl)) as Hm.
  destruct w as [|c [|c' rest]].
  - rewrite <- (match_correct _ _ _ Hm). split; [discriminate|].
    intros (c & E & _). discriminate.
  - destruct (builder_label_matches l c Hl) as [b Eb]. rewrite Eb in Hm.
    rewrite <- (match_correct _ _ _ Hm). split.
    + intros ->. exists c. split; [reflexivity|exact Eb].
    + intros (c0 & E & H). inversion E; subst c0. congruence.
  - rewrite <- (match_correct _ _ _ Hm). split; [discriminate|].
    intros (c0 & E & _). discriminate.
Qed.

Lemma char_language (t : NodeType) (v : option string)
  (ps : list (string * ParamValue)) (ch : list (list ExprNode)) (w : string) :
  char_ok v = true ->
  (accepts (_build_basic_node_char (mkExprNode t v ps ch) empty_NFA) w <-> v = Some w).
Proof.
  intros Hv. unfold _build_basic_node_char. cbn [value].
  destruct v as [[|a [|b r]]|]; try discriminate.
  - change (option_eqb String.eqb (Some (String a EmptyString)) (Some "."%string))
      with (String.eqb (str1 a) (str1 ".")).
    rewrite str1_eqb. destruct (Ascii.eqb a ".") eqn:Ea.
    + apply Ascii.eqb_eq in Ea. subst a.
      rewrite accepts_basic_fragment by (right; right; left; reflexivity). split.
      * intros (c & -> & H). rewrite label_matches_escaped_dot in H.
        inversion H as [Hc]. apply Ascii.eqb_eq in Hc. subst c. reflexivity.
      * intros E. inversion E; subst w. exists "."%char. split; [reflexivity|].
        apply label_matches_escaped_dot.
    + rewrite accepts_basic_fragment by (right; left; exists a; reflexivity). split.
      * intros (c & -> & H). change (String a EmptyString) with (str1 a) in H.
        rewrite label_matches_char, Ea in H. inversion H as [Hc].
        apply Ascii.eqb_eq in Hc. subst c. reflexivity.
      * intros E. inversion E; subst w. exists a. split; [reflexivity|].
        change (String a EmptyString) with (str1 a).
        rewrite label_matches_char, Ea, Ascii.eqb_refl. reflexivity.
  - change (option_eqb String.eqb None (Some "."%string)) with false. cbv iota.
    rewrite accepts_basic_fragment by (left; reflexivity). split; [|discriminate].
    intros (c & _ & H). rewrite label_matches_None in H. discriminate.
Qed.

Lemma any_language (node : ExprNode) (w : string) :
  accepts (_build_basic_node_any node empty_NFA) w <-> exists c, w = str1 c.
Proof.
  unfold _build_basic_node_any.
  rewrite accepts_basic_fragment by (right; left; exists "."%char; reflexivity). split.
  - intros (c & E & _). exists c. assumption.
  - intros (c & E). exists c. split; [assumption|]. apply (label_matches_char "." c).
Qed.

Lemma range_language (t : NodeType) (v : option string)
  (ps : list (string * ParamValue)) (ch : list (list ExprNode)) :
  range_ok ps = true ->
  exists n,
    _build_basic_node_range (mkExprNode t v ps ch) empty_NFA = Ok n /\ built n /\
    forall w, accepts n w
              <-> exists c lo hi,
                    w = str1 c /\
                    dict_get String.eqb PARAM_RANGE_START ps = Some (PInt lo) /\
                    dict_get String.eqb PARAM_RANGE_END ps = Some (PInt hi) /\
                    lo <= nat_of_ascii c <= hi.
Proof.
  unfold range_ok, _build_basic_node_range, chr_param.
  cbn [create_state empty_NFA states next_state_id params].
  change (dict_get String.eqb "start" ps) with (dict_get String.eqb PARAM_RANGE_START ps).
  change (dict_get String.eqb "end" ps) with (dict_get String.eqb PARAM_RANGE_END ps).
  destruct (dict_get String.eqb PARAM_RANGE_START ps) as [[|lo]|]; try discriminate.
  destruct (dict_get String.eqb PARAM_RANGE_END ps) as [[|hi]|]; try discriminate.
  intros Hr. apply andb_true_iff in Hr. destruct Hr as [Hle Hlt].
  apply Nat.leb_le in Hle. apply Nat.ltb_lt in Hlt.
  eexists. split; [reflexivity|].
  assert (Hl : builder_label (Some (range_label (ascii_of_nat lo) (ascii_of_nat hi))))
    by (right; right; right; eauto).
  split; [apply (basic_fragment_built _ Hl)|].
  intros w.
  change (accepts (basic_fragment
                     (Some (range_label (ascii_of_nat lo) (ascii_of_nat hi))) empty_NFA) w
          <-> exists c lo0 hi0,
                w = str1 c /\ Some (PInt lo) = Some (PInt lo0) /\
                Some (PInt hi) = Some (PInt hi0) /\ lo0 <= nat_of_ascii c <= hi0).
  rewrite (accepts_basic_fragment _ w Hl). split.
  - intros (c & E & H). rewrite label_matches_range in H.
    rewrite !nat_ascii_embedding in H by lia. inversion H as [Hc].
    apply andb_true_iff in Hc. destruct Hc as [H1 H2].
    apply Nat.leb_le in H1. apply Nat.leb_le in H2.
    exists c, lo, hi. auto.
  - intros (c & lo0 & hi0 & E & E1 & E2 & H1 & H2).
    inversion E1; inversion E2; subst lo0 hi0.
    exists c. split; [assumption|]. rewrite label_matches_range.
    rewrite !nat_ascii_embedding by lia.
    apply Nat.leb_le in H1. apply Nat.leb_le in H2. rewrite H1, H2. reflexivity.
Qed.

Lemma quantified_language (q : ParamValue) (n : NFA) (L : string -> Prop) :
  built n -> (forall w, accepts n w <-> L w) ->
  forall w, accepts (_apply_quantifier q n) w <-> quantify q L w.
Proof.
  intros Hb HL w. destruct (quantifier_cases n Hb) as (H1 & H2 & H3).
  unfold quantify. destruct q as [c|i].
  - destruct (String.eqb c "?") eqn:E1.
    { apply String.eqb_eq in E1. subst c. rewrite H1, HL. reflexivity. }
    destruct (String.eqb c "*") eqn:E2.
    { apply String.eqb_eq in E2. subst c. rewrite H2. apply repeats_star. assumption. }
    destruct (String.eqb c "+") eqn:E3.
    { apply String.eqb_eq in E3. subst c. rewrite H3. split.
      - intros (w1 & w2 & E & Ha & Hr). exists w1, w2. split; [assumption|].
        split; [apply HL; assumption|]. apply (repeats_star n L HL). assumption.
      - intros (w1 & w2 & E & Ha & Hr). exists w1, w2. split; [assumption|].
        split; [apply HL; assumption|]. apply (repeats_star n L HL). assumption. }
    split; [|intros []]. apply (quantifier_other (PStr c) n Hb). auto.
  - split; [|intros []]. apply (quantifier_other (PInt i) n Hb). exact I.
Qed.

(** The automata of a sequence of nodes. *)
Lemma sequence_automata (P : ExprNode -> Prop) (alt : list ExprNode) :
  (forall x, P x -> well_formed x = true ->
             exists n, NFA_of x = Ok n /\ built n /\ forall w, accepts n w <-> language x w) ->
  Forall P alt -> forallb well_formed alt = true ->
  exists sub,
    map NFA_of alt = map Ok sub /\ Forall built sub /\
    forall w, splits sub w <-> in_sequence language alt w.
Proof.
  intros HP. induction alt as [|x alt IH]; intros Hall Hwf.
  - exists []. repeat split; auto.
  - inversion Hall as [|? ? Hx Hrest]; subst.
    simpl in Hwf. apply andb_true_iff in Hwf. destruct Hwf as [Hwx Hwf].
    destruct (HP x Hx Hwx) as (n & En & Bn & Ln).
    destruct (IH Hrest Hwf) as (sub & Es & Bs & Ls).
    exists (n :: sub). cbn [map]. rewrite En, Es.
    split; [reflexivity|]. split; [constructor; assumption|].
    intros w. cbn [splits in_sequence]. split.
    + intros (w1 & w2 & E & H1 & H2). exists w1, w2.
      split; [assumption|]. split; [apply Ln|apply Ls]; assumption.
    + intros (w1 & w2 & E & H1 & H2). exists w1, w2.
      split; [assumption|]. split; [apply Ln|apply Ls]; assumption.
Qed.

(** The automata of the alternatives of a node. *)
Lemma children_automata (P : ExprNode -> Prop) (ch : list (list ExprNode)) :
  (forall x, P x -> well_formed x = true ->
             exists n, NFA_of x = Ok n /\ built n /\ forall w, accepts n w <-> language x w) ->
  Forall (Forall P) ch -> forallb (forallb well_formed) ch = true ->
  exists subs,
    Forall2 (fun alt sub =>
               map NFA_of alt = map Ok sub /\
               forall w, splits sub w <-> in_sequence language alt w) ch subs /\
    map (map NFA_of) ch = map (map Ok) subs /\ Forall (Forall built) subs /\
    forall w, (exists sub, In sub subs /\ splits sub w) <-> in_alternatives language ch w.
Proof.
  intros HP. induction ch as [|alt ch IH]; intros Hall Hwf.
  - exists []. repeat split; try constructor.
    + intros (sub & [] & _).
    + intros [].
  - inversion Hall as [|? ? Halt Hrest]; subst.
    simpl in Hwf. apply andb_true_iff in Hwf. destruct Hwf as [Hwa Hwf].
    destruct (sequence_automata P alt HP Halt Hwa) as (sub & Es & Bs & Ls).
    destruct (IH Hrest Hwf) as (subs & F2 & Em & Bm & Lm).
    exists (sub :: subs). cbn [map]. rewrite Es, Em.
    split; [constructor; auto|]. split; [reflexivity|]. split; [constructor; assumption|].
    intros w. cbn [in_alternatives fold_right]. fold (in_alternatives language ch w).
    rewrite <- Lm, <- Ls. split.
    + intros (x & [<-|Hin] & Hx); [auto|]. right. exists x. auto.
    + intros [H|(x & Hin & Hx)]; [exists sub; simpl; auto|exists x; simpl; auto].
Qed.

Lemma group_language (ch : list (list ExprNode)) (subs : list (list NFA)) :
  Forall2 (fun alt sub =>
             map NFA_of alt = map Ok sub /\
             forall w, splits sub w <-> in_sequence language alt w) ch subs ->
  Forall (Forall built) subs ->
  (forall w, (exists sub, In sub subs /\ splits sub w) <-> in_alternatives language ch w) ->
  exists n,
    _build_basic_node_group (map (map Ok) subs) empty_NFA = Ok n /\ built n /\
    forall w, accepts n w
              <-> match ch with
                  | [] | [] :: _ => w = ""%string
                  | _ => in_alternatives language ch w
                  end.
Proof.
  intros F2 Hb Hl.
  destruct F2 as [|alt sub ch' subs' [Es Ls] F2'].
  - exists (empty_fragment empty_NFA). split; [reflexivity|].
    split; [apply empty_fragment_built|]. apply accepts_empty_fragment.
  - destruct alt as [|x alt].
    + destruct sub as [|n0 sub]; [|discriminate].
      exists (empty_fragment empty_NFA). split; [reflexivity|].
      split; [apply empty_fragment_built|]. apply accepts_empty_fragment.
    + destruct sub as [|n0 sub]; [discriminate|].
      destruct F2' as [|alt2 sub2 ch'' subs'' R2 F2''].
      * inversion Hb as [|? ? Hsub _]; subst.
        destruct (concatenation_spec (n0 :: sub) Hsub) as (n & E & Bn & Ln).
        exists n. split; [exact E|]. split; [exact Bn|].
        intros w. rewrite Ln, <- Hl. split.
        -- intros H. exists (n0 :: sub). simpl. auto.
        -- intros (y & [<-|[]] & Hy). assumption.
      * destruct (alternation_spec ((n0 :: sub) :: sub2 :: subs'') Hb) as (n & E & Bn & Ln).
        exists n. split; [exact E|]. split; [exact Bn|].
        intros w. rewrite Ln. apply Hl.
Qed.

Lemma builder_spec (node : ExprNode) :
  well_formed node = true ->
  exists n, NFA_of node = Ok n /\ built n /\ forall w, accepts n w <-> language node w.
Proof.
  induction node as [t v ps ch IH] using ExprNode_nested_ind. intros Hwf.
  change (well_formed (mkExprNode t v ps ch))
    with (match t with
          | UNKNOWN => false
          | Char => char_ok v
          | Range => range_ok ps
          | _ => true
          end && forallb (forallb well_formed) ch) in Hwf.
  apply andb_true_iff in Hwf. destruct Hwf as [Ht Hch].
  destruct (children_automata _ ch (fun x Hx => Hx) IH Hch) as (subs & F2 & Em & Bm & Lm).
  change (NFA_of (mkExprNode t v ps ch))
    with (_build_nfa (map (map NFA_of) ch) (mkExprNode t v ps ch) empty_NFA).
  change (language (mkExprNode t v ps ch))
    with (fun w => match dict_get String.eqb "quantifier" ps with
                   | Some q => quantify q (base_language language t v ps ch) w
                   | None => base_language language t v ps ch w
                   end).
  rewrite Em. unfold _build_nfa. cbn [type params].
  assert (H1 : exists n1,
             match t with
             | Char => Ok (_build_basic_node_char (mkExprNode t v ps ch) empty_NFA)
             | Any => Ok (_build_basic_node_any (mkExprNode t v ps ch) empty_NFA)
             | CharacterSet => _build_basic_node_set (map (map Ok) subs) empty_NFA
             | Range => _build_basic_node_range (mkExprNode t v ps ch) empty_NFA
             | Root | Group => _build_basic_node_group (map (map Ok) subs) empty_NFA
             | UNKNOWN => Ok empty_NFA
             end = Ok n1 /\ built n1 /\
             forall w, accepts n1 w <-> base_language language t v ps ch w).
  { unfold base_language. destruct t; try discriminate.
    - apply group_language; assumption.
    - eexists. split; [reflexivity|]. split; [apply build_char_built; exact Ht|].
      intros w. apply char_language. exact Ht.
    - apply group_language; assumption.
    - destruct (alternation_spec subs Bm) as (n & E & Bn & Ln).
      exists n. split; [exact E|]. split; [exact Bn|]. intros w. rewrite Ln. apply Lm.
    - apply range_language. exact Ht.
    - eexists. split; [reflexivity|]. split.
      + apply basic_fragment_built. right; left. exists "."%char. reflexivity.
      + intros w. apply any_language. }
  destruct H1 as (n1 & E1 & B1 & L1). rewrite E1. cbn [bind].
  destruct (dict_get String.eqb "quantifier" ps) as [q|].
  - eexists. split; [reflexivity|]. split; [apply apply_quantifier_built; assumption|].
    apply quantified_language; assumption.
  - exists n1. auto.
Qed.

End LanguageFacts.

Section LanguageTheorems.
Import RegexCompiler_py NFA_py Vocabulary.

(** X20.  The builder is compositional: on a well-formed tree [NFA(node)]
    does not fail, and its automaton accepts exactly the inputs of the tree:
    those of its node (a character, any character, a range of characters,
    one of its alternatives, each a sequence of inputs of its children; the
    empty input alone for a group without alternatives or whose first
    alternative is empty) under the quantifier of the node. *)
Theorem builder_language (node : ExprNode) :
  well_formed node = true ->
  exists n, NFA_of node = Ok n /\ built n /\ forall w, accepts n w <-> language node w.
Proof. apply builder_spec. Qed.

(** X21.  From the expression to the answer: when the parser accepts the
    expression, [regex_to_nfa] returns an automaton on which [match]
    answers for every input, and answers [True] exactly on the inputs of
    the tree the parser returned. *)
Theorem match_decides_language (regex_str : string) (ast : ExprNode)
  (input_string : string) :
  RegularCompiler regex_str = Ok ast ->
  exists n b,
    regex_to_nfa regex_str = Ok n /\ match_ n input_string = Ok b /\
    (b = true <-> language ast input_string).
Proof.
  intros Hp. pose proof (RegularCompiler_outcome regex_str) as Hwf. rewrite Hp in Hwf.
  destruct (builder_spec ast Hwf) as (n & En & Bn & Ln).
  destruct (match_total n input_string Bn) as [b Eb].
  exists n, b. unfold regex_to_nfa. rewrite Hp. cbn [bind].
  split; [exact En|]. split; [exact Eb|].
  rewrite (match_correct _ _ _ Eb). apply Ln.
Qed.

End LanguageTheorems.

(** The tree of [(a|b)*c]. *)
Lemma builder_language_witness :
  exists n,
    NFA_py.NFA_of
      (RegexCompiler_py.mkExprNode RegexCompiler_py.Root None []
         [[RegexCompiler_py.mkExprNode RegexCompiler_py.Group None
             [("quantifier"%string, RegexCompiler_py.PStr "*")]
             [[Vocabulary.literal "a"]; [Vocabulary.literal "b"]];
           Vocabulary.literal "c"]]) = Ok n /\
    (Vocabulary.accepts n "abc"
     <-> Vocabulary.language
           (RegexCompiler_py.mkExprNode RegexCompiler_py.Root None []
              [[RegexCompiler_py.mkExprNode RegexCompiler_py.Group None
                  [("quantifier"%string, RegexCompiler_py.PStr "*")]
                  [[Vocabulary.literal "a"]; [Vocabulary.literal "b"]];
                Vocabulary.literal "c"]]) "abc").
Proof.
  destruct (builder_language
              (RegexCompiler_py.mkExprNode RegexCompiler_py.Root None []
                 [[RegexCompiler_py.mkExprNode RegexCompiler_py.Group None
                     [("quantifier"%string, RegexCompiler_py.PStr "*")]
                     [[Vocabulary.literal "a"]; [Vocabulary.literal "b"]];
                   Vocabulary.literal "c"]]))
    as (n & E & _ & H).
  - reflexivity.
  - exists n. split; [exact E|apply H].
Defined.

(** The expression [a*b] and the input [aab]. *)
Lemma match_decides_language_witness :
  exists n b,
    NFA_py.regex_to_nfa "a*b" = Ok n /\ NFA_py.match_ n "aab" = Ok b /\
    (b = true
     <-> Vocabulary.language
           (RegexCompiler_py.mkExprNode RegexCompiler_py.Root None []
              [[RegexCompiler_py.mkExprNode RegexCompiler_py.Char (Some "a"%string)
                  [("quantifier"%string, RegexCompiler_py.PStr "*")] [];
                Vocabulary.literal "b"]]) "aab").
Proof.
  apply (match_decides_language "a*b"
           (RegexCompiler_py.mkExprNode RegexCompiler_py.Root None []
              [[RegexCompiler_py.mkExprNode RegexCompiler_py.Char (Some "a"%string)
                  [("quantifier"%string, RegexCompiler_py.PStr "*")] [];
                Vocabulary.literal "b"]]) "aab").
  reflexivity.
Defined.

(** ** The file of the minimized automaton *)

Section MinJsonFacts.
Import NFA_py DFA_py.

(** One transition more in the object [__min_to_json] builds. *)
Lemma min_to_json_step (start : string) (done : list transition)
  (acc : list (string * JEntry string)) (src tgt : DFA_State) (a : string) :
  dfa_id src <> "startingState"%string ->
  (dict_get String.eqb "startingState" acc = Some (JName start) /\
   (forall k, k <> "startingState"%string ->
      (dict_get String.eqb k acc = None
       <-> forall s t b, In (s, t, b) done -> dfa_id s <> k)) /\
   (forall k e, k <> "startingState"%string -> dict_get String.eqb k acc = Some e ->
      exists data,
        e = JObject data /\
        (forall b v, dict_get String.eqb b data = Some v ->
           (b = "isTerminatingState"%string /\ exists fin, v = JBool fin) \/
           exists s t, In (s, t, b) done /\ dfa_id s = k /\ v = JStr (dfa_id t)) /\
        (forall s t b, In (s, t, b) done -> dfa_id s = k ->
           dict_get String.eqb b data <> None))) ->
  let acc1 := match dict_get String.eqb (dfa_id src) acc with
              | Some _ => acc
              | None => dict_set String.eqb (dfa_id src)
                          (JObject [("isTerminatingState"%string, JBool (dfa_is_final src))])
                          acc
              end in
  let acc2 := match dict_get String.eqb (dfa_id src) acc1 with
              | Some (JObject data) =>
                  dict_set String.eqb (dfa_id src)
                    (JObject (dict_set String.eqb a (JStr (dfa_id tgt)) data)) acc1
              | _ => acc1
              end in
  dict_get String.eqb "startingState" acc2 = Some (JName start) /\
  (forall k, k <> "startingState"%string ->
     (dict_get String.eqb k acc2 = None
      <-> forall s t b, In (s, t, b) (done ++ [(src, tgt, a)]) -> dfa_id s <> k)) /\
  (forall k e, k <> "startingState"%string -> dict_get String.eqb k acc2 = Some e ->
     exists data,
       e = JObject data /\
       (forall b v, dict_get String.eqb b data = Some v ->
          (b = "isTerminatingState"%string /\ exists fin, v = JBool fin) \/
          exists s t, In (s, t, b) (done ++ [(src, tgt, a)]) /\ dfa_id s = k /\
                      v = JStr (dfa_id t)) /\
       (forall s t b, In (s, t, b) (done ++ [(src, tgt, a)]) -> dfa_id s = k ->
          dict_get String.eqb b data <> None)).
Proof.
  intros Hsrc (HA & HB & HC) acc1 acc2.
  assert (H1 : exists data,
             dict_get String.eqb (dfa_id src) acc1 = Some (JObject data) /\
             (forall k, k <> dfa_id src ->
                dict_get String.eqb k acc1 = dict_get String.eqb k acc) /\
             (forall b v, dict_get String.eqb b data = Some v ->
                (b = "isTerminatingState"%string /\ exists fin, v = JBool fin) \/
                exists s t, In (s, t, b) done /\ dfa_id s = dfa_id src /\
                            v = JStr (dfa_id t)) /\
             (forall s t b, In (s, t, b) done -> dfa_id s = dfa_id src ->
                dict_get String.eqb b data <> None)).
  { unfold acc1. destruct (dict_get String.eqb (dfa_id src) acc) as [e|] eqn:E.
    - destruct (HC _ _ Hsrc E) as (data & -> & H2 & H3).
      exists data. repeat split; auto.
    - eexists. split; [apply dict_get_set_same|]. split; [|split].
      + intros k Hk. apply dict_get_set_other. assumption.
      + intros b v Hb. simpl in Hb.
        destruct (String.eqb b "isTerminatingState") eqn:Eb; [|discriminate].
        apply String.eqb_eq in Eb. inversion Hb; subst. left. eauto.
      + intros s t b Hin Hs. exfalso. apply (proj1 (HB _ Hsrc) E s t b Hin Hs). }
  destruct H1 as (data & E1 & Hother & Hsound & Hfull).
  assert (E2 : acc2 = dict_set String.eqb (dfa_id src)
                        (JObject (dict_set String.eqb a (JStr (dfa_id tgt)) data)) acc1).
  { unfold acc2. rewrite E1. reflexivity. }
  rewrite E2. clear E2. split; [|split].
  - rewrite dict_get_set_other by congruence.
    rewrite Hother by congruence. exact HA.
  - intros k Hk. destruct (String.eqb_spec k (dfa_id src)) as [->|Hne].
    + rewrite dict_get_set_same. split; [discriminate|].
      intros H. exfalso. apply (H src tgt a); [|reflexivity].
      apply in_or_app. right. left. reflexivity.
    + rewrite dict_get_set_other, Hother, (HB k Hk) by assumption. split.
      * intros H s t b Hin. apply in_app_iff in Hin. destruct Hin as [Hin|[Heq|[]]].
        -- eapply H. eassumption.
        -- inversion Heq; subst. congruence.
      * intros H s t b Hin. apply (H s t b). apply in_or_app. left. assumption.
  - intros k e Hk. destruct (String.eqb_spec k (dfa_id src)) as [->|Hne].
    + rewrite dict_get_set_same. intros E. inversion E; subst e. clear E.
      eexists. split; [reflexivity|]. split.
      * intros b v Hb. destruct (String.eqb_spec b a) as [->|Hba].
        -- rewrite dict_get_set_same in Hb. inversion Hb; subst v.
           right. exists src, tgt. split; [|auto].
           apply in_or_app. right. left. reflexivity.
        -- rewrite dict_get_set_other in Hb by assumption.
           destruct (Hsound b v Hb) as [H|(s & t & Hin & Hs & Hv)]; [auto|].
           right. exists s, t. split; [apply in_or_app; auto|auto].
      * intros s t b Hin Hs. destruct (String.eqb_spec b a) as [->|Hba].
        -- rewrite dict_get_set_same. discriminate.
        -- rewrite dict_get_set_other by assumption.
           apply in_app_iff in Hin. destruct Hin as [Hin|[Heq|[]]].
           ++ eapply Hfull; eassumption.
           ++ inversion Heq; subst. congruence.
    + rewrite dict_get_set_other, Hother by assumption. intros E.
      destruct (HC k e Hk E) as (data' & -> & H2 & H3).
      exists data'. split; [reflexivity|]. split.
      * intros b v Hb. destruct (H2 b v Hb) as [H|(s & t & Hin & Hs & Hv)]; [auto|].
        right. exists s, t. split; [apply in_or_app; auto|auto].
      * intros s t b Hin Hs. apply in_app_iff in Hin. destruct Hin as [Hin|[Heq|[]]].
        -- eapply H3; eassumption.
        -- inversion Heq; subst. congruence.
Qed.

Lemma min_to_json_fold (start : string) (ts : list transition) :
  forall done acc,
    (forall s t b, In (s, t, b) ts -> dfa_id s <> "startingState"%string) ->
    (dict_get String.eqb "startingState" acc = Some (JName start) /\
     (forall k, k <> "startingState"%string ->
        (dict_get String.eqb k acc = None
         <-> forall s t b, In (s, t, b) done -> dfa_id s <> k)) /\
     (forall k e, k <> "startingState"%string -> dict_get String.eqb k acc = Some e ->
        exists data,
          e = JObject data /\
          (forall b v, dict_get String.eqb b data = Some v ->
             (b = "isTerminatingState"%string /\ exists fin, v = JBool fin) \/
             exists s t, In (s, t, b) done /\ dfa_id s = k /\ v = JStr (dfa_id t)) /\
          (forall s t b, In (s, t, b) done -> dfa_id s = k ->
             dict_get String.eqb b data <> None))) ->
    let json :=
      fold_left (fun acc (t : transition) =>
               match t with
               | (src_state, target_state, action) =>
                   let acc1 :=
                     match dict_get String.eqb (dfa_id src_state) acc with
                     | Some _ => acc
                     | None => dict_set String.eqb (dfa_id src_state)
                                 (JObject [("isTerminatingState"%string,
                                            JBool (dfa_is_final src_state))])
                                 acc
                     end in
                   match dict_get String.eqb (dfa_id src_state) acc1 with
                   | Some (JObject data) =>
                       dict_set String.eqb (dfa_id src_state)
                         (JObject (dict_set String.eqb action (JStr (dfa_id target_state)) data))
                         acc1
                   | _ => acc1
                   end
               end) ts acc in
    dict_get String.eqb "startingState" json = Some (JName start) /\
    (forall k, k <> "startingState"%string ->
       (dict_get String.eqb k json = None
        <-> forall s t b, In (s, t, b) (done ++ ts) -> dfa_id s <> k)) /\
    (forall k e, k <> "startingState"%string -> dict_get String.eqb k json = Some e ->
       exists data,
         e = JObject data /\
         (forall b v, dict_get String.eqb b data = Some v ->
            (b = "isTerminatingState"%string /\ exists fin, v = JBool fin) \/
            exists s t, In (s, t, b) (done ++ ts) /\ dfa_id s = k /\ v = JStr (dfa_id t)) /\
         (forall s t b, In (s, t, b) (done ++ ts) -> dfa_id s = k ->
            dict_get String.eqb b data <> None)).
Proof.
  induction ts as [|[[src tgt] a] ts IH]; intros done acc Hts Hinv.
  - cbn [fold_left]. rewrite app_nil_r. exact Hinv.
  - cbn [fold_left].
    pose proof (min_to_json_step start done acc src tgt a
                  (Hts src tgt a (or_introl eq_refl)) Hinv) as Hstep.
    cbv zeta in Hstep.
    specialize (IH (done ++ [(src, tgt, a)]) _
                   (fun s t b H => Hts s t b (or_intror H)) Hstep).
    cbv zeta in IH. rewrite <- app_assoc in IH. exact IH.
Qed.

(** X22.  The file of the minimized automaton, when no state is named
    [startingState]: it holds the id of the start state, and one object for
    each id that is the source of a transition, and for no other id; the
    object of a source holds, for each action of a transition that leaves
    it, the id of the target of such a transition, and nothing else but
    [isTerminatingState].  A state that no transition leaves, accepting or
    not, is not in the file. *)
Theorem min_to_json_entries (d : DFA) :
  (forall s t b, In (s, t, b) (dfa_transitions d) -> dfa_id s <> "startingState"%string) ->
  dict_get String.eqb "startingState" (__min_to_json d)
  = Some (JName (dfa_id (dfa_start_state d))) /\
  (forall k, k <> "startingState"%string ->
     (dict_get String.eqb k (__min_to_json d) = None
      <-> forall s t b, In (s, t, b) (dfa_transitions d) -> dfa_id s <> k)) /\
  (forall k e, k <> "startingState"%string ->
     dict_get String.eqb k (__min_to_json d) = Some e ->
     exists data,
       e = JObject data /\
       (forall b v, dict_get String.eqb b data = Some v ->
          (b = "isTerminatingState"%string /\ exists fin, v = JBool fin) \/
          exists s t, In (s, t, b) (dfa_transitions d) /\ dfa_id s = k /\
                      v = JStr (dfa_id t)) /\
       (forall s t b, In (s, t, b) (dfa_transitions d) -> dfa_id s = k ->
          dict_get String.eqb b data <> None)).
Proof.
  intros Hts.
  apply (min_to_json_fold (dfa_id (dfa_start_state d)) (dfa_transitions d) []
           [("startingState"%string, JName (dfa_id (dfa_start_state d)))] Hts).
  split; [reflexivity|]. split.
  - intros k Hk. simpl. destruct (String.eqb_spec k "startingState"); [contradiction|].
    split; [intros _ s t b []|reflexivity].
  - intros k e Hk. simpl. destruct (String.eqb_spec k "startingState"); [contradiction|].
    discriminate.
Qed.

End MinJsonFacts.

(** Two states and one transition: the accepting state, which no
    transition leaves, is not in the file. *)
Lemma min_to_json_entries_witness :
  dict_get String.eqb "S1"
    (DFA_py.__min_to_json
       (DFA_py.mkDFA (DFA_py.mkNFA [] (DFA_py.mkState "S0" false []) None)
          [DFA_py.mkDFA_State [DFA_py.state_object 0] "S0" false;
           DFA_py.mkDFA_State [DFA_py.state_object 1] "S1" true]
          (DFA_py.mkDFA_State [DFA_py.state_object 0] "S0" false)
          [DFA_py.mkDFA_State [DFA_py.state_object 1] "S1" true]
          ["a"%string]
          [(DFA_py.mkDFA_State [DFA_py.state_object 0] "S0" false,
            DFA_py.mkDFA_State [DFA_py.state_object 1] "S1" true, "a"%string)]))
  = None.
Proof.
  refine (proj2 (proj1 (proj2 (min_to_json_entries _ _)) "S1"%string _) _).
  - intros s t b [H|[]]. inversion H; subst. discriminate.
  - discriminate.
  - intros s t b [H|[]]. inversion H; subst. discriminate.
Defined.

(** ** The transition table of the minimizer *)

Section TableFacts.
Import DFA_py.

Lemma dict_get_by_id {V : Type} (s : DFA_State) (tbl : list (DFA_State * V)) :
  dict_get dfa_eqb s tbl
  = dict_get String.eqb (dfa_id s) (map (fun e => (dfa_id (fst e), snd e)) tbl).
Proof.
  induction tbl as [|[k v] tbl IH]; [reflexivity|]. cbn [dict_get map fst snd].
  unfold dfa_eqb at 1. destruct (String.eqb (dfa_id s) (dfa_id k)); [reflexivity|exact IH].
Qed.

Lemma dict_set_by_id {V : Type} (s : DFA_State) (v : V) (tbl : list (DFA_State * V)) :
  map (fun e => (dfa_id (fst e), snd e)) (dict_set dfa_eqb s v tbl)
  = dict_set String.eqb (dfa_id s) v (map (fun e => (dfa_id (fst e), snd e)) tbl).
Proof.
  induction tbl as [|[k v'] tbl IH]; [reflexivity|]. cbn [dict_set map fst snd].
  unfold dfa_eqb at 1. destruct (String.eqb (dfa_id s) (dfa_id k)); cbn [map fst snd];
    [reflexivity|]. rewrite IH. reflexivity.
Qed.

Lemma table_get_set_same {V : Type} (s s' : DFA_State) (v : V)
  (tbl : list (DFA_State * V)) :
  dfa_id s' = dfa_id s -> dict_get dfa_eqb s' (dict_set dfa_eqb s v tbl) = Some v.
Proof.
  intros E. rewrite dict_get_by_id, dict_set_by_id, E. apply dict_get_set_same.
Qed.

Lemma table_get_set_other {V : Type} (s s' : DFA_State) (v : V)
  (tbl : list (DFA_State * V)) :
  dfa_id s' <> dfa_id s ->
  dict_get dfa_eqb s' (dict_set dfa_eqb s v tbl) = dict_get dfa_eqb s' tbl.
Proof.
  intros E. rewrite dict_get_by_id, dict_set_by_id, dict_get_set_other by assumption.
  symmetry. apply dict_get_by_id.
Qed.

Lemma table_get_same_id {V : Type} (s s' : DFA_State) (tbl : list (DFA_State * V)) :
  dfa_id s' = dfa_id s -> dict_get dfa_eqb s' tbl = dict_get dfa_eqb s tbl.
Proof. intros E. rewrite !dict_get_by_id, E. reflexivity. Qed.

(** The rows the transitions give. *)
Lemma table_of_transitions (ts : list transition) :
  forall done (tbl : table),
    ((forall s row a t,
        dict_get dfa_eqb s tbl = Some row -> dict_get String.eqb a row = Some t ->
        exists src, In (src, t, a) done /\ dfa_id src = dfa_id s) /\
     (forall src tgt a,
        In (src, tgt, a) done ->
        exists row, dict_get dfa_eqb src tbl = Some row /\
                    dict_get String.eqb a row <> None)) ->
    let tbl' :=
      fold_left (fun (tbl : table) (t : transition) =>
                 match t with
                 | (src_state, target_state, action) =>
                     let tbl1 := match dict_get dfa_eqb src_state tbl with
                                 | Some _ => tbl
                                 | None => dict_set dfa_eqb src_state [] tbl
                                 end in
                     match dict_get dfa_eqb src_state tbl1 with
                     | Some row => dict_set dfa_eqb src_state
                                     (dict_set String.eqb action target_state row) tbl1
                     | None => tbl1
                     end
                 end) ts tbl in
    (forall s row a t,
       dict_get dfa_eqb s tbl' = Some row -> dict_get String.eqb a row = Some t ->
       exists src, In (src, t, a) (done ++ ts) /\ dfa_id src = dfa_id s) /\
    (forall src tgt a,
       In (src, tgt, a) (done ++ ts) ->
       exists row, dict_get dfa_eqb src tbl' = Some row /\
                   dict_get String.eqb a row <> None).
Proof.
  induction ts as [|[[src tgt] a] ts IH]; intros done tbl [Hs Hc].
  - cbn [fold_left]. rewrite app_nil_r. auto.
  - cbn [fold_left].
    set (tbl1 := match dict_get dfa_eqb src tbl with
                 | Some _ => tbl
                 | None => dict_set dfa_eqb src [] tbl
                 end).
    assert (H1 : exists row,
               dict_get dfa_eqb src tbl1 = Some row /\
               (forall s, dfa_id s <> dfa_id src ->
                  dict_get dfa_eqb s tbl1 = dict_get dfa_eqb s tbl) /\
               (forall b t, dict_get String.eqb b row = Some t ->
                  exists src', In (src', t, b) done /\ dfa_id src' = dfa_id src) /\
               (forall src' tgt' b, In (src', tgt', b) done -> dfa_id src' = dfa_id src ->
                  dict_get String.eqb b row <> None)).
    { unfold tbl1. destruct (dict_get dfa_eqb src tbl) as [row|] eqn:E.
      - exists row. split; [exact E|]. split; [reflexivity|]. split.
        + intros b t Hb. apply (Hs src row b t E Hb).
        + intros src' tgt' b Hin Hid. destruct (Hc _ _ _ Hin) as (row' & E' & Hb).
          rewrite (table_get_same_id src src' tbl Hid), E in E'. inversion E'; subst row'.
          exact Hb.
      - exists []. split; [apply table_get_set_same; reflexivity|]. split; [|split].
        + intros s Hne. apply table_get_set_other. assumption.
        + intros b t Hb. discriminate.
        + intros src' tgt' b Hin Hid. exfalso. destruct (Hc _ _ _ Hin) as (row' & E' & _).
          rewrite (table_get_same_id src src' tbl Hid), E in E'. discriminate. }
    destruct H1 as (row & E1 & Hother & Hrs & Hrc). rewrite E1.
    specialize (IH (done ++ [(src, tgt, a)])
                   (dict_set dfa_eqb src (dict_set String.eqb a tgt row) tbl1)).
    cbv zeta in IH. rewrite <- app_assoc in IH. apply IH. clear IH. split.
    + intros s row' b t Hrow Hb.
      destruct (String.eqb_spec (dfa_id s) (dfa_id src)) as [Hid|Hne].
      * rewrite (table_get_set_same src s _ tbl1 Hid) in Hrow. inversion Hrow; subst row'.
        destruct (String.eqb_spec b a) as [->|Hba].
        -- rewrite dict_get_set_same in Hb. inversion Hb; subst t.
           exists src. split; [apply in_or_app; right; left; reflexivity|auto].
        -- rewrite dict_get_set_other in Hb by assumption.
           destruct (Hrs b t Hb) as (src' & Hin & Hid').
           exists src'. split; [apply in_or_app; auto|congruence].
      * rewrite (table_get_set_other src s _ tbl1 Hne), (Hother s Hne) in Hrow.
        destruct (Hs s row' b t Hrow Hb) as (src' & Hin & Hid').
        exists src'. split; [apply in_or_app; auto|assumption].
    + intros src' tgt' b Hin.
      destruct (String.eqb_spec (dfa_id src') (dfa_id src)) as [Hid|Hne].
      * rewrite (table_get_set_same src src' _ tbl1 Hid). eexists. split; [reflexivity|].
        destruct (String.eqb_spec b a) as [->|Hba].
        -- rewrite dict_get_set_same. discriminate.
        -- rewrite dict_get_set_other by assumption.
           apply in_app_iff in Hin. destruct Hin as [Hin|[Heq|[]]].
           ++ eapply Hrc; eassumption.
           ++ inversion Heq; subst. congruence.
      * rewrite (table_get_set_other src src' _ tbl1 Hne), (Hother src' Hne).
        apply in_app_iff in Hin. destruct Hin as [Hin|[Heq|[]]].
        -- eapply Hc; eassumption.
        -- inversion Heq; subst. congruence.
Qed.

(** The rows added for the states that no transition leaves. *)
Lemma table_of_states (all : list DFA_State) :
  forall tbl : table,
    let tbl' := fold_left (fun (tbl : table) state =>
                             match dict_get dfa_eqb state tbl with
                             | Some _ => tbl
                             | None => dict_set dfa_eqb state [] tbl
                             end) all tbl in
    (forall s, In s all -> dict_get dfa_eqb s tbl' <> None) /\
    (forall s row, dict_get dfa_eqb s tbl = Some row -> dict_get dfa_eqb s tbl' = Some row) /\
    (forall s row, dict_get dfa_eqb s tbl' = Some row ->
                   dict_get dfa_eqb s tbl = Some row \/ row = []).
Proof.
  induction all as [|x all IH]; intros tbl; cbn [fold_left].
  - cbv zeta. split; [intros s []|]. split; auto.
  - set (tbl1 := match dict_get dfa_eqb x tbl with
                 | Some _ => tbl
                 | None => dict_set dfa_eqb x [] tbl
                 end).
    assert (H1 : dict_get dfa_eqb x tbl1 <> None /\
                 (forall s row, dict_get dfa_eqb s tbl = Some row ->
                                dict_get dfa_eqb s tbl1 = Some row) /\
                 (forall s row, dict_get dfa_eqb s tbl1 = Some row ->
                                dict_get dfa_eqb s tbl = Some row \/ row = [])).
    { unfold tbl1. destruct (dict_get dfa_eqb x tbl) as [row|] eqn:E.
      - rewrite E. repeat split; auto. discriminate.
      - rewrite (table_get_set_same x x [] tbl eq_refl). split; [discriminate|]. split.
        + intros s row Hs.
          destruct (String.eqb_spec (dfa_id s) (dfa_id x)) as [Hid|Hne].
          * rewrite (table_get_same_id x s tbl Hid), E in Hs. discriminate.
          * rewrite table_get_set_other by assumption. exact Hs.
        + intros s row Hs.
          destruct (String.eqb_spec (dfa_id s) (dfa_id x)) as [Hid|Hne].
          * rewrite (table_get_set_same x s [] tbl Hid) in Hs. inversion Hs. auto.
          * rewrite table_get_set_other in Hs by assumption. auto. }
    destruct H1 as (Hx & Hkeep & Hnew).
    destruct (IH tbl1) as (IH1 & IH2 & IH3). cbv zeta in IH1, IH2, IH3.
    split; [|split].
    + intros s [<-|Hin]; [|apply IH1; assumption].
      destruct (dict_get dfa_eqb x tbl1) as [row|] eqn:E; [|congruence].
      rewrite (IH2 _ _ E). discriminate.
    + intros s row Hs. apply IH2, Hkeep, Hs.
    + intros s row Hs. destruct (IH3 _ _ Hs) as [H| ->]; [|auto]. apply Hnew. assumption.
Qed.

(** X23.  The transition table: every state of the automaton has a row,
    also a state that no transition leaves; every transition is in the row
    of its source, under its action; and a row holds nothing else: the
    target it gives for an action is the target of a transition on that
    action that leaves a state with the id of the row's state. *)
Theorem transition_table_rows (d : DFA) :
  (forall s, In s (dfa_all_states d) ->
             dict_get dfa_eqb s (__create_transition_table d) <> None) /\
  (forall src tgt a,
     In (src, tgt, a) (dfa_transitions d) ->
     exists row, dict_get dfa_eqb src (__create_transition_table d) = Some row /\
                 dict_get String.eqb a row <> None) /\
  (forall s row a t,
     dict_get dfa_eqb s (__create_transition_table d) = Some row ->
     dict_get String.eqb a row = Some t ->
     exists src, In (src, t, a) (dfa_transitions d) /\ dfa_id src = dfa_id s).
Proof.
  unfold __create_transition_table.
  destruct (table_of_transitions (dfa_transitions d) [] []) as [Hs Hc].
  { split; [intros s row a t H; discriminate|intros src tgt a []]. }
  cbv zeta in Hs, Hc. cbn [app] in Hs, Hc.
  match goal with
  | |- context [fold_left _ (dfa_all_states d) ?t] =>
      destruct (table_of_states (dfa_all_states d) t) as (H1 & H2 & H3)
  end.
  cbv zeta in H1, H2, H3. split; [exact H1|]. split.
  - intros src tgt a Hin. destruct (Hc _ _ _ Hin) as (row & E & Hb).
    exists row. split; [apply H2; exact E|exact Hb].
  - intros s row a t Hrow Ha. destruct (H3 _ _ Hrow) as [H| ->]; [|discriminate].
    eapply Hs; eassumption.
Qed.

End TableFacts.

(** ** Expressions without special characters *)

Section LiteralExpressions.
Import RegexCompiler_py NFA_py Vocabulary.

Lemma RegularCompiler_literals (l : list ascii) :
  forallb plain l = true ->
  RegularCompiler (string_of_list_ascii l) = Ok (mkExprNode Root None [] [map literal l]).
Proof.
  intros H. unfold RegularCompiler, _parseGroup.
  rewrite length_string_of_list.
  pose proof (group_loop_literals l [] (S (List.length l)) true [] H
                (Nat.lt_succ_diag_r _)) as E.
  cbn [app List.length] in E. rewrite E. reflexivity.
Qed.

Lemma literals_language (l : list ascii) (w : string) :
  in_sequence language (map literal l) w <-> w = string_of_list_ascii l.
Proof.
  revert w. induction l as [|c l IH]; intros w; [reflexivity|].
  cbn [map in_sequence string_of_list_ascii]. split.
  - intros (w1 & w2 & -> & H1 & H2). apply IH in H2. subst w2.
    change (Some (str1 c) = Some w1) in H1. inversion H1. reflexivity.
  - intros ->. exists (str1 c), (string_of_list_ascii l).
    split; [reflexivity|]. split; [reflexivity|]. apply IH. reflexivity.
Qed.

(** X24.  An expression without special characters matches itself and
    nothing else: when none of its characters is one of [( ) [ | ? + * \ .],
    [regex_to_nfa] returns an automaton on which [match] returns [True] on
    the expression itself and [False] on every other input. *)
Theorem literal_expression_matches_itself (l : list ascii) :
  forallb plain l = true ->
  exists n,
    regex_to_nfa (string_of_list_ascii l) = Ok n /\
    forall w, match_ n w = Ok (String.eqb w (string_of_list_ascii l)).
Proof.
  intros Hl. pose proof (RegularCompiler_literals l Hl) as Hp.
  pose proof (RegularCompiler_outcome (string_of_list_ascii l)) as Hwf. rewrite Hp in Hwf.
  destruct (builder_spec _ Hwf) as (n & En & Bn & Ln).
  exists n. unfold regex_to_nfa. rewrite Hp. cbn [bind]. split; [exact En|].
  intros w. destruct (match_total n w Bn) as [b Eb]. rewrite Eb. f_equal.
  pose proof (match_correct _ _ _ Eb) as Hb. rewrite Ln in Hb.
  assert (Hlang : language (mkExprNode Root None [] [map literal l]) w
                  <-> w = string_of_list_ascii l).
  { change (language (mkExprNode Root None [] [map literal l]) w)
      with (base_language language Root None [] [map literal l] w).
    unfold base_language. destruct l as [|c l].
    - reflexivity.
    - rewrite <- literals_language.
      change (map literal (c :: l)) with (literal c :: map literal l).
      cbn [in_alternatives fold_right]. tauto. }
  rewrite Hlang in Hb. destruct (String.eqb_spec w (string_of_list_ascii l)) as [E|E].
  - apply Hb. exact E.
  - destruct b; [|reflexivity]. exfalso. apply E, Hb. reflexivity.
Qed.

End LiteralExpressions.

(** The expression [ab]-z] has no special character. *)
Lemma literal_expression_matches_itself_witness :
  exists n,
    NFA_py.regex_to_nfa "ab]-z" = Ok n /\
    forall w, NFA_py.match_ n w = Ok (String.eqb w "ab]-z").
Proof.
  apply (literal_expression_matches_itself ["a"; "b"; "]"; "-"; "z"]%char). reflexivity.
Defined.

(** ** The subset construction returns *)

Section LoadedFacts.
Import NFA_py DFA_py Vocabulary.

Lemma In_lists_upto {A : Type} (xs : list A) :
  forall k l, List.length l <= k -> incl l xs -> In l (lists_upto k xs).
Proof.
  induction k as [|k IH]; intros l Hlen Hincl.
  - destruct l; [left; reflexivity|simpl in Hlen; lia].
  - destruct l as [|x l]; [left; reflexivity|]. right.
    apply in_flat_map. exists x. split; [apply Hincl; left; reflexivity|].
    apply in_map. apply IH; [simpl in Hlen; lia|].
    intros y Hy. apply Hincl. right. assumption.
Qed.

Lemma NoDup_set_add_eq {K : Type} (eqk : K -> K -> bool)
  (eqk_eq : forall a b, eqk a b = true <-> a = b) (x : K) (s : list K) :
  NoDup s -> NoDup (set_add eqk x s).
Proof.
  intros H. unfold set_add. destruct (mem eqk x s) eqn:E; [assumption|].
  apply NoDup_app; [assumption|constructor; [intros []|constructor]|].
  intros y Hy [<-|[]]. apply (mem_In eqk eqk_eq) in Hy. congruence.
Qed.

Lemma state_ref_object (size : nat) (r : ref) : state_ref size r -> object_ref size r.
Proof. intros H. right. assumption. Qed.

(** The object behind a reference, in a loaded automaton. *)
Lemma deref_loaded (size : nat) (m : NFA) (r : ref) :
  loaded size m -> object_ref size r ->
  exists st j,
    deref m r = Ok st /\ id st = NFA_py.state_name j /\ j < size /\
    forall e t, In e (transitions st) -> In t (snd e) -> state_ref size t.
Proof.
  intros (Hlen & Hst & (s & Hs & Hid) & Htr) [->|(i & -> & Hi)].
  - exists (start_state m), s. split; [reflexivity|]. split; [assumption|].
    split; [assumption|]. rewrite Htr. intros e t [].
  - cbn [deref]. destruct (nth_error (states m) i) as [st|] eqn:E;
      [|apply nth_error_None in E; lia].
    destruct (Hst i st E) as [Hid' Hts]. exists st, i. auto.
Qed.

Lemma closure_push_within (P : ref -> Prop) (tr : list (string * list ref))
  (all_states stack : list ref) :
  (forall e t, In e tr -> In t (snd e) -> P t) ->
  (forall x, In x all_states -> P x) -> (forall x, In x stack -> P x) ->
  forall all' stack',
    fold_left (fun acc (entry : string * list ref) =>
                 fold_left (fun (acc' : list ref * list ref) target =>
                              let (a, k) := acc' in
                              if negb (mem ref_eqb target a) && String.eqb (fst entry) EPSILON
                              then (a ++ [target], target :: k)
                              else (a, k))
                           (snd entry) acc)
              tr (all_states, stack) = (all', stack') ->
    (forall x, In x all' -> P x) /\ (forall x, In x stack' -> P x).
Proof.
  intros Htr Hall Hstack all' stack' H.
  change ((forall x, In x (fst (all', stack')) -> P x) /\
          (forall x, In x (snd (all', stack')) -> P x)).
  rewrite <- H. apply fold_left_invariant_In; [|split; assumption].
  intros acc entry Hentry Hacc. apply fold_left_invariant_In; [|exact Hacc].
  intros [a k] target Htarget [Ha Hk]. cbn [fst snd] in Ha, Hk.
  destruct (negb (mem ref_eqb target a) && String.eqb (fst entry) EPSILON);
    cbn [fst snd]; [|auto].
  split.
  - intros x Hx. apply in_app_iff in Hx. destruct Hx as [Hx|[<-|[]]]; [auto|].
    eapply Htr; eassumption.
  - intros x [<-|Hx]; [|auto]. eapply Htr; eassumption.
Qed.

(** The loop of [__epsilon_closure] raises nothing on a loaded automaton,
    and returns references of the kind it starts from. *)
Lemma closure_loop_loaded (size : nat) (m : NFA) (P : ref -> Prop) :
  loaded size m ->
  (forall r, state_ref size r -> P r) -> (forall r, P r -> object_ref size r) ->
  forall fuel all_states stack,
    (forall x, In x all_states -> P x) -> (forall x, In x stack -> P x) ->
    match closure_loop fuel m all_states stack with
    | Ok res => forall x, In x res -> P x
    | Raise _ => False
    | OutOfFuel => True
    end.
Proof.
  intros Hm HP1 HP2. induction fuel as [|fuel IH]; intros all_states stack Hall Hstack;
    [exact I|].
  cbn [closure_loop]. destruct stack as [|state stack']; [exact Hall|].
  destruct (deref_loaded size m state Hm (HP2 _ (Hstack _ (or_introl eq_refl))))
    as (popped & j & E1 & Hid & Hj & _).
  rewrite E1. cbn [bind]. rewrite Hid.
  pose proof Hm as (Hlen & _).
  rewrite (state_named_state_name m j) by (rewrite Hlen; exact Hj). cbn [bind].
  destruct (deref_loaded size m (state_object j) Hm) as (st & j' & E2 & _ & _ & Hts).
  { right. exists j. auto. }
  rewrite E2. cbn [bind].
  match goal with
  | |- context [fold_left ?f (transitions st) ?a] => destruct (fold_left f (transitions st) a)
      as [all' stack''] eqn:Ef
  end.
  assert (H1 : forall e t, In e (transitions st) -> In t (snd e) -> P t)
    by (intros e t He Ht; apply HP1; eapply Hts; eassumption).
  assert (H3 : forall x, In x stack' -> P x)
    by (intros x Hx; apply Hstack; right; assumption).
  destruct (closure_push_within P (transitions st) all_states stack' H1 Hall H3
              all' stack'' Ef) as [Hall' Hstack''].
  apply IH; assumption.
Qed.

Lemma epsilon_closure_loaded (size : nat) (m : NFA) (P : ref -> Prop) (r : ref) :
  loaded size m ->
  (forall r, state_ref size r -> P r) -> (forall r, P r -> object_ref size r) ->
  P r ->
  exists res, __epsilon_closure m r = Ok res /\ forall x, In x res -> P x.
Proof.
  intros Hm HP1 HP2 Hr.
  pose proof (epsilon_closure_answers m r) as Ha.
  pose proof (closure_loop_loaded size m P Hm HP1 HP2
                (S (S (List.length (states m)))) [r] [r]) as Hl.
  unfold __epsilon_closure in *.
  destruct (closure_loop _ m [r] [r]) as [res|e|].
  - exists res. split; [reflexivity|]. apply Hl; intros x [<-|[]]; assumption.
  - exfalso. apply Hl; intros x [<-|[]]; assumption.
  - congruence.
Qed.

Lemma closures_loaded (size : nat) (m : NFA) (tg : list ref) :
  loaded size m -> (forall x, In x tg -> state_ref size x) ->
  exists cl, closures m tg = Ok cl /\ forall x, In x cl -> state_ref size x.
Proof.
  intros Hm Htg. unfold closures.
  apply (fold_bind_total (fun next : list ref => forall x, In x next -> state_ref size x)
           (fun next_state next =>
              c <- __epsilon_closure m next_state ;; Ok (set_union ref_eqb next c))).
  - intros t next Ht Hnext.
    destruct (epsilon_closure_loaded size m (state_ref size) t Hm (fun r H => H)
                (state_ref_object size) (Htg t Ht)) as (c & Ec & Hc).
    rewrite Ec. cbn [bind]. eexists. split; [reflexivity|].
    intros x Hx. apply (set_union_In ref_eqb ref_eqb_eq) in Hx. destruct Hx; auto.
  - intros x [].
Qed.

Lemma dict_get_In {V : Type} (k : string) (v : V) (d : list (string * V)) :
  dict_get String.eqb k d = Some v -> In (k, v) d.
Proof.
  induction d as [|[k' v'] d IH]; simpl; [discriminate|].
  destruct (String.eqb_spec k k') as [->|Hne].
  - intros E. inversion E. left. reflexivity.
  - intros E. right. auto.
Qed.

Lemma dict_set_In {V : Type} (k : string) (v : V) (d : list (string * V)) (e : string * V) :
  In e (dict_set String.eqb k v d) -> In e d \/ snd e = v.
Proof.
  induction d as [|[k' v'] d IH]; simpl.
  - intros [<-|[]]. right. reflexivity.
  - destruct (String.eqb k k').
    + intros [<-|H]; [right; reflexivity|left; right; assumption].
    + intros [<-|H]; [left; left; reflexivity|]. destruct (IH H); auto.
Qed.

Lemma assign_loaded (size : nat) (m : NFA) (r : ref) (st : State) (tr : list (string * list ref)) :
  loaded size m -> deref m r = Ok st ->
  (forall e t, In e tr -> In t (snd e) -> state_ref size t) ->
  (r = start_object -> tr = []) ->
  loaded size (assign m r (mkState (id st) (is_final st) tr)).
Proof.
  intros (Hlen & Hst & Hstart & Htr) Hd Hts Hs. destruct r as [|i].
  - cbn [deref] in Hd. inversion Hd; subst st. rewrite (Hs eq_refl).
    split; [exact Hlen|]. split; [exact Hst|]. split; [exact Hstart|reflexivity].
  - cbn [deref] in Hd. destruct (nth_error (states m) i) as [st0|] eqn:E; [|discriminate].
    inversion Hd; subst st0. cbn [assign].
    split; [cbn [states]; rewrite length_list_set; exact Hlen|].
    split; [|split; [exact Hstart|exact Htr]].
    intros j st' Ej. cbn [states] in Ej.
    destruct (Nat.eq_dec i j) as [<-|Hne].
    + rewrite (nth_error_list_set_same _ _ _ _ E) in Ej. inversion Ej; subst st'.
      cbn [id transitions]. split; [apply (Hst i st E)|exact Hts].
    + rewrite nth_error_list_set_other in Ej by assumption. apply (Hst j st' Ej).
Qed.

Lemma reach_state_loaded (size : nat) (action : string) (r : ref) (R : list ref) (m : NFA) :
  loaded size m -> object_ref size r -> (forall x, In x R -> state_ref size x) ->
  exists R' m',
    reach_state action r (R, m) = Ok (R', m') /\ loaded size m' /\
    forall x, In x R' -> state_ref size x.
Proof.
  intros Hm Hr HR.
  destruct (deref_loaded size m r Hm Hr) as (st & j & Ed & _ & _ & Hts).
  unfold reach_state. rewrite Ed. cbn [bind].
  destruct (dict_get String.eqb action (transitions st)) as [curr|] eqn:Eg.
  - assert (Hcurr : forall x, In x curr -> state_ref size x).
    { intros x Hx. apply dict_get_In in Eg. apply (Hts _ _ Eg Hx). }
    destruct (closures_loaded size m curr Hm Hcurr) as (cl & Ec & Hcl).
    rewrite Ec. cbn [bind].
    assert (Hu : forall x, In x (set_union ref_eqb curr cl) -> state_ref size x).
    { intros x Hx. apply (set_union_In ref_eqb ref_eqb_eq) in Hx. destruct Hx; auto. }
    eexists. eexists. split; [reflexivity|]. split.
    + apply assign_loaded; [assumption|assumption| |].
      * intros e t He Ht. apply dict_set_In in He. destruct He as [He|He].
        -- eapply Hts; eassumption.
        -- rewrite He in Ht. apply Hu. assumption.
      * intros ->. cbn [deref] in Ed. inversion Ed; subst st.
        destruct Hm as (_ & _ & _ & Htr). rewrite Htr in Eg. discriminate.
    + intros x Hx. apply (set_union_In ref_eqb ref_eqb_eq) in Hx. destruct Hx; auto.
  - exists R, m. auto.
Qed.

Lemma get_reachable_states_loaded (size : nat) (m : NFA) (T : DFA_State) (action : string) :
  loaded size m -> (forall r, In r (dfa_states T) -> object_ref size r) ->
  exists R m',
    __get_reachable_states m T action = Ok (R, m') /\ loaded size m' /\
    forall x, In x R -> state_ref size x.
Proof.
  intros Hm HT. unfold __get_reachable_states.
  destruct (fold_bind_total
              (fun a : list ref * NFA =>
                 loaded size (snd a) /\ forall x, In x (fst a) -> state_ref size x)
              (reach_state action) (dfa_states T)) with (a := (@nil ref, m))
    as ([R m'] & E & Hm' & HR).
  - intros r [R0 m0] Hr [H1 H2]. cbn [fst snd] in H1, H2.
    destruct (reach_state_loaded size action r R0 m0 H1 (HT r Hr) H2)
      as (R' & m' & E & Hm' & HR').
    exists (R', m'). auto.
  - split; [exact Hm|intros x []].
  - exists R, m'. auto.
Qed.

(** The name of a DFA state over a loaded automaton. *)
Lemma new_DFA_State_loaded (size : nat) (m : NFA) (R : list ref) (b : bool) :
  loaded size m -> (forall x, In x R -> object_ref size x) ->
  exists name,
    new_DFA_State m R b = Ok (mkDFA_State R name b) /\ In name (dfa_names size).
Proof.
  intros Hm HR. unfold new_DFA_State, set_to_string.
  destruct (fold_bind_total
              (fun l : list string =>
                 NoDup l /\ incl l (map NFA_py.state_name (seq 0 size)))
              (fun r l => s <- deref m r ;; Ok (set_add String.eqb (id s) l)) R)
    with (a := @nil string) as (ids & E & Hnd & Hincl).
  - intros r l Hr [H1 H2].
    destruct (deref_loaded size m r Hm (HR r Hr)) as (st & j & Ed & Hid & Hj & _).
    rewrite Ed. cbn [bind]. eexists. split; [reflexivity|]. split.
    + apply (NoDup_set_add_eq String.eqb String.eqb_eq). assumption.
    + intros x Hx. apply (set_add_In String.eqb String.eqb_eq) in Hx.
      destruct Hx as [Hx| ->]; [auto|]. rewrite Hid. apply in_map, in_seq. lia.
  - split; [constructor|intros x []].
  - rewrite E. cbn [bind]. eexists. split; [reflexivity|].
    unfold dfa_names. apply in_map. apply In_lists_upto; [|assumption].
    apply NoDup_incl_length in Hincl; [|assumption].
    rewrite length_map, length_seq in Hincl. assumption.
Qed.

End LoadedFacts.

Section ConstructionReturns.
Import NFA_py DFA_py Vocabulary.

Lemma under_construction_bound (size : nat) (d : DFA) (stack : list DFA_State) :
  under_construction size d stack ->
  List.length (dfa_all_states d) <= List.length (dfa_names size).
Proof.
  intros ((Hnd & _) & _ & _ & Hall). rewrite <- (length_map dfa_id).
  apply NoDup_incl_length; [assumption|].
  intros x Hx. apply in_map_iff in Hx. destruct Hx as (s & <- & Hs). apply Hall. assumption.
Qed.

(** One action of one iteration: it raises nothing, and pushes what it
    adds. *)
Lemma construct_action_returns (size : nat) (curr : DFA_State) (action : string)
  (d : DFA) (stack : list DFA_State) :
  under_construction size d stack ->
  In curr (dfa_all_states d) -> In action (actions d) ->
  exists d' stack' k,
    construct_action curr action (d, stack) = Ok (d', stack') /\
    under_construction size d' stack' /\
    incl (dfa_all_states d) (dfa_all_states d') /\ actions d' = actions d /\
    List.length (dfa_all_states d') = List.length (dfa_all_states d) + k /\
    List.length stack' = List.length stack + k.
Proof.
  intros (Hc & Hstack & Hm & Hall) Hcurr Haction.
  destruct (get_reachable_states_loaded size (nfa d) curr action Hm
              (proj2 (Hall curr Hcurr))) as (R & m' & E5 & Hm' & HR).
  destruct (new_DFA_State_loaded size m' R false Hm'
              (fun x Hx => state_ref_object size x (HR x Hx))) as (name & E6 & Hname).
  assert (Heq : exists d' stack' k,
             construct_action curr action (d, stack) = Ok (d', stack') /\
             nfa d' = m' /\
             ((k = 0 /\ dfa_all_states d' = dfa_all_states d /\ stack' = stack) \/
              (k = 1 /\ dfa_all_states d' = dfa_all_states d ++ [mkDFA_State R name false] /\
               stack' = mkDFA_State R name false :: stack))).
  { unfold construct_action. rewrite E5. cbn [bind]. rewrite E6. cbn [bind].
    destruct R as [|r R'].
    - eexists. eexists. exists 0. split; [reflexivity|]. split; [reflexivity|]. left. auto.
    - cbn [dfa_all_states dfa_id].
      destruct (existsb (fun s => String.eqb name (dfa_id s)) (dfa_all_states d)) eqn:Ex;
        cbn [negb andb].
      + eexists. eexists. exists 0. split; [reflexivity|]. split; [reflexivity|]. left. auto.
      + eexists. eexists. exists 1. split; [reflexivity|]. split; [reflexivity|]. right.
        split; [reflexivity|]. split; [|reflexivity].
        cbn [dfa_all_states]. unfold set_add.
        change (mem dfa_eqb (mkDFA_State (r :: R') name false) (dfa_all_states d))
          with (existsb (fun s => String.eqb name (dfa_id s)) (dfa_all_states d)).
        rewrite Ex. reflexivity. }
  destruct Heq as (d' & stack' & k & E & Hn & Hcase).
  destruct (construct_action_constructed curr action d d' stack stack' E Hcurr Haction
              (conj Hc Hstack)) as ((Hc' & Hstack') & Hincl & Hacts).
  exists d', stack', k. split; [exact E|]. split; [|split; [exact Hincl|split; [exact Hacts|]]].
  - split; [exact Hc'|]. split; [exact Hstack'|]. split; [rewrite Hn; exact Hm'|].
    intros s Hs. destruct Hcase as [(_ & Ea & _)|(_ & Ea & _)]; rewrite Ea in Hs.
    + apply Hall. assumption.
    + apply in_app_iff in Hs. destruct Hs as [Hs|[<-|[]]]; [apply Hall; assumption|].
      cbn [dfa_id dfa_states]. split; [exact Hname|].
      intros r Hr. apply state_ref_object. apply HR. assumption.
  - destruct Hcase as [(-> & Ea & ->)|(-> & Ea & ->)]; rewrite Ea.
    + lia.
    + rewrite length_app. simpl. lia.
Qed.

(** The actions of one iteration. *)
Lemma construct_actions_return (size : nat) (curr : DFA_State) (acts : list string) :
  forall d stack,
    under_construction size d stack ->
    In curr (dfa_all_states d) -> incl acts (actions d) ->
    exists d' stack' k,
      fold_left (fun acc action => bind acc (construct_action curr action)) acts
                (Ok (d, stack)) = Ok (d', stack') /\
      under_construction size d' stack' /\
      List.length (dfa_all_states d') = List.length (dfa_all_states d) + k /\
      List.length stack' = List.length stack + k.
Proof.
  induction acts as [|a acts IH]; intros d stack Hu Hcurr Hacts.
  - exists d, stack, 0. cbn [fold_left]. split; [reflexivity|]. split; [exact Hu|]. lia.
  - destruct (construct_action_returns size curr a d stack Hu Hcurr)
      as (d1 & stack1 & k1 & E1 & Hu1 & Hincl & Ha & Hl1 & Hs1).
    { apply Hacts. left. reflexivity. }
    destruct (IH d1 stack1 Hu1) as (d2 & stack2 & k2 & E2 & Hu2 & Hl2 & Hs2).
    + apply Hincl. assumption.
    + rewrite Ha. intros x Hx. apply Hacts. right. assumption.
    + exists d2, stack2, (k1 + k2). cbn [fold_left]. cbn [bind]. rewrite E1.
      split; [exact E2|]. split; [exact Hu2|]. lia.
Qed.

(** The loop of [__construct_DFA] ends: each iteration pops a state, and
    pushes only states whose id is new, of which there are finitely
    many. *)
Lemma construct_loop_returns (size : nat) :
  forall fuel d stack,
    under_construction size d stack ->
    List.length (dfa_names size) - List.length (dfa_all_states d) + List.length stack < fuel ->
    exists d', construct_loop fuel d stack = Ok d' /\ constructed d'.
Proof.
  induction fuel as [|fuel IH]; intros d stack Hu Hfuel; [lia|].
  cbn [construct_loop]. destruct stack as [|curr stack'].
  - exists d. split; [reflexivity|]. apply Hu.
  - pose proof (under_construction_bound size d _ Hu) as Hb.
    assert (Hu' : under_construction size d stack').
    { destruct Hu as (H1 & H2 & H3 & H4). split; [exact H1|]. split; [|auto].
      intros x Hx. apply H2. right. assumption. }
    assert (Hcurr : In curr (dfa_all_states d)).
    { destruct Hu as (_ & H2 & _). apply H2. left. reflexivity. }
    destruct (construct_actions_return size curr (actions d) d stack' Hu' Hcurr
                (incl_refl _)) as (d1 & stack1 & k & E & Hu1 & Hl & Hs).
    rewrite E. cbn [bind].
    pose proof (under_construction_bound size d1 _ Hu1) as Hb1.
    apply IH; [exact Hu1|]. cbn [List.length] in Hfuel. lia.
Qed.

(** The automaton loaded from the file of a built automaton. *)
Lemma reloaded_loaded (n : NFA_py.NFA) (s : nat) (fin : option ref) :
  built n -> s < List.length (NFA_py.states n) ->
  loaded (List.length (NFA_py.states n))
         (mkNFA (map reloaded_state (indexed (NFA_py.states n)))
                (mkState (state_name s) false []) fin).
Proof.
  intros Hb Hs. split; [|split; [|split]].
  - cbn [states]. rewrite length_map, length_indexed. reflexivity.
  - intros i st Ei. cbn [states] in Ei. rewrite nth_error_map in Ei.
    destruct (nth_error (indexed (NFA_py.states n)) i) as [p|] eqn:Ep; [|discriminate].
    cbn [option_map] in Ei. inversion Ei; subst st. clear Ei.
    apply nth_error_indexed in Ep. destruct Ep as [Hi Hp].
    split; [cbn [reloaded_state id]; rewrite Hi; reflexivity|].
    pose proof (built_state _ _ _ Hb Hp) as (Htr & _ & Heps & _).
    intros e r He Hr. cbn [reloaded_state transitions] in He.
    unfold reloaded_transitions in He. apply in_app_iff in He. destruct He as [He|He].
    + apply in_map_iff in He. destruct He as (e0 & <- & He0). cbn [snd] in Hr.
      apply in_map_iff in Hr. destruct Hr as (t & <- & Ht). exists t. split; [reflexivity|].
      rewrite Forall_forall in Htr. destruct (Htr _ He0) as (_ & Hts & _).
      rewrite Forall_forall in Hts. apply Hts. assumption.
    + destruct (NFA_py.epsilon_transitions (snd p)) as [|t0 eps] eqn:Ee; [destruct He|].
      destruct He as [<-|[]]. cbn [snd] in Hr.
      apply in_map_iff in Hr. destruct Hr as (t & <- & Ht). exists t. split; [reflexivity|].
      rewrite Forall_forall in Heps. apply Heps. assumption.
  - exists s. auto.
  - reflexivity.
Qed.

Lemma construction_spec (n : NFA_py.NFA) :
  built n ->
  exists j,
    NFA_py.to_json n = Ok j /\
    forall fuel,
      List.length (dfa_names (List.length (NFA_py.states n))) < fuel ->
      exists d, __construct_DFA fuel (json_file j) = Ok d /\ constructed d.
Proof.
  intros Hb. destruct (reload_spec n Hb) as (s & f & Es & Ef & E).
  assert (Hs : s < List.length (NFA_py.states n)).
  { destruct Hb as [_ (s' & f' & Es' & _ & Hs' & _)]. congruence. }
  unfold Pipeline.reload in E.
  destruct (NFA_py.to_json n) as [j| |]; cbn [bind] in E; try discriminate.
  exists j. split; [reflexivity|]. intros fuel Hfuel.
  unfold __construct_DFA. rewrite E. cbn [bind].
  set (size := List.length (NFA_py.states n)) in *.
  set (nfa0 := mkNFA _ _ _).
  assert (Hm : loaded size nfa0) by (apply reloaded_loaded; assumption).
  destruct (epsilon_closure_loaded size nfa0 (object_ref size) start_object Hm
              (state_ref_object size) (fun r H => H) (or_introl eq_refl))
    as (start_set & Ec & Hstart).
  rewrite Ec. cbn [bind].
  destruct (new_DFA_State_loaded size nfa0 start_set false Hm Hstart)
    as (name & En & Hname).
  rewrite En. cbn [bind].
  apply (construct_loop_returns size).
  - split; [|split; [apply incl_refl|split; [exact Hm|]]].
    + split; [|split; [|split; [|split]]]; cbn [dfa_all_states dfa_start_state final_states
                                                  dfa_transitions map].
      * constructor; [intros []|constructor].
      * left. reflexivity.
      * intros x [].
      * intros src dst a [].
      * intros x [<-|[]] Hne. contradiction.
    + intros x [<-|[]]. cbn [dfa_id dfa_states]. auto.
  - cbn [dfa_all_states List.length].
    destruct (dfa_names size) as [|x names]; [destruct Hname|].
    cbn [List.length] in *. lia.
Qed.

(** X25.  The subset construction returns on every file the builder's
    automata are saved to: for a built automaton [to_json] returns, and
    [__construct_DFA] on its file raises nothing and ends, with the
    automaton of X10; its loop runs at most once per id a DFA state can
    have. *)
Theorem construction_returns (n : NFA_py.NFA) :
  built n ->
  exists j,
    NFA_py.to_json n = Ok j /\
    forall fuel,
      List.length (dfa_names (List.length (NFA_py.states n))) < fuel ->
      exists d, __construct_DFA fuel (json_file j) = Ok d /\ constructed d.
Proof. apply construction_spec. Qed.

End ConstructionReturns.

Section PipelineReturns.
Import RegexCompiler_py NFA_py DFA_py Vocabulary.

(** X26.  Without minimization the pipeline fails only in the parser: when
    the parser accepts the expression, [regex_to_nfa], [save_json] and
    [DFA("nfa.json", False)] in sequence raise nothing, the construction
    ends, and the automaton is the one of X10. *)
Theorem pipeline_returns (regex_str : string) (ast : ExprNode) :
  RegularCompiler regex_str = Ok ast ->
  exists bound,
    forall fuel, bound < fuel ->
      exists d, Pipeline.compile fuel regex_str false = Ok d /\ constructed d.
Proof.
  intros Hp. pose proof (RegularCompiler_outcome regex_str) as Hwf. rewrite Hp in Hwf.
  destruct (NFA_of_built ast Hwf) as (n & En & Bn).
  destruct (construction_spec n Bn) as (j & Ej & Hj).
  exists (List.length (dfa_names (List.length (NFA_py.states n)))). intros fuel Hfuel.
  unfold Pipeline.compile, regex_to_nfa. rewrite Hp. cbn [bind]. rewrite En. cbn [bind].
  rewrite Ej. cbn [bind]. unfold __build. 
  destruct (Hj fuel Hfuel) as (d & Ed & Hd). rewrite Ed. cbn [bind].
  exists d. auto.
Qed.

End PipelineReturns.

(** The automaton of [a]: two states, seven possible ids. *)
Lemma construction_returns_witness :
  exists j,
    NFA_py.to_json (NFA_py.basic_fragment (Some "a"%string) NFA_py.empty_NFA) = Ok j /\
    exists d, DFA_py.__construct_DFA 8 (DFA_py.json_file j) = Ok d /\ Vocabulary.constructed d.
Proof.
  destruct (construction_returns (NFA_py.basic_fragment (Some "a"%string) NFA_py.empty_NFA))
    as (j & Ej & H).
  - apply basic_fragment_built. right; left. exists "a"%char. reflexivity.
  - exists j. split; [exact Ej|]. apply (H 8). vm_compute. lia.
Defined.

(** The expression [a|b]. *)
Lemma pipeline_returns_witness :
  exists bound,
    forall fuel, bound < fuel ->
      exists d, Pipeline.compile fuel "a|b" false = Ok d /\ Vocabulary.constructed d.
Proof.
  apply (pipeline_returns "a|b"
           (RegexCompiler_py.mkExprNode RegexCompiler_py.Root None []
              [[Vocabulary.literal "a"]; [Vocabulary.literal "b"]])).
  reflexivity.
Defined.
